(** * Geometric multigrid solver of mantaflow ([multigrid.cpp])

    A shallow embedding of [NKMinHeap] and [GridMg] together with the
    properties of the hierarchy, of the vertex classification, of the
    coarse grid generation, of the residual and transfer operators and of
    the coarsest level solver.

    Conventions of the embedding.
    - C++ [int] values are integers of [Z]; the hypotheses of the theorems
      keep them inside the range in which no signed overflow happens.
      Integer division and remainder are the truncating [Z.quot] and
      [Z.rem] of C++.
    - [std::vector<T>] is a [list T], read with [zget] and written with
      [zset]; an access out of range is undefined in C++, here a read
      yields a default value and a write is dropped.
    - [Real] is a compile time typedef of the sources ([float] or
      [double]): the development is parametric in the type and in its
      arithmetic ([RealOps]).
    - [assertMsg] raises an error: fallible functions return a [result].
    - [#pragma omp parallel for] loops are run in index order. *)

From Stdlib Require Import String.
From Stdlib Require Import ZArith List Lia Bool QArith Permutation Sorted.
From Stdlib Require Qcanon Qcabs.
From Stdlib Require Import Ring_theory Ring.
Import ListNotations.
Open Scope Z_scope.

(* ================================================================== *)
(** * Preliminaries: results, integer ranges and arrays                *)
(* ================================================================== *)

(** Outcome of a function that may fail an [assertMsg]. *)
Inductive result (A : Type) : Type :=
| Ok (a : A)
| Err (msg : string)
| OutOfFuel.
Arguments Ok {A} a.
Arguments Err {A} msg.
Arguments OutOfFuel {A}.

Definition bind {A B : Type} (r : result A) (f : A -> result B) : result B :=
  match r with
  | Ok a => f a
  | Err m => Err m
  | OutOfFuel => OutOfFuel
  end.

(** A loop body that may fail, run over the elements of a list. *)
Fixpoint foldM {A S : Type} (f : S -> A -> result S) (l : list A) (s : S) : result S :=
  match l with
  | [] => Ok s
  | a :: l' => bind (f s a) (foldM f l')
  end.

Notation "x <- r ;; k" := (bind r (fun x => k))
  (at level 61, r at next level, right associativity).

(** [zrange a n] is [a; a+1; ...; a+n-1]. *)
Fixpoint zrange (a : Z) (n : nat) : list Z :=
  match n with
  | O => []
  | S n' => a :: zrange (a + 1) n'
  end.

(** The indices [lo, lo+1, ..., hi] of an inclusive [for] loop. *)
Definition zseq (lo hi : Z) : list Z := zrange lo (Z.to_nat (hi + 1 - lo)).

(** Read of [v[i]]. *)
Definition zget {A : Type} (d : A) (l : list A) (i : Z) : A :=
  if i <? 0 then d else nth (Z.to_nat i) l d.

Fixpoint upd_nat {A : Type} (n : nat) (x : A) (l : list A) : list A :=
  match l, n with
  | [], _ => []
  | _ :: t, O => x :: t
  | h :: t, S n' => h :: upd_nat n' x t
  end.

(** Write [v[i] = x]. *)
Definition zset {A : Type} (l : list A) (i : Z) (x : A) : list A :=
  if i <? 0 then l else upd_nat (Z.to_nat i) x l.

Definition zlength {A : Type} (l : list A) : Z := Z.of_nat (length l).

(* ================================================================== *)
(** * NKMinHeap: min heap for (ID, key) pairs with small keys          *)
(* ================================================================== *)

Module NKMinHeap.

Record Entry : Type := mkEntry { key : Z; prev : Z; next : Z }.

(** [Entry()] of the sources. *)
Definition Entry0 : Entry := mkEntry (-1) (-1) (-1).

Record t : Type := mk {
  mN : Z;
  mK : Z;
  mSize : Z;
  mMinKey : Z;
  mEntries : list Entry
}.

(** [NKMinHeap(N, K)]. *)
Definition init (N K : Z) : t :=
  mk N K 0 (-1) (repeat Entry0 (Z.to_nat (N + K))).

Definition size (h : t) : Z := mSize h.

Definition ent (h : t) (i : Z) : Entry := zget Entry0 (mEntries h) i.

Definition getKey (h : t) (ID : Z) : Z := key (ent h (mK h + ID)).

Definition with_entries (h : t) (es : list Entry) : t :=
  mk (mN h) (mK h) (mSize h) (mMinKey h) es.

Definition with_size (h : t) (s : Z) : t :=
  mk (mN h) (mK h) s (mMinKey h) (mEntries h).

Definition with_minKey (h : t) (m : Z) : t :=
  mk (mN h) (mK h) (mSize h) m (mEntries h).

(** [mEntries[i].key = v], [mEntries[i].prev = v], [mEntries[i].next = v]. *)
Definition set_key (i v : Z) (h : t) : t :=
  with_entries h (zset (mEntries h) i (mkEntry v (prev (ent h i)) (next (ent h i)))).

Definition set_prev (i v : Z) (h : t) : t :=
  with_entries h (zset (mEntries h) i (mkEntry (key (ent h i)) v (next (ent h i)))).

Definition set_next (i v : Z) (h : t) : t :=
  with_entries h (zset (mEntries h) i (mkEntry (key (ent h i)) (prev (ent h i)) v)).

(** The loop [for (; mMinKey<mK; mMinKey++) if (mEntries[mMinKey].next != -1) break;]
    started at [m]; it runs at most [mK - m] times. *)
Fixpoint scanFrom (fuel : nat) (h : t) (m : Z) : Z :=
  match fuel with
  | O => m
  | S fuel' =>
      if m <? mK h then
        if negb (next (ent h m) =? -1) then m else scanFrom fuel' h (m + 1)
      else m
  end.

Definition scanMin (h : t) : t :=
  with_minKey h (scanFrom (Z.to_nat (mK h - mMinKey h)) h (mMinKey h)).

(** Removal of the entry [kid] from its doubly linked list. *)
Definition unlink (kid : Z) (h : t) : t :=
  let pred := prev (ent h kid) in
  let succ := next (ent h kid) in
  let h := set_next pred succ h in
  if succ =? -1 then h else set_prev succ pred h.

(** The block of [setKey] which removes [kid] from its old key list and
    updates [mMinKey] and [mSize]. *)
Definition removeOld (kid : Z) (h : t) : t :=
  let h := unlink kid h in
  let removedKey := key (ent h kid) in
  let h :=
    if removedKey =? mMinKey h then
      if mSize h =? 1 then with_minKey h (-1) else scanMin h
    else h in
  with_size h (mSize h - 1).

(** The block of [setKey] which adds [kid] to the key list headed by
    [mEntries[k]]. *)
Definition insertNew (kid k : Z) (h : t) : t :=
  let h := with_size h (mSize h + 1) in
  let h := with_minKey h (if mMinKey h =? -1 then k else Z.min (mMinKey h) k) in
  let tmp := next (ent h k) in
  let h := set_next k kid h in
  let h := set_prev kid k h in
  let h := set_next kid tmp h in
  if tmp =? -1 then h else set_prev tmp kid h.

Definition setKey (ID k : Z) (h : t) : result t :=
  if negb ((0 <=? ID) && (ID <? mN h)) then Err "NKMinHeap::setKey: ID out of range"
  else if negb ((-1 <=? k) && (k <? mK h)) then Err "NKMinHeap::setKey: key out of range"
  else
    let kid := mK h + ID in
    if key (ent h kid) =? k then Ok h
    else
      let h := if key (ent h kid) =? -1 then h else removeOld kid h in
      let h := set_key kid k h in
      if k =? -1 then Ok (set_next kid (-1) (set_prev kid (-1) h))
      else Ok (insertNew kid k h).

Definition peekMin (h : t) : Z * Z :=
  if mSize h =? 0 then (-1, -1)
  else (next (ent h (mMinKey h)) - mK h, mMinKey h).

Definition popMin (h : t) : t * (Z * Z) :=
  if mSize h =? 0 then (h, (-1, -1))
  else
    let kid := next (ent h (mMinKey h)) in
    let ID := kid - mK h in
    let k := mMinKey h in
    let h := unlink kid h in
    let h := with_entries h (zset (mEntries h) kid Entry0) in
    let h := with_size h (mSize h - 1) in
    let h := if mSize h =? 0 then with_minKey h (-1) else scanMin h in
    (h, (ID, k)).

End NKMinHeap.

Example heap_run :
  let h0 := NKMinHeap.init 4 5 in
  match NKMinHeap.setKey 0 4 h0 with
  | Ok h1 =>
    match NKMinHeap.setKey 2 1 h1 with
    | Ok h2 =>
      match NKMinHeap.setKey 3 1 h2 with
      | Ok h3 =>
          NKMinHeap.peekMin h3 = (3, 1) /\
          snd (NKMinHeap.popMin h3) = (3, 1) /\
          snd (NKMinHeap.popMin (fst (NKMinHeap.popMin h3))) = (2, 1) /\
          NKMinHeap.size (fst (NKMinHeap.popMin h3)) = 2
      | _ => False
      end
    | _ => False
    end
  | _ => False
  end.
Proof. vm_compute. repeat split. Qed.

(* ================================================================== *)
(** * GridMg: data model                                               *)
(* ================================================================== *)

Record Vec3i : Type := mkVec { vx : Z; vy : Z; vz : Z }.

Definition Vec3i_eq_dec (a b : Vec3i) : {a = b} + {a <> b}.
Proof. decide equality; apply Z.eq_dec. Defined.

(** Modelled from the spec: the integer vector arithmetic of [Vec3i]
    (its header is not part of the sources) is componentwise, a scalar
    operand stands for the vector with three equal components, and the
    quotient is the truncating division of [int]. *)
Definition vmap2 (f : Z -> Z -> Z) (a b : Vec3i) : Vec3i :=
  mkVec (f (vx a) (vx b)) (f (vy a) (vy b)) (f (vz a) (vz b)).
Definition vconst (c : Z) : Vec3i := mkVec c c c.
Definition vadd : Vec3i -> Vec3i -> Vec3i := vmap2 Z.add.
Definition vsub : Vec3i -> Vec3i -> Vec3i := vmap2 Z.sub.
Definition vaddc (a : Vec3i) (c : Z) : Vec3i := vadd a (vconst c).
Definition vsubc (a : Vec3i) (c : Z) : Vec3i := vsub a (vconst c).
Definition vmulc (a : Vec3i) (c : Z) : Vec3i := vmap2 Z.mul a (vconst c).
Definition vdivc (a : Vec3i) (c : Z) : Vec3i := vmap2 Z.quot a (vconst c).
Definition vmax : Vec3i -> Vec3i -> Vec3i := vmap2 Z.max.
Definition vmin : Vec3i -> Vec3i -> Vec3i := vmap2 Z.min.
Definition dot (a b : Vec3i) : Z := vx a * vx b + vy a * vy b + vz a * vz b.

(** [V[d]] *)
Definition vcomp (a : Vec3i) (d : Z) : Z :=
  if d =? 0 then vx a else if d =? 1 then vy a else vz a.

(** The coordinates visited by [FOR_VEC_MINMAX(VEC, MIN, MAX)], in the
    order of the three nested loops ([z] outermost, [x] innermost). *)
Definition boxList (lo hi : Vec3i) : list Vec3i :=
  flat_map (fun z =>
    flat_map (fun y =>
      map (fun x => mkVec x y z) (zseq (vx lo) (vx hi)))
      (zseq (vy lo) (vy hi)))
    (zseq (vz lo) (vz hi)).

(** The number of odd coordinates of a vertex as the shift
    [(V.x % 2) + (V.y % 2) + (V.z % 2)]. *)
Definition oddSum (V : Vec3i) : Z := Z.rem (vx V) 2 + Z.rem (vy V) 2 + Z.rem (vz V) 2.

(** The strides [Vec3i(1, size.x, size.x*size.y)] and the number of
    vertices [size.x * size.y * size.z] of a level. *)
Definition pitchOf (s : Vec3i) : Vec3i := mkVec 1 (vx s) (vx s * vy s).
Definition countOf (s : Vec3i) : Z := vx s * vy s * vz s.

(** The loop [for (int l=1; l<=100; l++)] of the constructor: the extents
    of the levels created after a level of extent [prev] with [n]
    vertices.  The sum [mSize[l-1] + 2] and the product [n] are [int]
    values of the sources and integers of [Z] here: the two agree as long
    as every extent is at most [2^31 - 3] and every product at most
    [2^31 - 1], which [intRange] states and the theorems about the
    hierarchy assume. *)
Fixpoint coarseSizes (fuel : nat) (prev : Vec3i) (n : Z) : list Vec3i :=
  match fuel with
  | O => []
  | S fuel' =>
      if (vx prev <=? 5) && (vy prev <=? 5) && (vz prev <=? 5) then []
      else if n <=? 1000 then []
      else
        let s := vdivc (vaddc prev 2) 2 in
        s :: coarseSizes fuel' s (countOf s)
  end.

(** The vector [mSize] that the constructor builds. *)
Definition levelSizes (gridSize : Vec3i) : list Vec3i :=
  gridSize :: coarseSizes 100 gridSize (countOf gridSize).

(** The test of the two [break] statements of that loop. *)
Definition stopLevel (s : Vec3i) : Prop :=
  (vx s <= 5 /\ vy s <= 5 /\ vz s <= 5) \/ countOf s <= 1000.

(** The extent of the next level as the sources compute it. *)
Definition halveExtent (s : Vec3i) : Vec3i := vdivc (vaddc s 2) 2.

(** The extent [ceil(e/2)] plus one cell of the specification. *)
Definition specExtent (e : Z) : Z := (e + 1) / 2 + 1.

(** The extents of a hierarchy follow the rule of the specification. *)
Definition specHalving (S : list Vec3i) : Prop :=
  forall l, 1 <= l < zlength S ->
    zget (vconst 0) S l =
    mkVec (specExtent (vx (zget (vconst 0) S (l - 1))))
          (specExtent (vy (zget (vconst 0) S (l - 1))))
          (specExtent (vz (zget (vconst 0) S (l - 1)))).

(** A hierarchy in which a coarser level exists exactly below the levels
    that do not pass the stop test. *)
Inductive hierarchy : Vec3i -> list Vec3i -> Prop :=
| hier_stop prev : stopLevel prev -> hierarchy prev []
| hier_next prev C :
    ~ stopLevel prev -> hierarchy (halveExtent prev) C ->
    hierarchy prev (halveExtent prev :: C).

(** Modelled from the spec: the closed set of vertex classifications (the
    [enum VertexType] of the header, which is not part of the sources). *)
Inductive VertexType : Type :=
| vtInactive
| vtActive
| vtActiveTrivial
| vtRemoved
| vtZero
| vtFree.

Definition vt_eqb (a b : VertexType) : bool :=
  match a, b with
  | vtInactive, vtInactive | vtActive, vtActive
  | vtActiveTrivial, vtActiveTrivial | vtRemoved, vtRemoved
  | vtZero, vtZero | vtFree, vtFree => true
  | _, _ => false
  end.

(** The arithmetic of [Real], the floating point type chosen when the
    sources are compiled. *)
Class RealOps : Type := {
  Real : Type;
  RofZ : Z -> Real;
  R1Em6 : Real;
  R1Em8 : Real;
  Radd : Real -> Real -> Real;
  Rsub : Real -> Real -> Real;
  Rmul : Real -> Real -> Real;
  Rdiv : Real -> Real -> Real;
  Rabs : Real -> Real;
  Rmax : Real -> Real -> Real;
  Rsqrt : Real -> Real;
  Reqb : Real -> Real -> bool;
  Rltb : Real -> Real -> bool
}.

Declare Scope real_scope.
Delimit Scope real_scope with real.
Infix "+" := Radd : real_scope.
Infix "-" := Rsub : real_scope.
Infix "*" := Rmul : real_scope.
Infix "/" := Rdiv : real_scope.

(** Messages passed to [debMsg]. *)
Inductive LogMsg {RO : RealOps} : Type :=
| MsgTrivialEquation
| MsgNoFullRank
| MsgCGMaxIter
| MsgCGInfo (residual : Real) (iter : Z).

Section Model.
Context {RO : RealOps}.

Definition R0 : Real := RofZ 0.
Definition R1 : Real := RofZ 1.

(** One contribution [(V) <- (U) <- (W) <- (N)] to the coarse operator. *)
Record CoarseningPath : Type := mkPath {
  pU : Vec3i;
  pW : Vec3i;
  pN : Vec3i;
  sc : Z;
  sf : Z;
  inUStencil : bool;
  rw : Real;
  iw : Real
}.

(** The members of [GridMg]; [debLog] holds the messages passed to
    [debMsg], the latest first. *)
Record GridMg : Type := mkGridMg {
  mNumPreSmooth : Z;
  mNumPostSmooth : Z;
  mCoarsestLevelAccuracy : Real;
  mTrivialEquationScale : Real;
  mIsASet : bool;
  mIsRhsSet : bool;
  mIs3D : bool;
  mDim : Z;
  mStencilSize : Z;
  mStencilSize0 : Z;
  mStencilMin : Vec3i;
  mStencilMax : Vec3i;
  mSize : list Vec3i;
  mPitch : list Vec3i;
  mA : list (list Real);
  mx : list (list Real);
  mb : list (list Real);
  mr : list (list Real);
  mType : list (list VertexType);
  mCGtmp1 : list (list Real);
  mCGtmp2 : list (list Real);
  mCoarseningPaths0 : list CoarseningPath;
  debLog : list LogMsg
}.

Definition with_mA (g : GridMg) (v : list (list Real)) : GridMg :=
  mkGridMg (mNumPreSmooth g) (mNumPostSmooth g) (mCoarsestLevelAccuracy g)
    (mTrivialEquationScale g) (mIsASet g) (mIsRhsSet g) (mIs3D g) (mDim g)
    (mStencilSize g) (mStencilSize0 g) (mStencilMin g) (mStencilMax g)
    (mSize g) (mPitch g) v (mx g) (mb g) (mr g) (mType g) (mCGtmp1 g)
    (mCGtmp2 g) (mCoarseningPaths0 g) (debLog g).

Definition with_mx (g : GridMg) (v : list (list Real)) : GridMg :=
  mkGridMg (mNumPreSmooth g) (mNumPostSmooth g) (mCoarsestLevelAccuracy g)
    (mTrivialEquationScale g) (mIsASet g) (mIsRhsSet g) (mIs3D g) (mDim g)
    (mStencilSize g) (mStencilSize0 g) (mStencilMin g) (mStencilMax g)
    (mSize g) (mPitch g) (mA g) v (mb g) (mr g) (mType g) (mCGtmp1 g)
    (mCGtmp2 g) (mCoarseningPaths0 g) (debLog g).

Definition with_mb (g : GridMg) (v : list (list Real)) : GridMg :=
  mkGridMg (mNumPreSmooth g) (mNumPostSmooth g) (mCoarsestLevelAccuracy g)
    (mTrivialEquationScale g) (mIsASet g) (mIsRhsSet g) (mIs3D g) (mDim g)
    (mStencilSize g) (mStencilSize0 g) (mStencilMin g) (mStencilMax g)
    (mSize g) (mPitch g) (mA g) (mx g) v (mr g) (mType g) (mCGtmp1 g)
    (mCGtmp2 g) (mCoarseningPaths0 g) (debLog g).

Definition with_mr (g : GridMg) (v : list (list Real)) : GridMg :=
  mkGridMg (mNumPreSmooth g) (mNumPostSmooth g) (mCoarsestLevelAccuracy g)
    (mTrivialEquationScale g) (mIsASet g) (mIsRhsSet g) (mIs3D g) (mDim g)
    (mStencilSize g) (mStencilSize0 g) (mStencilMin g) (mStencilMax g)
    (mSize g) (mPitch g) (mA g) (mx g) (mb g) v (mType g) (mCGtmp1 g)
    (mCGtmp2 g) (mCoarseningPaths0 g) (debLog g).

Definition with_mType (g : GridMg) (v : list (list VertexType)) : GridMg :=
  mkGridMg (mNumPreSmooth g) (mNumPostSmooth g) (mCoarsestLevelAccuracy g)
    (mTrivialEquationScale g) (mIsASet g) (mIsRhsSet g) (mIs3D g) (mDim g)
    (mStencilSize g) (mStencilSize0 g) (mStencilMin g) (mStencilMax g)
    (mSize g) (mPitch g) (mA g) (mx g) (mb g) (mr g) v (mCGtmp1 g) (mCGtmp2
    g) (mCoarseningPaths0 g) (debLog g).

Definition with_mCGtmp1 (g : GridMg) (v : list (list Real)) : GridMg :=
  mkGridMg (mNumPreSmooth g) (mNumPostSmooth g) (mCoarsestLevelAccuracy g)
    (mTrivialEquationScale g) (mIsASet g) (mIsRhsSet g) (mIs3D g) (mDim g)
    (mStencilSize g) (mStencilSize0 g) (mStencilMin g) (mStencilMax g)
    (mSize g) (mPitch g) (mA g) (mx g) (mb g) (mr g) (mType g) v (mCGtmp2 g)
    (mCoarseningPaths0 g) (debLog g).

Definition with_mCGtmp2 (g : GridMg) (v : list (list Real)) : GridMg :=
  mkGridMg (mNumPreSmooth g) (mNumPostSmooth g) (mCoarsestLevelAccuracy g)
    (mTrivialEquationScale g) (mIsASet g) (mIsRhsSet g) (mIs3D g) (mDim g)
    (mStencilSize g) (mStencilSize0 g) (mStencilMin g) (mStencilMax g)
    (mSize g) (mPitch g) (mA g) (mx g) (mb g) (mr g) (mType g) (mCGtmp1 g) v
    (mCoarseningPaths0 g) (debLog g).

Definition with_mIsASet (g : GridMg) (v : bool) : GridMg :=
  mkGridMg (mNumPreSmooth g) (mNumPostSmooth g) (mCoarsestLevelAccuracy g)
    (mTrivialEquationScale g) v (mIsRhsSet g) (mIs3D g) (mDim g)
    (mStencilSize g) (mStencilSize0 g) (mStencilMin g) (mStencilMax g)
    (mSize g) (mPitch g) (mA g) (mx g) (mb g) (mr g) (mType g) (mCGtmp1 g)
    (mCGtmp2 g) (mCoarseningPaths0 g) (debLog g).

Definition with_mIsRhsSet (g : GridMg) (v : bool) : GridMg :=
  mkGridMg (mNumPreSmooth g) (mNumPostSmooth g) (mCoarsestLevelAccuracy g)
    (mTrivialEquationScale g) (mIsASet g) v (mIs3D g) (mDim g) (mStencilSize
    g) (mStencilSize0 g) (mStencilMin g) (mStencilMax g) (mSize g) (mPitch
    g) (mA g) (mx g) (mb g) (mr g) (mType g) (mCGtmp1 g) (mCGtmp2 g)
    (mCoarseningPaths0 g) (debLog g).

Definition with_debLog (g : GridMg) (v : list LogMsg) : GridMg :=
  mkGridMg (mNumPreSmooth g) (mNumPostSmooth g) (mCoarsestLevelAccuracy g)
    (mTrivialEquationScale g) (mIsASet g) (mIsRhsSet g) (mIs3D g) (mDim g)
    (mStencilSize g) (mStencilSize0 g) (mStencilMin g) (mStencilMax g)
    (mSize g) (mPitch g) (mA g) (mx g) (mb g) (mr g) (mType g) (mCGtmp1 g)
    (mCGtmp2 g) (mCoarseningPaths0 g) v.
(** ** Index arithmetic *)

Definition vec0 : Vec3i := vconst 0.

Definition sizeAt (g : GridMg) (l : Z) : Vec3i := zget vec0 (mSize g) l.
Definition pitchAt (g : GridMg) (l : Z) : Vec3i := zget vec0 (mPitch g) l.

(** Modelled from the spec: the pure index function from coordinates to
    the offset in the flat arrays and its inverse ([linIdx], [vecIdx] and
    [inGrid] are declared in the header, which is not part of the
    sources); the strides are the [mPitch] of the constructor. *)
Definition linIdx (g : GridMg) (V : Vec3i) (l : Z) : Z :=
  vx V + vy V * vy (pitchAt g l) + vz V * vz (pitchAt g l).

Definition vecIdx (g : GridMg) (v : Z) (l : Z) : Vec3i :=
  mkVec (Z.rem v (vx (sizeAt g l)))
        (Z.quot (Z.rem v (vz (pitchAt g l))) (vx (sizeAt g l)))
        (Z.quot v (vz (pitchAt g l))).

Definition inGrid (g : GridMg) (V : Vec3i) (l : Z) : bool :=
  (0 <=? vx V) && (0 <=? vy V) && (0 <=? vz V) &&
  (vx V <? vx (sizeAt g l)) && (vy V <? vy (sizeAt g l)) && (vz V <? vz (sizeAt g l)).

(** ** Array access *)

Definition getA (g : GridMg) (l i : Z) : Real := zget R0 (zget [] (mA g) l) i.
Definition getx (g : GridMg) (l i : Z) : Real := zget R0 (zget [] (mx g) l) i.
Definition getb (g : GridMg) (l i : Z) : Real := zget R0 (zget [] (mb g) l) i.
Definition getr (g : GridMg) (l i : Z) : Real := zget R0 (zget [] (mr g) l) i.
Definition getType (g : GridMg) (l i : Z) : VertexType :=
  zget vtInactive (zget [] (mType g) l) i.

Definition put_mA (g : GridMg) (l i : Z) (x : Real) : GridMg :=
  with_mA g (zset (mA g) l (zset (zget [] (mA g) l) i x)).
Definition put_mx (g : GridMg) (l i : Z) (x : Real) : GridMg :=
  with_mx g (zset (mx g) l (zset (zget [] (mx g) l) i x)).
Definition put_mb (g : GridMg) (l i : Z) (x : Real) : GridMg :=
  with_mb g (zset (mb g) l (zset (zget [] (mb g) l) i x)).
Definition put_mr (g : GridMg) (l i : Z) (x : Real) : GridMg :=
  with_mr g (zset (mr g) l (zset (zget [] (mr g) l) i x)).
Definition put_mType (g : GridMg) (l i : Z) (t : VertexType) : GridMg :=
  with_mType g (zset (mType g) l (zset (zget [] (mType g) l) i t)).

Definition debMsg (g : GridMg) (m : LogMsg) : GridMg := with_debLog g (m :: debLog g).

(** The indices visited by [FOR_LVL(IDX, LVL)]. *)
Definition FOR_LVL (g : GridMg) (l : Z) : list Z :=
  zrange 0 (length (zget [] (mb g) l)).

(** ** Constructor *)

Definition p7stencil : list Vec3i :=
  [ mkVec 0 0 0; mkVec (-1) 0 0; mkVec 1 0 0;
    mkVec 0 (-1) 0; mkVec 0 1 0;
    mkVec 0 0 (-1); mkVec 0 0 1 ].

(** Restriction weight of a fine vertex; the interpolation weight is the
    same expression. *)
Definition weight (U : Vec3i) : Real := Rdiv R1 (RofZ (Z.shiftl 1 (oddSum U))).

(** The coarsening paths before they are sorted. *)
Definition genPaths (dim : Z) (stencilMin stencilMax : Vec3i) : list CoarseningPath :=
  let V := mkVec 1 1 1 in
  flat_map (fun U =>
    flat_map (fun i =>
      let W := vadd U (zget vec0 p7stencil i) in
      flat_map (fun N =>
        let s := dot N (mkVec 1 3 9) in
        if 13 <=? s then
          [ mkPath (vsub U (vmulc V 2)) (vsub W (vmulc V 2)) (vsubc N 1)
                   (s - 13) (Z.quot (i + 1) 2) (Z.rem i 2 =? 0)
                   (weight U) (weight W) ]
        else [])
        (boxList (vdivc W 2) (vdivc (vaddc W 1) 2)))
      (zseq 0 (1 + 2 * dim - 1)))
    (boxList (vadd (vmulc V 2) stencilMin) (vadd (vmulc V 2) stencilMax)).

Definition pathLess (p1 p2 : CoarseningPath) : bool :=
  if sc p1 =? sc p2
  then dot (vaddc (pU p1) 1) (mkVec 1 3 9) <? dot (vaddc (pU p2) 1) (mkVec 1 3 9)
  else sc p1 <? sc p2.

(** [std::sort] with [pathLess]; the order it gives to paths that compare
    equal is unspecified, the model keeps their order. *)
Fixpoint insertPath (p : CoarseningPath) (l : list CoarseningPath) : list CoarseningPath :=
  match l with
  | [] => [p]
  | q :: l' => if pathLess p q then p :: q :: l' else q :: insertPath p l'
  end.

Definition sortPaths (l : list CoarseningPath) : list CoarseningPath :=
  fold_left (fun acc p => insertPath p acc) l [].

Definition zeros (n : Z) : list Real := repeat R0 (Z.to_nat n).

(** The object that the constructor builds when the extents of its
    levels are [gridSize :: coarse]: every [push_back] of the constructor
    adds one array per level.  The lengths [n * mStencilSize0] and
    [n * mStencilSize] are [int] products of the sources; they are the
    products of [Z] written here for the extents of [intRange]. *)
Definition buildGridMg (gridSize : Vec3i) (coarse : list Vec3i) : GridMg :=
  let is3D := 1 <? vz gridSize in
  let dim := if is3D then 3 else 2 in
  let stencilSize := if is3D then 14 else 5 in
  let stencilSize0 := if is3D then 4 else 3 in
  let stencilMin := mkVec (-1) (-1) (if is3D then -1 else 0) in
  let stencilMax := mkVec 1 1 (if is3D then 1 else 0) in
  let sizes := gridSize :: coarse in
  let nLast := countOf (last sizes gridSize) in
  mkGridMg 1 1 R1Em8 R1Em6 false false
    is3D dim stencilSize stencilSize0 stencilMin stencilMax
    sizes
    (map pitchOf sizes)
    (zeros (countOf gridSize * stencilSize0)
       :: map (fun s => zeros (countOf s * stencilSize)) coarse)
    (map (fun s => zeros (countOf s)) sizes)
    (map (fun s => zeros (countOf s)) sizes)
    (map (fun s => zeros (countOf s)) sizes)
    (map (fun s => repeat vtInactive (Z.to_nat (countOf s))) sizes)
    (map (fun _ => []) (removelast sizes) ++ [zeros nLast])
    (map (fun _ => []) (removelast sizes) ++ [zeros nLast])
    (sortPaths (genPaths dim stencilMin stencilMax))
    [].

(** [GridMg::GridMg(gridSize)] *)
Definition newGridMg (gridSize : Vec3i) : GridMg :=
  buildGridMg gridSize (coarseSizes 100 gridSize (countOf gridSize)).

(** ** Operator ingestion: [analyzeStencil], [setA], [setRhs] *)

(** [analyzeStencil(v, isStencilSumNonZero, isEquationTrivial)]; the two
    booleans are returned.  The sources read the four slots
    [v*mStencilSize0 + 0..3] whatever the dimension.  In 3D
    ([mStencilSize0 = 4]) they are the slots of the row of [v].  In 2D
    ([mStencilSize0 = 3]) the slot [v*3 + 3] is the first slot of the row
    of [v + 1], and for the last vertex it is one past the end of
    [mA[0]]: that read is undefined in C++ and yields [R0] here. *)
Definition analyzeStencil (g : GridMg) (v : Z) : bool * bool :=
  let V := vecIdx g v 0 in
  let SS0 := mStencilSize0 g in
  let A0 := getA g 0 (v * SS0 + 0) in
  let A1 := getA g 0 (v * SS0 + 1) in
  let A2 := getA g 0 (v * SS0 + 2) in
  let A3 := getA g 0 (v * SS0 + 3) in
  let A4 := if vx V =? 0 then R0 else getA g 0 ((v - vx (pitchAt g 0)) * SS0 + 1) in
  let A5 := if vy V =? 0 then R0 else getA g 0 ((v - vy (pitchAt g 0)) * SS0 + 2) in
  let A6 := if vz V =? 0 then R0 else getA g 0 ((v - vz (pitchAt g 0)) * SS0 + 3) in
  let '(stencilMax, stencilSum) :=
    fold_left (fun '(smax, ssum) a => (Rmax smax (Rabs a), Radd ssum a))
              [A0; A1; A2; A3; A4; A5; A6] (R0, R0) in
  let isStencilSumNonZero := Rltb R1Em6 (Rabs (Rdiv stencilSum stencilMax)) in
  let isEquationTrivial :=
    Reqb A0 R1 && Reqb A1 R0 && Reqb A2 R0 && Reqb A3 R0 &&
    Reqb A4 R0 && Reqb A5 R0 && Reqb A6 R0 in
  (isStencilSumNonZero, isEquationTrivial).

(** The first loop of [setA]: copy of the coefficients of level 0.  The
    fourth store goes to the slot [v*mStencilSize0 + 3] whatever the
    dimension: in 2D it lands on the first slot of the row of [v + 1] and,
    for the last vertex, one past the end of [mA[0]], where the store is
    undefined in C++ and dropped here.  In 2D [pAk] may be a null pointer
    and is not read; in 3D the four arrays are read at every vertex of
    level 0. *)
Definition setA_copy (A0 pAi pAj pAk : list Real) (g : GridMg) : GridMg :=
  fold_left (fun g v =>
    let SS0 := mStencilSize0 g in
    let g := put_mA g 0 (v * SS0 + 0) (zget R0 A0 v) in
    let g := put_mA g 0 (v * SS0 + 1) (zget R0 pAi v) in
    let g := put_mA g 0 (v * SS0 + 2) (zget R0 pAj v) in
    put_mA g 0 (v * SS0 + 3) (if mIs3D g then zget R0 pAk v else R0))
    (FOR_LVL g 0) g.

(** One iteration of the second loop of [setA]; the state carries the
    flags [nonZeroStencilSumFound] and [trivialEquationsFound]. *)
Definition setA_classify1 (st : GridMg * bool * bool) (v : Z) : GridMg * bool * bool :=
  let '(g, nonZeroStencilSumFound, trivialEquationsFound) := st in
  let SS0 := mStencilSize0 g in
  let g := put_mType g 0 v vtInactive in
  if negb (Reqb (getA g 0 (v * SS0 + 0)) R0) then
    let g := put_mType g 0 v vtActive in
    let '(isStencilSumNonZero, isEquationTrivial) := analyzeStencil g v in
    let nonZeroStencilSumFound :=
      if isStencilSumNonZero then true else nonZeroStencilSumFound in
    if isEquationTrivial then
      let g := put_mType g 0 v vtActiveTrivial in
      let g := put_mA g 0 (v * SS0 + 0)
                 (Rmul (getA g 0 (v * SS0 + 0)) (mTrivialEquationScale g)) in
      (g, nonZeroStencilSumFound, true)
    else (g, nonZeroStencilSumFound, trivialEquationsFound)
  else (g, nonZeroStencilSumFound, trivialEquationsFound).

Definition setA_classify (g : GridMg) : GridMg :=
  let '(g, nonZeroStencilSumFound, trivialEquationsFound) :=
    fold_left setA_classify1 (FOR_LVL g 0) (g, false, false) in
  let g := if trivialEquationsFound then debMsg g MsgTrivialEquation else g in
  if negb nonZeroStencilSumFound then debMsg g MsgNoFullRank else g.

(** ** Coarse grid generation: [genCoarseGrid] *)

(** The loop over the restriction vertices [R] of the coarse vertex [I]:
    the keys of the heap are decreased. *)
Definition coarse_updateKeys (g : GridMg) (l : Z) (I : Vec3i)
    (heap : NKMinHeap.t) : result NKMinHeap.t :=
  foldM (fun heap R =>
    let r := linIdx g R (l - 1) in
    let key := NKMinHeap.getKey heap r in
    if 1 <? key then NKMinHeap.setKey r (key - 1) heap
    else if -1 <? key then NKMinHeap.setKey r (-1) heap
    else Ok heap)
    (boxList (vmax (vconst 0) (vsubc (vmulc I 2) 1))
             (vmin (vsubc (sizeAt g (l - 1)) 1) (vaddc (vmulc I 2) 1)))
    heap.

(** The body of the loop over the interpolation vertices [I] of a fine
    vertex; the state is the grid, the heap and [vdone]. *)
Definition coarse_visit (l : Z) (st : GridMg * NKMinHeap.t * bool) (I : Vec3i)
    : result (GridMg * NKMinHeap.t * bool) :=
  let '(g, heap, vdone) := st in
  let i := linIdx g I l in
  if vt_eqb (getType g l i) vtFree then
    let '(g, vdone) :=
      if vdone then (put_mType g l i vtRemoved, vdone)
      else (put_mType g l i vtZero, true) in
    bind (coarse_updateKeys g l I heap) (fun heap => Ok (g, heap, vdone))
  else Ok st.

(** One iteration of [while (heap.size() > 0)]. *)
Definition coarse_step (l : Z) (st : GridMg * NKMinHeap.t) : result (GridMg * NKMinHeap.t) :=
  let '(g, heap) := st in
  let '(heap, (v, _)) := NKMinHeap.popMin heap in
  let V := vecIdx g v (l - 1) in
  bind (foldM (coarse_visit l) (boxList (vdivc V 2) (vdivc (vaddc V 1) 2)) (g, heap, false))
       (fun '(g, heap, _) => Ok (g, heap)).

Fixpoint coarse_loop (fuel : nat) (l : Z) (st : GridMg * NKMinHeap.t) : result GridMg :=
  if 0 <? NKMinHeap.size (snd st) then
    match fuel with
    | O => OutOfFuel
    | S fuel' => bind (coarse_step l st) (coarse_loop fuel' l)
    end
  else Ok (fst st).

(** Insertion of the fine vertices that are not inactive into the heap. *)
Definition coarse_fillHeap (g : GridMg) (l : Z) (heap : NKMinHeap.t) : result NKMinHeap.t :=
  foldM (fun heap v =>
    if negb (vt_eqb (getType g (l - 1) v) vtInactive) then
      let V := vecIdx g v (l - 1) in
      let fiv := Z.shiftl 1 (oddSum V) in
      NKMinHeap.setKey v fiv heap
    else Ok heap)
    (FOR_LVL g (l - 1)) heap.

(** The last loop of [genCoarseGrid]. *)
Definition coarse_finish1 (l : Z) (g : GridMg) (v : Z) : GridMg :=
  let g := if vt_eqb (getType g l v) vtFree then put_mType g l v vtRemoved else g in
  let g := if vt_eqb (getType g l v) vtZero then put_mType g l v vtActive else g in
  if vt_eqb (getType g l v) vtRemoved then put_mType g l v vtInactive else g.

Definition genCoarseGrid (l : Z) (g : GridMg) : result GridMg :=
  let g := fold_left (fun g v => put_mType g l v vtFree) (FOR_LVL g l) g in
  let heap := NKMinHeap.init (zlength (zget [] (mb g) (l - 1))) (if mIs3D g then 9 else 5) in
  bind (coarse_fillHeap g l heap) (fun heap =>
  bind (coarse_loop (Z.to_nat (NKMinHeap.size heap)) l (g, heap)) (fun g =>
  Ok (fold_left (coarse_finish1 l) (FOR_LVL g l) g))).

(** ** Galerkin coarsening: [genCoraseGridOperator] *)

(** [mA[l][i] += x] *)
Definition add_mA (g : GridMg) (l i : Z) (x : Real) : GridMg :=
  put_mA g l i (Radd (getA g l i) x).

Definition isInactive (g : GridMg) (l i : Z) : bool := vt_eqb (getType g l i) vtInactive.

(** The loop over the precomputed paths, for the coarse vertex [v] of
    level [l = 1]. *)
Definition galerkin_paths (l v : Z) (V : Vec3i) (g : GridMg) : GridMg :=
  fold_left (fun g it =>
    let SS := mStencilSize g in
    let SS0 := mStencilSize0 g in
    let N := vadd V (pN it) in
    let n := linIdx g N l in
    if negb (inGrid g N l) || isInactive g l n then g else
    let U := vadd (vmulc V 2) (pU it) in
    let u := linIdx g U (l - 1) in
    if negb (inGrid g U (l - 1)) || isInactive g (l - 1) u then g else
    let W := vadd (vmulc V 2) (pW it) in
    let w := linIdx g W (l - 1) in
    if negb (inGrid g W (l - 1)) || isInactive g (l - 1) w then g else
    if inUStencil it then
      add_mA g l (v * SS + sc it)
        (Rmul (Rmul (rw it) (getA g (l - 1) (u * SS0 + sf it))) (iw it))
    else
      add_mA g l (v * SS + sc it)
        (Rmul (Rmul (rw it) (getA g (l - 1) (w * SS0 + sf it))) (iw it)))
    (mCoarseningPaths0 g) g.

(** The three nested loops over [U], [N] and [W], for the coarse vertex
    [v] of a level [l > 1]. *)
Definition galerkin_W (l v u : Z) (U N : Vec3i) (rw : Real) (sc : Z) (g : GridMg) : GridMg :=
  fold_left (fun g W =>
    let SS := mStencilSize g in
    let w := linIdx g W (l - 1) in
    if isInactive g (l - 1) w then g else
    let SF := vadd (vsub W U) (mStencilMax g) in
    let sf := vx SF + 3 * vy SF + 9 * vz SF in
    let iw := weight W in
    if sf <? SS then
      add_mA g l (v * SS + sc - SS + 1)
        (Rmul (Rmul rw (getA g (l - 1) (w * SS + SS - 1 - sf))) iw)
    else
      add_mA g l (v * SS + sc - SS + 1)
        (Rmul (Rmul rw (getA g (l - 1) (u * SS + sf - SS + 1))) iw))
    (boxList (vmax (vconst 0) (vmax (vsubc U 1) (vsubc (vmulc N 2) 1)))
             (vmin (vsubc (sizeAt g (l - 1)) 1) (vmin (vaddc U 1) (vaddc (vmulc N 2) 1))))
    g.

Definition galerkin_N (l v u : Z) (V U : Vec3i) (rw : Real) (g : GridMg) : GridMg :=
  fold_left (fun g N =>
    let SS := mStencilSize g in
    let n := linIdx g N l in
    if isInactive g l n then g else
    let SC := vadd (vsub N V) (mStencilMax g) in
    let sc := vx SC + 3 * vy SC + 9 * vz SC in
    if sc <? SS - 1 then g else
    galerkin_W l v u U N rw sc g)
    (boxList (vdivc (vsubc U 1) 2)
             (vmin (vsubc (sizeAt g l) 1) (vdivc (vaddc U 2) 2)))
    g.

Definition galerkin_U (l v : Z) (V : Vec3i) (g : GridMg) : GridMg :=
  fold_left (fun g U =>
    let u := linIdx g U (l - 1) in
    if isInactive g (l - 1) u then g else
    let rw := weight U in
    galerkin_N l v u V U rw g)
    (boxList (vmax (vconst 0) (vsubc (vmulc V 2) 1))
             (vmin (vsubc (sizeAt g (l - 1)) 1) (vaddc (vmulc V 2) 1)))
    g.

(** The body of the loop over the coarse vertices. *)
Definition galerkin_vertex (l : Z) (g : GridMg) (v : Z) : GridMg :=
  if isInactive g l v then g else
  let SS := mStencilSize g in
  let g := fold_left (fun g i => put_mA g l (v * SS + i) R0) (zseq 0 (SS - 1)) g in
  let V := vecIdx g v l in
  if l =? 1 then galerkin_paths l v V g else galerkin_U l v V g.

Definition genCoraseGridOperator (l : Z) (g : GridMg) : GridMg :=
  fold_left (galerkin_vertex l) (FOR_LVL g l) g.

(** [GridMg::setA(A0, pAi, pAj, pAk)] *)
Definition setA (A0 pAi pAj pAk : list Real) (g : GridMg) : result GridMg :=
  let g := setA_copy A0 pAi pAj pAk g in
  let g := setA_classify g in
  bind (foldM (fun g l => bind (genCoarseGrid l g) (fun g => Ok (genCoraseGridOperator l g)))
              (zseq 1 (zlength (mA g) - 1)) g) (fun g =>
  Ok (with_mIsRhsSet (with_mIsASet g true) false)).

(** [GridMg::setRhs(rhs)] *)
Definition setRhs (rhs : list Real) (g : GridMg) : result GridMg :=
  if negb (mIsASet g) then Err "GridMg::setRhs Error: A has not been set."
  else
    let g := fold_left (fun g v =>
      let g := put_mb g 0 v (zget R0 rhs v) in
      if vt_eqb (getType g 0 v) vtActiveTrivial
      then put_mb g 0 v (Rmul (getb g 0 v) (mTrivialEquationScale g))
      else g) (FOR_LVL g 0) g in
    Ok (with_mIsRhsSet g true).

(** ** Application of the stencil *)

(** The loop [for (int d=0; d<mDim; d++)] over the neighbours of [v] at
    level 0; [f acc a x] is [acc -= a * x] or [acc += a * x]. *)
Definition stencil0 (g : GridMg) (f : Real -> Real -> Real -> Real)
    (x : list Real) (v : Z) (V : Vec3i) (acc : Real) : Real :=
  fold_left (fun sum d =>
    let SS0 := mStencilSize0 g in
    let sum :=
      if 0 <? vcomp V d then
        let n := v - vcomp (pitchAt g 0) d in
        f sum (getA g 0 (n * SS0 + d + 1)) (zget R0 x n)
      else sum in
    if vcomp V d <? vcomp (sizeAt g 0) d - 1 then
      let n := v + vcomp (pitchAt g 0) d in
      f sum (getA g 0 (v * SS0 + d + 1)) (zget R0 x n)
    else sum)
    (zseq 0 (mDim g - 1)) acc.

(** The offsets [S] and running indices [s] of
    [FOR_VECLIN_MINMAX(S, s, mStencilMin, mStencilMax)]. *)
Definition stencilLin (g : GridMg) : list (Vec3i * Z) :=
  let b := boxList (mStencilMin g) (mStencilMax g) in
  combine b (zrange 0 (length b)).

(** The loop over the full stencil of [v] at a level [l > 0];
    [skipCenter] is the test [if (s == mStencilSize-1) continue;]. *)
Definition stencilN (g : GridMg) (l : Z) (skipCenter : bool)
    (f : Real -> Real -> Real -> Real)
    (x : list Real) (v : Z) (V : Vec3i) (acc : Real) : Real :=
  fold_left (fun sum '(Soff, s) =>
    let SS := mStencilSize g in
    if skipCenter && (s =? SS - 1) then sum else
    let N := vadd V Soff in
    let n := linIdx g N l in
    if inGrid g N l && negb (isInactive g l n) then
      if s <? SS then f sum (getA g l (n * SS + SS - 1 - s)) (zget R0 x n)
      else f sum (getA g l (v * SS + s - SS + 1)) (zget R0 x n)
    else sum)
    (stencilLin g) acc.

Definition fsub (acc a x : Real) : Real := Rsub acc (Rmul a x).
Definition fadd (acc a x : Real) : Real := Radd acc (Rmul a x).

(** ** Smoothing: [smoothGS] *)

Definition colorOffs (g : GridMg) (l : Z) : list (list Vec3i) :=
  let a0 := mkVec 0 0 0 in let a1 := mkVec 1 0 0 in
  let a2 := mkVec 0 1 0 in let a3 := mkVec 1 1 0 in
  let a4 := mkVec 0 0 1 in let a5 := mkVec 1 0 1 in
  let a6 := mkVec 0 1 1 in let a7 := mkVec 1 1 1 in
  if mIs3D g then
    if l =? 0 then [[a0; a3; a5; a6]; [a1; a2; a4; a7]]
    else [[a0]; [a1]; [a2]; [a3]; [a4]; [a5]; [a6]; [a7]]
  else
    if l =? 0 then [[a0; a3]; [a1; a2]]
    else [[a0]; [a1]; [a2]; [a3]].

(** The update of the vertex [V = 2*B + colorOffs[color][off]]. *)
Definition smooth_vertex (l : Z) (V : Vec3i) (g : GridMg) : GridMg :=
  if negb (inGrid g V l) then g else
  let v := linIdx g V l in
  if isInactive g l v then g else
  let sum := getb g l v in
  if l =? 0 then
    let sum := stencil0 g fsub (zget [] (mx g) 0) v V sum in
    put_mx g 0 v (Rdiv sum (getA g 0 (v * mStencilSize0 g + 0)))
  else
    let sum := stencilN g l true fsub (zget [] (mx g) l) v V sum in
    put_mx g l v (Rdiv sum (getA g l (v * mStencilSize g + 0))).

Definition smoothGS (l : Z) (reversedOrder : bool) (g : GridMg) : GridMg :=
  let offs := colorOffs g l in
  let blockSize := vdivc (vaddc (sizeAt g l) 1) 2 in
  let numBlocks := vx blockSize * vy blockSize * vz blockSize in
  fold_left (fun g c =>
    let color := if reversedOrder then zlength offs - 1 - c else c in
    fold_left (fun g b =>
      fold_left (fun g off =>
        let B := mkVec (Z.rem b (vx blockSize))
                       (Z.quot (Z.rem b (vx blockSize * vy blockSize)) (vx blockSize))
                       (Z.quot b (vx blockSize * vy blockSize)) in
        let V := vadd (vmulc B 2) off in
        smooth_vertex l V g)
        (zget [] offs color) g)
      (zseq 0 (numBlocks - 1)) g)
    (zseq 0 (zlength offs - 1)) g.

(** ** Residual: [calcResidual], [calcResidualNorm] *)

Definition residual_vertex (l : Z) (g : GridMg) (v : Z) : GridMg :=
  if isInactive g l v then g else
  let V := vecIdx g v l in
  let sum := getb g l v in
  let sum :=
    if l =? 0 then
      let sum := stencil0 g fsub (zget [] (mx g) 0) v V sum in
      Rsub sum (Rmul (getA g 0 (v * mStencilSize0 g + 0)) (getx g 0 v))
    else stencilN g l false fsub (zget [] (mx g) l) v V sum in
  put_mr g l v sum.

Definition calcResidual (l : Z) (g : GridMg) : GridMg :=
  fold_left (residual_vertex l) (FOR_LVL g l) g.

Definition calcResidualNorm (l : Z) (g : GridMg) : Real :=
  Rsqrt (fold_left (fun res v =>
    if isInactive g l v then res
    else Radd res (Rmul (getr g l v) (getr g l v)))
    (FOR_LVL g l) R0).

(** ** Transfer: [restrict], [interpolate] *)

Definition restrict (g : GridMg) (l_dst : Z) (src dst : list Real) : list Real :=
  let l_src := l_dst - 1 in
  fold_left (fun dst v =>
    if isInactive g l_dst v then dst else
    let V := vecIdx g v l_dst in
    let sum := fold_left (fun sum R =>
      let r := linIdx g R l_src in
      if isInactive g l_src r then sum else
      let rw := weight R in
      Radd sum (Rmul rw (zget R0 src r)))
      (boxList (vmax (vconst 0) (vsubc (vmulc V 2) 1))
               (vmin (vsubc (sizeAt g l_src) 1) (vaddc (vmulc V 2) 1)))
      R0 in
    zset dst v sum)
    (FOR_LVL g l_dst) dst.

Definition interpolate (g : GridMg) (l_dst : Z) (src dst : list Real) : list Real :=
  let l_src := l_dst + 1 in
  fold_left (fun dst v =>
    if isInactive g l_dst v then dst else
    let V := vecIdx g v l_dst in
    let sum := fold_left (fun sum I =>
      let i := linIdx g I l_src in
      if negb (isInactive g l_src i) then Radd sum (zget R0 src i) else sum)
      (boxList (vdivc V 2) (vdivc (vaddc V 1) 2))
      R0 in
    let iw := weight V in
    zset dst v (Rmul iw sum))
    (FOR_LVL g l_dst) dst.

(** ** Coarsest level: [solveCG] *)

(** The vectors and scalars of the conjugate gradient iteration. *)
Record CGState : Type := mkCG {
  cg_x : list Real;
  cg_r : list Real;
  cg_z : list Real;
  cg_p : list Real;
  cg_alphaTop : Real;
  cg_residual : Real
}.

(** [mA[0][v*mStencilSize0 + 0]] or [mA[l][v*mStencilSize + 0]]. *)
Definition diagA (g : GridMg) (l v : Z) : Real :=
  if l =? 0 then getA g 0 (v * mStencilSize0 g + 0) else getA g l (v * mStencilSize g + 0).

(** The initialisation loop; it returns the state and the sum of the
    squares of the residual. *)
Definition cg_init (l : Z) (g : GridMg) : CGState * Real :=
  fold_left (fun '(st, initialResidual) v =>
    if isInactive g l v then (st, initialResidual) else
    let V := vecIdx g v l in
    let sum := getb g l v in
    let sum :=
      if l =? 0 then
        let sum := stencil0 g fsub (cg_x st) v V sum in
        Rsub sum (Rmul (getA g 0 (v * mStencilSize0 g + 0)) (zget R0 (cg_x st) v))
      else stencilN g l false fsub (cg_x st) v V sum in
    let z := zset (cg_z st) v (Rdiv sum (diagA g l v)) in
    let r := zset (cg_r st) v sum in
    let initialResidual := Radd initialResidual (Rmul (zget R0 r v) (zget R0 r v)) in
    let p := zset (cg_p st) v (zget R0 z v) in
    let alphaTop := Radd (cg_alphaTop st) (Rmul (zget R0 r v) (zget R0 z v)) in
    (mkCG (cg_x st) r z p alphaTop (cg_residual st), initialResidual))
    (FOR_LVL g l)
    (mkCG (zget [] (mx g) l) (zget [] (mr g) l)
          (zget [] (mCGtmp1 g) l) (zget [] (mCGtmp2 g) l) R0 (RofZ (-1)), R0).

(** The first loop of an iteration: [z = A p] and [alphaBot]. *)
Definition cg_applyA (l : Z) (g : GridMg) (st : CGState) : list Real * Real :=
  fold_left (fun '(z, alphaBot) v =>
    if isInactive g l v then (z, alphaBot) else
    let V := vecIdx g v l in
    let zv := R0 in
    let zv :=
      if l =? 0 then
        let zv := stencil0 g fadd (cg_p st) v V zv in
        Radd zv (Rmul (getA g 0 (v * mStencilSize0 g + 0)) (zget R0 (cg_p st) v))
      else stencilN g l false fadd (cg_p st) v V zv in
    let z := zset z v zv in
    (z, Radd alphaBot (Rmul (zget R0 (cg_p st) v) (zget R0 z v))))
    (FOR_LVL g l) (cg_z st, R0).

(** The second loop of an iteration: update of [x], [r], [z]; it returns
    also [alphaTopNew]. *)
Definition cg_update (l : Z) (g : GridMg) (alpha : Real) (st : CGState) : CGState * Real :=
  fold_left (fun '(st, alphaTopNew) v =>
    if isInactive g l v then (st, alphaTopNew) else
    let x := zset (cg_x st) v (Radd (zget R0 (cg_x st) v) (Rmul alpha (zget R0 (cg_p st) v))) in
    let r := zset (cg_r st) v (Rsub (zget R0 (cg_r st) v) (Rmul alpha (zget R0 (cg_z st) v))) in
    let residual := Radd (cg_residual st) (Rmul (zget R0 r v) (zget R0 r v)) in
    let z := zset (cg_z st) v (Rdiv (zget R0 r v) (diagA g l v)) in
    let alphaTopNew := Radd alphaTopNew (Rmul (zget R0 r v) (zget R0 z v)) in
    (mkCG x r z (cg_p st) (cg_alphaTop st) residual, alphaTopNew))
    (FOR_LVL g l)
    (mkCG (cg_x st) (cg_r st) (cg_z st) (cg_p st) (cg_alphaTop st) R0, R0).

(** One iteration of the loop of [solveCG]; [true] is returned when the
    iteration leaves the loop through [break]. *)
Definition cg_iter (l : Z) (g : GridMg) (initialResidual : Real) (st : CGState)
    : CGState * bool :=
  let '(z, alphaBot) := cg_applyA l g st in
  let st := mkCG (cg_x st) (cg_r st) z (cg_p st) (cg_alphaTop st) (cg_residual st) in
  let alpha := Rdiv (cg_alphaTop st) alphaBot in
  let '(st, alphaTopNew) := cg_update l g alpha st in
  let residual := Rsqrt (cg_residual st) in
  let st := mkCG (cg_x st) (cg_r st) (cg_z st) (cg_p st) (cg_alphaTop st) residual in
  if Rltb (Rdiv residual initialResidual) (mCoarsestLevelAccuracy g) then (st, true)
  else
    let beta := Rdiv alphaTopNew (cg_alphaTop st) in
    let p := fold_left (fun p v =>
      zset p v (Radd (zget R0 (cg_z st) v) (Rmul beta (zget R0 p v))))
      (FOR_LVL g l) (cg_p st) in
    (mkCG (cg_x st) (cg_r st) (cg_z st) p alphaTopNew residual, false).

(** The loop [for (; iter<maxIter; iter++)] with [fuel = maxIter - iter]
    iterations left; it returns the final value of [iter]. *)
Fixpoint cg_loop (fuel : nat) (l : Z) (g : GridMg) (initialResidual : Real)
    (iter : Z) (st : CGState) : Z * CGState :=
  match fuel with
  | O => (iter, st)
  | S fuel' =>
      let '(st', stop) := cg_iter l g initialResidual st in
      if stop then (iter, st')
      else cg_loop fuel' l g initialResidual (iter + 1) st'
  end.

Definition maxIter : Z := 10000.

Definition solveCG (l : Z) (g : GridMg) : GridMg :=
  let '(st, initialResidual) := cg_init l g in
  let initialResidual := Rsqrt initialResidual in
  let '(iter, st) := cg_loop (Z.to_nat maxIter) l g initialResidual 0 st in
  let g := with_mx g (zset (mx g) l (cg_x st)) in
  let g := with_mr g (zset (mr g) l (cg_r st)) in
  let g := with_mCGtmp1 g (zset (mCGtmp1 g) l (cg_z st)) in
  let g := with_mCGtmp2 g (zset (mCGtmp2 g) l (cg_p st)) in
  if iter =? maxIter then debMsg g MsgCGMaxIter
  else debMsg g (MsgCGInfo (cg_residual st) iter).

(** The state after [k] iterations that did not leave the loop, and the
    outcome of the convergence test of the iteration that follows them. *)
Definition cg_state (l : Z) (g : GridMg) (initialResidual : Real) (st0 : CGState)
    (k : nat) : CGState :=
  Nat.iter k (fun st => fst (cg_iter l g initialResidual st)) st0.

Definition cg_converged (l : Z) (g : GridMg) (initialResidual : Real) (st0 : CGState)
    (k : nat) : bool :=
  snd (cg_iter l g initialResidual (cg_state l g initialResidual st0 k)).

(** ** One cycle: [doVCycle] *)

(** [for (int i=0; i<n; i++) body] *)
Definition repeatZ {S : Type} (n : Z) (body : S -> S) (s : S) : S :=
  fold_left (fun s _ => body s) (zseq 0 (n - 1)) s.

(** [GridMg::doVCycle(dst, src)]; the grid [dst] and the norm of the
    residual are returned with the new state. *)
Definition doVCycle (dst : list Real) (src : option (list Real)) (g : GridMg)
    : result (GridMg * list Real * Real) :=
  if negb (mIsASet g && mIsRhsSet g)
  then Err "GridMg::doVCycle Error: A and/or rhs have not been set."
  else
    let maxLevel := zlength (mA g) - 1 in
    let g := fold_left (fun g v =>
      put_mx g 0 v (match src with Some s => zget R0 s v | None => R0 end))
      (FOR_LVL g 0) g in
    let g := fold_left (fun g l =>
      let g := repeatZ (mNumPreSmooth g) (smoothGS l false) g in
      let g := calcResidual l g in
      let g := with_mb g (zset (mb g) (l + 1)
                 (restrict g (l + 1) (zget [] (mr g) l) (zget [] (mb g) (l + 1)))) in
      fold_left (fun g v => put_mx g (l + 1) v R0) (FOR_LVL g (l + 1)) g)
      (zseq 0 (maxLevel - 1)) g in
    let g := solveCG maxLevel g in
    let g := fold_left (fun g l =>
      let g := with_mr g (zset (mr g) l
                 (interpolate g l (zget [] (mx g) (l + 1)) (zget [] (mr g) l))) in
      let g := fold_left (fun g v => put_mx g l v (Radd (getx g l v) (getr g l v)))
                 (FOR_LVL g l) g in
      repeatZ (mNumPostSmooth g) (smoothGS l true) g)
      (rev (zseq 0 (maxLevel - 1))) g in
    let g := calcResidual 0 g in
    let res := calcResidualNorm 0 g in
    let dst := fold_left (fun dst v => zset dst v (getx g 0 v)) (FOR_LVL g 0) dst in
    Ok (g, dst, res).

(** ** Sequences of calls of the public operations *)

Inductive Call : Type :=
| CallSetA (A0 pAi pAj pAk : list Real)
| CallSetRhs (rhs : list Real)
| CallVCycle (dst : list Real) (src : option (list Real)).

Definition call (c : Call) (g : GridMg) : result GridMg :=
  match c with
  | CallSetA A0 pAi pAj pAk => setA A0 pAi pAj pAk g
  | CallSetRhs rhs => setRhs rhs g
  | CallVCycle dst src => bind (doVCycle dst src g) (fun '(g, _, _) => Ok g)
  end.

Definition runCalls (cs : list Call) (g : GridMg) : result GridMg :=
  foldM (fun g c => call c g) cs g.

(** What a sequence of successful calls says about the object: whether
    [setA] was called, and whether [setRhs] was called after the last
    [setA]. *)
Definition history1 (h : bool * bool) (c : Call) : bool * bool :=
  match c with
  | CallSetA _ _ _ _ => (true, false)
  | CallSetRhs _ => (fst h, true)
  | CallVCycle _ _ => h
  end.

Definition history (cs : list Call) : bool * bool := fold_left history1 cs (false, false).

Definition bothCalled (cs : list Call) : bool := fst (history cs) && snd (history cs).

Definition doVCycle_error : string :=
  "GridMg::doVCycle Error: A and/or rhs have not been set.".

(** ** Well-formed states *)

(** The number of levels, [mA.size()]. *)
Definition numLevels (g : GridMg) : Z := zlength (mA g).

(** The arrays of level [l] have the extent recorded in [mSize]. *)
Record wfLevel (g : GridMg) (l : Z) : Prop := {
  wl_x : 1 <= vx (sizeAt g l);
  wl_y : 1 <= vy (sizeAt g l);
  wl_z : 1 <= vz (sizeAt g l);
  wl_pitch : pitchAt g l = pitchOf (sizeAt g l);
  wl_b : zlength (zget [] (mb g) l) = countOf (sizeAt g l);
  wl_x_len : zlength (zget [] (mx g) l) = countOf (sizeAt g l);
  wl_r : zlength (zget [] (mr g) l) = countOf (sizeAt g l);
  wl_type : zlength (zget [] (mType g) l) = countOf (sizeAt g l)
}.

(** The shape of the hierarchy that the constructor builds and that every
    operation keeps. *)
Record wf (g : GridMg) : Prop := {
  wf_levels : 1 <= numLevels g;
  wf_len_size : zlength (mSize g) = numLevels g;
  wf_len_pitch : zlength (mPitch g) = numLevels g;
  wf_len_x : zlength (mx g) = numLevels g;
  wf_len_b : zlength (mb g) = numLevels g;
  wf_len_r : zlength (mr g) = numLevels g;
  wf_len_type : zlength (mType g) = numLevels g;
  wf_level : forall l, 0 <= l < numLevels g -> wfLevel g l;
  wf_halve : forall l, 1 <= l < numLevels g ->
             sizeAt g l = vdivc (vaddc (sizeAt g (l - 1)) 2) 2;
  wf_2D : mIs3D g = false -> vz (sizeAt g 0) = 1
}.

(** The interpolation candidates of the fine vertex [V]: the coarse
    vertices of the box from [V/2] to [(V+1)/2]. *)
Definition candidates (V : Vec3i) : list Vec3i :=
  boxList (vdivc V 2) (vdivc (vaddc V 1) 2).

End Model.

(* ================================================================== *)
(** * An instance of the arithmetic: exact rationals                   *)
(* ================================================================== *)

(** Square root of a rational, rounded down to six decimals. *)
Definition Qc_sqrt (x : Qcanon.Qc) : Qcanon.Qc :=
  Qcanon.Q2Qc
    (Qmake (Z.sqrt (Qnum (Qcanon.this x) * Zpos (Qden (Qcanon.this x)) * 10 ^ 12))
           (Qden (Qcanon.this x) * 1000000)).

Definition Qc_ltb (x y : Qcanon.Qc) : bool :=
  match Qcanon.Qccompare x y with
  | Lt => true
  | _ => false
  end.

(** Arithmetic without rounding (but for the square root); it satisfies
    the laws of a commutative ring. *)
Definition QcReal : RealOps := {|
  Real := Qcanon.Qc;
  RofZ := fun z => Qcanon.Q2Qc (inject_Z z);
  R1Em6 := Qcanon.Q2Qc (Qmake 1 1000000);
  R1Em8 := Qcanon.Q2Qc (Qmake 1 100000000);
  Radd := Qcanon.Qcplus;
  Rsub := Qcanon.Qcminus;
  Rmul := Qcanon.Qcmult;
  Rdiv := Qcanon.Qcdiv;
  Rabs := Qcabs.Qcabs;
  Rmax := fun x y => if Qc_ltb x y then y else x;
  Rsqrt := Qc_sqrt;
  Reqb := Qcanon.Qc_eq_bool;
  Rltb := Qc_ltb
|}.

(* ================================================================== *)
(** * Facts about ranges and arrays                                    *)
(* ================================================================== *)

Lemma in_zrange (n : nat) : forall a x, In x (zrange a n) <-> a <= x < a + Z.of_nat n.
Proof.
  induction n as [|n IH]; intros a x; simpl.
  - lia.
  - rewrite IH. lia.
Qed.

Lemma in_zseq (lo hi x : Z) : In x (zseq lo hi) <-> lo <= x <= hi.
Proof. unfold zseq. rewrite in_zrange. lia. Qed.

Lemma NoDup_zrange (n : nat) : forall a, NoDup (zrange a n).
Proof.
  induction n as [|n IH]; intros a; simpl; constructor.
  - rewrite in_zrange. lia.
  - apply IH.
Qed.

Lemma NoDup_zseq (lo hi : Z) : NoDup (zseq lo hi).
Proof. apply NoDup_zrange. Qed.

Lemma length_zrange (n : nat) : forall a, length (zrange a n) = n.
Proof. induction n as [|n IH]; intros a; simpl; [reflexivity | now rewrite IH]. Qed.

Lemma length_upd_nat {A : Type} (x : A) (l : list A) :
  forall n, length (upd_nat n x l) = length l.
Proof.
  induction l as [|h t IH]; intros [|n]; simpl; auto.
Qed.

Lemma nth_upd_nat {A : Type} (d x : A) (l : list A) :
  forall n m, nth m (upd_nat n x l) d =
              if (Nat.eqb m n && Nat.ltb n (length l))%bool then x else nth m l d.
Proof.
  induction l as [|h t IH]; intros n m.
  - simpl. rewrite andb_false_r. destruct n; reflexivity.
  - destruct n as [|n], m as [|m]; simpl; try reflexivity.
    rewrite IH. reflexivity.
Qed.

Lemma zlength_zset {A : Type} (l : list A) (i : Z) (x : A) :
  zlength (zset l i x) = zlength l.
Proof.
  unfold zlength, zset. destruct (i <? 0); [reflexivity|].
  now rewrite length_upd_nat.
Qed.

Lemma zlength_nonneg {A : Type} (l : list A) : 0 <= zlength l.
Proof. unfold zlength. lia. Qed.

Lemma zget_zset {A : Type} (d : A) (l : list A) (i j : Z) (x : A) :
  zget d (zset l i x) j =
  if ((j =? i) && (0 <=? i) && (i <? zlength l))%bool then x else zget d l j.
Proof.
  unfold zget, zset, zlength.
  destruct (Z.ltb_spec i 0) as [Hi|Hi].
  - destruct (Z.eqb_spec j i); destruct (Z.leb_spec 0 i); simpl; try lia; reflexivity.
  - destruct (Z.ltb_spec j 0) as [Hj|Hj].
    + destruct (Z.eqb_spec j i); simpl; [lia | reflexivity].
    + rewrite nth_upd_nat.
      destruct (Z.eqb_spec j i) as [->|Hne].
      * rewrite Nat.eqb_refl. simpl.
        destruct (Z.leb_spec 0 i); [|lia]. simpl.
        destruct (Nat.ltb_spec (Z.to_nat i) (length l));
          destruct (Z.ltb_spec i (Z.of_nat (length l))); try lia; reflexivity.
      * destruct (Nat.eqb_spec (Z.to_nat j) (Z.to_nat i)); [lia|]. reflexivity.
Qed.

Lemma zget_zset_eq {A : Type} (d : A) (l : list A) (i : Z) (x : A) :
  0 <= i < zlength l -> zget d (zset l i x) i = x.
Proof.
  intros H. rewrite zget_zset, Z.eqb_refl.
  destruct (Z.leb_spec 0 i); [|lia]. destruct (Z.ltb_spec i (zlength l)); [|lia].
  reflexivity.
Qed.

Lemma zget_zset_ne {A : Type} (d : A) (l : list A) (i j : Z) (x : A) :
  j <> i -> zget d (zset l i x) j = zget d l j.
Proof.
  intros H. rewrite zget_zset. destruct (Z.eqb_spec j i); [contradiction|]. reflexivity.
Qed.

Lemma zget_repeat {A : Type} (d : A) (n : nat) (i : Z) : zget d (repeat d n) i = d.
Proof.
  unfold zget. destruct (i <? 0); [reflexivity|].
  generalize (Z.to_nat i). induction n as [|n IH]; intros [|m]; simpl; auto.
Qed.

(* ================================================================== *)
(** * NKMinHeap: representation invariant                              *)
(* ================================================================== *)

Section HeapChains.
Import NKMinHeap.

(** [chain K E k p l]: following the [next] pointers from the entry [p]
    visits exactly the identifiers [l], every visited entry carries the
    key [k] and points back to the entry before it. *)
Fixpoint chain (K : Z) (E : Z -> Entry) (k p : Z) (l : list Z) : Prop :=
  match l with
  | [] => next (E p) = -1
  | a :: l' =>
      next (E p) = K + a /\ prev (E (K + a)) = p /\ key (E (K + a)) = k /\
      chain K E k (K + a) l'
  end.

(** Ghost update of one bucket. *)
Definition fupd (bk : Z -> list Z) (k : Z) (l : list Z) : Z -> list Z :=
  fun k' => if k' =? k then l else bk k'.

(** The entries [es] represent the buckets [bk]; [all] lists the stored
    identifiers. *)
Set Implicit Arguments.
Record Shape (N K : Z) (E : Z -> Entry) (bk : Z -> list Z) (all : list Z) : Prop := {
  shape_N : 0 <= N;
  shape_K : 0 <= K;
  shape_chain : forall k, 0 <= k < K -> chain K E k k (bk k);
  shape_nodup : forall k, 0 <= k < K -> NoDup (bk k);
  shape_all_nodup : NoDup all;
  shape_in : forall id, In id all <-> exists k, 0 <= k < K /\ In id (bk k);
  shape_range : forall id, In id all -> 0 <= id < N
}.
Unset Implicit Arguments.


(** The tracked minimum: [-1] for an empty heap, otherwise the first
    bucket which is not empty. *)
Definition MinOK (K sz m : Z) (bk : Z -> list Z) : Prop :=
  (sz = 0 -> m = -1) /\
  (sz <> 0 -> 0 <= m < K /\ bk m <> [] /\ forall k, 0 <= k < m -> bk k = []).

Definition Inv (h : t) : Prop :=
  exists bk all,
    Shape (mN h) (mK h) (ent h) bk all /\
    zlength (mEntries h) = mN h + mK h /\
    (forall id, 0 <= id < mN h -> ~ In id all -> getKey h id = -1) /\
    mSize h = zlength all /\
    MinOK (mK h) (mSize h) (mMinKey h) bk.

(** States of the heap reached from the constructor through its public
    operations. *)
Inductive reachable : t -> Prop :=
| reach_init N K : 0 <= N -> 0 <= K -> reachable (init N K)
| reach_setKey h ID k h' : reachable h -> setKey ID k h = Ok h' -> reachable h'
| reach_popMin h : reachable h -> reachable (fst (popMin h)).

(** The identifiers stored in the heap. *)
Definition stored (h : t) (ID : Z) : Prop := 0 <= ID < mN h /\ getKey h ID <> -1.

(** The stored identifiers, in increasing order. *)
Definition storedIds (h : t) : list Z :=
  filter (fun ID => negb (getKey h ID =? -1)) (zrange 0 (Z.to_nat (mN h))).

Lemma chain_frame K E E' k : forall l p,
  chain K E k p l ->
  next (E' p) = next (E p) ->
  (forall a, In a l -> E' (K + a) = E (K + a)) ->
  chain K E' k p l.
Proof.
  induction l as [|a l IH]; simpl; intros p H Hp Hl.
  - congruence.
  - destruct H as (H1 & H2 & H3 & H4).
    rewrite (Hl a (or_introl eq_refl)). repeat split; try congruence.
    apply IH; auto. rewrite (Hl a (or_introl eq_refl)). reflexivity.
Qed.

Lemma chain_key K E k : forall l p a,
  chain K E k p l -> In a l -> key (E (K + a)) = k.
Proof.
  induction l as [|b l IH]; simpl; intros p a H Hin; [contradiction|].
  destruct H as (_ & _ & H3 & H4). destruct Hin as [->|Hin]; eauto.
Qed.

Lemma chain_head K E k p l :
  0 <= K -> (forall a, In a l -> 0 <= a) ->
  chain K E k p l -> (next (E p) = -1 <-> l = []).
Proof.
  intros HK Hl H. destruct l as [|a l]; simpl in H.
  - tauto.
  - destruct H as (H1 & _). specialize (Hl a (or_introl eq_refl)).
    split; [lia | discriminate].
Qed.

Lemma chain_prev_mid K E k : forall l1 p a l2,
  chain K E k p (l1 ++ a :: l2) ->
  (l1 = [] /\ prev (E (K + a)) = p) \/
  (exists b, In b l1 /\ prev (E (K + a)) = K + b).
Proof.
  induction l1 as [|c l1 IH]; simpl; intros p a l2 H.
  - left. tauto.
  - right. destruct H as (_ & _ & _ & H).
    destruct (IH _ _ _ H) as [[-> Hp]|(b & Hb & Hp)]; eauto.
Qed.

Lemma chain_next_mid K E k : forall l1 p a l2,
  chain K E k p (l1 ++ a :: l2) ->
  (l2 = [] /\ next (E (K + a)) = -1) \/
  (exists b l2', l2 = b :: l2' /\ next (E (K + a)) = K + b).
Proof.
  induction l1 as [|c l1 IH]; simpl; intros p a l2 H.
  - destruct H as (_ & _ & _ & H). destruct l2 as [|b l2]; simpl in H.
    + left. tauto.
    + right. exists b, l2. tauto.
  - destruct H as (_ & _ & _ & H). eauto.
Qed.

(** Effect on the fields of the entries of unlinking the entry between
    [pred] and [succ]. *)
Definition unlinked (E E' : Z -> Entry) (pred succ : Z) : Prop :=
  (forall i, key (E' i) = key (E i)) /\
  (forall i, i <> pred -> next (E' i) = next (E i)) /\
  next (E' pred) = succ /\
  (forall i, i <> succ -> prev (E' i) = prev (E i)) /\
  (succ <> -1 -> prev (E' succ) = pred).

Lemma entry_eq (e e' : Entry) :
  key e = key e' -> prev e = prev e' -> next e = next e' -> e = e'.
Proof. destruct e, e'; simpl; congruence. Qed.

Lemma chain_unlink K E E' k : forall l1 p a l2,
  0 <= K ->
  (forall b, In b (l1 ++ a :: l2) -> 0 <= b /\ p <> K + b) ->
  NoDup (l1 ++ a :: l2) ->
  chain K E k p (l1 ++ a :: l2) ->
  unlinked E E' (prev (E (K + a))) (next (E (K + a))) ->
  chain K E' k p (l1 ++ l2).
Proof.
  intros l1 p a l2 HK. revert p.
  induction l1 as [|c l1 IH]; intros p Hr Hnd H (Uk & Un & Unp & Up & Ups).
  - simpl in *. destruct H as (H1 & H2 & H3 & H4).
    rewrite H2 in *.
    destruct l2 as [|b l2]; simpl in *.
    + congruence.
    + destruct H4 as (G1 & G2 & G3 & G4). rewrite G1 in *.
      assert (Hb : 0 <= b /\ p <> K + b) by (apply Hr; auto).
      assert (Hab : a <> b).
      { intros ->. inversion Hnd as [|? ? Hn _]. apply Hn. left. reflexivity. }
      repeat split; auto.
      * apply Ups. lia.
      * rewrite Uk. exact G3.
      * apply chain_frame with (E := E); auto.
        -- apply Un. lia.
        -- intros d Hd.
           assert (Hd' : 0 <= d /\ p <> K + d) by (apply Hr; auto).
           assert (d <> b).
           { intros ->. inversion Hnd as [|? ? _ Hnd'].
             inversion Hnd' as [|? ? Hn _]. tauto. }
           apply entry_eq; [apply Uk | apply Up; lia | apply Un; lia].
  - simpl in H. destruct H as (H1 & H2 & H3 & H4).
    assert (Hc : 0 <= c /\ p <> K + c) by (apply Hr; simpl; auto).
    assert (Hc' : ~ In c (l1 ++ a :: l2)) by (inversion Hnd; assumption).
    assert (Hnd' : NoDup (l1 ++ a :: l2)) by (inversion Hnd; assumption).
    assert (Hpred : exists b, In b (c :: l1) /\ prev (E (K + a)) = K + b).
    { destruct (chain_prev_mid _ _ _ _ _ _ _ H4) as [[-> Hp]|(b & Hb & Hp)].
      - exists c. simpl. auto.
      - exists b. simpl. auto. }
    destruct Hpred as (b & Hb & Hpred).
    assert (Hsucc : next (E (K + a)) = -1 \/
                    exists d, In d l2 /\ next (E (K + a)) = K + d).
    { destruct (chain_next_mid _ _ _ _ _ _ _ H4) as [[-> Hs]|(d & l2' & -> & Hs)].
      - auto.
      - right. exists d. simpl. auto. }
    assert (Hpb : p <> K + b).
    { apply Hr. simpl. rewrite in_app_iff. simpl in Hb. tauto. }
    assert (Hcs : K + c <> next (E (K + a))).
    { destruct Hsucc as [->|(d & Hd & ->)]; [lia|].
      intros Heq. apply Hc'. rewrite in_app_iff. right. right.
      replace c with d by lia. exact Hd. }
    simpl. repeat split.
    + rewrite Un by congruence. exact H1.
    + rewrite Up by exact Hcs. exact H2.
    + rewrite Uk. exact H3.
    + apply IH; auto.
      * intros d Hd. split; [apply Hr; simpl; auto|].
        intros Heq. apply Hc'. replace c with d by lia. exact Hd.
      * repeat split; auto.
Qed.

(** Effect on the fields of the entries of inserting the entry [kid]
    with key [k] behind the head of bucket [k], whose old first entry
    is [tmp]. *)
Definition inserted (E E' : Z -> Entry) (k kid tmp : Z) : Prop :=
  next (E' k) = kid /\ prev (E' kid) = k /\ key (E' kid) = k /\
  next (E' kid) = tmp /\ (tmp <> -1 -> prev (E' tmp) = kid) /\
  (forall i, i <> kid -> key (E' i) = key (E i)) /\
  (forall i, i <> k -> i <> kid -> next (E' i) = next (E i)) /\
  (forall i, i <> kid -> i <> tmp -> prev (E' i) = prev (E i)).

Lemma chain_insert K E E' k a l :
  0 <= K ->
  (forall b, In b l -> 0 <= b /\ k <> K + b) ->
  NoDup l -> ~ In a l -> k <> K + a ->
  chain K E k k l ->
  inserted E E' k (K + a) (next (E k)) ->
  chain K E' k k (a :: l).
Proof.
  intros HK Hr Hnd Ha Hka H (I1 & I2 & I3 & I4 & I5 & I6 & I7 & I8).
  simpl. repeat split; auto.
  destruct l as [|b l]; simpl in *.
  - congruence.
  - destruct H as (H1 & H2 & H3 & H4). rewrite H1 in *.
    assert (Hb : 0 <= b /\ k <> K + b) by (apply Hr; auto).
    assert (Hab : a <> b) by (intros ->; apply Ha; auto).
    repeat split; auto.
    + apply I5. lia.
    + rewrite I6 by lia. exact H3.
    + apply chain_frame with (E := E); auto.
      * apply I7; lia.
      * intros d Hd.
        assert (0 <= d /\ k <> K + d) by (apply Hr; auto).
        assert (d <> b) by (intros ->; inversion Hnd; tauto).
        assert (d <> a) by (intros ->; apply Ha; auto).
        apply entry_eq; [apply I6 | apply I8 | apply I7]; lia.
Qed.

End HeapChains.

Section HeapConcrete.
Import NKMinHeap.

Lemma ent_zset h i e j :
  ent (with_entries h (zset (mEntries h) i e)) j =
  if ((j =? i) && (0 <=? i) && (i <? zlength (mEntries h)))%bool then e else ent h j.
Proof. unfold ent. simpl. apply zget_zset. Qed.

Definition inr (h : t) (i : Z) : Prop := 0 <= i < zlength (mEntries h).

Lemma inr_dec h i : inr h i ->
  ((0 <=? i) && (i <? zlength (mEntries h)))%bool = true.
Proof.
  unfold inr. intros H. destruct (Z.leb_spec 0 i); [|lia].
  destruct (Z.ltb_spec i (zlength (mEntries h))); [|lia]. reflexivity.
Qed.

Lemma ent_set_next_eq h i v : inr h i ->
  ent (set_next i v h) i = mkEntry (key (ent h i)) (prev (ent h i)) v.
Proof.
  intros H. unfold set_next. rewrite ent_zset, Z.eqb_refl. simpl.
  now rewrite inr_dec.
Qed.

Lemma ent_set_next_ne h i v j : j <> i -> ent (set_next i v h) j = ent h j.
Proof.
  intros H. unfold set_next. rewrite ent_zset.
  destruct (Z.eqb_spec j i); [contradiction | reflexivity].
Qed.

Lemma ent_set_prev_eq h i v : inr h i ->
  ent (set_prev i v h) i = mkEntry (key (ent h i)) v (next (ent h i)).
Proof.
  intros H. unfold set_prev. rewrite ent_zset, Z.eqb_refl. simpl.
  now rewrite inr_dec.
Qed.

Lemma ent_set_prev_ne h i v j : j <> i -> ent (set_prev i v h) j = ent h j.
Proof.
  intros H. unfold set_prev. rewrite ent_zset.
  destruct (Z.eqb_spec j i); [contradiction | reflexivity].
Qed.

Lemma ent_set_key_eq h i v : inr h i ->
  ent (set_key i v h) i = mkEntry v (prev (ent h i)) (next (ent h i)).
Proof.
  intros H. unfold set_key. rewrite ent_zset, Z.eqb_refl. simpl.
  now rewrite inr_dec.
Qed.

Lemma ent_set_key_ne h i v j : j <> i -> ent (set_key i v h) j = ent h j.
Proof.
  intros H. unfold set_key. rewrite ent_zset.
  destruct (Z.eqb_spec j i); [contradiction | reflexivity].
Qed.

(** Fieldwise effect of the three setters, in or out of range. *)
Lemma key_set_next h i v j : key (ent (set_next i v h) j) = key (ent h j).
Proof.
  unfold set_next. rewrite ent_zset.
  destruct (Z.eqb_spec j i) as [->|]; simpl; [|reflexivity].
  destruct (_ && _)%bool; reflexivity.
Qed.

Lemma prev_set_next h i v j : prev (ent (set_next i v h) j) = prev (ent h j).
Proof.
  unfold set_next. rewrite ent_zset.
  destruct (Z.eqb_spec j i) as [->|]; simpl; [|reflexivity].
  destruct (_ && _)%bool; reflexivity.
Qed.

Lemma key_set_prev h i v j : key (ent (set_prev i v h) j) = key (ent h j).
Proof.
  unfold set_prev. rewrite ent_zset.
  destruct (Z.eqb_spec j i) as [->|]; simpl; [|reflexivity].
  destruct (_ && _)%bool; reflexivity.
Qed.

Lemma next_set_prev h i v j : next (ent (set_prev i v h) j) = next (ent h j).
Proof.
  unfold set_prev. rewrite ent_zset.
  destruct (Z.eqb_spec j i) as [->|]; simpl; [|reflexivity].
  destruct (_ && _)%bool; reflexivity.
Qed.

Lemma prev_set_key h i v j : prev (ent (set_key i v h) j) = prev (ent h j).
Proof.
  unfold set_key. rewrite ent_zset.
  destruct (Z.eqb_spec j i) as [->|]; simpl; [|reflexivity].
  destruct (_ && _)%bool; reflexivity.
Qed.

Lemma next_set_key h i v j : next (ent (set_key i v h) j) = next (ent h j).
Proof.
  unfold set_key. rewrite ent_zset.
  destruct (Z.eqb_spec j i) as [->|]; simpl; [|reflexivity].
  destruct (_ && _)%bool; reflexivity.
Qed.

Lemma inr_set_next h i v j : inr (set_next i v h) j <-> inr h j.
Proof. unfold inr, set_next. simpl. now rewrite zlength_zset. Qed.

Lemma inr_set_prev h i v j : inr (set_prev i v h) j <-> inr h j.
Proof. unfold inr, set_prev. simpl. now rewrite zlength_zset. Qed.

Lemma inr_set_key h i v j : inr (set_key i v h) j <-> inr h j.
Proof. unfold inr, set_key. simpl. now rewrite zlength_zset. Qed.

Lemma unlink_fields h kid :
  mN (unlink kid h) = mN h /\ mK (unlink kid h) = mK h /\
  mSize (unlink kid h) = mSize h /\ mMinKey (unlink kid h) = mMinKey h /\
  zlength (mEntries (unlink kid h)) = zlength (mEntries h).
Proof.
  unfold unlink. destruct (_ =? -1); simpl; rewrite ?zlength_zset; auto.
Qed.

Lemma unlink_unlinked h kid :
  inr h (prev (ent h kid)) ->
  (next (ent h kid) = -1 \/ inr h (next (ent h kid))) ->
  unlinked (ent h) (ent (unlink kid h)) (prev (ent h kid)) (next (ent h kid)).
Proof.
  intros Hp Hs. unfold unlink.
  set (pred := prev (ent h kid)) in *. set (succ := next (ent h kid)) in *.
  destruct (Z.eqb_spec succ (-1)) as [Hs1|Hs1].
  - repeat split.
    + intros i. apply key_set_next.
    + intros i Hi. now rewrite ent_set_next_ne.
    + now rewrite ent_set_next_eq.
    + intros i _. apply prev_set_next.
    + intros Hc. contradiction.
  - destruct Hs as [Hs|Hs]; [contradiction|].
    repeat split.
    + intros i. now rewrite key_set_prev, key_set_next.
    + intros i Hi. now rewrite next_set_prev, ent_set_next_ne.
    + now rewrite next_set_prev, ent_set_next_eq.
    + intros i Hi. now rewrite ent_set_prev_ne, prev_set_next.
    + intros _. rewrite ent_set_prev_eq; [reflexivity|]. now apply inr_set_next.
Qed.

Lemma scanFrom_spec h : forall fuel m,
  (Z.to_nat (mK h - m) <= fuel)%nat ->
  let r := scanFrom fuel h m in
  m <= r /\
  (forall k, m <= k < r -> next (ent h k) = -1) /\
  (r < mK h -> next (ent h r) <> -1).
Proof.
  induction fuel as [|fuel IH]; intros m Hf; simpl.
  - repeat split; lia.
  - destruct (Z.ltb_spec m (mK h)) as [Hm|Hm].
    + destruct (Z.eqb_spec (next (ent h m)) (-1)) as [Hn|Hn]; simpl.
      * destruct (IH (m + 1)) as (I1 & I2 & I3); [lia|].
        repeat split; [lia | | exact I3].
        intros k Hk. destruct (Z.eq_dec k m) as [->|]; [exact Hn|]. apply I2. lia.
      * repeat split; [lia | lia | auto].
    + repeat split; lia.
Qed.

End HeapConcrete.

Section HeapShape.
Import NKMinHeap.

Lemma fupd_eq bk k l : fupd bk k l k = l.
Proof. unfold fupd. now rewrite Z.eqb_refl. Qed.

Lemma fupd_ne bk k l k' : k' <> k -> fupd bk k l k' = bk k'.
Proof. unfold fupd. intros H. destruct (Z.eqb_spec k' k); [contradiction | reflexivity]. Qed.

Lemma shape_key {N K E bk all k a} :
  Shape N K E bk all -> 0 <= k < K -> In a (bk k) -> key (E (K + a)) = k.
Proof. intros S Hk Ha. eapply chain_key; [apply (shape_chain S); exact Hk | exact Ha]. Qed.

Lemma shape_bucket_range {N K E bk all k a} :
  Shape N K E bk all -> 0 <= k < K -> In a (bk k) -> 0 <= a < N.
Proof.
  intros S Hk Ha. apply (shape_range S). apply (shape_in S). eauto.
Qed.

Lemma shape_disjoint {N K E bk all k k' a} :
  Shape N K E bk all -> 0 <= k < K -> 0 <= k' < K ->
  In a (bk k) -> In a (bk k') -> k = k'.
Proof.
  intros S Hk Hk' Ha Ha'.
  rewrite <- (shape_key S Hk Ha). apply (shape_key S Hk' Ha').
Qed.

Lemma in_remove_mid {A : Type} (l1 l2 : list A) (a x : A) :
  NoDup (l1 ++ a :: l2) -> (In x (l1 ++ l2) <-> In x (l1 ++ a :: l2) /\ x <> a).
Proof.
  intros Hnd. pose proof (NoDup_remove_2 _ _ _ Hnd) as Hn.
  rewrite !in_app_iff in *. simpl. split.
  - intros H. split; [tauto|]. intros ->. tauto.
  - intros [[H|[H|H]] Hne]; auto. congruence.
Qed.

(** Removal of a stored identifier from its bucket. *)
Lemma Shape_unlink N K E E' bk all ko id l1 l2 a1 a2 :
  Shape N K E bk all ->
  0 <= ko < K -> bk ko = l1 ++ id :: l2 -> all = a1 ++ id :: a2 ->
  unlinked E E' (prev (E (K + id))) (next (E (K + id))) ->
  Shape N K E' (fupd bk ko (l1 ++ l2)) (a1 ++ a2).
Proof.
  intros S Hko Hbk Hall U.
  pose proof (shape_chain S Hko) as Hch. rewrite Hbk in Hch.
  pose proof (shape_nodup S Hko) as Hnd. rewrite Hbk in Hnd.
  pose proof (shape_all_nodup S) as Hnda. rewrite Hall in Hnda.
  assert (Hr : forall b, In b (l1 ++ id :: l2) -> 0 <= b /\ ko <> K + b).
  { intros b Hb. rewrite <- Hbk in Hb.
    pose proof (shape_bucket_range S Hko Hb). lia. }
  assert (Hpred : prev (E (K + id)) = ko \/
                  exists b, In b l1 /\ prev (E (K + id)) = K + b).
  { destruct (chain_prev_mid _ _ _ _ _ _ _ Hch) as [[_ Hp]|(b & Hb & Hp)]; eauto. }
  assert (Hsucc : next (E (K + id)) = -1 \/
                  exists d, In d l2 /\ next (E (K + id)) = K + d).
  { destruct (chain_next_mid _ _ _ _ _ _ _ Hch) as [[_ Hs]|(d & l2' & -> & Hs)].
    - auto.
    - right. exists d. simpl. auto. }
  constructor.
  - apply (shape_N S).
  - apply (shape_K S).
  - intros k Hk. destruct (Z.eq_dec k ko) as [->|Hne].
    + rewrite fupd_eq. eapply chain_unlink; eauto. apply (shape_K S).
    + rewrite fupd_ne by exact Hne.
      destruct U as (Uk & Un & Unp & Up & Ups).
      apply chain_frame with (E := E); [apply (shape_chain S Hk) | |].
      * apply Un. destruct Hpred as [->|(b & Hb & ->)]; [exact Hne|].
        assert (0 <= b) by (apply Hr; rewrite in_app_iff; auto). lia.
      * intros a Ha.
        assert (Hak : forall b, In b (bk ko) -> a <> b).
        { intros b Hb ->. apply Hne. eapply shape_disjoint; eauto. }
        pose proof (shape_bucket_range S Hk Ha) as Har.
        apply entry_eq; [apply Uk | apply Up | apply Un].
        -- destruct Hsucc as [->|(d & Hd & ->)]; [lia|].
           assert (a <> d) by (apply Hak; rewrite Hbk, in_app_iff; simpl; auto).
           lia.
        -- destruct Hpred as [->|(b & Hb & ->)]; [lia|].
           assert (a <> b) by (apply Hak; rewrite Hbk, in_app_iff; simpl; auto).
           lia.
  - intros k Hk. destruct (Z.eq_dec k ko) as [->|Hne].
    + rewrite fupd_eq. eapply NoDup_remove_1; eauto.
    + rewrite fupd_ne by exact Hne. apply (shape_nodup S Hk).
  - eapply NoDup_remove_1; eauto.
  - intros x. rewrite (in_remove_mid _ _ _ _ Hnda), <- Hall, (shape_in S). split.
    + intros [(k & Hk & Hx) Hne]. exists k. split; [exact Hk|].
      destruct (Z.eq_dec k ko) as [->|Hkk].
      * rewrite fupd_eq. apply (in_remove_mid _ _ _ _ Hnd). rewrite <- Hbk. auto.
      * now rewrite fupd_ne.
    + intros (k & Hk & Hx). destruct (Z.eq_dec k ko) as [->|Hkk].
      * rewrite fupd_eq in Hx. apply (in_remove_mid _ _ _ _ Hnd) in Hx.
        rewrite <- Hbk in Hx. split; [exists ko; tauto | tauto].
      * rewrite fupd_ne in Hx by exact Hkk. split; [eauto|].
        intros ->. apply Hkk. eapply shape_disjoint; eauto.
        rewrite Hbk, in_app_iff. simpl. auto.
  - intros x Hx. apply (shape_range S). rewrite Hall.
    apply (in_remove_mid _ _ _ _ Hnda) in Hx. tauto.
Qed.

(** Entries that belong to no chain may change freely. *)
Lemma Shape_frame N K E E' bk all :
  Shape N K E bk all ->
  (forall k, 0 <= k < K -> next (E' k) = next (E k)) ->
  (forall a, In a all -> E' (K + a) = E (K + a)) ->
  Shape N K E' bk all.
Proof.
  intros S Hh He. constructor; try apply S.
  intros k Hk. apply chain_frame with (E := E); [apply (shape_chain S Hk) | auto |].
  intros a Ha. apply He. apply (shape_in S). eauto.
Qed.

(** Insertion of a fresh identifier at the head of a bucket. *)
Lemma Shape_insert N K E E' bk all k id :
  Shape N K E bk all ->
  0 <= k < K -> 0 <= id < N -> ~ In id all ->
  inserted E E' k (K + id) (next (E k)) ->
  Shape N K E' (fupd bk k (id :: bk k)) (id :: all).
Proof.
  intros S Hk Hid Hnin I.
  assert (Hnb : forall k', 0 <= k' < K -> ~ In id (bk k')).
  { intros k' Hk' Hc. apply Hnin. apply (shape_in S). eauto. }
  assert (Htmp : next (E k) = -1 \/ exists b, In b (bk k) /\ next (E k) = K + b).
  { pose proof (shape_chain S Hk) as Hch. destruct (bk k) as [|b l]; simpl in Hch.
    - auto.
    - right. exists b. simpl. tauto. }
  constructor.
  - apply (shape_N S).
  - apply (shape_K S).
  - intros k' Hk'. destruct (Z.eq_dec k' k) as [->|Hne].
    + rewrite fupd_eq. apply chain_insert with (E := E); auto.
      * apply (shape_K S).
      * intros b Hb. pose proof (shape_bucket_range S Hk Hb). lia.
      * apply (shape_nodup S Hk).
      * lia.
      * apply (shape_chain S Hk).
    + rewrite fupd_ne by exact Hne.
      destruct I as (I1 & I2 & I3 & I4 & I5 & I6 & I7 & I8).
      apply chain_frame with (E := E); [apply (shape_chain S Hk') | |].
      * apply I7; lia.
      * intros a Ha.
        pose proof (shape_bucket_range S Hk' Ha) as Har.
        assert (a <> id) by (intros ->; apply (Hnb k'); auto).
        apply entry_eq; [apply I6 | apply I8 | apply I7]; try lia.
        destruct Htmp as [->|(b & Hb & ->)]; [lia|].
        assert (a <> b).
        { intros ->. apply Hne. eapply shape_disjoint; eauto. }
        lia.
  - intros k' Hk'. destruct (Z.eq_dec k' k) as [->|Hne].
    + rewrite fupd_eq. constructor; [apply Hnb; exact Hk | apply (shape_nodup S Hk)].
    + rewrite fupd_ne by exact Hne. apply (shape_nodup S Hk').
  - constructor; [exact Hnin | apply (shape_all_nodup S)].
  - intros x. simpl. rewrite (shape_in S). split.
    + intros [<-|(k' & Hk' & Hx)].
      * exists k. split; [exact Hk|]. rewrite fupd_eq. simpl. auto.
      * exists k'. split; [exact Hk'|]. destruct (Z.eq_dec k' k) as [->|Hne].
        -- rewrite fupd_eq. simpl. auto.
        -- now rewrite fupd_ne.
    + intros (k' & Hk' & Hx). destruct (Z.eq_dec k' k) as [->|Hne].
      * rewrite fupd_eq in Hx. simpl in Hx. destruct Hx; eauto.
      * rewrite fupd_ne in Hx by exact Hne. eauto.
  - intros x [<-|Hx]; [exact Hid | apply (shape_range S); exact Hx].
Qed.

Lemma shape_empty_all {N K E bk all} :
  Shape N K E bk all -> all = [] -> forall k, 0 <= k < K -> bk k = [].
Proof.
  intros S -> k Hk. destruct (bk k) as [|a l] eqn:Hb; [reflexivity|].
  exfalso. assert (In a []) by (apply (shape_in S); exists k; rewrite Hb; simpl; auto).
  contradiction.
Qed.

Lemma shape_nonempty_head {N K E bk all k} :
  Shape N K E bk all -> 0 <= k < K -> (next (E k) = -1 <-> bk k = []).
Proof.
  intros S Hk. apply chain_head with (K := K) (k := k).
  - apply (shape_K S).
  - intros a Ha. pose proof (shape_bucket_range S Hk Ha). lia.
  - apply (shape_chain S Hk).
Qed.

(** The forward scan finds the first bucket that is not empty. *)
Lemma MinOK_scan h bk all m :
  Shape (mN h) (mK h) (ent h) bk all ->
  all <> [] -> 0 <= m ->
  (forall k, 0 <= k < m -> bk k = []) ->
  MinOK (mK h) (zlength all) (scanFrom (Z.to_nat (mK h - m)) h m) bk.
Proof.
  intros S Hne Hm Hlow.
  destruct (scanFrom_spec h (Z.to_nat (mK h - m)) m (le_n _)) as (R1 & R2 & R3).
  set (r := scanFrom (Z.to_nat (mK h - m)) h m) in *.
  destruct all as [|x all'] eqn:Hall; [congruence|]. rewrite <- Hall in *.
  assert (Hx : In x all) by (rewrite Hall; simpl; auto).
  apply (shape_in S) in Hx. destruct Hx as (k0 & Hk0 & Hx).
  assert (Hk0m : m <= k0).
  { destruct (Z_lt_le_dec k0 m); [|assumption].
    rewrite Hlow in Hx by lia. contradiction. }
  assert (Hrk : r <= k0).
  { destruct (Z_lt_le_dec k0 r) as [Hlt|]; [|assumption].
    assert (Hn : next (ent h k0) = -1) by (apply R2; lia).
    apply (shape_nonempty_head S Hk0) in Hn. rewrite Hn in Hx. contradiction. }
  split.
  - intros Hz. rewrite Hall in Hz. unfold zlength in Hz. simpl in Hz. lia.
  - intros _. split; [lia|]. split.
    + intros Hc. apply (shape_nonempty_head S) in Hc; [|lia]. apply R3; [lia | exact Hc].
    + intros k Hk. destruct (Z_lt_le_dec k m); [apply Hlow; lia|].
      apply (shape_nonempty_head S); [lia|]. apply R2. lia.
Qed.

End HeapShape.

Section HeapOps.
Import NKMinHeap.

Lemma ent_with_size h s i : ent (with_size h s) i = ent h i.
Proof. reflexivity. Qed.

Lemma ent_with_minKey h m i : ent (with_minKey h m) i = ent h i.
Proof. reflexivity. Qed.

Lemma shape_neighbours {N K E bk all ko id l1 l2} :
  Shape N K E bk all -> 0 <= ko < K -> bk ko = l1 ++ id :: l2 ->
  (prev (E (K + id)) = ko \/ exists b, In b l1 /\ prev (E (K + id)) = K + b) /\
  (next (E (K + id)) = -1 \/ exists d, In d l2 /\ next (E (K + id)) = K + d).
Proof.
  intros S Hko Hbk.
  pose proof (shape_chain S Hko) as Hch. rewrite Hbk in Hch. split.
  - destruct (chain_prev_mid _ _ _ _ _ _ _ Hch) as [[_ Hp]|(b & Hb & Hp)]; eauto.
  - destruct (chain_next_mid _ _ _ _ _ _ _ Hch) as [[_ Hs]|(d & l2' & -> & Hs)].
    + auto.
    + right. exists d. simpl. auto.
Qed.

Lemma init_Inv N K : 0 <= N -> 0 <= K -> Inv (init N K).
Proof.
  intros HN HK. exists (fun _ => []), []. unfold init, getKey, ent. simpl.
  split; [|split; [|split; [|split]]].
  - constructor; simpl; auto.
    + intros k _. apply (f_equal next (zget_repeat Entry0 _ _)).
    + intros k _. constructor.
    + constructor.
    + intros id. split; [tauto|]. intros (k & _ & []).
    + tauto.
  - unfold zlength. rewrite repeat_length. lia.
  - intros id _ _. apply (f_equal key (zget_repeat Entry0 _ _)).
  - reflexivity.
  - split; [reflexivity | congruence].
Qed.

(** The representation after the removal block of [setKey]. *)
Lemma removeOld_spec h bk all id :
  Shape (mN h) (mK h) (ent h) bk all ->
  zlength (mEntries h) = mN h + mK h ->
  mSize h = zlength all ->
  MinOK (mK h) (mSize h) (mMinKey h) bk ->
  In id all ->
  let h1 := removeOld (mK h + id) h in
  exists bk1 all1,
    Shape (mN h) (mK h) (ent h1) bk1 all1 /\
    mN h1 = mN h /\ mK h1 = mK h /\
    zlength (mEntries h1) = mN h + mK h /\
    mSize h1 = zlength all1 /\
    MinOK (mK h) (mSize h1) (mMinKey h1) bk1 /\
    (forall x, In x all1 <-> In x all /\ x <> id) /\
    (forall i, key (ent h1 i) = key (ent h i)) /\
    mSize h1 = mSize h - 1.
Proof.
  intros S Hlen Hsz Hmin Hid h1.
  pose proof (shape_K S) as HK. pose proof (shape_N S) as HN.
  destruct (proj1 (shape_in S id) Hid) as (ko & Hko & Hidb).
  destruct (in_split _ _ Hidb) as (l1 & l2 & Hbk).
  destruct (in_split _ _ Hid) as (a1 & a2 & Hall).
  destruct (shape_neighbours S Hko Hbk) as (Hpred & Hsucc).
  assert (Hrb : forall b, In b (bk ko) -> 0 <= b < mN h).
  { intros b Hb. apply (shape_bucket_range S Hko Hb). }
  assert (U : unlinked (ent h) (ent (unlink (mK h + id) h))
                (prev (ent h (mK h + id))) (next (ent h (mK h + id)))).
  { apply unlink_unlinked; unfold inr; rewrite Hlen.
    - destruct Hpred as [->|(b & Hb & ->)]; [lia|].
      assert (0 <= b < mN h) by (apply Hrb; rewrite Hbk, in_app_iff; auto). lia.
    - destruct Hsucc as [->|(d & Hd & ->)]; [auto|]. right.
      assert (0 <= d < mN h) by (apply Hrb; rewrite Hbk, in_app_iff; simpl; auto).
      lia. }
  pose proof (Shape_unlink _ _ _ _ _ _ _ _ _ _ _ _ S Hko Hbk Hall U) as S1.
  destruct (unlink_fields h (mK h + id)) as (F1 & F2 & F3 & F4 & F5).
  set (hu := unlink (mK h + id) h) in *.
  set (bk1 := fupd bk ko (l1 ++ l2)) in *.
  pose proof (shape_all_nodup S) as Hnda. rewrite Hall in Hnda.
  assert (Hlen1 : zlength all = zlength (a1 ++ a2) + 1).
  { rewrite Hall. unfold zlength. rewrite !length_app. simpl. lia. }
  assert (Hkey : key (ent hu (mK h + id)) = ko).
  { destruct U as (Uk & _). rewrite Uk. apply (shape_key S Hko Hidb). }
  assert (Hmko : mMinKey h <= ko /\ 0 <= mMinKey h).
  { destruct Hmin as (_ & Hm). destruct Hm as (Hm1 & Hm2 & Hm3).
    - rewrite Hsz, Hlen1. pose proof (zlength_nonneg (a1 ++ a2)). lia.
    - split; [|lia]. destruct (Z_lt_le_dec ko (mMinKey h)); [|assumption].
      rewrite Hm3 in Hidb by lia. contradiction. }
  assert (Hlow : forall k, 0 <= k < mMinKey h -> bk1 k = []).
  { intros k Hk. unfold bk1. rewrite fupd_ne by lia.
    destruct Hmin as (_ & Hm). apply Hm; [|lia].
    rewrite Hsz, Hlen1. pose proof (zlength_nonneg (a1 ++ a2)). lia. }
  exists bk1, (a1 ++ a2).
  assert (Hent : forall i, ent h1 i = ent hu i).
  { intros i. unfold h1, removeOld. fold hu.
    destruct (_ =? mMinKey hu); [destruct (mSize hu =? 1)|]; reflexivity. }
  assert (HS1 : Shape (mN h) (mK h) (ent h1) bk1 (a1 ++ a2)).
  { apply Shape_frame with (E := ent hu);
      [exact S1 | intros; now rewrite Hent | intros; now rewrite Hent]. }
  assert (Hsz1 : mSize h1 = mSize h - 1).
  { unfold h1, removeOld. fold hu.
    destruct (_ =? mMinKey hu); [destruct (mSize hu =? 1)|]; simpl; lia. }
  split; [exact HS1|].
  split. { unfold h1, removeOld. fold hu.
    destruct (_ =? mMinKey hu); [destruct (mSize hu =? 1)|]; simpl; lia. }
  split. { unfold h1, removeOld. fold hu.
    destruct (_ =? mMinKey hu); [destruct (mSize hu =? 1)|]; simpl; lia. }
  split. { unfold h1, removeOld. fold hu.
    destruct (_ =? mMinKey hu); [destruct (mSize hu =? 1)|]; simpl; lia. }
  split; [lia|].
  split.
  { rewrite Hsz1, Hsz, Hlen1. replace (zlength (a1 ++ a2) + 1 - 1) with (zlength (a1 ++ a2)) by lia.
    unfold h1, removeOld. fold hu. rewrite Hkey, F4, F3.
    destruct (Z.eqb_spec ko (mMinKey h)) as [Heq|Hneq].
    - destruct (Z.eqb_spec (mSize h) 1) as [H1|H1]; simpl.
      + split; [reflexivity|]. intros Hc. lia.
      + unfold scanMin; simpl. rewrite F2, F4.
        assert (Hne : a1 ++ a2 <> []).
        { intros Hc. rewrite Hc in Hlen1. change (zlength (@nil Z)) with 0 in Hlen1. lia. }
        pose proof (MinOK_scan hu bk1 (a1 ++ a2) (mMinKey h)) as M.
        rewrite F1, F2 in M. apply M; auto. lia.
    - simpl. rewrite F4. pose proof (zlength_nonneg (a1 ++ a2)) as Hnn. split.
      + intros Hz. exfalso.
        destruct Hmin as (_ & Hm). destruct Hm as (Hm1 & Hm2 & Hm3); [lia|].
        destruct (bk (mMinKey h)) as [|x lx] eqn:Hbm; [congruence|].
        assert (Hx : In x all).
        { apply (shape_in S). exists (mMinKey h). rewrite Hbm. simpl. auto. }
        assert (Hxx : In x (a1 ++ a2)).
        { apply (in_remove_mid _ _ _ _ Hnda). rewrite <- Hall. split; [exact Hx|].
          intros ->. apply Hneq. apply (shape_disjoint S Hko Hm1 Hidb).
          rewrite Hbm. simpl. auto. }
        destruct (a1 ++ a2); [contradiction|]. unfold zlength in Hz. simpl in Hz. lia.
      + intros Hnz. destruct Hmin as (_ & Hm).
        destruct Hm as (Hm1 & Hm2 & Hm3); [lia|].
        split; [exact Hm1|]. split; [|exact Hlow].
        unfold bk1. rewrite fupd_ne by lia. exact Hm2. }
  split.
  { intros x. rewrite (in_remove_mid _ _ _ _ Hnda), <- Hall. tauto. }
  split; [|exact Hsz1].
  intros i. rewrite Hent. destruct U as (Uk & _). apply Uk.
Qed.

End HeapOps.

Section HeapInsert.
Import NKMinHeap.

Lemma next_set_next h i v j : inr h i ->
  next (ent (set_next i v h) j) = if j =? i then v else next (ent h j).
Proof.
  intros H. destruct (Z.eqb_spec j i) as [->|Hne].
  - now rewrite ent_set_next_eq.
  - now rewrite ent_set_next_ne.
Qed.

Lemma prev_set_prev h i v j : inr h i ->
  prev (ent (set_prev i v h) j) = if j =? i then v else prev (ent h j).
Proof.
  intros H. destruct (Z.eqb_spec j i) as [->|Hne].
  - now rewrite ent_set_prev_eq.
  - now rewrite ent_set_prev_ne.
Qed.

Lemma key_set_key h i v j : inr h i ->
  key (ent (set_key i v h) j) = if j =? i then v else key (ent h j).
Proof.
  intros H. destruct (Z.eqb_spec j i) as [->|Hne].
  - now rewrite ent_set_key_eq.
  - now rewrite ent_set_key_ne.
Qed.

Lemma insertNew_fields h kid k :
  mN (insertNew kid k h) = mN h /\ mK (insertNew kid k h) = mK h /\
  mSize (insertNew kid k h) = mSize h + 1 /\
  mMinKey (insertNew kid k h) = (if mMinKey h =? -1 then k else Z.min (mMinKey h) k) /\
  zlength (mEntries (insertNew kid k h)) = zlength (mEntries h).
Proof.
  unfold insertNew. destruct (_ =? -1); simpl; rewrite ?zlength_zset; auto.
Qed.

Lemma insertNew_inserted h kid k :
  inr h k -> inr h kid -> k <> kid ->
  (next (ent h k) = -1 \/ inr h (next (ent h k))) ->
  next (ent h k) <> kid -> next (ent h k) <> k ->
  inserted (ent h) (ent (insertNew kid k (set_key kid k h))) k kid (next (ent h k)).
Proof.
  intros Hk Hkid Hne Htmp Htk Htkk.
  unfold insertNew.
  set (h2 := set_key kid k h).
  set (ha := with_minKey (with_size h2 (mSize h2 + 1)) _).
  assert (Ea : forall i, ent ha i = ent h2 i) by reflexivity.
  assert (Ra : forall i, inr ha i <-> inr h i).
  { intros i. unfold ha, inr. simpl. now rewrite zlength_zset. }
  assert (Htmp' : next (ent ha k) = next (ent h k)).
  { rewrite Ea. unfold h2. apply next_set_key. }
  rewrite Htmp'. set (tmp := next (ent h k)) in *.
  set (hb := set_next k kid ha).
  set (hc := set_prev kid k hb).
  set (hd := set_next kid tmp hc).
  assert (Rb : forall i, inr hb i <-> inr h i).
  { intros i. unfold hb. rewrite inr_set_next. apply Ra. }
  assert (Rc : forall i, inr hc i <-> inr h i).
  { intros i. unfold hc. rewrite inr_set_prev. apply Rb. }
  assert (Rd : forall i, inr hd i <-> inr h i).
  { intros i. unfold hd. rewrite inr_set_next. apply Rc. }
  assert (Kd : forall i, key (ent hd i) = if i =? kid then k else key (ent h i)).
  { intros i. unfold hd, hc, hb. rewrite key_set_next, key_set_prev, key_set_next, Ea.
    unfold h2. now apply key_set_key. }
  assert (Nd : forall i, next (ent hd i) =
             if i =? kid then tmp else if i =? k then kid else next (ent h i)).
  { intros i. unfold hd. rewrite next_set_next by (apply Rc; exact Hkid).
    destruct (i =? kid); [reflexivity|].
    unfold hc. rewrite next_set_prev. unfold hb.
    rewrite next_set_next by (apply Ra; exact Hk).
    destruct (i =? k); [reflexivity|]. rewrite Ea. unfold h2. apply next_set_key. }
  assert (Pd : forall i, prev (ent hd i) = if i =? kid then k else prev (ent h i)).
  { intros i. unfold hd. rewrite prev_set_next. unfold hc.
    rewrite prev_set_prev by (apply Rb; exact Hkid).
    destruct (i =? kid); [reflexivity|].
    unfold hb. rewrite prev_set_next, Ea. unfold h2. apply prev_set_key. }
  assert (Hfin : forall i,
    key (ent (if tmp =? -1 then hd else set_prev tmp kid hd) i) = key (ent hd i) /\
    next (ent (if tmp =? -1 then hd else set_prev tmp kid hd) i) = next (ent hd i) /\
    prev (ent (if tmp =? -1 then hd else set_prev tmp kid hd) i) =
      if (negb (tmp =? -1) && (i =? tmp))%bool then kid else prev (ent hd i)).
  { intros i. destruct (Z.eqb_spec tmp (-1)) as [Ht|Ht]; simpl; [auto|].
    rewrite key_set_prev, next_set_prev. repeat split.
    apply prev_set_prev. apply Rd. destruct Htmp; [contradiction | assumption]. }
  unfold inserted.
  repeat split.
  - destruct (Hfin k) as (_ & -> & _). rewrite Nd.
    destruct (Z.eqb_spec k kid); [contradiction|]. now rewrite Z.eqb_refl.
  - destruct (Hfin kid) as (_ & _ & ->). rewrite Pd, Z.eqb_refl.
    destruct (Z.eqb_spec kid tmp); [congruence|]. now rewrite andb_false_r.
  - destruct (Hfin kid) as (-> & _). now rewrite Kd, Z.eqb_refl.
  - destruct (Hfin kid) as (_ & -> & _). now rewrite Nd, Z.eqb_refl.
  - intros Ht. destruct (Hfin tmp) as (_ & _ & ->). rewrite Z.eqb_refl.
    destruct (Z.eqb_spec tmp (-1)); [contradiction | reflexivity].
  - intros i Hi. destruct (Hfin i) as (-> & _). rewrite Kd.
    destruct (Z.eqb_spec i kid); [contradiction | reflexivity].
  - intros i Hi1 Hi2. destruct (Hfin i) as (_ & -> & _). rewrite Nd.
    destruct (Z.eqb_spec i kid); [contradiction|].
    destruct (Z.eqb_spec i k); [contradiction | reflexivity].
  - intros i Hi1 Hi2. destruct (Hfin i) as (_ & _ & ->). rewrite Pd.
    destruct (Z.eqb_spec i tmp); [contradiction|]. rewrite andb_false_r.
    destruct (Z.eqb_spec i kid); [contradiction | reflexivity].
Qed.

End HeapInsert.

Section HeapSetKey.
Import NKMinHeap.

Lemma MinOK_insert N K E bk all m k id :
  Shape N K E bk all -> MinOK K (zlength all) m bk -> 0 <= k < K ->
  MinOK K (zlength all + 1) (if m =? -1 then k else Z.min m k) (fupd bk k (id :: bk k)).
Proof.
  intros S (M0 & M1) Hk. pose proof (zlength_nonneg all) as Hnn.
  split; [lia|]. intros _.
  destruct all as [|x all'] eqn:Hall.
  - rewrite M0 by reflexivity. simpl. split; [exact Hk|]. split.
    + rewrite fupd_eq. discriminate.
    + intros k' Hk'. rewrite fupd_ne by lia. apply (shape_empty_all S eq_refl). lia.
  - destruct M1 as (Hm1 & Hm2 & Hm3).
    { unfold zlength. simpl. lia. }
    destruct (Z.eqb_spec m (-1)); [lia|].
    destruct (Z_le_gt_dec k m) as [Hle|Hgt].
    + rewrite Z.min_r by lia. split; [exact Hk|]. split.
      * rewrite fupd_eq. discriminate.
      * intros k' Hk'. rewrite fupd_ne by lia. apply Hm3. lia.
    + rewrite Z.min_l by lia. split; [exact Hm1|]. split.
      * rewrite fupd_ne by lia. exact Hm2.
      * intros k' Hk'. rewrite fupd_ne by lia. apply Hm3. lia.
Qed.

Lemma Inv_intro h bk all :
  Shape (mN h) (mK h) (ent h) bk all ->
  zlength (mEntries h) = mN h + mK h ->
  (forall id, 0 <= id < mN h -> ~ In id all -> getKey h id = -1) ->
  mSize h = zlength all ->
  MinOK (mK h) (mSize h) (mMinKey h) bk ->
  Inv h.
Proof. intros. exists bk, all. auto. Qed.

(** The second half of [setKey]: the new key of [ID] is written and, unless
    it is [-1], [ID] is linked into its bucket. *)
Lemma setKey_finish h bk all ID k :
  Shape (mN h) (mK h) (ent h) bk all ->
  zlength (mEntries h) = mN h + mK h ->
  mSize h = zlength all ->
  MinOK (mK h) (mSize h) (mMinKey h) bk ->
  0 <= ID < mN h -> ~ In ID all ->
  (forall j, 0 <= j < mN h -> j <> ID -> ~ In j all -> getKey h j = -1) ->
  -1 <= k < mK h ->
  let kid := mK h + ID in
  let h2 := set_key kid k h in
  let h' := if k =? -1 then set_next kid (-1) (set_prev kid (-1) h2)
            else insertNew kid k h2 in
  Inv h' /\ mN h' = mN h /\ mK h' = mK h /\ getKey h' ID = k /\
  (forall j, j <> ID -> getKey h' j = getKey h j) /\
  mSize h' = mSize h + (if k =? -1 then 0 else 1).
Proof.
  intros S Hlen Hsz Hmin HID Hnin Hout Hk kid h2 h'.
  pose proof (shape_K S) as HK.
  assert (Hkid : inr h kid) by (unfold inr, kid; lia).
  destruct (Z.eqb_spec k (-1)) as [Hk1|Hk1].
  - (* deletion *)
    assert (Hother : forall i, i <> kid -> ent h' i = ent h i).
    { intros i Hi. unfold h', h2.
      now rewrite ent_set_next_ne, ent_set_prev_ne, ent_set_key_ne. }
    assert (HkeyID : getKey h' ID = k).
    { unfold getKey, h'. simpl. fold kid.
      unfold h2. rewrite key_set_next, key_set_prev, key_set_key by exact Hkid.
      now rewrite Z.eqb_refl. }
    assert (Hkeys : forall j, j <> ID -> getKey h' j = getKey h j).
    { intros j Hj. unfold getKey. replace (mK h') with (mK h) by reflexivity.
      rewrite Hother by (unfold kid; lia). reflexivity. }
    split; [|repeat split; auto; simpl; lia].
    assert (EN : mN h' = mN h) by reflexivity.
    assert (EK : mK h' = mK h) by reflexivity.
    assert (ES : mSize h' = mSize h) by reflexivity.
    assert (EM : mMinKey h' = mMinKey h) by reflexivity.
    apply Inv_intro with (bk := bk) (all := all); rewrite ?EN, ?EK, ?ES, ?EM;
      try exact Hmin.
    + apply Shape_frame with (E := ent h); auto.
      * intros k' Hk'. rewrite Hother by (unfold kid; lia). reflexivity.
      * intros a Ha. apply Hother. unfold kid. intros Heq.
        apply Hnin. replace ID with a by lia. exact Ha.
    + unfold h', h2, set_next, set_prev, set_key. simpl. now rewrite !zlength_zset.
    + intros j Hj Hjn. destruct (Z.eq_dec j ID) as [->|Hne].
      * rewrite HkeyID. exact Hk1.
      * rewrite Hkeys by exact Hne. apply Hout; auto.
    + exact Hsz.
  - (* insertion *)
    assert (Hk' : 0 <= k < mK h) by lia.
    assert (Htmp : next (ent h k) = -1 \/
                   exists b, In b (bk k) /\ next (ent h k) = mK h + b).
    { pose proof (shape_chain S Hk') as Hch. destruct (bk k) as [|b l]; simpl in Hch.
      - auto.
      - right. exists b. simpl. tauto. }
    assert (I : inserted (ent h) (ent h') k kid (next (ent h k))).
    { apply insertNew_inserted; auto.
      - unfold inr. lia.
      - unfold kid. lia.
      - destruct Htmp as [->|(b & Hb & ->)]; [auto|]. right.
        pose proof (shape_bucket_range S Hk' Hb). unfold inr. lia.
      - destruct Htmp as [->|(b & Hb & ->)]; [unfold kid; lia|].
        unfold kid. intros Heq. apply Hnin. apply (shape_in S).
        exists k. split; [exact Hk'|]. replace ID with b by lia. exact Hb.
      - destruct Htmp as [->|(b & Hb & ->)]; [lia|].
        pose proof (shape_bucket_range S Hk' Hb). lia. }
    destruct (insertNew_fields h2 kid k) as (F1 & F2 & F3 & F4 & F5).
    fold h' in F1, F2, F3, F4, F5.
    assert (G1 : mN h2 = mN h) by reflexivity.
    assert (G2 : mK h2 = mK h) by reflexivity.
    assert (G3 : mSize h2 = mSize h) by reflexivity.
    assert (G4 : mMinKey h2 = mMinKey h) by reflexivity.
    assert (G5 : zlength (mEntries h2) = zlength (mEntries h)).
    { unfold h2, set_key. simpl. now rewrite zlength_zset. }
    destruct I as (I1 & I2 & I3 & I4 & I5 & I6 & I7 & I8).
    assert (HkeyID : getKey h' ID = k).
    { unfold getKey. rewrite F2, G2. exact I3. }
    assert (Hkeys : forall j, j <> ID -> getKey h' j = getKey h j).
    { intros j Hj. unfold getKey. rewrite F2, G2. apply I6. unfold kid. lia. }
    split; [|repeat split; auto; lia].
    apply Inv_intro with (bk := fupd bk k (ID :: bk k)) (all := ID :: all);
      rewrite ?F1, ?F2, ?F3, ?F4, ?F5, ?G1, ?G2, ?G3, ?G4, ?G5.
    + apply Shape_insert with (E := ent h); auto.
      repeat split; auto.
    + exact Hlen.
    + intros j Hj Hjn. simpl in Hjn.
      assert (j <> ID) by (intros ->; tauto).
      rewrite Hkeys by assumption. apply Hout; auto.
    + rewrite Hsz. unfold zlength. simpl length. lia.
    + rewrite Hsz in *.
      apply (MinOK_insert _ _ _ _ _ _ _ ID S Hmin Hk').
Qed.

Theorem setKey_spec h ID k :
  Inv h -> 0 <= ID < mN h -> -1 <= k < mK h ->
  exists h',
    setKey ID k h = Ok h' /\ Inv h' /\ mN h' = mN h /\ mK h' = mK h /\
    getKey h' ID = k /\
    (forall j, j <> ID -> getKey h' j = getKey h j) /\
    mSize h' = mSize h - (if getKey h ID =? -1 then 0 else 1)
                       + (if k =? -1 then 0 else 1).
Proof.
  intros HI HID Hk. unfold setKey.
  destruct (Z.leb_spec 0 ID); [|lia]. destruct (Z.ltb_spec ID (mN h)); [|lia].
  destruct (Z.leb_spec (-1) k); [|lia]. destruct (Z.ltb_spec k (mK h)); [|lia].
  simpl. change (key (ent h (mK h + ID))) with (getKey h ID).
  destruct (Z.eqb_spec (getKey h ID) k) as [Heq|Hneq].
  - exists h. repeat split; auto. rewrite Heq. destruct (k =? -1); lia.
  - destruct HI as (bk & all & S & Hlen & Hout & Hsz & Hmin).
    destruct (Z.eqb_spec (getKey h ID) (-1)) as [Hold|Hold].
    + assert (Hnin : ~ In ID all).
      { intros Hin. apply (shape_in S) in Hin. destruct Hin as (ko & Hko & Hin).
        pose proof (shape_key S Hko Hin) as Hkey. unfold getKey in Hold. lia. }
      destruct (setKey_finish h bk all ID k S Hlen Hsz Hmin HID Hnin)
        as (J1 & J2 & J3 & J4 & J5 & J6); auto.
      rewrite Hold in Hneq.
      destruct (k =? -1); eexists; (split; [reflexivity|]); repeat split; auto; lia.
    + assert (Hin : In ID all).
      { destruct (in_dec Z.eq_dec ID all) as [Hin|Hnin]; [exact Hin|].
        exfalso. apply Hold. apply Hout; auto. }
      destruct (removeOld_spec h bk all ID S Hlen Hsz Hmin Hin)
        as (bk1 & all1 & S1 & E1 & E2 & Hlen1 & Hsz1 & Hmin1 & Hall1 & Hkeys1 & Hsize1).
      set (h1 := removeOld (mK h + ID) h) in *.
      rewrite <- E1, <- E2 in S1. rewrite <- E1, <- E2 in Hlen1. rewrite <- E2 in Hmin1.
      assert (Hnin1 : ~ In ID all1) by (rewrite Hall1; tauto).
      assert (Hout1 : forall j, 0 <= j < mN h1 -> j <> ID -> ~ In j all1 ->
                                getKey h1 j = -1).
      { intros j Hj Hne Hjn. unfold getKey. rewrite E2, Hkeys1.
        apply Hout; [lia|]. intros Hc. apply Hjn. apply Hall1. tauto. }
      destruct (setKey_finish h1 bk1 all1 ID k S1 Hlen1 Hsz1 Hmin1)
        as (J1 & J2 & J3 & J4 & J5 & J6); auto; try lia.
      rewrite E2 in *.
      assert (J5' : forall j, j <> ID ->
                getKey (if k =? -1
                        then set_next (mK h + ID) (-1)
                               (set_prev (mK h + ID) (-1) (set_key (mK h + ID) k h1))
                        else insertNew (mK h + ID) k (set_key (mK h + ID) k h1)) j
                = getKey h j).
      { intros j Hj. rewrite J5 by exact Hj. unfold getKey. rewrite E2. apply Hkeys1. }
      destruct (k =? -1); eexists; (split; [reflexivity|]); repeat split; auto; lia.
Qed.

End HeapSetKey.

Section HeapPopMin.
Import NKMinHeap.

Lemma Inv_stored h : Inv h ->
  exists bk all,
    Shape (mN h) (mK h) (ent h) bk all /\
    MinOK (mK h) (mSize h) (mMinKey h) bk /\
    mSize h = zlength all /\
    (forall j, In j all <-> stored h j) /\
    (forall j k, 0 <= k < mK h -> (In j (bk k) <-> stored h j /\ getKey h j = k)).
Proof.
  intros (bk & all & S & Hlen & Hout & Hsz & Hmin).
  assert (Hall : forall j, In j all <-> stored h j).
  { intros j. unfold stored. split.
    - intros Hj. split; [apply (shape_range S); exact Hj|].
      apply (shape_in S) in Hj. destruct Hj as (k & Hk & Hj).
      pose proof (shape_key S Hk Hj) as Hkey. unfold getKey. lia.
    - intros (Hr & Hkey). destruct (in_dec Z.eq_dec j all) as [Hin|Hnin]; [exact Hin|].
      exfalso. apply Hkey. apply Hout; auto. }
  exists bk, all.
  split; [exact S|]. split; [exact Hmin|]. split; [exact Hsz|]. split; [exact Hall|].
  intros j k Hk. split.
  - intros Hj. split.
    + apply Hall, (shape_in S). eauto.
    + apply (shape_key S Hk Hj).
  - intros (Hst & Hkey). apply Hall, (shape_in S) in Hst.
    destruct Hst as (k' & Hk' & Hj). pose proof (shape_key S Hk' Hj) as Hkey'.
    unfold getKey in Hkey. replace k with k' by lia. exact Hj.
Qed.

Theorem popMin_spec h :
  Inv h -> mSize h <> 0 ->
  exists h' ID k,
    popMin h = (h', (ID, k)) /\ peekMin h = (ID, k) /\
    Inv h' /\ mN h' = mN h /\ mK h' = mK h /\
    stored h ID /\ getKey h ID = k /\
    (forall j, stored h j -> k <= getKey h j) /\
    getKey h' ID = -1 /\
    (forall j, j <> ID -> getKey h' j = getKey h j) /\
    mSize h' = mSize h - 1.
Proof.
  intros HI Hnz.
  destruct (Inv_stored h HI) as (bk' & all' & _ & _ & _ & Hst' & Hbk').
  destruct HI as (bk & all & S & Hlen & Hout & Hsz & Hmin).
  pose proof (shape_K S) as HK. pose proof (shape_N S) as HN.
  destruct Hmin as (_ & Hm). destruct (Hm Hnz) as (Hm1 & Hm2 & Hm3). clear Hm.
  set (m := mMinKey h) in *.
  destruct (bk m) as [|a l] eqn:Hbm; [congruence|]. clear Hm2.
  pose proof (shape_chain S Hm1) as Hch. rewrite Hbm in Hch. simpl in Hch.
  destruct Hch as (Hnext & Hprev & Hkey & Hrest).
  assert (Hain : In a (bk m)) by (rewrite Hbm; simpl; auto).
  pose proof (shape_bucket_range S Hm1 Hain) as Har.
  assert (Haall : In a all) by (apply (shape_in S); eauto).
  destruct (in_split _ _ Haall) as (a1 & a2 & Hall).
  pose proof (shape_all_nodup S) as Hnda. rewrite Hall in Hnda.
  assert (Hbm' : bk m = [] ++ a :: l) by exact Hbm.
  destruct (shape_neighbours S Hm1 Hbm') as (_ & Hsucc).
  assert (U : unlinked (ent h) (ent (unlink (mK h + a) h))
                (prev (ent h (mK h + a))) (next (ent h (mK h + a)))).
  { apply unlink_unlinked; unfold inr; rewrite Hlen.
    - rewrite Hprev. lia.
    - destruct Hsucc as [->|(d & Hd & ->)]; [auto|]. right.
      assert (In d (bk m)) by (rewrite Hbm; simpl; auto).
      pose proof (shape_bucket_range S Hm1 H). lia. }
  pose proof (Shape_unlink _ _ _ _ _ _ _ _ _ _ _ _ S Hm1 Hbm' Hall U) as S1.
  simpl in S1.
  destruct (unlink_fields h (mK h + a)) as (F1 & F2 & F3 & F4 & F5).
  set (hu := unlink (mK h + a) h) in *.
  set (hr := with_entries hu (zset (mEntries hu) (mK h + a) Entry0)).
  set (hs := with_size hr (mSize hr - 1)).
  set (bk1 := fupd bk m l) in *.
  assert (Hlen1 : zlength all = zlength (a1 ++ a2) + 1).
  { rewrite Hall. unfold zlength. rewrite !length_app. simpl. lia. }
  assert (Er : forall i, ent hs i = if i =? mK h + a then Entry0 else ent hu i).
  { intros i. unfold hs. rewrite ent_with_size. unfold hr. rewrite ent_zset.
    destruct (i =? mK h + a); [|reflexivity].
    rewrite F5, Hlen. destruct (Z.leb_spec 0 (mK h + a)); [|lia].
    destruct (Z.ltb_spec (mK h + a) (mN h + mK h)); [|lia]. reflexivity. }
  assert (Hnin : ~ In a (a1 ++ a2)) by (apply NoDup_remove_2; exact Hnda).
  assert (S2 : Shape (mN h) (mK h) (ent hs) bk1 (a1 ++ a2)).
  { apply Shape_frame with (E := ent hu); [exact S1 | |].
    - intros k Hk. rewrite Er. destruct (Z.eqb_spec k (mK h + a)); [lia | reflexivity].
    - intros b Hb. rewrite Er. destruct (Z.eqb_spec (mK h + b) (mK h + a)); [|reflexivity].
      exfalso. apply Hnin. replace a with b by lia. exact Hb. }
  assert (Hpop : popMin h =
     ((if mSize hs =? 0 then with_minKey hs (-1) else scanMin hs), (a, m))).
  { unfold popMin. destruct (Z.eqb_spec (mSize h) 0); [contradiction|].
    fold m. rewrite Hnext. fold hu. fold hr. fold hs.
    replace (mK h + a - mK h) with a by lia. reflexivity. }
  set (h' := if mSize hs =? 0 then with_minKey hs (-1) else scanMin hs) in *.
  assert (Eh : forall i, ent h' i = ent hs i).
  { intros i. unfold h'. destruct (mSize hs =? 0); reflexivity. }
  assert (EN : mN h' = mN h).
  { unfold h'. destruct (mSize hs =? 0); simpl; exact F1. }
  assert (EK : mK h' = mK h).
  { unfold h'. destruct (mSize hs =? 0); simpl; exact F2. }
  assert (ES : mSize h' = mSize h - 1).
  { unfold h'. destruct (mSize hs =? 0); simpl; lia. }
  assert (EL : zlength (mEntries h') = mN h + mK h).
  { unfold h'. destruct (mSize hs =? 0); simpl; rewrite zlength_zset; lia. }
  assert (HkeyID : getKey h' a = -1).
  { unfold getKey. rewrite EK, Eh, Er, Z.eqb_refl. reflexivity. }
  assert (Hkeys : forall j, j <> a -> getKey h' j = getKey h j).
  { intros j Hj. unfold getKey. rewrite EK, Eh, Er.
    destruct (Z.eqb_spec (mK h + j) (mK h + a)); [lia|].
    destruct U as (Uk & _). apply Uk. }
  exists h', a, m. split; [exact Hpop|]. split.
  { unfold peekMin. destruct (Z.eqb_spec (mSize h) 0); [contradiction|].
    fold m. rewrite Hnext. f_equal. lia. }
  split.
  { apply Inv_intro with (bk := bk1) (all := a1 ++ a2); rewrite ?EN, ?EK, ?ES.
    - apply Shape_frame with (E := ent hs);
        [exact S2 | intros; now rewrite Eh | intros; now rewrite Eh].
    - exact EL.
    - intros j Hj Hjn. destruct (Z.eq_dec j a) as [->|Hne]; [exact HkeyID|].
      rewrite Hkeys by exact Hne. apply Hout; [exact Hj|].
      intros Hc. apply Hjn. apply (in_remove_mid _ _ _ _ Hnda). rewrite <- Hall. tauto.
    - lia.
    - unfold h'. assert (Hs : mSize hs = zlength (a1 ++ a2)) by (simpl; lia).
      replace (mSize h - 1) with (zlength (a1 ++ a2)) by lia.
      destruct (Z.eqb_spec (mSize hs) 0) as [Hz|Hz]; simpl.
      + split; [reflexivity | lia].
      + pose proof (MinOK_scan hs bk1 (a1 ++ a2) m) as M.
        replace (mK hs) with (mK h) in M by (symmetry; exact F2).
        replace (mN hs) with (mN h) in M by (symmetry; exact F1).
        replace (mMinKey hu) with m by (symmetry; exact F4).
        replace (mK hu) with (mK h) by (symmetry; exact F2).
        apply M; auto; [|lia|].
        * intros Hc. rewrite Hc in Hs. change (zlength (@nil Z)) with 0 in Hs. lia.
        * intros k Hk. unfold bk1. rewrite fupd_ne by lia. apply Hm3. exact Hk. }
  split; [exact EN|]. split; [exact EK|].
  assert (Hsta : stored h a).
  { split; [exact Har|]. unfold getKey. lia. }
  split; [exact Hsta|]. split; [exact Hkey|]. split.
  { intros j Hj. destruct Hj as (Hjr & Hjk).
    destruct (in_dec Z.eq_dec j all) as [Hin|Hnin'].
    - apply (shape_in S) in Hin. destruct Hin as (kj & Hkj & Hin).
      pose proof (shape_key S Hkj Hin) as Hkeyj. unfold getKey. rewrite Hkeyj.
      destruct (Z_lt_le_dec kj m) as [Hlt|]; [|assumption].
      rewrite Hm3 in Hin by lia. contradiction.
    - exfalso. apply Hjk. apply Hout; auto. }
  split; [exact HkeyID|]. split; [exact Hkeys | exact ES].
Qed.

Lemma popMin_empty h : mSize h = 0 -> popMin h = (h, (-1, -1)) /\ peekMin h = (-1, -1).
Proof. intros H. unfold popMin, peekMin. rewrite H. simpl. auto. Qed.

Lemma reachable_Inv h : reachable h -> Inv h /\ 0 <= mN h /\ 0 <= mK h.
Proof.
  induction 1 as [N K HN HK | h ID k h' Hr IH Hs | h Hr IH].
  - split; [apply init_Inv; assumption | simpl; auto].
  - destruct IH as (HI & HN & HK). unfold setKey in Hs.
    destruct (Z.leb_spec 0 ID), (Z.ltb_spec ID (mN h)); simpl in Hs; try discriminate.
    destruct (Z.leb_spec (-1) k), (Z.ltb_spec k (mK h)); simpl in Hs; try discriminate.
    destruct (setKey_spec h ID k HI) as (h2 & Hs2 & HI2 & E1 & E2 & _); [lia | lia |].
    unfold setKey in Hs2.
    destruct (Z.leb_spec 0 ID), (Z.ltb_spec ID (mN h)); simpl in Hs2; try lia.
    destruct (Z.leb_spec (-1) k), (Z.ltb_spec k (mK h)); simpl in Hs2; try lia.
    rewrite Hs in Hs2. injection Hs2 as ->. split; [exact HI2 | lia].
  - destruct IH as (HI & HN & HK).
    destruct (Z.eq_dec (mSize h) 0) as [Hz|Hnz].
    + rewrite (proj1 (popMin_empty h Hz)). simpl. auto.
    + destruct (popMin_spec h HI Hnz) as (h' & ID & k & Hp & _ & HI' & E1 & E2 & _).
      rewrite Hp. simpl. split; [exact HI' | lia].
Qed.

End HeapPopMin.

Section HeapClaims.
Import NKMinHeap.

Lemma storedIds_spec h j : 0 <= mN h -> (In j (storedIds h) <-> stored h j).
Proof.
  intros HN. unfold storedIds, stored. rewrite filter_In, in_zrange.
  destruct (Z.eqb_spec (getKey h j) (-1)) as [He|He]; simpl; split.
  - intros (_ & H). discriminate.
  - tauto.
  - intros (H & _). split; [lia | exact He].
  - intros (H & _). split; [lia | reflexivity].
Qed.

Lemma size_storedIds h : Inv h -> mSize h = zlength (storedIds h).
Proof.
  intros HI. destruct (Inv_stored h HI) as (bk & all & S & _ & Hsz & Hall & _).
  rewrite Hsz. unfold zlength. f_equal. apply Permutation_length.
  apply NoDup_Permutation.
  - apply (shape_all_nodup S).
  - apply NoDup_filter, NoDup_zrange.
  - intros j. rewrite Hall, storedIds_spec; [tauto | apply (shape_N S)].
Qed.

(** C9. In every reachable state of the heap: [mSize] is the number
    of stored identifiers; on an empty heap [peekMin] and [popMin] return the
    pair [(-1,-1)]; on a heap that is not empty both return the same pair
    [(ID, key)], where [ID] is stored with key [key] and no stored identifier has
    a smaller key, and [popMin] removes exactly [ID], keeps every other key and
    decreases the size by one. *)
Theorem heap_min_correct (h : t) :
  reachable h ->
  size h = zlength (storedIds h) /\
  (size h = 0 -> peekMin h = (-1, -1) /\ snd (popMin h) = (-1, -1)) /\
  (size h <> 0 ->
   exists ID k,
     peekMin h = (ID, k) /\ snd (popMin h) = (ID, k) /\
     stored h ID /\ getKey h ID = k /\
     (forall j, stored h j -> k <= getKey h j) /\
     ~ stored (fst (popMin h)) ID /\
     (forall j, j <> ID ->
        getKey (fst (popMin h)) j = getKey h j /\
        (stored (fst (popMin h)) j <-> stored h j)) /\
     size (fst (popMin h)) = size h - 1).
Proof.
  intros Hr. destruct (reachable_Inv h Hr) as (HI & HN & HK). unfold size.
  split; [apply size_storedIds; exact HI|]. split.
  - intros Hz. destruct (popMin_empty h Hz) as (Hp & Hk). rewrite Hp. auto.
  - intros Hnz.
    destruct (popMin_spec h HI Hnz)
      as (h' & ID & k & Hp & Hk & HI' & EN & EK & Hst & Hkey & Hmin & Hgone & Hkeep & Hsz).
    exists ID, k. rewrite Hp. simpl.
    split; [exact Hk|]. split; [reflexivity|]. split; [exact Hst|].
    split; [exact Hkey|]. split; [exact Hmin|]. split; [|split; [|exact Hsz]].
    + unfold stored. rewrite Hgone. tauto.
    + intros j Hj. split; [apply Hkeep; exact Hj|].
      unfold stored. rewrite EN, Hkeep by exact Hj. tauto.
Qed.

Lemma heap_min_correct_witness :
  exists h,
    NKMinHeap.setKey 3 1 (NKMinHeap.init 4 5) = Ok h /\
    size h = zlength (storedIds h) /\
    (size h = 0 -> peekMin h = (-1, -1) /\ snd (popMin h) = (-1, -1)) /\
    (size h <> 0 ->
     exists ID k,
       peekMin h = (ID, k) /\ snd (popMin h) = (ID, k) /\
       stored h ID /\ getKey h ID = k /\
       (forall j, stored h j -> k <= getKey h j) /\
       ~ stored (fst (popMin h)) ID /\
       (forall j, j <> ID ->
          getKey (fst (popMin h)) j = getKey h j /\
          (stored (fst (popMin h)) j <-> stored h j)) /\
       size (fst (popMin h)) = size h - 1).
Proof.
  eexists. split; [vm_compute; reflexivity|].
  apply heap_min_correct.
  apply reach_setKey with (h := init 4 5) (ID := 3) (k := 1).
  - apply reach_init; lia.
  - vm_compute. reflexivity.
Defined.

End HeapClaims.

(* ================================================================== *)
(** * The level hierarchy of the constructor                           *)
(* ================================================================== *)

Section Hierarchy.

Lemma zget_cons {A : Type} (d a : A) (l : list A) (i : Z) :
  0 <= i -> zget d (a :: l) i = if i =? 0 then a else zget d l (i - 1).
Proof.
  intros Hi. unfold zget.
  destruct (Z.ltb_spec i 0); [lia|].
  destruct (Z.eqb_spec i 0) as [->|Hne]; [reflexivity|].
  destruct (Z.ltb_spec (i - 1) 0); [lia|].
  replace (Z.to_nat i) with (S (Z.to_nat (i - 1))) by lia. reflexivity.
Qed.

Lemma zlength_cons {A : Type} (a : A) (l : list A) : zlength (a :: l) = zlength l + 1.
Proof. unfold zlength. simpl length. lia. Qed.

Definition extentBound (fuel : nat) (s : Vec3i) : Prop :=
  1 <= vx s <= 3 * 2 ^ Z.of_nat fuel + 2 /\
  1 <= vy s <= 3 * 2 ^ Z.of_nat fuel + 2 /\
  1 <= vz s <= 3 * 2 ^ Z.of_nat fuel + 2.

Lemma halve_comp (c : Z) : 1 <= c -> Z.quot (c + 2) 2 = c / 2 + 1.
Proof.
  intros Hc. rewrite Z.quot_div_nonneg by lia.
  replace (c + 2) with (c + 1 * 2) by lia. rewrite Z.div_add by lia. reflexivity.
Qed.

Lemma halve_bound (fuel : nat) (c : Z) :
  1 <= c <= 3 * 2 ^ Z.of_nat (S fuel) + 2 ->
  1 <= Z.quot (c + 2) 2 <= 3 * 2 ^ Z.of_nat fuel + 2.
Proof.
  intros Hc. rewrite halve_comp by lia.
  replace (Z.of_nat (S fuel)) with (Z.of_nat fuel + 1) in Hc by lia.
  rewrite Z.pow_add_r, Z.pow_1_r in Hc by lia.
  assert (0 < 2 ^ Z.of_nat fuel) by (apply Z.pow_pos_nonneg; lia).
  assert (0 <= c / 2) by (apply Z.div_pos; lia).
  assert (c / 2 <= (3 * (2 ^ Z.of_nat fuel * 2) + 2) / 2) by (apply Z.div_le_mono; lia).
  replace (3 * (2 ^ Z.of_nat fuel * 2) + 2) with ((3 * 2 ^ Z.of_nat fuel + 1) * 2) in H1 by lia.
  rewrite Z.div_mul in H1 by lia. lia.
Qed.

Lemma coarseSizes_hierarchy : forall fuel prev,
  extentBound fuel prev ->
  hierarchy prev (coarseSizes fuel prev (countOf prev)).
Proof.
  induction fuel as [|fuel IH]; intros prev (Hx & Hy & Hz).
  - simpl in *. apply hier_stop. left. lia.
  - cbn [coarseSizes].
    destruct ((vx prev <=? 5) && (vy prev <=? 5) && (vz prev <=? 5))%bool eqn:Hsmall.
    + apply hier_stop. left.
      apply andb_prop in Hsmall. destruct Hsmall as (Hs & H3).
      apply andb_prop in Hs. destruct Hs as (H1 & H2). lia.
    + destruct (Z.leb_spec (countOf prev) 1000) as [Hn|Hn].
      * apply hier_stop. right. exact Hn.
      * apply hier_next.
        -- intros [(H1 & H2 & H3)|Hc]; [|lia].
           destruct (Z.leb_spec (vx prev) 5); [|lia].
           destruct (Z.leb_spec (vy prev) 5); [|lia].
           destruct (Z.leb_spec (vz prev) 5); [|lia]. discriminate.
        -- apply IH. split; [|split]; simpl; apply halve_bound; assumption.
Qed.

Lemma hierarchy_spec prev C :
  hierarchy prev C ->
  let S := prev :: C in
  (forall l, 1 <= l < zlength S ->
     zget (vconst 0) S l = halveExtent (zget (vconst 0) S (l - 1))) /\
  (forall l, 0 <= l < zlength S - 1 -> ~ stopLevel (zget (vconst 0) S l)) /\
  stopLevel (zget (vconst 0) S (zlength S - 1)).
Proof.
  induction 1 as [prev Hs | prev C Hn Hh IH]; cbn zeta in *.
  - change (zlength [prev]) with 1. repeat split; intros; try lia. exact Hs.
  - destruct IH as (IH1 & IH2 & IH3).
    rewrite !zlength_cons in *.
    pose proof (zlength_nonneg C) as HC.
    repeat split.
    + intros l Hl. rewrite (zget_cons _ prev) by lia.
      destruct (Z.eqb_spec l 0); [lia|].
      rewrite (zget_cons _ prev (_ :: _) (l - 1)) by lia.
      destruct (Z.eqb_spec (l - 1) 0) as [H0|H0].
      * rewrite H0. reflexivity.
      * apply IH1. lia.
    + intros l Hl. rewrite zget_cons by lia.
      destruct (Z.eqb_spec l 0); [exact Hn|]. apply IH2. lia.
    + rewrite zget_cons by lia.
      destruct (Z.eqb_spec (zlength C + 1 + 1 - 1) 0); [lia|].
      replace (zlength C + 1 + 1 - 1 - 1) with (zlength C + 1 - 1) by lia. exact IH3.
Qed.

(** The claim as the specification words it: the next extent is
    [ceil(e/2) + 1]. It fails for an odd extent. *)
Lemma specHalving_fails : ~ specHalving (levelSizes (mkVec 11 11 11)).
Proof.
  intros H.
  assert (Hl : 1 <= 1 < zlength (levelSizes (mkVec 11 11 11))).
  { vm_compute. split; [discriminate | reflexivity]. }
  pose proof (H 1 Hl) as Hc. vm_compute in Hc. discriminate Hc.
Qed.

(** The range of [int]. *)
Definition intMax : Z := 2 ^ 31 - 1.

(** C2 (amended). For every extent of the finest grid with positive
    components, each at most [2^31 - 3], and a number of vertices that,
    multiplied by the largest stencil size 14, is in the range of [int], so
    that no [int] expression of the constructor overflows (neither
    [mSize[l-1] + 2], nor the number of vertices [n], nor the lengths
    [n * mStencilSize0] and [n * mStencilSize] of the arrays), the extents
    built by the constructor start with the given extent, every further
    extent is [e/2 + 1] (rounded down) in each dimension, every level that
    has a coarser level fails the stop test (all dimensions at most 5 or at
    most 1000 vertices), the coarsest level passes it, and the extents and
    the number of vertices of every level are in the same range. *)
Theorem levelSizes_correct (gridSize : Vec3i) :
  1 <= vx gridSize <= intMax - 2 -> 1 <= vy gridSize <= intMax - 2 ->
  1 <= vz gridSize <= intMax - 2 ->
  countOf gridSize * 14 <= intMax ->
  let S := levelSizes gridSize in
  zget (vconst 0) S 0 = gridSize /\
  (forall l, 1 <= l < zlength S ->
     let p := zget (vconst 0) S (l - 1) in
     zget (vconst 0) S l = halveExtent p /\
     halveExtent p = mkVec (vx p / 2 + 1) (vy p / 2 + 1) (vz p / 2 + 1)) /\
  (forall l, 0 <= l < zlength S - 1 -> ~ stopLevel (zget (vconst 0) S l)) /\
  stopLevel (zget (vconst 0) S (zlength S - 1)) /\
  (forall l, 0 <= l < zlength S ->
     let p := zget (vconst 0) S l in
     1 <= vx p <= intMax - 2 /\ 1 <= vy p <= intMax - 2 /\ 1 <= vz p <= intMax - 2 /\
     1 <= countOf p /\ countOf p * 14 <= intMax).
Proof.
  intros Hx Hy Hz Hn S.
  assert (Hb : extentBound 100 gridSize).
  { assert (intMax - 2 <= 3 * 2 ^ Z.of_nat 100 + 2) by (vm_compute; discriminate).
    unfold extentBound. lia. }
  pose proof (coarseSizes_hierarchy 100 gridSize Hb) as Hh.
  destruct (hierarchy_spec _ _ Hh) as (H1 & H2 & H3).
  fold (levelSizes gridSize) in H1, H2, H3. fold S in H1, H2, H3.
  assert (Hp : forall k, 0 <= k < zlength S ->
             let q := zget (vconst 0) S k in
             1 <= vx q <= intMax - 2 /\ 1 <= vy q <= intMax - 2 /\
             1 <= vz q <= intMax - 2 /\ 1 <= countOf q /\ countOf q * 14 <= intMax).
  { intros k Hk. assert (Hk0 : 0 <= k) by lia.
    revert Hk. pattern k. apply natlike_ind; [| |exact Hk0].
    - intros _. change (zget (vconst 0) S 0) with gridSize. cbv zeta.
      assert (1 <= countOf gridSize) by (unfold countOf; nia). lia.
    - intros j Hj IH Hjs. cbv zeta in IH |- *. rewrite H1 by lia.
      replace (Z.succ j - 1) with j by lia.
      destruct IH as (I1 & I2 & I3 & I0 & I4); [lia|].
      set (q := zget (vconst 0) S j) in *.
      unfold halveExtent, vdivc, vaddc, vadd, vmap2, vconst, countOf in *.
      cbn [vx vy vz] in *.
      rewrite !halve_comp by lia.
      pose proof (Z.div_mod (vx q) 2 ltac:(lia)). pose proof (Z.mod_pos_bound (vx q) 2 ltac:(lia)).
      pose proof (Z.div_mod (vy q) 2 ltac:(lia)). pose proof (Z.mod_pos_bound (vy q) 2 ltac:(lia)).
      pose proof (Z.div_mod (vz q) 2 ltac:(lia)). pose proof (Z.mod_pos_bound (vz q) 2 ltac:(lia)).
      assert (Ex : 1 <= vx q / 2 + 1 <= vx q) by lia.
      assert (Ey : 1 <= vy q / 2 + 1 <= vy q) by lia.
      assert (Ez : 1 <= vz q / 2 + 1 <= vz q) by lia.
      assert (1 <= (vx q / 2 + 1) * (vy q / 2 + 1)) by nia.
      assert ((vx q / 2 + 1) * (vy q / 2 + 1) <= vx q * vy q) by nia.
      assert ((vx q / 2 + 1) * (vy q / 2 + 1) * (vz q / 2 + 1) <= vx q * vy q * vz q) by nia.
      repeat split; try lia; nia. }
  split; [reflexivity|]. split; [|split; [assumption|split; [assumption|exact Hp]]].
  intros l Hl p. split; [apply H1; exact Hl|].
  destruct (Hp (l - 1)) as (P1 & P2 & P3 & _); [lia|]. fold p in P1, P2, P3.
  clearbody p.
  unfold halveExtent, vdivc, vaddc, vadd, vmap2, vconst. simpl.
  now rewrite !halve_comp by lia.
Qed.

Lemma levelSizes_correct_witness :
  let S := levelSizes (mkVec 64 64 64) in
  zget (vconst 0) S 0 = mkVec 64 64 64 /\
  (forall l, 1 <= l < zlength S ->
     let p := zget (vconst 0) S (l - 1) in
     zget (vconst 0) S l = halveExtent p /\
     halveExtent p = mkVec (vx p / 2 + 1) (vy p / 2 + 1) (vz p / 2 + 1)) /\
  (forall l, 0 <= l < zlength S - 1 -> ~ stopLevel (zget (vconst 0) S l)) /\
  stopLevel (zget (vconst 0) S (zlength S - 1)) /\
  (forall l, 0 <= l < zlength S ->
     let p := zget (vconst 0) S l in
     1 <= vx p <= intMax - 2 /\ 1 <= vy p <= intMax - 2 /\ 1 <= vz p <= intMax - 2 /\
     1 <= countOf p /\ countOf p * 14 <= intMax).
Proof.
  apply (levelSizes_correct (mkVec 64 64 64)); unfold intMax; cbn; lia.
Defined.

Example levelSizes_64 :
  levelSizes (mkVec 64 64 64) =
  [mkVec 64 64 64; mkVec 33 33 33; mkVec 17 17 17; mkVec 9 9 9].
Proof. vm_compute. reflexivity. Qed.

End Hierarchy.

(* ================================================================== *)
(** * Frames: the members an operation may change                      *)
(* ================================================================== *)

Section Frames.
Context {RO : RealOps}.

Lemma fold_left_inv {A S : Type} (P : S -> Prop) (f : S -> A -> S) (l : list A) :
  forall s, P s -> (forall s a, In a l -> P s -> P (f s a)) -> P (fold_left f l s).
Proof.
  induction l as [|a l IH]; simpl; intros s Hs Hstep; [exact Hs|].
  apply IH; [apply Hstep; auto | intros; apply Hstep; auto].
Qed.

(** [only set get g g']: the state [g'] is [g] but for the part that
    [get] reads and [set] writes. *)
Definition only {T : Type} (set : GridMg -> T -> GridMg) (get : GridMg -> T)
    (g g' : GridMg) : Prop :=
  g' = set g (get g').

Class Lens {T : Type} (set : GridMg -> T -> GridMg) (get : GridMg -> T) : Prop := {
  lens_eta : forall g, g = set g (get g);
  lens_get_set : forall g a, get (set g a) = a;
  lens_set_set : forall g a b, set (set g a) b = set g b
}.

Lemma only_refl {T} (set : GridMg -> T -> GridMg) get `{!Lens set get} g :
  only set get g g.
Proof. apply lens_eta. Qed.

Lemma only_trans {T} (set : GridMg -> T -> GridMg) get `{!Lens set get} g g' g'' :
  only set get g g' -> only set get g' g'' -> only set get g g''.
Proof.
  unfold only. intros H1 H2.
  transitivity (set g' (get g'')); [exact H2|].
  rewrite H1. apply lens_set_set.
Qed.

Lemma only_set {T} (set : GridMg -> T -> GridMg) get `{!Lens set get} g v :
  only set get g (set g v).
Proof.
  unfold only. now rewrite lens_get_set.
Qed.

Lemma only_fold {T A} (set : GridMg -> T -> GridMg) get `{!Lens set get}
    (f : GridMg -> A -> GridMg) (l : list A) g :
  (forall g a, In a l -> only set get g (f g a)) ->
  only set get g (fold_left f l g).
Proof.
  intros Hf. apply fold_left_inv with (P := only set get g).
  - apply only_refl; assumption.
  - intros s a Ha Hs. eapply only_trans; [assumption | exact Hs | apply Hf; exact Ha].
Qed.

#[global] Instance Lens_mA : Lens with_mA mA.
Proof. split; [intros []; reflexivity | reflexivity | reflexivity]. Qed.
#[global] Instance Lens_mx : Lens with_mx mx.
Proof. split; [intros []; reflexivity | reflexivity | reflexivity]. Qed.
#[global] Instance Lens_mb : Lens with_mb mb.
Proof. split; [intros []; reflexivity | reflexivity | reflexivity]. Qed.
#[global] Instance Lens_mr : Lens with_mr mr.
Proof. split; [intros []; reflexivity | reflexivity | reflexivity]. Qed.
#[global] Instance Lens_mType : Lens with_mType mType.
Proof. split; [intros []; reflexivity | reflexivity | reflexivity]. Qed.

(** The work arrays and the log: what a cycle may change. *)
Definition workOf (g : GridMg) :=
  (mx g, mb g, mr g, mCGtmp1 g, mCGtmp2 g, debLog g).

Definition with_work (g : GridMg)
    (w : list (list Real) * list (list Real) * list (list Real) *
         list (list Real) * list (list Real) * list LogMsg) : GridMg :=
  let '(x, b, r, t1, t2, lg) := w in
  with_debLog (with_mCGtmp2 (with_mCGtmp1 (with_mr (with_mb (with_mx g x) b) r) t1) t2) lg.

#[global] Instance Lens_work : Lens with_work workOf.
Proof.
  split.
  - intros []. reflexivity.
  - intros g [[[[[x b] r] t1] t2] lg]. reflexivity.
  - intros g [[[[[x b] r] t1] t2] lg] [[[[[x' b'] r'] t1'] t2'] lg']. reflexivity.
Qed.

(** What [setA] may change besides the flags. *)
Definition setupOf (g : GridMg) := (mA g, mType g, debLog g).

Definition with_setup (g : GridMg)
    (w : list (list Real) * list (list VertexType) * list LogMsg) : GridMg :=
  let '(a, t, lg) := w in with_debLog (with_mType (with_mA g a) t) lg.

#[global] Instance Lens_setup : Lens with_setup setupOf.
Proof.
  split.
  - intros []. reflexivity.
  - intros g [[a t] lg]. reflexivity.
  - intros g [[a t] lg] [[a' t'] lg']. reflexivity.
Qed.

Lemma only_mx_work g g' : only with_mx mx g g' -> only with_work workOf g g'.
Proof. unfold only. intros H. rewrite H. destruct g. reflexivity. Qed.
Lemma only_mb_work g g' : only with_mb mb g g' -> only with_work workOf g g'.
Proof. unfold only. intros H. rewrite H. destruct g. reflexivity. Qed.
Lemma only_mr_work g g' : only with_mr mr g g' -> only with_work workOf g g'.
Proof. unfold only. intros H. rewrite H. destruct g. reflexivity. Qed.
Lemma only_mA_setup g g' : only with_mA mA g g' -> only with_setup setupOf g g'.
Proof. unfold only. intros H. rewrite H. destruct g. reflexivity. Qed.
Lemma only_mType_setup g g' : only with_mType mType g g' -> only with_setup setupOf g g'.
Proof. unfold only. intros H. rewrite H. destruct g. reflexivity. Qed.

Lemma put_mx_only g l i x : only with_mx mx g (put_mx g l i x).
Proof. reflexivity. Qed.
Lemma put_mb_only g l i x : only with_mb mb g (put_mb g l i x).
Proof. reflexivity. Qed.
Lemma put_mr_only g l i x : only with_mr mr g (put_mr g l i x).
Proof. reflexivity. Qed.
Lemma put_mA_only g l i x : only with_mA mA g (put_mA g l i x).
Proof. reflexivity. Qed.
Lemma put_mType_only g l i t : only with_mType mType g (put_mType g l i t).
Proof. reflexivity. Qed.

Lemma smooth_vertex_only l V g : only with_mx mx g (smooth_vertex l V g).
Proof.
  unfold smooth_vertex.
  destruct (negb (inGrid g V l)); [apply only_refl; exact _|].
  destruct (isInactive g l (linIdx g V l)); [apply only_refl; exact _|].
  destruct (l =? 0); apply put_mx_only.
Qed.

Lemma smoothGS_only l rev g : only with_mx mx g (smoothGS l rev g).
Proof.
  unfold smoothGS.
  apply only_fold; [exact _|]. intros g1 c _.
  apply only_fold; [exact _|]. intros g2 b _.
  apply only_fold; [exact _|]. intros g3 off _.
  apply smooth_vertex_only.
Qed.

Lemma residual_vertex_only l g v : only with_mr mr g (residual_vertex l g v).
Proof.
  unfold residual_vertex.
  destruct (isInactive g l v); [apply only_refl; exact _|]. apply put_mr_only.
Qed.

Lemma calcResidual_only l g : only with_mr mr g (calcResidual l g).
Proof.
  unfold calcResidual. apply only_fold; [exact _|]. intros. apply residual_vertex_only.
Qed.

Lemma solveCG_only l g : only with_work workOf g (solveCG l g).
Proof.
  unfold solveCG.
  destruct (cg_init l g) as [st ir].
  destruct (cg_loop _ _ _ _ _ _) as [iter st'].
  destruct (iter =? maxIter); unfold only; destruct g; reflexivity.
Qed.

Lemma repeatZ_only {T} (set : GridMg -> T -> GridMg) get `{!Lens set get} n body g :
  (forall g, only set get g (body g)) -> only set get g (repeatZ n body g).
Proof. intros H. unfold repeatZ. apply only_fold; [exact _|]. intros. apply H. Qed.

Lemma doVCycle_only dst src g g' d r :
  doVCycle dst src g = Ok (g', d, r) -> only with_work workOf g g'.
Proof.
  unfold doVCycle. destruct (negb (mIsASet g && mIsRhsSet g)); [discriminate|].
  intros H. injection H as <- _ _.
  eapply only_trans; [exact _ | | apply only_mr_work, calcResidual_only].
  eapply only_trans; [exact _ | |].
  2:{ apply only_fold; [exact _|]. intros g1 l _.
      eapply only_trans; [exact _ | |].
      2:{ apply repeatZ_only; [exact _|]. intros. apply only_mx_work, smoothGS_only. }
      eapply only_trans; [exact _ | |].
      2:{ apply only_fold; [exact _|]. intros. apply only_mx_work, put_mx_only. }
      apply only_mr_work. reflexivity. }
  eapply only_trans; [exact _ | | apply solveCG_only].
  eapply only_trans; [exact _ | |].
  2:{ apply only_fold; [exact _|]. intros g1 l _.
      eapply only_trans; [exact _ | |].
      2:{ apply only_fold; [exact _|]. intros. apply only_mx_work, put_mx_only. }
      eapply only_trans; [exact _ | |].
      2:{ apply only_mb_work. reflexivity. }
      eapply only_trans; [exact _ | | apply only_mr_work, calcResidual_only].
      apply repeatZ_only; [exact _|]. intros. apply only_mx_work, smoothGS_only. }
  apply only_fold; [exact _|]. intros. apply only_mx_work, put_mx_only.
Qed.

End Frames.

(* ================================================================== *)
(** * The precondition of [doVCycle]                                   *)
(* ================================================================== *)

Section Precondition.
Context {RO : RealOps}.

Lemma setA_flags A0 pAi pAj pAk g g' :
  setA A0 pAi pAj pAk g = Ok g' -> mIsASet g' = true /\ mIsRhsSet g' = false.
Proof.
  unfold setA. destruct (foldM _ _ _) as [g1| |]; simpl; try discriminate.
  intros H. injection H as <-. split; reflexivity.
Qed.

Lemma setRhs_flags rhs g g' :
  setRhs rhs g = Ok g' ->
  mIsASet g = true /\ mIsASet g' = true /\ mIsRhsSet g' = true.
Proof.
  unfold setRhs. destruct (mIsASet g) eqn:Ha; simpl; [|discriminate].
  intros H. injection H as <-.
  split; [reflexivity|]. split; [|reflexivity].
  change (mIsASet (fold_left (fun g v =>
      let g := put_mb g 0 v (zget R0 rhs v) in
      if vt_eqb (getType g 0 v) vtActiveTrivial
      then put_mb g 0 v (Rmul (getb g 0 v) (mTrivialEquationScale g))
      else g) (FOR_LVL g 0) g) = true).
  rewrite <- Ha.
  assert (Ho : only with_mb mb g (fold_left (fun g v =>
      let g := put_mb g 0 v (zget R0 rhs v) in
      if vt_eqb (getType g 0 v) vtActiveTrivial
      then put_mb g 0 v (Rmul (getb g 0 v) (mTrivialEquationScale g))
      else g) (FOR_LVL g 0) g)).
  { apply only_fold; [exact _|]. intros g1 v _. cbn zeta.
    destruct (vt_eqb _ _); [|apply put_mb_only].
    eapply only_trans; [exact _ | apply put_mb_only | apply put_mb_only]. }
  rewrite Ho. reflexivity.
Qed.

Lemma doVCycle_flags dst src g g' d r :
  doVCycle dst src g = Ok (g', d, r) ->
  mIsASet g' = mIsASet g /\ mIsRhsSet g' = mIsRhsSet g.
Proof.
  intros H. apply doVCycle_only in H. rewrite H.
  destruct (workOf g') as [[[[[x b] r'] t1] t2] lg]. split; reflexivity.
Qed.

Lemma doVCycle_outcome dst src g :
  (mIsASet g && mIsRhsSet g = false -> doVCycle dst src g = Err doVCycle_error) /\
  (mIsASet g && mIsRhsSet g = true ->
   exists g' d r, doVCycle dst src g = Ok (g', d, r)).
Proof.
  unfold doVCycle. split; intros ->; simpl; [reflexivity|]. eauto.
Qed.

Lemma runCalls_flags : forall cs g0 g,
  runCalls cs g0 = Ok g ->
  (mIsASet g, mIsRhsSet g) = fold_left history1 cs (mIsASet g0, mIsRhsSet g0).
Proof.
  induction cs as [|c cs IH]; intros g0 g H.
  - injection H as <-. reflexivity.
  - unfold runCalls in H. simpl in H.
    destruct (call c g0) as [g1| |] eqn:Hc; simpl in H; try discriminate.
    rewrite (IH g1 g H). simpl. f_equal.
    destruct c as [A0 pAi pAj pAk | rhs | dst src]; simpl in *.
    + destruct (setA_flags _ _ _ _ _ _ Hc) as (-> & ->). reflexivity.
    + destruct (setRhs_flags _ _ _ Hc) as (Ha & -> & ->). now rewrite Ha.
    + destruct (doVCycle dst src g0) as [[[g2 d] r]| |] eqn:Hd; simpl in Hc; try discriminate.
      injection Hc as <-. destruct (doVCycle_flags _ _ _ _ _ _ Hd) as (-> & ->).
      reflexivity.
Qed.

(** C8. For an object built by the constructor and used through any
    sequence of successful calls: [doVCycle] raises its assertion error when
    [setA] and then [setRhs] (after the last [setA]) have not both been
    called, and returns a result when they have. In particular it raises the
    error right after any [setA], and returns a result after [setA] followed
    by [setRhs]. *)
Theorem doVCycle_requires_setA_setRhs gridSize cs g dst src :
  runCalls cs (newGridMg gridSize) = Ok g ->
  (bothCalled cs = false -> doVCycle dst src g = Err doVCycle_error) /\
  (bothCalled cs = true -> exists g' d r, doVCycle dst src g = Ok (g', d, r)) /\
  (forall A0 pAi pAj pAk g1,
     setA A0 pAi pAj pAk g = Ok g1 -> doVCycle dst src g1 = Err doVCycle_error) /\
  (forall A0 pAi pAj pAk rhs g1 g2,
     setA A0 pAi pAj pAk g = Ok g1 -> setRhs rhs g1 = Ok g2 ->
     exists g' d r, doVCycle dst src g2 = Ok (g', d, r)).
Proof.
  intros Hrun. pose proof (runCalls_flags cs _ g Hrun) as Hf.
  change (fold_left history1 cs (mIsASet (newGridMg gridSize), mIsRhsSet (newGridMg gridSize)))
    with (history cs) in Hf.
  unfold bothCalled. rewrite <- Hf. simpl.
  split; [apply doVCycle_outcome|]. split; [apply doVCycle_outcome|]. split.
  - intros A0 pAi pAj pAk g1 HA.
    destruct (setA_flags _ _ _ _ _ _ HA) as (Ha & Hr).
    apply doVCycle_outcome. rewrite Ha, Hr. reflexivity.
  - intros A0 pAi pAj pAk rhs g1 g2 HA HR.
    destruct (setRhs_flags _ _ _ HR) as (_ & Ha & Hr).
    apply doVCycle_outcome. rewrite Ha, Hr. reflexivity.
Qed.

End Precondition.

Definition q0 : Qcanon.Qc := Qcanon.Q2Qc 0.
Definition q1 : Qcanon.Qc := Qcanon.Q2Qc 1.

Definition callsW : list (@Call QcReal) :=
  [@CallSetA QcReal [q1; q0; q1; q1] [] [] []; @CallSetRhs QcReal [q1; q1; q1; q1]].

(** The object after [setA] and [setRhs] on a grid of 2 x 2 vertices, of
    which the second is inactive. *)
Definition gridW : @GridMg QcReal :=
  Eval vm_compute in
    match runCalls callsW (newGridMg (mkVec 2 2 1)) with
    | Ok g => g
    | _ => newGridMg (mkVec 2 2 1)
    end.

Lemma doVCycle_requires_setA_setRhs_witness :
  runCalls callsW (newGridMg (mkVec 2 2 1)) = Ok gridW /\
  (bothCalled callsW = false -> doVCycle [] None gridW = Err doVCycle_error) /\
  (bothCalled callsW = true -> exists g' d r, doVCycle [] None gridW = Ok (g', d, r)) /\
  (forall A0 pAi pAj pAk g1,
     setA A0 pAi pAj pAk gridW = Ok g1 -> doVCycle [] None g1 = Err doVCycle_error) /\
  (forall A0 pAi pAj pAk rhs g1 g2,
     setA A0 pAi pAj pAk gridW = Ok g1 -> setRhs rhs g1 = Ok g2 ->
     exists g' d r, doVCycle [] None g2 = Ok (g', d, r)).
Proof.
  assert (H : runCalls callsW (newGridMg (mkVec 2 2 1)) = Ok gridW)
    by (vm_cast_no_check (eq_refl (Ok gridW))).
  split; [exact H|].
  exact (doVCycle_requires_setA_setRhs (mkVec 2 2 1) callsW gridW [] None H).
Defined.

(* ================================================================== *)
(** * Inactive vertices are never written                              *)
(* ================================================================== *)

Section InactiveFrame.
Context {RO : RealOps}.

Lemma zget_level_put {A : Type} (d : A) (xs : list (list A)) (l i v : Z) (x : A) :
  v <> i ->
  zget d (zget [] (zset xs l (zset (zget [] xs l) i x)) l) v = zget d (zget [] xs l) v.
Proof.
  intros Hne. rewrite zget_zset, Z.eqb_refl. simpl.
  destruct ((0 <=? l) && (l <? zlength xs))%bool; [|reflexivity].
  now apply zget_zset_ne.
Qed.

Lemma getx_put_mx_ne g l i x v : v <> i -> getx (put_mx g l i x) l v = getx g l v.
Proof. intros H. unfold getx, put_mx. simpl. now apply zget_level_put. Qed.

Lemma getr_put_mr_ne g l i x v : v <> i -> getr (put_mr g l i x) l v = getr g l v.
Proof. intros H. unfold getr, put_mr. simpl. now apply zget_level_put. Qed.

Lemma only_mx_isInactive g g' l v :
  only with_mx mx g g' -> isInactive g' l v = isInactive g l v.
Proof. intros H. rewrite H. reflexivity. Qed.

Lemma only_mr_isInactive g g' l v :
  only with_mr mr g g' -> isInactive g' l v = isInactive g l v.
Proof. intros H. rewrite H. reflexivity. Qed.

Lemma smoothGS_inactive g l rev v :
  isInactive g l v = true -> getx (smoothGS l rev g) l v = getx g l v.
Proof.
  intros Hv.
  set (P := fun g' => only with_mx mx g g' /\ getx g' l v = getx g l v).
  assert (Hstep : forall V g', P g' -> P (smooth_vertex l V g')).
  { intros V g' (Ho & Hx). split.
    - eapply only_trans; [exact _ | exact Ho | apply smooth_vertex_only].
    - unfold smooth_vertex.
      destruct (negb (inGrid g' V l)); [exact Hx|].
      destruct (isInactive g' l (linIdx g' V l)) eqn:Hi; [exact Hx|].
      assert (Hne : v <> linIdx g' V l).
      { intros Heq. rewrite <- Heq, (only_mx_isInactive _ _ _ _ Ho), Hv in Hi.
        discriminate. }
      destruct (Z.eqb_spec l 0) as [->|Hl].
      + rewrite getx_put_mx_ne by exact Hne. exact Hx.
      + rewrite getx_put_mx_ne by exact Hne. exact Hx. }
  assert (HP : P (smoothGS l rev g)).
  { unfold smoothGS.
    apply fold_left_inv; [split; [apply only_refl; exact _ | reflexivity]|].
    intros g1 c _ H1. apply fold_left_inv; [exact H1|].
    intros g2 b _ H2. apply fold_left_inv; [exact H2|].
    intros g3 off _ H3. apply Hstep. exact H3. }
  apply HP.
Qed.

Lemma calcResidual_inactive g l v :
  isInactive g l v = true -> getr (calcResidual l g) l v = getr g l v.
Proof.
  intros Hv.
  enough (HP : only with_mr mr g (calcResidual l g) /\
               getr (calcResidual l g) l v = getr g l v) by apply HP.
  unfold calcResidual.
  apply fold_left_inv with
    (P := fun g' => only with_mr mr g g' /\ getr g' l v = getr g l v).
  - split; [apply only_refl; exact _ | reflexivity].
  - intros g' w _ (Ho & Hr). split.
    + eapply only_trans; [exact _ | exact Ho | apply residual_vertex_only].
    + unfold residual_vertex. destruct (isInactive g' l w) eqn:Hi; [exact Hr|].
      rewrite getr_put_mr_ne; [exact Hr|].
      intros Heq. rewrite <- Heq, (only_mr_isInactive _ _ _ _ Ho), Hv in Hi.
      discriminate.
Qed.

Lemma restrict_inactive g l src dst v :
  isInactive g l v = true -> zget R0 (restrict g l src dst) v = zget R0 dst v.
Proof.
  intros Hv. unfold restrict.
  apply fold_left_inv with (P := fun d => zget R0 d v = zget R0 dst v).
  - reflexivity.
  - intros d w _ Hd. destruct (isInactive g l w) eqn:Hi; [exact Hd|].
    rewrite zget_zset_ne; [exact Hd|]. intros Heq. congruence.
Qed.

Lemma interpolate_inactive g l src dst v :
  isInactive g l v = true -> zget R0 (interpolate g l src dst) v = zget R0 dst v.
Proof.
  intros Hv. unfold interpolate.
  apply fold_left_inv with (P := fun d => zget R0 d v = zget R0 dst v).
  - reflexivity.
  - intros d w _ Hd. destruct (isInactive g l w) eqn:Hi; [exact Hd|].
    rewrite zget_zset_ne; [exact Hd|]. intros Heq. congruence.
Qed.

(** C10. At a vertex [v] that is inactive at level [l], the solution
    after [smoothGS], the residual after [calcResidual] and the destination
    arrays of [restrict] and [interpolate] hold the value they held before
    the call. *)
Theorem inactive_entries_unchanged g l v :
  getType g l v = vtInactive ->
  (forall reversedOrder, getx (smoothGS l reversedOrder g) l v = getx g l v) /\
  getr (calcResidual l g) l v = getr g l v /\
  (forall src dst, zget R0 (restrict g l src dst) v = zget R0 dst v) /\
  (forall src dst, zget R0 (interpolate g l src dst) v = zget R0 dst v).
Proof.
  intros Ht.
  assert (Hv : isInactive g l v = true) by (unfold isInactive; now rewrite Ht).
  split; [intros; now apply smoothGS_inactive|].
  split; [now apply calcResidual_inactive|].
  split; intros; [now apply restrict_inactive | now apply interpolate_inactive].
Qed.

End InactiveFrame.

Lemma inactive_entries_unchanged_witness :
  getType gridW 0 1 = vtInactive /\
  (forall reversedOrder, getx (smoothGS 0 reversedOrder gridW) 0 1 = getx gridW 0 1) /\
  getr (calcResidual 0 gridW) 0 1 = getr gridW 0 1 /\
  (forall src dst, zget R0 (restrict gridW 0 src dst) 1 = zget R0 dst 1) /\
  (forall src dst, zget R0 (interpolate gridW 0 src dst) 1 = zget R0 dst 1).
Proof.
  split; [reflexivity|].
  apply (inactive_entries_unchanged gridW 0 1). reflexivity.
Defined.

(* ================================================================== *)
(** * The coarsest level solver                                        *)
(* ================================================================== *)

Section CoarsestSolve.
Context {RO : RealOps}.

Lemma cg_state_succ l g ir st k :
  cg_state l g ir st (S k) = cg_state l g ir (fst (cg_iter l g ir st)) k.
Proof. unfold cg_state. apply Nat.iter_succ_r. Qed.

Lemma cg_loop_spec l g ir : forall fuel iter0 st,
  exists n : nat,
    (n <= fuel)%nat /\
    fst (cg_loop fuel l g ir iter0 st) = iter0 + Z.of_nat n /\
    (forall k, (k < n)%nat -> cg_converged l g ir st k = false) /\
    ((n < fuel)%nat ->
       cg_converged l g ir st n = true /\
       snd (cg_loop fuel l g ir iter0 st) = cg_state l g ir st (S n)) /\
    (n = fuel -> snd (cg_loop fuel l g ir iter0 st) = cg_state l g ir st fuel).
Proof.
  induction fuel as [|fuel IH]; intros iter0 st.
  - exists O. simpl. split; [lia|]. split; [lia|]. split; [intros k Hk; lia|].
    split; [lia | reflexivity].
  - cbn [cg_loop]. destruct (cg_iter l g ir st) as [st1 stop] eqn:Hit.
    destruct stop.
    + exists O. cbn [fst snd]. split; [lia|]. split; [lia|].
      split; [intros k Hk; lia|]. split; [|intros Hc; discriminate Hc].
      intros _. split.
      * unfold cg_converged, cg_state. simpl. now rewrite Hit.
      * unfold cg_state. simpl. now rewrite Hit.
    + destruct (IH (iter0 + 1) st1) as (n & Hn & Hi & Hk & Hlt & Heq).
      assert (Hst1 : st1 = fst (cg_iter l g ir st)) by now rewrite Hit.
      exists (S n). split; [lia|]. split; [rewrite Hi; lia|]. split; [|split].
      * intros [|k] Hk'.
        -- unfold cg_converged, cg_state. simpl. now rewrite Hit.
        -- unfold cg_converged. rewrite cg_state_succ, <- Hst1. apply Hk. lia.
      * intros Hn'. destruct Hlt as (Hc & Hs); [lia|]. split.
        -- unfold cg_converged. rewrite cg_state_succ, <- Hst1. exact Hc.
        -- rewrite Hs. now rewrite (cg_state_succ l g ir st (S n)), <- Hst1.
      * intros Hn'. rewrite Heq by lia. now rewrite (cg_state_succ l g ir st fuel), <- Hst1.
Qed.

End CoarsestSolve.

(* ================================================================== *)
(** * Trivial equations in two dimensions                              *)
(* ================================================================== *)

(** A grid of 2 x 2 vertices in 2D mode whose operator is the identity:
    every diagonal coefficient is 1 and every other coefficient is 0. *)
Definition identityA : list (@Real QcReal) := [q1; q1; q1; q1].
Definition zeroA : list (@Real QcReal) := [q0; q0; q0; q0].

Definition gridT : @GridMg QcReal :=
  Eval vm_compute in
    match setA identityA zeroA zeroA zeroA (newGridMg (mkVec 2 2 1)) with
    | Ok g => g
    | _ => newGridMg (mkVec 2 2 1)
    end.

(** C4 (failing input). In 2D mode a vertex has three coefficient
    slots, yet [setA] and [analyzeStencil] use the slot [v*mStencilSize0 + 3],
    which is the diagonal of the next vertex: the first vertex of the
    identity system is a trivial equation, and [setA] leaves it [vtActive]
    with its diagonal not scaled. *)
Lemma setA_2D_misses_trivial_row :
  setA identityA zeroA zeroA zeroA (newGridMg (mkVec 2 2 1)) = Ok gridT /\
  mIs3D gridT = false /\
  zget R0 identityA 0 = R1 /\
  zget R0 zeroA 0 = R0 /\
  getType gridT 0 0 = vtActive /\
  getA gridT 0 (0 * mStencilSize0 gridT + 0) = zget R0 identityA 0 /\
  getA gridT 0 (0 * mStencilSize0 gridT + 0)
    <> Rmul (zget R0 identityA 0) (mTrivialEquationScale gridT) /\
  mType gridT = [[vtActive; vtActive; vtActive; vtActiveTrivial]].
Proof.
  split; [vm_cast_no_check (eq_refl (Ok gridT))|].
  repeat split; try reflexivity.
  intros H. apply (f_equal Qcanon.this) in H. vm_compute in H. discriminate H.
Qed.

(* ================================================================== *)
(** * Index arithmetic of a level                                      *)
(* ================================================================== *)

Section Geometry.
Context {RO : RealOps}.

Lemma in_boxList lo hi V :
  In V (boxList lo hi) <->
  vx lo <= vx V <= vx hi /\ vy lo <= vy V <= vy hi /\ vz lo <= vz V <= vz hi.
Proof.
  unfold boxList. rewrite in_flat_map. split.
  - intros (z & Hz & H). rewrite in_flat_map in H. destruct H as (y & Hy & H).
    rewrite in_map_iff in H. destruct H as (x & <- & Hx).
    rewrite in_zseq in *. simpl. lia.
  - intros (Hx & Hy & Hz). exists (vz V). rewrite in_zseq. split; [lia|].
    rewrite in_flat_map. exists (vy V). rewrite in_zseq. split; [lia|].
    rewrite in_map_iff. exists (vx V). rewrite in_zseq. split; [|lia].
    destruct V; reflexivity.
Qed.

Lemma NoDup_flat_map {A B : Type} (f : A -> list B) (l : list A) :
  NoDup l -> (forall a, In a l -> NoDup (f a)) ->
  (forall a a' b, In a l -> In a' l -> In b (f a) -> In b (f a') -> a = a') ->
  NoDup (flat_map f l).
Proof.
  induction l as [|a l IH]; simpl; intros Hnd Hf Hdis; [constructor|].
  inversion Hnd as [|? ? Hna Hnd']; subst.
  apply NoDup_app.
  - apply Hf. auto.
  - apply IH; auto. intros; eapply Hdis; eauto.
  - intros b Hb Hb'. rewrite in_flat_map in Hb'. destruct Hb' as (a' & Ha' & Hb').
    assert (a = a') by (eapply Hdis; eauto). subst. contradiction.
Qed.

Lemma NoDup_map_inj {A B : Type} (f : A -> B) (l : list A) :
  (forall a a', In a l -> In a' l -> f a = f a' -> a = a') ->
  NoDup l -> NoDup (map f l).
Proof.
  induction l as [|a l IH]; simpl; intros Hinj Hnd; [constructor|].
  inversion Hnd as [|? ? Hna Hnd']; subst. constructor.
  - rewrite in_map_iff. intros (a' & He & Ha').
    assert (a' = a) by (apply Hinj; auto). subst. contradiction.
  - apply IH; auto.
Qed.

Lemma NoDup_boxList lo hi : NoDup (boxList lo hi).
Proof.
  unfold boxList. apply NoDup_flat_map.
  - apply NoDup_zseq.
  - intros z _. apply NoDup_flat_map.
    + apply NoDup_zseq.
    + intros y _. apply NoDup_map_inj; [|apply NoDup_zseq].
      intros x x' _ _ H. now injection H.
    + intros y y' b _ _ Hb Hb'. rewrite in_map_iff in Hb, Hb'.
      destruct Hb as (x & <- & _). destruct Hb' as (x' & Hb' & _). now injection Hb'.
  - intros z z' b _ _ Hb Hb'. rewrite in_flat_map in Hb, Hb'.
    destruct Hb as (y & _ & Hb). destruct Hb' as (y' & _ & Hb').
    rewrite in_map_iff in Hb, Hb'.
    destruct Hb as (x & <- & _). destruct Hb' as (x' & Hb' & _). now injection Hb'.
Qed.

Lemma inGrid_spec g V l :
  inGrid g V l = true <->
  0 <= vx V < vx (sizeAt g l) /\ 0 <= vy V < vy (sizeAt g l) /\
  0 <= vz V < vz (sizeAt g l).
Proof.
  unfold inGrid. rewrite !andb_true_iff, !Z.leb_le, !Z.ltb_lt. lia.
Qed.

Section Level.
Variables (g : GridMg) (l : Z).
Hypothesis Hwl : wfLevel g l.

Ltac level_sizes :=
  pose proof (wl_x _ _ Hwl); pose proof (wl_y _ _ Hwl); pose proof (wl_z _ _ Hwl);
  set (sx := vx (sizeAt g l)) in *; set (sy := vy (sizeAt g l)) in *;
  set (sz := vz (sizeAt g l)) in *.

Lemma linIdx_eq V :
  linIdx g V l =
  vx V + vy V * vx (sizeAt g l) + vz V * (vx (sizeAt g l) * vy (sizeAt g l)).
Proof. unfold linIdx. rewrite (wl_pitch _ _ Hwl). reflexivity. Qed.

Lemma linIdx_range V :
  inGrid g V l = true -> 0 <= linIdx g V l < countOf (sizeAt g l).
Proof.
  rewrite inGrid_spec, linIdx_eq. unfold countOf. level_sizes.
  intros (Hx & Hy & Hz). split; [nia|].
  assert (vx V + vy V * sx <= sx * sy - 1) by nia.
  assert (vz V * (sx * sy) <= (sz - 1) * (sx * sy)) by nia.
  nia.
Qed.

Lemma vecIdx_linIdx V : inGrid g V l = true -> vecIdx g (linIdx g V l) l = V.
Proof.
  intros HV. pose proof (linIdx_range V HV) as Hr.
  rewrite inGrid_spec in HV. destruct HV as (Hx & Hy & Hz).
  unfold vecIdx. rewrite (wl_pitch _ _ Hwl). simpl.
  rewrite linIdx_eq in *. level_sizes.
  assert (Hxy : 0 <= vx V + vy V * sx < sx * sy) by nia.
  assert (E1 : (vx V + vy V * sx + vz V * (sx * sy)) mod sx = vx V).
  { replace (vx V + vy V * sx + vz V * (sx * sy))
      with (vx V + (vy V + vz V * sy) * sx) by ring.
    rewrite Z.mod_add by lia. apply Z.mod_small. lia. }
  assert (E2 : (vx V + vy V * sx + vz V * (sx * sy)) mod (sx * sy) = vx V + vy V * sx).
  { rewrite Z.mod_add by nia. apply Z.mod_small. lia. }
  assert (E3 : (vx V + vy V * sx + vz V * (sx * sy)) / (sx * sy) = vz V).
  { rewrite Z.div_add by nia. rewrite Z.div_small by lia. lia. }
  assert (E4 : (vx V + vy V * sx) / sx = vy V).
  { rewrite Z.div_add by lia. rewrite Z.div_small by lia. lia. }
  rewrite (Z.rem_mod_nonneg _ sx) by lia.
  rewrite (Z.rem_mod_nonneg _ (sx * sy)) by nia.
  rewrite E1, E2.
  rewrite !Z.quot_div_nonneg by nia.
  rewrite E3, E4. destruct V; reflexivity.
Qed.

Lemma linIdx_vecIdx v :
  0 <= v < countOf (sizeAt g l) ->
  inGrid g (vecIdx g v l) l = true /\ linIdx g (vecIdx g v l) l = v.
Proof.
  intros Hv. unfold countOf in Hv.
  rewrite inGrid_spec, linIdx_eq. unfold vecIdx. rewrite (wl_pitch _ _ Hwl).
  simpl. level_sizes.
  assert (Hp : 0 < sx * sy) by nia.
  pose proof (Z.mod_pos_bound v (sx * sy) Hp) as Hm.
  rewrite (Z.rem_mod_nonneg v sx) by lia.
  rewrite (Z.rem_mod_nonneg v (sx * sy)) by lia.
  rewrite !Z.quot_div_nonneg by lia.
  pose proof (Z.mod_pos_bound v sx ltac:(lia)) as Hmx.
  pose proof (Z.div_mod v (sx * sy) ltac:(lia)) as Hd.
  pose proof (Z.div_mod (v mod (sx * sy)) sx ltac:(lia)) as Hd2.
  assert (Hq : 0 <= v / (sx * sy) < sz).
  { split; [apply Z.div_pos; lia|]. apply Z.div_lt_upper_bound; nia. }
  assert (Hq2 : 0 <= (v mod (sx * sy)) / sx < sy).
  { split; [apply Z.div_pos; lia|]. apply Z.div_lt_upper_bound; nia. }
  assert (Hmm : (v mod (sx * sy)) mod sx = v mod sx).
  { rewrite Hd at 2. rewrite Z.add_comm.
    replace (sx * sy * (v / (sx * sy))) with ((sy * (v / (sx * sy))) * sx) by ring.
    now rewrite Z.mod_add by lia. }
  split; [lia|]. rewrite <- Hmm. nia.
Qed.

Lemma linIdx_inj V V' :
  inGrid g V l = true -> inGrid g V' l = true ->
  linIdx g V l = linIdx g V' l -> V = V'.
Proof.
  intros H H' E. rewrite <- (vecIdx_linIdx V H), <- (vecIdx_linIdx V' H'). now rewrite E.
Qed.

End Level.

(** ** Interpolation candidates and restriction footprints *)

Definition nonneg (V : Vec3i) : Prop := 0 <= vx V /\ 0 <= vy V /\ 0 <= vz V.

(** The fine vertices that restrict to the coarse vertex [I]. *)
Definition footprint (g : GridMg) (l : Z) (I : Vec3i) : list Vec3i :=
  boxList (vmax (vconst 0) (vsubc (vmulc I 2) 1))
          (vmin (vsubc (sizeAt g (l - 1)) 1) (vaddc (vmulc I 2) 1)).

Lemma in_candidates R I :
  nonneg R ->
  (In I (candidates R) <->
   2 * vx I - 1 <= vx R <= 2 * vx I + 1 /\
   2 * vy I - 1 <= vy R <= 2 * vy I + 1 /\
   2 * vz I - 1 <= vz R <= 2 * vz I + 1).
Proof.
  intros (Hx & Hy & Hz). unfold candidates. rewrite in_boxList.
  unfold vdivc, vaddc, vadd, vmap2, vconst. cbn [vx vy vz].
  rewrite !Z.quot_div_nonneg by lia.
  pose proof (Z.div_mod (vx R) 2 ltac:(lia)). pose proof (Z.mod_pos_bound (vx R) 2 ltac:(lia)).
  pose proof (Z.div_mod (vy R) 2 ltac:(lia)). pose proof (Z.mod_pos_bound (vy R) 2 ltac:(lia)).
  pose proof (Z.div_mod (vz R) 2 ltac:(lia)). pose proof (Z.mod_pos_bound (vz R) 2 ltac:(lia)).
  pose proof (Z.div_mod (vx R + 1) 2 ltac:(lia)). pose proof (Z.mod_pos_bound (vx R + 1) 2 ltac:(lia)).
  pose proof (Z.div_mod (vy R + 1) 2 ltac:(lia)). pose proof (Z.mod_pos_bound (vy R + 1) 2 ltac:(lia)).
  pose proof (Z.div_mod (vz R + 1) 2 ltac:(lia)). pose proof (Z.mod_pos_bound (vz R + 1) 2 ltac:(lia)).
  lia.
Qed.

Lemma in_footprint g l I R :
  In R (footprint g l I) <->
  inGrid g R (l - 1) = true /\
  2 * vx I - 1 <= vx R <= 2 * vx I + 1 /\
  2 * vy I - 1 <= vy R <= 2 * vy I + 1 /\
  2 * vz I - 1 <= vz R <= 2 * vz I + 1.
Proof.
  unfold footprint. rewrite in_boxList, inGrid_spec.
  unfold vmax, vmin, vsubc, vaddc, vmulc, vsub, vadd, vmap2, vconst. cbn [vx vy vz]. lia.
Qed.

Lemma candidates_footprint g l R I :
  inGrid g R (l - 1) = true ->
  (In I (candidates R) <-> In R (footprint g l I)).
Proof.
  intros HR. rewrite in_footprint, in_candidates; [tauto|].
  apply inGrid_spec in HR. unfold nonneg. lia.
Qed.

Lemma candidates_nonneg R I : nonneg R -> In I (candidates R) -> nonneg I.
Proof.
  intros HR HI. apply in_candidates in HI; [|exact HR]. unfold nonneg in *. lia.
Qed.

Lemma candidates_inGrid g l R I :
  sizeAt g l = vdivc (vaddc (sizeAt g (l - 1)) 2) 2 ->
  inGrid g R (l - 1) = true -> In I (candidates R) -> inGrid g I l = true.
Proof.
  intros Hs HR HI. apply inGrid_spec in HR.
  apply in_candidates in HI; [|unfold nonneg; lia].
  apply inGrid_spec. rewrite Hs.
  unfold vdivc, vaddc, vadd, vmap2, vconst. cbn [vx vy vz].
  rewrite !Z.quot_div_nonneg by lia.
  pose proof (Z.div_mod (vx (sizeAt g (l - 1)) + 2) 2 ltac:(lia)).
  pose proof (Z.mod_pos_bound (vx (sizeAt g (l - 1)) + 2) 2 ltac:(lia)).
  pose proof (Z.div_mod (vy (sizeAt g (l - 1)) + 2) 2 ltac:(lia)).
  pose proof (Z.mod_pos_bound (vy (sizeAt g (l - 1)) + 2) 2 ltac:(lia)).
  pose proof (Z.div_mod (vz (sizeAt g (l - 1)) + 2) 2 ltac:(lia)).
  pose proof (Z.mod_pos_bound (vz (sizeAt g (l - 1)) + 2) 2 ltac:(lia)).
  lia.
Qed.

Lemma length_zseq lo hi : length (zseq lo hi) = Z.to_nat (hi + 1 - lo).
Proof. apply length_zrange. Qed.

Lemma length_boxList lo hi :
  length (boxList lo hi) =
  (Z.to_nat (vz hi + 1 - vz lo) * (Z.to_nat (vy hi + 1 - vy lo) *
   Z.to_nat (vx hi + 1 - vx lo)))%nat.
Proof.
  unfold boxList.
  rewrite flat_map_constant_length
    with (c := (Z.to_nat (vy hi + 1 - vy lo) * Z.to_nat (vx hi + 1 - vx lo))%nat).
  - now rewrite length_zseq.
  - intros z _. rewrite flat_map_constant_length with (c := Z.to_nat (vx hi + 1 - vx lo)).
    + now rewrite length_zseq.
    + intros y _. now rewrite length_map, length_zseq.
Qed.

Lemma half_width (a : Z) : 0 <= a -> Z.quot (a + 1) 2 + 1 - Z.quot a 2 = 1 + Z.rem a 2.
Proof.
  intros Ha. rewrite !Z.quot_div_nonneg, Z.rem_mod_nonneg by lia.
  pose proof (Z.div_mod a 2 ltac:(lia)). pose proof (Z.mod_pos_bound a 2 ltac:(lia)).
  pose proof (Z.div_mod (a + 1) 2 ltac:(lia)). pose proof (Z.mod_pos_bound (a + 1) 2 ltac:(lia)).
  lia.
Qed.

Lemma rem2_cases (a : Z) : 0 <= a -> Z.rem a 2 = 0 \/ Z.rem a 2 = 1.
Proof.
  intros Ha. rewrite Z.rem_mod_nonneg by lia.
  pose proof (Z.mod_pos_bound a 2 ltac:(lia)). lia.
Qed.

(** The key with which [genCoarseGrid] inserts a fine vertex is the
    number of its interpolation candidates. *)
Lemma length_candidates R :
  nonneg R -> zlength (candidates R) = Z.shiftl 1 (oddSum R).
Proof.
  intros (Hx & Hy & Hz). unfold zlength, candidates, oddSum.
  rewrite length_boxList. unfold vdivc, vaddc, vadd, vmap2, vconst. cbn [vx vy vz].
  rewrite !half_width by assumption.
  destruct (rem2_cases _ Hx) as [-> | ->], (rem2_cases _ Hy) as [-> | ->],
    (rem2_cases _ Hz) as [-> | ->]; reflexivity.
Qed.

Lemma oddSum_range R : nonneg R -> 0 <= oddSum R <= 3.
Proof.
  intros (Hx & Hy & Hz). unfold oddSum.
  destruct (rem2_cases _ Hx), (rem2_cases _ Hy), (rem2_cases _ Hz); lia.
Qed.

End Geometry.

(* ================================================================== *)
(** * The classification arrays                                        *)
(* ================================================================== *)

Section TypeArrays.
Context {RO : RealOps}.

Lemma zget_level_put_eq {A : Type} (d : A) (xs : list (list A)) (l i : Z) (x : A) :
  0 <= l < zlength xs -> 0 <= i < zlength (zget [] xs l) ->
  zget d (zget [] (zset xs l (zset (zget [] xs l) i x)) l) i = x.
Proof. intros Hl Hi. rewrite zget_zset_eq by exact Hl. now apply zget_zset_eq. Qed.

Lemma zget_level_put_other {A : Type} (xs : list (list A)) (l l' : Z) (ys : list A) :
  l' <> l -> zget [] (zset xs l ys) l' = zget [] xs l'.
Proof. intros H. now apply zget_zset_ne. Qed.

Lemma zlength_level_put {A : Type} (xs : list (list A)) (l l' i : Z) (x : A) :
  zlength (zget [] (zset xs l (zset (zget [] xs l) i x)) l') = zlength (zget [] xs l').
Proof.
  rewrite zget_zset.
  destruct ((l' =? l) && (0 <=? l) && (l <? zlength xs))%bool eqn:E; [|reflexivity].
  apply andb_prop in E. destruct E as (E & _). apply andb_prop in E. destruct E as (E & _).
  apply Z.eqb_eq in E. subst. apply zlength_zset.
Qed.

Lemma getType_put_eq g l i t :
  0 <= l < zlength (mType g) -> 0 <= i < zlength (zget [] (mType g) l) ->
  getType (put_mType g l i t) l i = t.
Proof. intros Hl Hi. unfold getType, put_mType. simpl. now apply zget_level_put_eq. Qed.

Lemma getType_put_ne g l i t l' j :
  l' <> l \/ j <> i -> getType (put_mType g l i t) l' j = getType g l' j.
Proof.
  intros H. unfold getType, put_mType. simpl.
  destruct (Z.eq_dec l' l) as [->|Hl].
  - apply zget_level_put. tauto.
  - now rewrite zget_level_put_other.
Qed.

(** [sameBut l g g']: the two states differ at most in the classification
    of the vertices of level [l]. *)
Definition sameBut (l : Z) (g g' : GridMg) : Prop :=
  only with_mType mType g g' /\
  zlength (mType g') = zlength (mType g) /\
  (forall l', zlength (zget [] (mType g') l') = zlength (zget [] (mType g) l')) /\
  (forall l' j, l' <> l -> getType g' l' j = getType g l' j).

Lemma sameBut_refl l g : sameBut l g g.
Proof. split; [apply only_refl; exact _|]. auto. Qed.

Lemma sameBut_trans l g g' g'' : sameBut l g g' -> sameBut l g' g'' -> sameBut l g g''.
Proof.
  intros (A1 & A2 & A3 & A4) (B1 & B2 & B3 & B4). split; [|split; [|split]].
  - eapply only_trans; [exact _ | exact A1 | exact B1].
  - congruence.
  - intros l'. rewrite B3. apply A3.
  - intros l' j H. rewrite B4 by exact H. now apply A4.
Qed.

Lemma sameBut_put l g i t : sameBut l g (put_mType g l i t).
Proof.
  split; [apply put_mType_only|]. split; [|split].
  - unfold put_mType. simpl. apply zlength_zset.
  - intros l'. unfold put_mType. simpl. apply zlength_level_put.
  - intros l' j H. apply getType_put_ne. auto.
Qed.

Lemma sb_sizeAt l g g' k : sameBut l g g' -> sizeAt g' k = sizeAt g k.
Proof. intros (H & _). rewrite H. reflexivity. Qed.
Lemma sb_linIdx l g g' V k : sameBut l g g' -> linIdx g' V k = linIdx g V k.
Proof. intros (H & _). rewrite H. reflexivity. Qed.
Lemma sb_vecIdx l g g' v k : sameBut l g g' -> vecIdx g' v k = vecIdx g v k.
Proof. intros (H & _). rewrite H. reflexivity. Qed.
Lemma sb_inGrid l g g' V k : sameBut l g g' -> inGrid g' V k = inGrid g V k.
Proof. intros (H & _). rewrite H. reflexivity. Qed.
Lemma sb_FOR_LVL l g g' k : sameBut l g g' -> FOR_LVL g' k = FOR_LVL g k.
Proof. intros (H & _). rewrite H. reflexivity. Qed.
Lemma sb_mb l g g' : sameBut l g g' -> mb g' = mb g.
Proof. intros (H & _). rewrite H. reflexivity. Qed.
Lemma sb_mIs3D l g g' : sameBut l g g' -> mIs3D g' = mIs3D g.
Proof. intros (H & _). rewrite H. reflexivity. Qed.
Lemma sb_footprint l g g' k I : sameBut l g g' -> footprint g' k I = footprint g k I.
Proof. intros (H & _). rewrite H. reflexivity. Qed.

Lemma sameBut_wfLevel l g g' k : sameBut l g g' -> wfLevel g k -> wfLevel g' k.
Proof.
  intros Hs W. pose proof Hs as (H & H2 & H3 & H4).
  assert (E : sizeAt g' k = sizeAt g k) by (rewrite H; reflexivity).
  constructor; rewrite ?E; try apply W.
  - replace (pitchAt g' k) with (pitchAt g k) by (rewrite H; reflexivity). apply W.
  - replace (mb g') with (mb g) by (rewrite H; reflexivity). apply W.
  - replace (mx g') with (mx g) by (rewrite H; reflexivity). apply W.
  - replace (mr g') with (mr g) by (rewrite H; reflexivity). apply W.
  - rewrite H3. apply W.
Qed.

Lemma sameBut_wf l g g' : sameBut l g g' -> wf g -> wf g'.
Proof.
  intros Hs W. pose proof Hs as (H & H2 & H3 & H4).
  assert (EL : numLevels g' = numLevels g) by (rewrite H; reflexivity).
  constructor; rewrite ?EL.
  - apply W.
  - replace (mSize g') with (mSize g) by (rewrite H; reflexivity). apply W.
  - replace (mPitch g') with (mPitch g) by (rewrite H; reflexivity). apply W.
  - replace (mx g') with (mx g) by (rewrite H; reflexivity). apply W.
  - replace (mb g') with (mb g) by (rewrite H; reflexivity). apply W.
  - replace (mr g') with (mr g) by (rewrite H; reflexivity). apply W.
  - rewrite H2. apply W.
  - intros k Hk. eapply sameBut_wfLevel; [exact Hs|]. now apply W.
  - intros k Hk. rewrite !(sb_sizeAt _ _ _ _ Hs). now apply W.
  - rewrite (sb_mIs3D _ _ _ Hs), (sb_sizeAt _ _ _ _ Hs). apply W.
Qed.

(** A loop that rewrites the classification of the vertices [vs] of level
    [l], each through the same function of its old classification. *)
Lemma fold_types l (f : VertexType -> VertexType) (step : GridMg -> Z -> GridMg) :
  (forall g v, sameBut l g (step g v)) ->
  (forall g v, 0 <= l < zlength (mType g) -> 0 <= v < zlength (zget [] (mType g) l) ->
               getType (step g v) l v = f (getType g l v)) ->
  (forall g v j, j <> v -> getType (step g v) l j = getType g l j) ->
  forall vs g,
    NoDup vs -> 0 <= l < zlength (mType g) ->
    (forall v, In v vs -> 0 <= v < zlength (zget [] (mType g) l)) ->
    sameBut l g (fold_left step vs g) /\
    (forall j, getType (fold_left step vs g) l j =
               if in_dec Z.eq_dec j vs then f (getType g l j) else getType g l j).
Proof.
  intros Hsb Heq Hne. induction vs as [|v vs IH]; intros g Hnd Hl Hr; simpl.
  - split; [apply sameBut_refl | reflexivity].
  - inversion Hnd as [|? ? Hnv Hnd']; subst.
    pose proof (Hsb g v) as Hs1. destruct Hs1 as (S1 & S2 & S3 & S4).
    destruct (IH (step g v) Hnd') as (I1 & I2).
    + rewrite S2. exact Hl.
    + intros w Hw. rewrite S3. apply Hr. right. exact Hw.
    + split; [eapply sameBut_trans; [apply Hsb | exact I1]|].
      intros j. rewrite I2.
      destruct (Z.eq_dec v j) as [->|Hvj].
      * destruct (in_dec Z.eq_dec j vs); [contradiction|].
        apply Heq; [exact Hl | apply Hr; left; reflexivity].
      * rewrite Hne by congruence.
        destruct (in_dec Z.eq_dec j vs); reflexivity.
Qed.

End TypeArrays.

(* ================================================================== *)
(** * Loops that update keys of the heap                               *)
(* ================================================================== *)

Section HeapFolds.
Import NKMinHeap.

Lemma Inv_key_range h id : Inv h -> 0 <= id < mN h -> -1 <= getKey h id < mK h.
Proof.
  intros (bk & all & S & Hlen & Hout & Hsz & Hmin) Hid.
  pose proof (shape_K S) as HK.
  destruct (in_dec Z.eq_dec id all) as [Hin|Hnin].
  - apply (shape_in S) in Hin. destruct Hin as (k & Hk & Hin).
    pose proof (shape_key S Hk Hin) as Hkey. unfold getKey. lia.
  - rewrite Hout by assumption. lia.
Qed.

Lemma Inv_empty h : Inv h -> mSize h = 0 -> forall id, 0 <= id < mN h -> getKey h id = -1.
Proof.
  intros HI Hz id Hid.
  destruct (Inv_stored h HI) as (bk & all & S & _ & Hsz & Hall & _).
  destruct (Z.eq_dec (getKey h id) (-1)) as [|Hne]; [assumption|].
  assert (Hin : In id all) by (apply Hall; split; assumption).
  destruct all; [contradiction|]. rewrite Hsz in Hz. unfold zlength in Hz. simpl in Hz. lia.
Qed.

Lemma Inv_size_nonneg h : Inv h -> 0 <= mSize h.
Proof.
  intros (bk & all & _ & _ & _ & Hsz & _). rewrite Hsz. apply zlength_nonneg.
Qed.

Lemma foldM_map {A B S : Type} (f : S -> B -> result S) (m : A -> B) (l : list A) :
  forall s, foldM (fun s a => f s (m a)) l s = foldM f (map m l) s.
Proof.
  induction l as [|a l IH]; intros s; simpl; [reflexivity|].
  destruct (f s (m a)); simpl; auto.
Qed.

Lemma foldM_ext {A S : Type} (f f' : S -> A -> result S) (l : list A) :
  (forall s a, f s a = f' s a) -> forall s, foldM f l s = foldM f' l s.
Proof.
  intros H. induction l as [|a l IH]; intros s; simpl; [reflexivity|].
  rewrite H. destruct (f' s a); simpl; auto.
Qed.

(** One step of a loop that sets the key of [r] to a value computed from
    [r] and its present key, or leaves it. *)
Definition keyStep (u : Z -> Z -> option Z) (h : t) (r : Z) : result t :=
  match u r (getKey h r) with
  | Some k => setKey r k h
  | None => Ok h
  end.

Definition newKey (u : Z -> Z -> option Z) (r key : Z) : Z :=
  match u r key with
  | Some k => k
  | None => key
  end.

Lemma foldM_keyStep (u : Z -> Z -> option Z) : forall rs h,
  Inv h -> NoDup rs ->
  (forall r, In r rs -> 0 <= r < mN h) ->
  (forall r key k, In r rs -> -1 <= key < mK h -> u r key = Some k -> -1 <= k < mK h) ->
  exists h',
    foldM (keyStep u) rs h = Ok h' /\ Inv h' /\ mN h' = mN h /\ mK h' = mK h /\
    (forall r, getKey h' r =
               if in_dec Z.eq_dec r rs then newKey u r (getKey h r) else getKey h r) /\
    ((forall r key k, u r key = Some k -> key <> -1) -> mSize h' <= mSize h).
Proof.
  induction rs as [|r rs IH]; intros h HI Hnd Hr Hu.
  - exists h. simpl. repeat split; auto. intros. lia.
  - inversion Hnd as [|? ? Hnr Hnd']; subst.
    assert (Hrr : 0 <= r < mN h) by (apply Hr; left; reflexivity).
    assert (Hstep : exists h1, keyStep u h r = Ok h1 /\ Inv h1 /\ mN h1 = mN h /\
              mK h1 = mK h /\ getKey h1 r = newKey u r (getKey h r) /\
              (forall j, j <> r -> getKey h1 j = getKey h j) /\
              ((forall r key k, u r key = Some k -> key <> -1) -> mSize h1 <= mSize h)).
    { unfold keyStep, newKey. destruct (u r (getKey h r)) as [k|] eqn:Hk.
      - assert (Hkr : -1 <= k < mK h).
        { apply (Hu r (getKey h r) k);
            [left; reflexivity | apply Inv_key_range; assumption | exact Hk]. }
        destruct (setKey_spec h r k HI Hrr Hkr) as (h1 & E & HI1 & E1 & E2 & E3 & E4 & E5).
        exists h1. repeat split; auto.
        intros Hnn. specialize (Hnn _ _ _ Hk). rewrite E5.
        destruct (Z.eqb_spec (getKey h r) (-1)); [contradiction|].
        destruct (k =? -1); lia.
      - exists h. repeat split; auto. intros. lia. }
    destruct Hstep as (h1 & E & HI1 & E1 & E2 & E3 & E4 & E5).
    destruct (IH h1 HI1 Hnd') as (h' & F & HI' & F1 & F2 & F3 & F4).
    + intros j Hj. rewrite E1. apply Hr. right. exact Hj.
    + intros j key k Hj Hkey. rewrite E2 in *. apply Hu; [right; exact Hj | exact Hkey].
    + exists h'. simpl. rewrite E. simpl. split; [exact F|]. split; [exact HI'|].
      split; [congruence|]. split; [congruence|]. split.
      * intros j. rewrite F3. destruct (Z.eq_dec r j) as [->|Hne].
        -- destruct (in_dec Z.eq_dec j rs); [contradiction | exact E3].
        -- rewrite E4 by congruence. destruct (in_dec Z.eq_dec j rs); reflexivity.
      * intros Hnn. specialize (E5 Hnn). specialize (F4 Hnn). lia.
Qed.

End HeapFolds.

(* ================================================================== *)
(** * Coarse grid generation                                           *)
(* ================================================================== *)

Section CoarseCounts.
Context {RO : RealOps}.

(** The coarse vertex [I] is still free. *)
Definition isFree (g : GridMg) (l : Z) (I : Vec3i) : bool :=
  vt_eqb (getType g l (linIdx g I l)) vtFree.

(** The number of free interpolation candidates of the fine vertex [R]. *)
Definition freeCount (g : GridMg) (l : Z) (R : Vec3i) : Z :=
  zlength (filter (isFree g l) (candidates R)).

(** One interpolation candidate of the fine vertex [R] carries the
    classification [t] at level [l]. *)
Definition hasCandidate (t : VertexType) (g : GridMg) (l : Z) (R : Vec3i) : Prop :=
  exists I, In I (candidates R) /\ getType g l (linIdx g I l) = t.

Lemma vt_eqb_eq a b : vt_eqb a b = true <-> a = b.
Proof. destruct a, b; simpl; split; intros H; try reflexivity; discriminate H. Qed.

Lemma vt_eqb_neq a b : vt_eqb a b = false <-> a <> b.
Proof.
  destruct a, b; simpl; split; intros H; try reflexivity; try discriminate H;
    try (intros E; discriminate E); exfalso; apply H; reflexivity.
Qed.

Lemma filter_length_change {A : Type} (p p' : A -> bool) (l : list A) (a : A) :
  NoDup l -> In a l -> p a = true -> p' a = false ->
  (forall x, In x l -> x <> a -> p' x = p x) ->
  length (filter p l) = S (length (filter p' l)).
Proof.
  induction l as [|b l IH]; intros Hnd Hin Hp Hp' Hext; [contradiction|].
  inversion Hnd as [|? ? Hnb Hnd']; subst. simpl. destruct Hin as [->|Hin].
  - rewrite Hp, Hp'. simpl. f_equal. f_equal. apply filter_ext_in.
    intros x Hx. symmetry. apply Hext; [right; exact Hx|]. intros ->. contradiction.
  - assert (Hba : b <> a) by (intros ->; contradiction).
    rewrite (Hext b (or_introl eq_refl) Hba).
    destruct (p b); simpl; rewrite (IH Hnd' Hin Hp Hp'); auto;
      intros x Hx Hxa; apply Hext; auto; right; exact Hx.
Qed.

Section Level.
Variables (g0 : GridMg) (l : Z).
Hypothesis Hwf : wf g0.
Hypothesis Hl : 1 <= l < numLevels g0.

Lemma wfl_fine : wfLevel g0 (l - 1).
Proof. apply (wf_level _ Hwf). lia. Qed.

Lemma wfl_coarse : wfLevel g0 l.
Proof. apply (wf_level _ Hwf). lia. Qed.

Lemma cand_inGrid R I :
  inGrid g0 R (l - 1) = true -> In I (candidates R) -> inGrid g0 I l = true.
Proof. apply candidates_inGrid. apply (wf_halve _ Hwf). lia. Qed.

Lemma type_level_range : 0 <= l < zlength (mType g0).
Proof. rewrite (wf_len_type _ Hwf). lia. Qed.

Lemma cand_index_range R I :
  inGrid g0 R (l - 1) = true -> In I (candidates R) ->
  0 <= linIdx g0 I l < zlength (zget [] (mType g0) l).
Proof.
  intros HR HI. rewrite (wl_type _ _ wfl_coarse).
  apply linIdx_range; [apply wfl_coarse | eapply cand_inGrid; eauto].
Qed.

(** Effect on the counts of the change of a free coarse vertex [I0]. *)
Lemma freeCount_put g t R I0 :
  sameBut l g0 g -> t <> vtFree ->
  inGrid g0 R (l - 1) = true -> inGrid g0 I0 l = true ->
  isFree g l I0 = true ->
  freeCount (put_mType g l (linIdx g I0 l) t) l R =
  if in_dec Vec3i_eq_dec I0 (candidates R)
  then freeCount g l R - 1 else freeCount g l R.
Proof.
  intros Hs Ht HR HI0 Hfree.
  pose proof Hs as (_ & S2 & S3 & _).
  assert (Hother : forall I, In I (candidates R) -> I <> I0 ->
            isFree (put_mType g l (linIdx g I0 l) t) l I = isFree g l I).
  { intros I HI Hne. unfold isFree.
    replace (linIdx (put_mType g l (linIdx g I0 l) t) I l) with (linIdx g I l) by reflexivity.
    rewrite getType_put_ne; [reflexivity|]. right.
    rewrite !(sb_linIdx _ _ _ _ _ Hs). intros E. apply Hne.
    eapply linIdx_inj; [apply wfl_coarse | eapply cand_inGrid; eauto | exact HI0 | exact E]. }
  unfold freeCount, zlength.
  destruct (in_dec _ I0 (candidates R)) as [Hin|Hnin].
  - rewrite (filter_length_change (isFree g l)
               (isFree (put_mType g l (linIdx g I0 l) t) l) (candidates R) I0);
      [lia | apply NoDup_boxList | exact Hin | exact Hfree | | exact Hother].
    unfold isFree.
    replace (linIdx (put_mType g l (linIdx g I0 l) t) I0 l) with (linIdx g I0 l) by reflexivity.
    rewrite getType_put_eq.
    + apply vt_eqb_neq. exact Ht.
    + rewrite S2. apply type_level_range.
    + rewrite S3, (sb_linIdx _ _ _ _ _ Hs). eapply cand_index_range; eauto.
  - f_equal. f_equal. apply filter_ext_in. intros I HI. apply Hother; [exact HI|].
    intros ->. contradiction.
Qed.

Lemma hasCandidate_put g t t' R i :
  hasCandidate t g l R -> getType g l i <> t ->
  hasCandidate t (put_mType g l i t') l R.
Proof.
  intros (I & HI & Ht) Hi. exists I. split; [exact HI|].
  replace (linIdx (put_mType g l i t') I l) with (linIdx g I l) by reflexivity.
  rewrite getType_put_ne; [exact Ht|]. right. intros E. rewrite E in Ht. contradiction.
Qed.

Lemma hasCandidate_new g t R I0 :
  sameBut l g0 g -> inGrid g0 R (l - 1) = true -> In I0 (candidates R) ->
  hasCandidate t (put_mType g l (linIdx g I0 l) t) l R.
Proof.
  intros Hs HR HI0. pose proof Hs as (_ & S2 & S3 & _). exists I0. split; [exact HI0|].
  replace (linIdx (put_mType g l (linIdx g I0 l) t) I0 l) with (linIdx g I0 l) by reflexivity.
  apply getType_put_eq.
  - rewrite S2. apply type_level_range.
  - rewrite S3, (sb_linIdx _ _ _ _ _ Hs). eapply cand_index_range; eauto.
Qed.

Lemma freeCount_pos_free g R :
  1 <= freeCount g l R -> exists I, In I (candidates R) /\ isFree g l I = true.
Proof.
  unfold freeCount, zlength. intros H.
  destruct (filter (isFree g l) (candidates R)) as [|I rest] eqn:E; [simpl in H; lia|].
  assert (HI : In I (filter (isFree g l) (candidates R))) by (rewrite E; left; reflexivity).
  apply filter_In in HI. eauto.
Qed.

Lemma free_freeCount_pos g R I :
  In I (candidates R) -> isFree g l I = true -> 1 <= freeCount g l R.
Proof.
  intros HI Hf. unfold freeCount, zlength.
  assert (Hin : In I (filter (isFree g l) (candidates R))) by (apply filter_In; auto).
  destruct (filter (isFree g l) (candidates R)); [contradiction|]. simpl. lia.
Qed.

Lemma freeCount_all_free g R :
  (forall I, In I (candidates R) -> isFree g l I = true) ->
  freeCount g l R = zlength (candidates R).
Proof.
  intros H. unfold freeCount. f_equal.
  rewrite (filter_ext_in (isFree g l) (fun _ => true)) by exact H.
  clear H. generalize (candidates R). intros c.
  induction c as [|a c IH]; simpl; [reflexivity | now rewrite IH].
Qed.

End Level.
End CoarseCounts.

Section CoarseLoop.
Context {RO : RealOps}.
Variables (g0 : GridMg) (l : Z).
Hypothesis Hwf : wf g0.
Hypothesis Hl : 1 <= l < numLevels g0.

(** Number of vertices of the fine and of the coarse level, range of the
    keys, and coordinates of a fine vertex. *)
Definition nFine : Z := countOf (sizeAt g0 (l - 1)).
Definition nCoarse : Z := countOf (sizeAt g0 l).
Definition keyRange : Z := if mIs3D g0 then 9 else 5.
Definition fineV (r : Z) : Vec3i := vecIdx g0 r (l - 1).

(** The decrement of a key in the loop over the restriction vertices. *)
Definition decKey (key : Z) : Z := if 1 <? key then key - 1 else -1.

Definition uDec (_ key : Z) : option Z :=
  if 1 <? key then Some (key - 1) else if -1 <? key then Some (-1) else None.

Definition transient (t : VertexType) : Prop := t = vtFree \/ t = vtZero \/ t = vtRemoved.

Lemma fineV_inGrid r : 0 <= r < nFine -> inGrid g0 (fineV r) (l - 1) = true.
Proof. intros Hr. apply (linIdx_vecIdx g0 (l - 1) (wfl_fine g0 l Hwf Hl) r Hr). Qed.

Lemma linIdx_fineV r : 0 <= r < nFine -> linIdx g0 (fineV r) (l - 1) = r.
Proof. intros Hr. apply (linIdx_vecIdx g0 (l - 1) (wfl_fine g0 l Hwf Hl) r Hr). Qed.

Lemma fineV_nonneg r : 0 <= r < nFine -> nonneg (fineV r).
Proof. intros Hr. pose proof (fineV_inGrid r Hr) as H. apply inGrid_spec in H. unfold nonneg. lia. Qed.

Lemma footprint_index g I r :
  sameBut l g0 g -> 0 <= r < nFine ->
  (In r (map (fun R => linIdx g R (l - 1)) (footprint g l I)) <->
   In I (candidates (fineV r))).
Proof.
  intros Hs Hr. rewrite in_map_iff, (sb_footprint _ _ _ _ _ Hs). split.
  - intros (R & E & HR). rewrite (sb_linIdx _ _ _ _ _ Hs) in E.
    pose proof (proj1 (in_footprint g0 l I R) HR) as (HG & _).
    assert (HR' : fineV r = R).
    { unfold fineV. rewrite <- E. apply vecIdx_linIdx; [apply wfl_fine; assumption | exact HG]. }
    rewrite HR'. apply (proj2 (candidates_footprint g0 l R I HG)). exact HR.
  - intros HI. exists (fineV r). rewrite (sb_linIdx _ _ _ _ _ Hs).
    split; [apply linIdx_fineV; exact Hr|].
    apply (proj1 (candidates_footprint g0 l (fineV r) I (fineV_inGrid r Hr))). exact HI.
Qed.

Lemma updateKeys_spec g I heap :
  sameBut l g0 g -> Inv heap ->
  NKMinHeap.mN heap = nFine ->
  exists heap',
    coarse_updateKeys g l I heap = Ok heap' /\ Inv heap' /\
    NKMinHeap.mN heap' = nFine /\ NKMinHeap.mK heap' = NKMinHeap.mK heap /\
    (forall r, 0 <= r < nFine ->
       NKMinHeap.getKey heap' r =
       if in_dec Vec3i_eq_dec I (candidates (fineV r))
       then decKey (NKMinHeap.getKey heap r) else NKMinHeap.getKey heap r) /\
    NKMinHeap.mSize heap' <= NKMinHeap.mSize heap.
Proof.
  intros Hs HI HN.
  assert (Hfold : coarse_updateKeys g l I heap =
                  foldM (keyStep uDec) (map (fun R => linIdx g R (l - 1)) (footprint g l I)) heap).
  { unfold coarse_updateKeys. fold (footprint g l I).
    rewrite <- foldM_map. apply foldM_ext. intros h R. unfold keyStep, uDec.
    destruct (1 <? _); [reflexivity|]. destruct (-1 <? _); reflexivity. }
  destruct (foldM_keyStep uDec (map (fun R => linIdx g R (l - 1)) (footprint g l I)) heap HI)
    as (h' & E & HI' & E1 & E2 & E3 & E4).
  - apply NoDup_map_inj; [|apply NoDup_boxList].
    intros R R' HR HR' E. rewrite (sb_footprint _ _ _ _ _ Hs) in HR, HR'.
    rewrite !(sb_linIdx _ _ _ _ _ Hs) in E.
    apply in_footprint in HR, HR'.
    eapply linIdx_inj; [apply (wfl_fine g0 l Hwf Hl) | | | exact E]; tauto.
  - intros r Hr. rewrite in_map_iff in Hr. destruct Hr as (R & <- & HR).
    rewrite (sb_footprint _ _ _ _ _ Hs) in HR. rewrite (sb_linIdx _ _ _ _ _ Hs), HN.
    apply in_footprint in HR.
    apply linIdx_range; [apply (wfl_fine g0 l Hwf Hl) | tauto].
  - intros r key k _ Hkey. unfold uDec.
    destruct (Z.ltb_spec 1 key); [intros H'; injection H' as <-; lia|].
    destruct (Z.ltb_spec (-1) key); [intros H'; injection H' as <-; lia | discriminate].
  - exists h'. rewrite Hfold. split; [exact E|]. split; [exact HI'|].
    split; [congruence|]. split; [exact E2|]. split.
    + intros r Hr. rewrite E3.
      destruct (in_dec Z.eq_dec r _) as [Hin|Hnin];
        destruct (in_dec Vec3i_eq_dec I _) as [Hc|Hnc].
      * unfold newKey, uDec, decKey.
        destruct (Z.ltb_spec 1 (NKMinHeap.getKey heap r)); [reflexivity|].
        destruct (Z.ltb_spec (-1) (NKMinHeap.getKey heap r)); [reflexivity|].
        pose proof (Inv_key_range heap r HI). lia.
      * exfalso. apply Hnc. apply (footprint_index g I r Hs Hr). exact Hin.
      * exfalso. apply Hnin. apply (footprint_index g I r Hs Hr). exact Hc.
      * reflexivity.
    + apply E4. intros r key k. unfold uDec.
      destruct (Z.ltb_spec 1 key); [intros _; lia|].
      destruct (Z.ltb_spec (-1) key); [intros _; lia | discriminate].
Qed.

(** The invariant of the loop [while (heap.size() > 0)]: the key of a
    fine vertex in the heap is the number of its free candidates, and a fine
    vertex that left the heap has a selected candidate. *)
Record OInv (g : GridMg) (heap : NKMinHeap.t) : Prop := {
  oi_frame : sameBut l g0 g;
  oi_heap : Inv heap;
  oi_N : NKMinHeap.mN heap = nFine;
  oi_types : forall i, 0 <= i < nCoarse -> transient (getType g l i);
  oi_key : forall r, 0 <= r < nFine -> NKMinHeap.getKey heap r <> -1 ->
           NKMinHeap.getKey heap r = freeCount g l (fineV r) /\
           1 <= NKMinHeap.getKey heap r;
  oi_zero : forall r, 0 <= r < nFine -> NKMinHeap.getKey heap r = -1 ->
            getType g0 (l - 1) r <> vtInactive -> hasCandidate vtZero g l (fineV r)
}.

(** The invariant of the loop over the candidates of the popped vertex
    [v]; [rest] are the candidates still to visit. *)
Record IInv (v : Z) (g : GridMg) (heap : NKMinHeap.t) (vdone : bool)
    (rest : list Vec3i) : Prop := {
  ii_frame : sameBut l g0 g;
  ii_heap : Inv heap;
  ii_N : NKMinHeap.mN heap = nFine;
  ii_types : forall i, 0 <= i < nCoarse -> transient (getType g l i);
  ii_v : 0 <= v < nFine;
  ii_vkey : NKMinHeap.getKey heap v = -1;
  ii_rest : forall I, In I rest -> In I (candidates (fineV v));
  ii_key : forall r, 0 <= r < nFine -> r <> v -> NKMinHeap.getKey heap r <> -1 ->
           NKMinHeap.getKey heap r = freeCount g l (fineV r) /\
           1 <= NKMinHeap.getKey heap r /\
           (hasCandidate vtZero g l (fineV r) \/
            freeCount g l (fineV v) + (if vdone then 1 else 0) <= freeCount g l (fineV r));
  ii_zero : forall r, 0 <= r < nFine -> r <> v -> NKMinHeap.getKey heap r = -1 ->
            getType g0 (l - 1) r <> vtInactive -> hasCandidate vtZero g l (fineV r);
  ii_done : vdone = true -> hasCandidate vtZero g l (fineV v);
  ii_todo : vdone = false -> exists I, In I rest /\ isFree g l I = true
}.

Lemma decKey_neq key : decKey key <> -1 -> 1 < key /\ decKey key = key - 1.
Proof. unfold decKey. destruct (Z.ltb_spec 1 key); [lia | congruence]. Qed.

Lemma decKey_eq key : -1 <= key -> decKey key = -1 -> key <= 1.
Proof. unfold decKey. destruct (Z.ltb_spec 1 key); lia. Qed.

(** A free candidate [I] of the popped vertex [v] becomes selected (when
    it is the first one) or removed, and the keys of the fine vertices that
    interpolate from [I] are decreased. *)
Lemma visit_free v g heap vdone I rest t heap' :
  IInv v g heap vdone (I :: rest) ->
  isFree g l I = true ->
  t = (if vdone then vtRemoved else vtZero) ->
  Inv heap' -> NKMinHeap.mN heap' = nFine ->
  (forall r, 0 <= r < nFine ->
     NKMinHeap.getKey heap' r =
     if in_dec Vec3i_eq_dec I (candidates (fineV r))
     then decKey (NKMinHeap.getKey heap r) else NKMinHeap.getKey heap r) ->
  IInv v (put_mType g l (linIdx g I l) t) heap' true rest.
Proof.
  intros [Hs HI HN Hty Hv Hvk Hrest Hkey Hzero Hdone Htodo] Hfree Ht HI' HN' Hkeys.
  set (g' := put_mType g l (linIdx g I l) t).
  assert (HIc : In I (candidates (fineV v))) by (apply Hrest; left; reflexivity).
  assert (HVg : inGrid g0 (fineV v) (l - 1) = true) by (apply fineV_inGrid; exact Hv).
  assert (HIg : inGrid g0 I l = true) by (eapply cand_inGrid; eauto).
  assert (Htf : t <> vtFree) by (rewrite Ht; destruct vdone; discriminate).
  assert (Hs' : sameBut l g0 g').
  { eapply sameBut_trans; [exact Hs | apply sameBut_put]. }
  assert (Hgi : getType g l (linIdx g I l) = vtFree) by (apply vt_eqb_eq; exact Hfree).
  assert (FC : forall r, 0 <= r < nFine ->
            freeCount g' l (fineV r) =
            if in_dec Vec3i_eq_dec I (candidates (fineV r))
            then freeCount g l (fineV r) - 1 else freeCount g l (fineV r)).
  { intros r Hr. apply (freeCount_put g0 l Hwf Hl); auto. apply fineV_inGrid; exact Hr. }
  assert (HZ : forall R, hasCandidate vtZero g l R -> hasCandidate vtZero g' l R).
  { intros R HR. apply hasCandidate_put; [exact HR|]. rewrite Hgi. discriminate. }
  assert (HZnew : vdone = false -> forall r, 0 <= r < nFine ->
            In I (candidates (fineV r)) -> hasCandidate vtZero g' l (fineV r)).
  { intros Hvd r Hr Hc. unfold g'. rewrite Ht, Hvd.
    apply (hasCandidate_new g0 l Hwf Hl); auto. apply fineV_inGrid; exact Hr. }
  assert (Hfv : 1 <= freeCount g l (fineV v)).
  { eapply free_freeCount_pos; eauto. }
  assert (FCv : freeCount g' l (fineV v) = freeCount g l (fineV v) - 1).
  { rewrite FC by exact Hv. destruct (in_dec Vec3i_eq_dec I _); [reflexivity | contradiction]. }
  constructor; auto.
  - (* classifications stay transient *)
    intros j Hj. destruct (Z.eq_dec j (linIdx g I l)) as [->|Hne].
    + unfold g'. rewrite getType_put_eq.
      * rewrite Ht. destruct vdone; unfold transient; auto.
      * destruct Hs as (_ & S2 & _). rewrite S2. apply (type_level_range g0 l Hwf Hl).
      * destruct Hs as (S1 & _ & S3 & _). rewrite S3.
        replace (linIdx g I l) with (linIdx g0 I l) by (rewrite S1; reflexivity).
        eapply (cand_index_range g0 l Hwf Hl); eauto.
    + unfold g'. rewrite getType_put_ne by (right; exact Hne). apply Hty. exact Hj.
  - (* the popped vertex stays out of the heap *)
    rewrite Hkeys by exact Hv. rewrite Hvk.
    destruct (in_dec Vec3i_eq_dec I _); reflexivity.
  - intros I' HI'r. apply Hrest. right. exact HI'r.
  - (* keys are the numbers of free candidates *)
    intros r Hr Hrv Hk'. rewrite Hkeys in Hk' |- * by exact Hr. rewrite FC by exact Hr.
    destruct (in_dec Vec3i_eq_dec I (candidates (fineV r))) as [Hc|Hnc].
    + apply decKey_neq in Hk'. destruct Hk' as (Hk1 & ->).
      destruct (Hkey r Hr Hrv) as (K1 & K2 & K3); [lia|].
      split; [lia|]. split; [lia|].
      destruct K3 as [K3|K3]; [left; apply HZ; exact K3|].
      destruct vdone.
      * right. lia.
      * left. apply HZnew; auto.
    + destruct (Hkey r Hr Hrv Hk') as (K1 & K2 & K3).
      split; [exact K1|]. split; [exact K2|].
      destruct K3 as [K3|K3]; [left; apply HZ; exact K3|].
      right. destruct vdone; lia.
  - (* vertices that left the heap have a selected candidate *)
    intros r Hr Hrv Hk' Hna. rewrite Hkeys in Hk' by exact Hr.
    destruct (Z.eq_dec (NKMinHeap.getKey heap r) (-1)) as [Hk|Hk].
    + apply HZ. apply Hzero; auto.
    + destruct (in_dec Vec3i_eq_dec I (candidates (fineV r))) as [Hc|Hnc]; [|contradiction].
      destruct (Hkey r Hr Hrv Hk) as (K1 & K2 & K3).
      apply decKey_eq in Hk'; [|lia].
      destruct K3 as [K3|K3]; [apply HZ; exact K3|].
      destruct vdone; [lia|]. apply HZnew; auto.
  - (* the popped vertex has a selected candidate *)
    intros _. destruct vdone.
    + apply HZ. apply Hdone. reflexivity.
    + apply HZnew; auto.
  - intros Hc. discriminate Hc.
Qed.

Lemma coarse_visit_spec v g heap vdone I rest :
  IInv v g heap vdone (I :: rest) ->
  exists g' heap' vdone',
    coarse_visit l (g, heap, vdone) I = Ok (g', heap', vdone') /\
    IInv v g' heap' vdone' rest /\
    NKMinHeap.mSize heap' <= NKMinHeap.mSize heap.
Proof.
  intros H. unfold coarse_visit.
  destruct (vt_eqb (getType g l (linIdx g I l)) vtFree) eqn:Hfree.
  - set (t := if vdone then vtRemoved else vtZero).
    assert (Hs' : sameBut l g0 (put_mType g l (linIdx g I l) t)).
    { eapply sameBut_trans; [apply (ii_frame _ _ _ _ _ H) | apply sameBut_put]. }
    destruct (updateKeys_spec _ I heap Hs' (ii_heap _ _ _ _ _ H) (ii_N _ _ _ _ _ H))
      as (heap' & E & HI' & E1 & E2 & E3 & E4).
    exists (put_mType g l (linIdx g I l) t), heap', true.
    split; [|split; [|exact E4]].
    + destruct vdone; subst t; cbn zeta beta iota; rewrite E; reflexivity.
    + eapply visit_free; eauto.
  - exists g, heap, vdone. split; [reflexivity|]. split; [|lia].
    destruct H as [Hs HI HN Hty Hv Hvk Hrest Hkey Hzero Hdone Htodo].
    constructor; auto.
    + intros I' HI'. apply Hrest. right. exact HI'.
    + intros Hvd. destruct (Htodo Hvd) as (I' & [<-|HI'] & Hf).
      * unfold isFree in Hf. rewrite Hfree in Hf. discriminate.
      * eauto.
Qed.

Lemma coarse_visits_spec v : forall rest g heap vdone,
  IInv v g heap vdone rest ->
  exists g' heap' vdone',
    foldM (coarse_visit l) rest (g, heap, vdone) = Ok (g', heap', vdone') /\
    IInv v g' heap' vdone' [] /\
    NKMinHeap.mSize heap' <= NKMinHeap.mSize heap.
Proof.
  induction rest as [|I rest IH]; intros g heap vdone H.
  - exists g, heap, vdone. split; [reflexivity|]. split; [exact H | lia].
  - destruct (coarse_visit_spec v g heap vdone I rest H) as (g1 & h1 & d1 & E & H1 & S1).
    destruct (IH g1 h1 d1 H1) as (g2 & h2 & d2 & E2 & H2 & S2).
    exists g2, h2, d2. cbn [foldM]. rewrite E. cbn [bind].
    split; [exact E2|]. split; [exact H2 | lia].
Qed.

Lemma coarse_step_spec g heap :
  OInv g heap -> NKMinHeap.mSize heap <> 0 ->
  exists g' heap',
    coarse_step l (g, heap) = Ok (g', heap') /\ OInv g' heap' /\
    NKMinHeap.mSize heap' < NKMinHeap.mSize heap.
Proof.
  intros [Hs HI HN Hty Hkey Hzero] Hsz.
  destruct (popMin_spec heap HI Hsz)
    as (h1 & v & k & E & _ & HI1 & EN & EK & (Hv & Hvk) & Ek & Hmin & Ev & Eo & Es).
  rewrite HN in Hv.
  assert (HV : vecIdx g v (l - 1) = fineV v) by (apply (sb_vecIdx _ _ _ _ _ Hs)).
  destruct (Hkey v Hv Hvk) as (Kv & Kv1).
  assert (H1 : IInv v g h1 false (candidates (fineV v))).
  { constructor; auto.
    - congruence.
    - intros r Hr Hrv Hk1. rewrite Eo in Hk1 |- * by exact Hrv.
      destruct (Hkey r Hr Hk1) as (K1 & K2). split; [exact K1|]. split; [exact K2|].
      right. rewrite <- K1, <- Kv, Ek, Z.add_0_r. apply Hmin.
      split; [rewrite HN; exact Hr | exact Hk1].
    - intros r Hr Hrv Hk1. rewrite Eo in Hk1 by exact Hrv. apply Hzero; auto.
    - intros Hc. discriminate Hc.
    - intros _. apply freeCount_pos_free. lia. }
  destruct (coarse_visits_spec v _ g h1 false H1) as (g2 & h2 & d2 & E2 & H2 & S2).
  exists g2, h2. unfold coarse_step. rewrite E, HV.
  fold (candidates (fineV v)). rewrite E2. cbn [bind].
  split; [reflexivity|]. split; [|lia].
  destruct H2 as [Hs2 HI2 HN2 Hty2 _ Hvk2 _ Hkey2 Hzero2 Hdone2 Htodo2].
  assert (Hd : d2 = true).
  { destruct d2; [reflexivity|]. destruct (Htodo2 eq_refl) as (I & [] & _). }
  constructor; auto.
  - intros r Hr Hk. destruct (Z.eq_dec r v) as [->|Hrv]; [contradiction|].
    destruct (Hkey2 r Hr Hrv Hk) as (K1 & K2 & _). split; assumption.
  - intros r Hr Hk Hna. destruct (Z.eq_dec r v) as [->|Hrv]; [apply Hdone2; exact Hd|].
    apply Hzero2; auto.
Qed.

(** The loop ends within [size] iterations; afterwards the heap is empty
    and every fine vertex that is not inactive has a selected candidate. *)
Lemma coarse_loop_spec : forall fuel g heap,
  OInv g heap -> NKMinHeap.mSize heap <= Z.of_nat fuel ->
  exists g',
    coarse_loop fuel l (g, heap) = Ok g' /\ sameBut l g0 g' /\
    (forall i, 0 <= i < nCoarse -> transient (getType g' l i)) /\
    (forall r, 0 <= r < nFine -> getType g0 (l - 1) r <> vtInactive ->
       hasCandidate vtZero g' l (fineV r)).
Proof.
  induction fuel as [|fuel IH]; intros g heap H Hf.
  - pose proof (Inv_size_nonneg heap (oi_heap _ _ H)) as Hn.
    assert (Hz : NKMinHeap.mSize heap = 0) by lia.
    exists g. cbn [coarse_loop snd fst]. unfold NKMinHeap.size. rewrite Hz.
    split; [reflexivity|]. split; [apply (oi_frame _ _ H)|]. split; [apply (oi_types _ _ H)|].
    intros r Hr Hna. apply (oi_zero _ _ H); auto.
    apply Inv_empty; [apply (oi_heap _ _ H) | exact Hz | rewrite (oi_N _ _ H); exact Hr].
  - cbn [coarse_loop snd fst]. unfold NKMinHeap.size.
    destruct (Z.ltb_spec 0 (NKMinHeap.mSize heap)) as [Hp|Hp].
    + destruct (coarse_step_spec g heap H) as (g1 & h1 & E & H1 & S1); [lia|].
      rewrite E. cbn [bind]. apply IH; [exact H1 | lia].
    + pose proof (Inv_size_nonneg heap (oi_heap _ _ H)) as Hn.
      assert (Hz : NKMinHeap.mSize heap = 0) by lia.
      exists g. split; [reflexivity|]. split; [apply (oi_frame _ _ H)|].
      split; [apply (oi_types _ _ H)|].
      intros r Hr Hna. apply (oi_zero _ _ H); auto.
      apply Inv_empty; [apply (oi_heap _ _ H) | exact Hz | rewrite (oi_N _ _ H); exact Hr].
Qed.

End CoarseLoop.

(* ================================================================== *)
(** * The classification computed by [genCoarseGrid]                   *)
(* ================================================================== *)

Section CoarseGrid.
Context {RO : RealOps}.

Lemma zget_out {A : Type} (d : A) (xs : list A) (i : Z) :
  ~ (0 <= i < zlength xs) -> zget d xs i = d.
Proof.
  intros H. unfold zget, zlength in *. destruct (Z.ltb_spec i 0); [reflexivity|].
  apply nth_overflow. lia.
Qed.

Lemma in_FOR_LVL g l v : In v (FOR_LVL g l) <-> 0 <= v < zlength (zget [] (mb g) l).
Proof. unfold FOR_LVL, zlength. rewrite in_zrange. lia. Qed.

(** In two dimensions every level is one cell deep. *)
Lemma size_z_2D g : wf g -> mIs3D g = false ->
  forall k, 0 <= k < numLevels g -> vz (sizeAt g k) = 1.
Proof.
  intros W H2 k Hk. assert (Hk0 : 0 <= k) by lia. revert Hk. pattern k.
  apply natlike_ind; [| |exact Hk0].
  - intros _. apply (wf_2D _ W H2).
  - intros j Hj IH Hjs. rewrite (wf_halve _ W) by lia.
    replace (Z.succ j - 1) with j by lia.
    unfold vdivc, vaddc, vadd, vmap2, vconst. cbn [vx vy vz]. rewrite IH by lia. reflexivity.
Qed.

(** The last loop of [genCoarseGrid] as a function of the classification. *)
Definition finishType (t : VertexType) : VertexType :=
  match t with
  | vtFree | vtRemoved => vtInactive
  | vtZero => vtActive
  | _ => t
  end.

Lemma put_type_range g l i t :
  0 <= l < zlength (mType g) -> 0 <= i < zlength (zget [] (mType g) l) ->
  0 <= l < zlength (mType (put_mType g l i t)) /\
  0 <= i < zlength (zget [] (mType (put_mType g l i t)) l).
Proof.
  intros Hl Hi. destruct (sameBut_put l g i t) as (_ & S2 & S3 & _).
  rewrite S2, S3. split; assumption.
Qed.

Lemma sameBut_if l g (c : bool) i t :
  sameBut l g (if c then put_mType g l i t else g).
Proof. destruct c; [apply sameBut_put | apply sameBut_refl]. Qed.

Lemma getType_if_put l g (c : bool) i t j :
  j <> i -> getType (if c then put_mType g l i t else g) l j = getType g l j.
Proof. intros H. destruct c; [apply getType_put_ne; auto | reflexivity]. Qed.

Lemma finish1_sameBut l g v : sameBut l g (coarse_finish1 l g v).
Proof.
  unfold coarse_finish1. cbv zeta.
  eapply sameBut_trans; [apply (sameBut_if l g (vt_eqb (getType g l v) vtFree) v vtRemoved)|].
  eapply sameBut_trans; [|apply sameBut_if].
  apply sameBut_if.
Qed.

Lemma finish1_type l g v :
  0 <= l < zlength (mType g) -> 0 <= v < zlength (zget [] (mType g) l) ->
  getType (coarse_finish1 l g v) l v = finishType (getType g l v).
Proof.
  intros Hl Hv. unfold coarse_finish1. cbv zeta.
  destruct (put_type_range g l v vtRemoved Hl Hv) as (Hl1 & Hv1).
  destruct (getType g l v) eqn:E; cbn [vt_eqb finishType];
    repeat (first [rewrite E | rewrite getType_put_eq by assumption]; cbn [vt_eqb]);
    reflexivity.
Qed.

Lemma finish1_other l g v j : j <> v -> getType (coarse_finish1 l g v) l j = getType g l j.
Proof.
  intros Hj. unfold coarse_finish1. cbv zeta.
  rewrite !getType_if_put by exact Hj. reflexivity.
Qed.

Section Level.
Variables (g0 : GridMg) (l : Z).
Hypothesis Hwf : wf g0.
Hypothesis Hl : 1 <= l < numLevels g0.

Lemma FOR_LVL_coarse v : In v (FOR_LVL g0 l) <-> 0 <= v < nCoarse g0 l.
Proof. rewrite in_FOR_LVL, (wl_b _ _ (wfl_coarse g0 l Hwf Hl)). reflexivity. Qed.

Lemma FOR_LVL_fine v : In v (FOR_LVL g0 (l - 1)) <-> 0 <= v < nFine g0 l.
Proof. rewrite in_FOR_LVL, (wl_b _ _ (wfl_fine g0 l Hwf Hl)). reflexivity. Qed.

Lemma type_len_coarse : zlength (zget [] (mType g0) l) = nCoarse g0 l.
Proof. apply (wl_type _ _ (wfl_coarse g0 l Hwf Hl)). Qed.

(** The first loop: every coarse vertex is free. *)
Lemma init_free :
  let g1 := fold_left (fun g v => put_mType g l v vtFree) (FOR_LVL g0 l) g0 in
  sameBut l g0 g1 /\ forall j, 0 <= j < nCoarse g0 l -> getType g1 l j = vtFree.
Proof.
  destruct (fold_types l (fun _ => vtFree) (fun g v => put_mType g l v vtFree))
    with (vs := FOR_LVL g0 l) (g := g0) as (H1 & H2).
  - intros g v. apply sameBut_put.
  - intros g v H Hv. apply getType_put_eq; assumption.
  - intros g v j Hj. apply getType_put_ne. auto.
  - apply NoDup_zrange.
  - apply (type_level_range g0 l Hwf Hl).
  - intros v Hv. rewrite type_len_coarse. apply FOR_LVL_coarse. exact Hv.
  - cbv zeta. split; [exact H1|]. intros j Hj. rewrite H2.
    destruct (in_dec Z.eq_dec j (FOR_LVL g0 l)) as [|Hn]; [reflexivity|].
    exfalso. apply Hn. apply FOR_LVL_coarse. exact Hj.
Qed.

(** The key of a fine vertex is in the range of the heap. *)
Lemma fiv_range r :
  0 <= r < nFine g0 l ->
  1 <= Z.shiftl 1 (oddSum (fineV g0 l r)) < keyRange g0.
Proof.
  intros Hr. pose proof (fineV_inGrid g0 l Hwf Hl r Hr) as HG.
  apply inGrid_spec in HG. destruct HG as (Hx & Hy & Hz).
  unfold oddSum, keyRange.
  destruct (rem2_cases (vx (fineV g0 l r))) as [Ex|Ex]; [lia| |];
    (destruct (rem2_cases (vy (fineV g0 l r))) as [Ey|Ey]; [lia| |]);
    rewrite Ex, Ey.
  all: destruct (mIs3D g0) eqn:E3.
  all: try (destruct (rem2_cases (vz (fineV g0 l r))) as [Ez|Ez]; [lia| |];
            rewrite Ez; cbn; lia).
  all: rewrite (size_z_2D g0 Hwf E3 (l - 1)) in Hz by lia.
  all: replace (vz (fineV g0 l r)) with 0 by lia; cbn; lia.
Qed.

(** The second loop: the heap holds the fine vertices that are not
    inactive, each with the number of its candidates. *)
Lemma fillHeap_spec g1 :
  sameBut l g0 g1 ->
  (forall j, 0 <= j < nCoarse g0 l -> getType g1 l j = vtFree) ->
  exists heap,
    coarse_fillHeap g1 l
      (NKMinHeap.init (zlength (zget [] (mb g1) (l - 1))) (if mIs3D g1 then 9 else 5))
    = Ok heap /\ OInv g0 l g1 heap.
Proof.
  intros Hs Hfree.
  set (h0 := NKMinHeap.init (zlength (zget [] (mb g1) (l - 1))) (if mIs3D g1 then 9 else 5)).
  set (u := fun (v key : Z) =>
              if negb (vt_eqb (getType g1 (l - 1) v) vtInactive)
              then Some (Z.shiftl 1 (oddSum (vecIdx g1 v (l - 1)))) else None).
  assert (HN0 : NKMinHeap.mN h0 = nFine g0 l).
  { unfold h0. cbn. rewrite (sb_mb _ _ _ Hs). apply (wl_b _ _ (wfl_fine g0 l Hwf Hl)). }
  assert (HK0 : NKMinHeap.mK h0 = keyRange g0).
  { unfold h0. cbn. rewrite (sb_mIs3D _ _ _ Hs). reflexivity. }
  assert (HI0 : Inv h0).
  { apply init_Inv.
    - apply zlength_nonneg.
    - destruct (mIs3D g1); lia. }
  assert (Hk0 : forall r, 0 <= r < nFine g0 l -> NKMinHeap.getKey h0 r = -1).
  { intros r Hr. apply Inv_empty; [exact HI0 | reflexivity | rewrite HN0; exact Hr]. }
  assert (Hfold : coarse_fillHeap g1 l h0 = foldM (keyStep u) (FOR_LVL g1 (l - 1)) h0).
  { unfold coarse_fillHeap. apply foldM_ext. intros h v. unfold keyStep, u.
    destruct (negb _); reflexivity. }
  assert (Hin : forall r, In r (FOR_LVL g1 (l - 1)) <-> 0 <= r < nFine g0 l).
  { intros r. rewrite (sb_FOR_LVL _ _ _ _ Hs). apply FOR_LVL_fine. }
  destruct (foldM_keyStep u (FOR_LVL g1 (l - 1)) h0 HI0) as (h & E & HI & E1 & E2 & E3 & _).
  - apply NoDup_zrange.
  - intros r Hr. rewrite HN0. apply Hin. exact Hr.
  - intros r key k Hr _. unfold u. destruct (negb _); [|discriminate].
    intros H. injection H as <-. rewrite HK0, (sb_vecIdx _ _ _ _ _ Hs).
    apply Hin in Hr. pose proof (fiv_range r Hr) as F. unfold fineV in F. lia.
  - exists h. split; [rewrite Hfold; exact E|].
    assert (Hkey : forall r, 0 <= r < nFine g0 l ->
              NKMinHeap.getKey h r =
              if vt_eqb (getType g0 (l - 1) r) vtInactive then -1
              else Z.shiftl 1 (oddSum (fineV g0 l r))).
    { intros r Hr. rewrite E3.
      destruct (in_dec Z.eq_dec r (FOR_LVL g1 (l - 1))) as [_|Hn];
        [|exfalso; apply Hn; apply Hin; exact Hr].
      unfold newKey, u. destruct Hs as (S1 & S2 & S3 & S4).
      rewrite S4 by lia.
      destruct (vt_eqb (getType g0 (l - 1) r) vtInactive); cbn [negb].
      - apply Hk0. exact Hr.
      - unfold fineV. rewrite S1. reflexivity. }
    assert (Hcount : forall r, 0 <= r < nFine g0 l ->
              freeCount g1 l (fineV g0 l r) = Z.shiftl 1 (oddSum (fineV g0 l r))).
    { intros r Hr. rewrite <- length_candidates by (apply (fineV_nonneg g0 l Hwf Hl); exact Hr).
      apply freeCount_all_free. intros I HI'. unfold isFree. apply vt_eqb_eq.
      apply Hfree. rewrite (sb_linIdx _ _ _ _ _ Hs), <- type_len_coarse.
      apply (cand_index_range g0 l Hwf Hl (fineV g0 l r)); [|exact HI'].
      apply (fineV_inGrid g0 l Hwf Hl). exact Hr. }
    constructor.
    + exact Hs.
    + exact HI.
    + congruence.
    + intros i Hi. left. apply Hfree. exact Hi.
    + intros r Hr Hk. rewrite Hkey in Hk |- * by exact Hr.
      destruct (vt_eqb (getType g0 (l - 1) r) vtInactive); [contradiction|].
      rewrite Hcount by exact Hr. split; [reflexivity|]. apply (fiv_range r Hr).
    + intros r Hr Hk Hna. rewrite Hkey in Hk by exact Hr.
      apply vt_eqb_neq in Hna. rewrite Hna in Hk.
      pose proof (fiv_range r Hr). lia.
Qed.

(** [genCoarseGrid(l)] returns; it changes the classification of level
    [l] only, leaves every vertex of that level active or inactive, and
    selects a candidate of every fine vertex that is not inactive. *)
Lemma genCoarseGrid_spec :
  exists g',
    genCoarseGrid l g0 = Ok g' /\ sameBut l g0 g' /\
    (forall j, getType g' l j = vtActive \/ getType g' l j = vtInactive) /\
    (forall r, 0 <= r < nFine g0 l -> getType g0 (l - 1) r <> vtInactive ->
       hasCandidate vtActive g' l (fineV g0 l r)).
Proof.
  destruct init_free as (Hs1 & Hfree). cbv zeta in Hs1, Hfree.
  unfold genCoarseGrid. cbv zeta.
  set (g1 := fold_left (fun g v => put_mType g l v vtFree) (FOR_LVL g0 l) g0) in *.
  destruct (fillHeap_spec g1 Hs1 Hfree) as (heap & E1 & HO).
  rewrite E1. cbn [bind].
  destruct (coarse_loop_spec g0 l Hwf Hl (Z.to_nat (NKMinHeap.size heap)) g1 heap HO)
    as (g2 & E2 & Hs2 & Hty & Hz).
  { unfold NKMinHeap.size. pose proof (Inv_size_nonneg heap (oi_heap _ _ _ _ HO)). lia. }
  rewrite E2. cbn [bind].
  destruct (fold_types l finishType (coarse_finish1 l))
    with (vs := FOR_LVL g2 l) (g := g2) as (H1 & H2).
  - intros g v. apply finish1_sameBut.
  - intros g v. apply finish1_type.
  - intros g v j. apply finish1_other.
  - apply NoDup_zrange.
  - destruct Hs2 as (_ & S2 & _). rewrite S2. apply (type_level_range g0 l Hwf Hl).
  - intros v Hv. rewrite (sb_FOR_LVL _ _ _ _ Hs2) in Hv.
    destruct Hs2 as (_ & _ & S3 & _). rewrite S3, type_len_coarse.
    apply FOR_LVL_coarse. exact Hv.
  - eexists. split; [reflexivity|]. split; [eapply sameBut_trans; eassumption|].
    assert (Hin : forall j, In j (FOR_LVL g2 l) <-> 0 <= j < nCoarse g0 l).
    { intros j. rewrite (sb_FOR_LVL _ _ _ _ Hs2). apply FOR_LVL_coarse. }
    split.
    + intros j. rewrite H2.
      destruct (in_dec Z.eq_dec j (FOR_LVL g2 l)) as [Hj|Hj].
      * apply Hin in Hj. destruct (Hty j Hj) as [-> | [-> | ->]]; cbn; auto.
      * right. unfold getType. apply zget_out.
        destruct Hs2 as (_ & _ & S3 & _). rewrite S3, type_len_coarse.
        intros Hc. apply Hj. apply Hin. exact Hc.
    + intros r Hr Hna. destruct (Hz r Hr Hna) as (I & HI & Ht).
      exists I. split; [exact HI|].
      rewrite (sb_linIdx _ _ _ _ _ H1), H2.
      destruct (in_dec Z.eq_dec (linIdx g2 I l) (FOR_LVL g2 l)) as [Hj|Hj].
      * rewrite Ht. reflexivity.
      * exfalso. apply Hj. apply Hin.
        rewrite (sb_linIdx _ _ _ _ _ Hs2), <- type_len_coarse.
        apply (cand_index_range g0 l Hwf Hl (fineV g0 l r)); [|exact HI].
        apply (fineV_inGrid g0 l Hwf Hl). exact Hr.
Qed.

End Level.

End CoarseGrid.

(* ================================================================== *)
(** * The levels built by [setA]                                       *)
(* ================================================================== *)

Section Setup.
Context {RO : RealOps}.

(** [evolves keep g g']: the state [g'] has the geometry and the array
    lengths of [g], and the classification of [g] at the levels [keep]. *)
Record evolves (keep : Z -> Prop) (g g' : GridMg) : Prop := {
  ev_3D : mIs3D g' = mIs3D g;
  ev_scale : mTrivialEquationScale g' = mTrivialEquationScale g;
  ev_SS0 : mStencilSize0 g' = mStencilSize0 g;
  ev_size : mSize g' = mSize g;
  ev_pitch : mPitch g' = mPitch g;
  ev_A : zlength (mA g') = zlength (mA g);
  ev_Al : forall l, zlength (zget [] (mA g') l) = zlength (zget [] (mA g) l);
  ev_x : mx g' = mx g;
  ev_b : mb g' = mb g;
  ev_r : mr g' = mr g;
  ev_T : zlength (mType g') = zlength (mType g);
  ev_Tl : forall l, zlength (zget [] (mType g') l) = zlength (zget [] (mType g) l);
  ev_keep : forall l j, keep l -> getType g' l j = getType g l j
}.

Lemma evolves_refl keep g : evolves keep g g.
Proof. constructor; reflexivity. Qed.

Lemma evolves_trans keep g g' g'' :
  evolves keep g g' -> evolves keep g' g'' -> evolves keep g g''.
Proof.
  intros A B. constructor.
  - rewrite (ev_3D _ _ _ B). apply A.
  - rewrite (ev_scale _ _ _ B). apply A.
  - rewrite (ev_SS0 _ _ _ B). apply A.
  - rewrite (ev_size _ _ _ B). apply A.
  - rewrite (ev_pitch _ _ _ B). apply A.
  - rewrite (ev_A _ _ _ B). apply A.
  - intros l. rewrite (ev_Al _ _ _ B). apply A.
  - rewrite (ev_x _ _ _ B). apply A.
  - rewrite (ev_b _ _ _ B). apply A.
  - rewrite (ev_r _ _ _ B). apply A.
  - rewrite (ev_T _ _ _ B). apply A.
  - intros l. rewrite (ev_Tl _ _ _ B). apply A.
  - intros l j H. rewrite (ev_keep _ _ _ B) by exact H. now apply A.
Qed.

Lemma evolves_weaken (keep keep' : Z -> Prop) g g' :
  (forall l, keep' l -> keep l) -> evolves keep g g' -> evolves keep' g g'.
Proof. intros H A. constructor; try apply A. intros l j Hk. apply A. auto. Qed.

Lemma evolves_fold {A : Type} keep (f : GridMg -> A -> GridMg) (xs : list A) g :
  (forall g a, evolves keep g (f g a)) -> evolves keep g (fold_left f xs g).
Proof.
  intros Hf. apply fold_left_inv with (P := evolves keep g).
  - apply evolves_refl.
  - intros s a _ Hs. eapply evolves_trans; [exact Hs | apply Hf].
Qed.

Lemma evolves_put_mA keep g l i x : evolves keep g (put_mA g l i x).
Proof.
  constructor; try reflexivity.
  - unfold put_mA. cbn. apply zlength_zset.
  - intros l'. unfold put_mA. cbn. apply zlength_level_put.
Qed.

Lemma evolves_sameBut l g g' : sameBut l g g' -> evolves (fun l' => l' <> l) g g'.
Proof.
  intros (H & H2 & H3 & H4).
  constructor; try (rewrite H; reflexivity); assumption.
Qed.

Lemma evolves_put_mType g l i t : evolves (fun l' => l' <> l) g (put_mType g l i t).
Proof. apply evolves_sameBut. apply sameBut_put. Qed.

Lemma evolves_debMsg keep g m : evolves keep g (debMsg g m).
Proof. constructor; reflexivity. Qed.

Lemma evolves_wfLevel keep g g' k : evolves keep g g' -> wfLevel g k -> wfLevel g' k.
Proof.
  intros E W.
  assert (ES : sizeAt g' k = sizeAt g k) by (unfold sizeAt; now rewrite (ev_size _ _ _ E)).
  assert (EP : pitchAt g' k = pitchAt g k) by (unfold pitchAt; now rewrite (ev_pitch _ _ _ E)).
  constructor; rewrite ?ES, ?EP; try apply W.
  - rewrite (ev_b _ _ _ E). apply W.
  - rewrite (ev_x _ _ _ E). apply W.
  - rewrite (ev_r _ _ _ E). apply W.
  - rewrite (ev_Tl _ _ _ E). apply W.
Qed.

Lemma evolves_numLevels keep g g' : evolves keep g g' -> numLevels g' = numLevels g.
Proof. intros E. apply (ev_A _ _ _ E). Qed.

Lemma evolves_sizeAt keep g g' k : evolves keep g g' -> sizeAt g' k = sizeAt g k.
Proof. intros E. unfold sizeAt. now rewrite (ev_size _ _ _ E). Qed.

Lemma evolves_wf keep g g' : evolves keep g g' -> wf g -> wf g'.
Proof.
  intros E W. pose proof (evolves_numLevels _ _ _ E) as EL.
  constructor; rewrite ?EL.
  - apply W.
  - rewrite (ev_size _ _ _ E). apply W.
  - rewrite (ev_pitch _ _ _ E). apply W.
  - rewrite (ev_x _ _ _ E). apply W.
  - rewrite (ev_b _ _ _ E). apply W.
  - rewrite (ev_r _ _ _ E). apply W.
  - rewrite (ev_T _ _ _ E). apply W.
  - intros k Hk. eapply evolves_wfLevel; [exact E|]. now apply W.
  - intros k Hk. rewrite !(evolves_sizeAt _ _ _ _ E). now apply W.
  - rewrite (ev_3D _ _ _ E), (evolves_sizeAt _ _ _ _ E). apply W.
Qed.

Definition anyLevel (_ : Z) : Prop := True.

Lemma setA_copy_evolves A0 pAi pAj pAk g :
  evolves anyLevel g (setA_copy A0 pAi pAj pAk g).
Proof.
  unfold setA_copy. apply evolves_fold. intros g1 v. cbv zeta.
  repeat (eapply evolves_trans; [|apply evolves_put_mA]). apply evolves_refl.
Qed.

Lemma setA_classify1_evolves g b1 b2 v :
  evolves (fun l => l <> 0) g (fst (fst (setA_classify1 (g, b1, b2) v))).
Proof.
  unfold setA_classify1. cbv zeta.
  assert (H1 : evolves (fun l => l <> 0) g (put_mType g 0 v vtInactive))
    by apply evolves_put_mType.
  destruct (negb _); [|exact H1].
  assert (H2 : evolves (fun l => l <> 0) g (put_mType (put_mType g 0 v vtInactive) 0 v vtActive)).
  { eapply evolves_trans; [exact H1 | apply evolves_put_mType]. }
  destruct (analyzeStencil _ v) as [s t]. destruct t; [|exact H2]. cbn [fst].
  eapply evolves_trans; [exact H2|].
  eapply evolves_trans; [apply evolves_put_mType | apply evolves_put_mA].
Qed.

Lemma setA_classify_evolves g : evolves (fun l => l <> 0) g (setA_classify g).
Proof.
  unfold setA_classify.
  assert (H : evolves (fun l => l <> 0) g
                (fst (fst (fold_left setA_classify1 (FOR_LVL g 0) (g, false, false))))).
  { apply fold_left_inv with (P := fun st => evolves (fun l => l <> 0) g (fst (fst st))).
    - apply evolves_refl.
    - intros [[g1 b1] b2] v _ H1. eapply evolves_trans; [exact H1|].
      apply setA_classify1_evolves. }
  destruct (fold_left _ _ _) as [[g1 b1] b2]. cbn [fst] in H.
  destruct b2, b1; cbn [negb];
    repeat (eapply evolves_trans; [|apply evolves_debMsg]); exact H.
Qed.

Lemma add_mA_evolves keep g l i x : evolves keep g (add_mA g l i x).
Proof. apply evolves_put_mA. Qed.

Lemma galerkin_paths_evolves l v V g : evolves anyLevel g (galerkin_paths l v V g).
Proof.
  unfold galerkin_paths. apply evolves_fold. intros g1 it. cbv zeta.
  repeat (destruct (_ || _); [apply evolves_refl|]).
  destruct (inUStencil it); apply add_mA_evolves.
Qed.

Lemma galerkin_W_evolves l v u U N rw sc g :
  evolves anyLevel g (galerkin_W l v u U N rw sc g).
Proof.
  unfold galerkin_W. apply evolves_fold. intros g1 W. cbv zeta.
  destruct (isInactive _ _ _); [apply evolves_refl|].
  destruct (_ <? _); apply add_mA_evolves.
Qed.

Lemma galerkin_N_evolves l v u V U rw g : evolves anyLevel g (galerkin_N l v u V U rw g).
Proof.
  unfold galerkin_N. apply evolves_fold. intros g1 N. cbv zeta.
  destruct (isInactive _ _ _); [apply evolves_refl|].
  destruct (_ <? _); [apply evolves_refl | apply galerkin_W_evolves].
Qed.

Lemma galerkin_U_evolves l v V g : evolves anyLevel g (galerkin_U l v V g).
Proof.
  unfold galerkin_U. apply evolves_fold. intros g1 U. cbv zeta.
  destruct (isInactive _ _ _); [apply evolves_refl | apply galerkin_N_evolves].
Qed.

Lemma genCoraseGridOperator_evolves l g : evolves anyLevel g (genCoraseGridOperator l g).
Proof.
  unfold genCoraseGridOperator. apply evolves_fold. intros g1 v.
  unfold galerkin_vertex. cbv zeta.
  destruct (isInactive _ _ _); [apply evolves_refl|].
  match goal with
  | |- context [fold_left ?f ?xs g1] => set (g2 := fold_left f xs g1)
  end.
  assert (H : evolves anyLevel g1 g2).
  { apply evolves_fold. intros g3 i. apply evolves_put_mA. }
  eapply evolves_trans; [exact H|].
  destruct (l =? 1); [apply galerkin_paths_evolves | apply galerkin_U_evolves].
Qed.

Lemma getA_put_mA_other g l i x l' j :
  l' <> l -> getA (put_mA g l i x) l' j = getA g l' j.
Proof.
  intros H. unfold getA, put_mA. cbn [mA with_mA].
  rewrite zget_level_put_other by exact H. reflexivity.
Qed.

Lemma genCoraseGridOperator_other l g l' j :
  l' <> l -> getA (genCoraseGridOperator l g) l' j = getA g l' j.
Proof.
  intros H. unfold genCoraseGridOperator.
  set (P := fun s : GridMg => getA s l' j = getA g l' j).
  assert (Hadd : forall s i x, P s -> P (add_mA s l i x)).
  { intros s i x Hs. unfold P, add_mA. rewrite getA_put_mA_other by exact H. exact Hs. }
  apply fold_left_inv with (P := P); [reflexivity|].
  intros g1 v _ H1. unfold galerkin_vertex.
  destruct (isInactive g1 l v); [exact H1|]. cbv zeta.
  match goal with
  | |- context [fold_left ?f ?xs g1] => set (g2 := fold_left f xs g1)
  end.
  assert (H2 : P g2).
  { apply fold_left_inv; [exact H1|]. intros s i _ Hs. unfold P.
    rewrite getA_put_mA_other by exact H. exact Hs. }
  destruct (l =? 1).
  - unfold galerkin_paths. apply fold_left_inv; [exact H2|].
    intros s it _ Hs. cbv zeta.
    repeat (destruct (_ || _); [exact Hs|]).
    destruct (inUStencil it); apply Hadd; exact Hs.
  - unfold galerkin_U. apply fold_left_inv; [exact H2|].
    intros s U _ Hs. cbv zeta. destruct (isInactive s (l - 1) _); [exact Hs|].
    unfold galerkin_N. apply fold_left_inv; [exact Hs|].
    intros s1 N _ Hs1. cbv zeta. destruct (isInactive s1 l _); [exact Hs1|].
    destruct (_ <? _); [exact Hs1|].
    unfold galerkin_W. apply fold_left_inv; [exact Hs1|].
    intros s2 W _ Hs2. cbv zeta. destruct (isInactive s2 (l - 1) _); [exact Hs2|].
    destruct (_ <? _); apply Hadd; exact Hs2.
Qed.

(** Level [l] is a full-rank coarsening of level [l - 1]: every fine
    vertex that is not inactive has an active interpolation candidate. *)
Definition fullRank (g : GridMg) (l : Z) : Prop :=
  forall r, 0 <= r < countOf (sizeAt g (l - 1)) ->
    getType g (l - 1) r <> vtInactive ->
    hasCandidate vtActive g l (vecIdx g r (l - 1)).

(** The classification of level [l] is final. *)
Definition settled (g : GridMg) (l : Z) : Prop :=
  forall j, getType g l j = vtActive \/ getType g l j = vtInactive.

Lemma evolves_linIdx keep g g' V k : evolves keep g g' -> linIdx g' V k = linIdx g V k.
Proof. intros E. unfold linIdx, pitchAt. now rewrite (ev_pitch _ _ _ E). Qed.

Lemma evolves_vecIdx keep g g' v k : evolves keep g g' -> vecIdx g' v k = vecIdx g v k.
Proof.
  intros E. unfold vecIdx, pitchAt, sizeAt.
  now rewrite (ev_pitch _ _ _ E), (ev_size _ _ _ E).
Qed.

Lemma fullRank_evolves (keep : Z -> Prop) g g' l :
  evolves keep g g' -> keep l -> keep (l - 1) -> fullRank g l -> fullRank g' l.
Proof.
  intros E Kl Kf H r Hr Hna.
  rewrite (evolves_sizeAt _ _ _ _ E) in Hr.
  rewrite (ev_keep _ _ _ E) in Hna by exact Kf.
  destruct (H r Hr Hna) as (I & HI & Ht).
  exists I. rewrite (evolves_vecIdx _ _ _ _ _ E). split; [exact HI|].
  rewrite (evolves_linIdx _ _ _ _ _ E), (ev_keep _ _ _ E) by exact Kl. exact Ht.
Qed.

Lemma settled_evolves (keep : Z -> Prop) g g' l :
  evolves keep g g' -> keep l -> settled g l -> settled g' l.
Proof. intros E Kl H j. rewrite (ev_keep _ _ _ E) by exact Kl. apply H. Qed.

(** One iteration of the loop of [setA] over the levels. *)
Definition setA_level (g : GridMg) (l : Z) : result GridMg :=
  bind (genCoarseGrid l g) (fun g => Ok (genCoraseGridOperator l g)).

Lemma setA_level_spec g l :
  wf g -> 1 <= l < numLevels g ->
  exists g', setA_level g l = Ok g' /\ evolves (fun l' => l' <> l) g g' /\
             fullRank g' l /\ settled g' l /\
             forall l' j, l' <> l -> getA g' l' j = getA g l' j.
Proof.
  intros W Hl.
  destruct (genCoarseGrid_spec g l W Hl) as (g1 & E1 & Hs & Hset & Hfull).
  pose proof (evolves_sameBut _ _ _ Hs) as Ev1.
  pose proof (genCoraseGridOperator_evolves l g1) as Ev2.
  exists (genCoraseGridOperator l g1). unfold setA_level. rewrite E1. cbn [bind].
  split; [reflexivity|]. split; [|split; [|split]].
  4:{ intros l' j Hl'. rewrite genCoraseGridOperator_other by exact Hl'.
      destruct Hs as (S1 & _). unfold getA. rewrite S1. reflexivity. }
  - eapply evolves_trans; [exact Ev1|].
    eapply evolves_weaken; [|exact Ev2]. intros; exact I.
  - apply (fullRank_evolves anyLevel g1); [exact Ev2 | exact I | exact I |].
    intros r Hr Hna. rewrite (sb_sizeAt _ _ _ _ Hs) in Hr.
    destruct Hs as (S1 & S2 & S3 & S4). rewrite S4 in Hna by lia.
    replace (vecIdx g1 r (l - 1)) with (fineV g l r) by (unfold fineV; rewrite S1; reflexivity).
    apply Hfull; assumption.
  - apply (settled_evolves anyLevel g1); [exact Ev2 | exact I | exact Hset].
Qed.

Lemma setA_levels_spec : forall cnt a g,
  wf g -> 1 <= a -> a + Z.of_nat cnt = numLevels g ->
  (forall l, 1 <= l < a -> fullRank g l /\ settled g l) ->
  exists g', foldM setA_level (zrange a cnt) g = Ok g' /\
             evolves (fun l => l < a) g g' /\
             (forall l, 1 <= l < numLevels g -> fullRank g' l /\ settled g' l) /\
             forall l' j, l' < a -> getA g' l' j = getA g l' j.
Proof.
  induction cnt as [|cnt IH]; intros a g W Ha Hn Hdone.
  - exists g. split; [reflexivity|]. split; [apply evolves_refl|].
    split; [|reflexivity]. intros l Hl. apply Hdone. lia.
  - destruct (setA_level_spec g a W) as (g1 & E1 & Ev1 & F1 & S1 & A1); [lia|].
    pose proof (evolves_numLevels _ _ _ Ev1) as EL.
    destruct (IH (a + 1) g1) as (g2 & E2 & Ev2 & H2 & A2).
    + eapply evolves_wf; eassumption.
    + lia.
    + lia.
    + intros l Hl. destruct (Z.eq_dec l a) as [->|Hne]; [split; assumption|].
      destruct (Hdone l) as (F & S); [lia|]. split.
      * apply (fullRank_evolves _ _ _ _ Ev1); [lia | lia | exact F].
      * apply (settled_evolves _ _ _ _ Ev1); [lia | exact S].
    + exists g2. cbn [zrange foldM]. rewrite E1. cbn [bind].
      split; [exact E2|]. split; [|split].
      * eapply evolves_trans; eapply evolves_weaken; try eassumption;
          cbv beta; intros; lia.
      * rewrite <- EL. exact H2.
      * intros l' j Hl'. rewrite A2 by lia. apply A1. lia.
Qed.

(** [setA] returns on every well-formed state, keeps the geometry, and
    leaves a hierarchy of full rank whose coarse levels are settled. *)
Lemma setA_spec A0 pAi pAj pAk g :
  wf g ->
  exists g', setA A0 pAi pAj pAk g = Ok g' /\
             evolves (fun _ => False) g g' /\
             forall l, 1 <= l < numLevels g -> fullRank g' l /\ settled g' l.
Proof.
  intros W. unfold setA. cbv zeta.
  set (gB := setA_classify (setA_copy A0 pAi pAj pAk g)).
  assert (EvB : evolves (fun l => l <> 0) g gB).
  { eapply evolves_trans; [|apply setA_classify_evolves].
    eapply evolves_weaken; [|apply setA_copy_evolves]. intros; exact I. }
  pose proof (evolves_wf _ _ _ EvB W) as WB.
  pose proof (evolves_numLevels _ _ _ EvB) as EL.
  pose proof (wf_levels _ W) as Hn.
  destruct (setA_levels_spec (Z.to_nat (zlength (mA gB) - 1 + 1 - 1)) 1 gB WB)
    as (g2 & E2 & Ev2 & H2 & _).
  - lia.
  - fold (numLevels gB). lia.
  - intros l Hl. lia.
  - unfold zseq. change (fun g l => bind (genCoarseGrid l g)
                            (fun g => Ok (genCoraseGridOperator l g))) with setA_level.
    rewrite E2. cbn [bind]. eexists. split; [reflexivity|]. split.
    + assert (Ev3 : evolves (fun _ => False) g g2).
      { eapply evolves_trans; eapply evolves_weaken; try eassumption;
          cbv beta; intros; contradiction. }
      constructor; apply Ev3.
    + intros l Hl. rewrite <- EL in Hl. destruct (H2 l Hl) as (F & S).
      split; [intros r Hr Hna; apply (F r Hr Hna) | exact S].
Qed.

(** [setA] classifies the vertices of level 0 in its second loop and
    leaves the coefficients and the classification of that level to the
    loops over the coarse levels as they are. *)
Lemma setA_level0 A0 pAi pAj pAk g g' :
  wf g -> setA A0 pAi pAj pAk g = Ok g' ->
  let gB := setA_classify (setA_copy A0 pAi pAj pAk g) in
  (forall j, getType g' 0 j = getType gB 0 j) /\ (forall j, getA g' 0 j = getA gB 0 j).
Proof.
  intros W. unfold setA. cbv zeta.
  set (gB := setA_classify (setA_copy A0 pAi pAj pAk g)).
  assert (EvB : evolves (fun l => l <> 0) g gB).
  { eapply evolves_trans; [|apply setA_classify_evolves].
    eapply evolves_weaken; [|apply setA_copy_evolves]. intros; exact I. }
  pose proof (evolves_wf _ _ _ EvB W) as WB.
  pose proof (evolves_numLevels _ _ _ EvB) as EL.
  pose proof (wf_levels _ W) as Hn.
  destruct (setA_levels_spec (Z.to_nat (zlength (mA gB) - 1 + 1 - 1)) 1 gB WB)
    as (g2 & E2 & Ev2 & _ & A2).
  - lia.
  - fold (numLevels gB). lia.
  - intros l Hl. lia.
  - unfold zseq. change (fun g l => bind (genCoarseGrid l g)
                            (fun g => Ok (genCoraseGridOperator l g))) with setA_level.
    rewrite E2. cbn [bind]. intros H. injection H as <-. split; intros j.
    + change (getType g2 0 j = getType gB 0 j). apply (ev_keep _ _ _ Ev2). lia.
    + change (getA g2 0 j = getA gB 0 j). apply A2. lia.
Qed.

End Setup.

(* ================================================================== *)
(** * The object built by the constructor is well formed               *)
(* ================================================================== *)

Section Constructor.
Context {RO : RealOps}.

Lemma zlength_map {A B : Type} (f : A -> B) (xs : list A) : zlength (map f xs) = zlength xs.
Proof. unfold zlength. now rewrite length_map. Qed.

Lemma zget_map {A B : Type} (f : A -> B) (d : A) (d' : B) (xs : list A) (i : Z) :
  0 <= i < zlength xs -> zget d' (map f xs) i = f (zget d xs i).
Proof.
  unfold zget, zlength. intros Hi. destruct (Z.ltb_spec i 0); [lia|].
  rewrite (nth_indep _ d' (f d)) by (rewrite length_map; lia). apply map_nth.
Qed.

Lemma zlength_zeros n : 0 <= n -> zlength (zeros n) = n.
Proof. intros Hn. unfold zlength, zeros. rewrite repeat_length. lia. Qed.

Definition positive (s : Vec3i) : Prop := 1 <= vx s /\ 1 <= vy s /\ 1 <= vz s.

Lemma countOf_pos s : positive s -> 0 <= countOf s.
Proof. intros (Hx & Hy & Hz). unfold countOf. nia. Qed.

Lemma halveExtent_positive s : positive s -> positive (halveExtent s).
Proof.
  intros (Hx & Hy & Hz). unfold positive, halveExtent, vdivc, vaddc, vadd, vmap2, vconst.
  cbn [vx vy vz]. rewrite !halve_comp by assumption.
  pose proof (Z.div_pos (vx s) 2). pose proof (Z.div_pos (vy s) 2).
  pose proof (Z.div_pos (vz s) 2). lia.
Qed.

(** The extents pushed by the loop of the constructor: each one is the
    halved extent of the level before. *)
Lemma coarseSizes_chain : forall fuel prev n k,
  1 <= k < zlength (prev :: coarseSizes fuel prev n) ->
  zget vec0 (prev :: coarseSizes fuel prev n) k =
  halveExtent (zget vec0 (prev :: coarseSizes fuel prev n) (k - 1)).
Proof.
  induction fuel as [|fuel IH]; intros prev n k; cbn [coarseSizes].
  - rewrite zlength_cons. change (zlength (@nil Vec3i)) with 0. lia.
  - destruct (_ && _); [rewrite zlength_cons; change (zlength (@nil Vec3i)) with 0; lia|].
    destruct (n <=? 1000); [rewrite zlength_cons; change (zlength (@nil Vec3i)) with 0; lia|].
    fold (halveExtent prev). set (s := halveExtent prev).
    rewrite zlength_cons. intros Hk.
    rewrite (zget_cons _ prev) by lia. destruct (Z.eqb_spec k 0); [lia|].
    rewrite (zget_cons _ prev _ (k - 1)) by lia.
    destruct (Z.eqb_spec (k - 1) 0) as [E|E].
    + rewrite E. reflexivity.
    + apply IH. lia.
Qed.

Lemma chain_positive (S : list Vec3i) :
  positive (zget vec0 S 0) ->
  (forall k, 1 <= k < zlength S -> zget vec0 S k = halveExtent (zget vec0 S (k - 1))) ->
  forall k, 0 <= k < zlength S -> positive (zget vec0 S k).
Proof.
  intros H0 Hc k Hk. assert (Hk0 : 0 <= k) by lia. revert Hk. pattern k.
  apply natlike_ind; [| |exact Hk0].
  - intros _. exact H0.
  - intros j Hj IH Hjs. rewrite Hc by lia. replace (Z.succ j - 1) with j by lia.
    apply halveExtent_positive. apply IH. lia.
Qed.

Lemma halveExtent_le s :
  positive s ->
  vx (halveExtent s) <= vx s /\ vy (halveExtent s) <= vy s /\ vz (halveExtent s) <= vz s.
Proof.
  intros (Hx & Hy & Hz). unfold halveExtent, vdivc, vaddc, vadd, vmap2, vconst.
  cbn [vx vy vz]. rewrite !halve_comp by assumption.
  pose proof (Z.div_mod (vx s) 2). pose proof (Z.mod_pos_bound (vx s) 2).
  pose proof (Z.div_mod (vy s) 2). pose proof (Z.mod_pos_bound (vy s) 2).
  pose proof (Z.div_mod (vz s) 2). pose proof (Z.mod_pos_bound (vz s) 2).
  lia.
Qed.

Lemma chain_le (S : list Vec3i) :
  positive (zget vec0 S 0) ->
  (forall k, 1 <= k < zlength S -> zget vec0 S k = halveExtent (zget vec0 S (k - 1))) ->
  forall k, 0 <= k < zlength S ->
    vx (zget vec0 S k) <= vx (zget vec0 S 0) /\
    vy (zget vec0 S k) <= vy (zget vec0 S 0) /\
    vz (zget vec0 S k) <= vz (zget vec0 S 0).
Proof.
  intros H0 Hc k Hk. assert (Hk0 : 0 <= k) by lia. revert Hk. pattern k.
  apply natlike_ind; [| |exact Hk0].
  - intros _. lia.
  - intros j Hj IH Hjs. rewrite Hc by lia. replace (Z.succ j - 1) with j by lia.
    assert (Hp : positive (zget vec0 S j)) by (apply chain_positive; [assumption..|lia]).
    pose proof (halveExtent_le _ Hp). specialize (IH ltac:(lia)). lia.
Qed.

(** The number of coefficients stored per vertex of level [l]:
    [mStencilSize0] on level 0 and [mStencilSize] on the coarse levels. *)
Definition stencilCount (gridSize : Vec3i) (l : Z) : Z :=
  if l =? 0 then (if 1 <? vz gridSize then 4 else 3)
  else (if 1 <? vz gridSize then 14 else 5).

(** The extents for which the [int] arithmetic of the constructor stays
    in the range of [int]: the components are positive and on every level
    the length of the operator array, the product of the number of vertices
    and of the stencil size, is at most [intMax]. *)
Definition intRange (gridSize : Vec3i) : Prop :=
  positive gridSize /\
  forall l, 0 <= l < zlength (levelSizes gridSize) ->
    countOf (zget vec0 (levelSizes gridSize) l) * stencilCount gridSize l <= intMax.

Lemma stencilCount_ge gridSize l : 3 <= stencilCount gridSize l.
Proof. unfold stencilCount. destruct (l =? 0), (1 <? vz gridSize); lia. Qed.

(** Under [intRange] every [int] expression of the loop of the constructor
    is in range: the extents plus two, the numbers of vertices and the
    lengths of the arrays. *)
Lemma intRange_bounds gridSize l :
  intRange gridSize -> 0 <= l < zlength (levelSizes gridSize) ->
  let p := zget vec0 (levelSizes gridSize) l in
  1 <= vx p <= intMax - 2 /\ 1 <= vy p <= intMax - 2 /\ 1 <= vz p <= intMax - 2 /\
  1 <= countOf p <= intMax /\ countOf p * stencilCount gridSize l <= intMax.
Proof.
  intros (Hp & Hr) Hl p. specialize (Hr l Hl). fold p in Hr.
  assert (Hpos : positive p).
  { apply (chain_positive (levelSizes gridSize)); [exact Hp | | exact Hl].
    apply coarseSizes_chain. }
  destruct Hpos as (Hx & Hy & Hz).
  pose proof (stencilCount_ge gridSize l) as Hs.
  unfold intMax in *. change (2 ^ 31) with 2147483648 in *.
  unfold countOf in *.
  set (a := vx p) in *. set (b := vy p) in *. set (c := vz p) in *.
  assert (Hab : 1 <= a * b) by nia.
  assert (Hbc : 1 <= b * c) by nia.
  assert (Hac : 1 <= a * c) by nia.
  assert (Hc : 1 <= a * b * c) by nia.
  assert (Hc3 : 3 * (a * b * c) <= 2147483647) by nia.
  assert (a <= a * b * c) by (replace (a * b * c) with (a * (b * c)) by ring; nia).
  assert (b <= a * b * c) by (replace (a * b * c) with (b * (a * c)) by ring; nia).
  assert (c <= a * b * c) by nia.
  repeat split; try lia.
Qed.

(** Fourteen coefficients per vertex of the finest level fit in an [int]:
    the extents are in range, as no level has more vertices than the finest
    one. *)
Lemma intRange_small gridSize :
  positive gridSize -> countOf gridSize * 14 <= intMax -> intRange gridSize.
Proof.
  intros Hp Hn. split; [exact Hp|]. intros l Hl.
  pose proof (chain_positive (levelSizes gridSize) Hp (coarseSizes_chain 100 gridSize _) l Hl)
    as (Hx & Hy & Hz).
  pose proof (chain_le (levelSizes gridSize) Hp (coarseSizes_chain 100 gridSize _) l Hl)
    as (Lx & Ly & Lz).
  change (zget vec0 (levelSizes gridSize) 0) with gridSize in *.
  set (p := zget vec0 (levelSizes gridSize) l) in *.
  destruct Hp as (Px & Py & Pz).
  assert (Hc : countOf p <= countOf gridSize).
  { unfold countOf.
    transitivity (vx gridSize * vy p * vz p); [nia|].
    transitivity (vx gridSize * vy gridSize * vz p); nia. }
  assert (Hs : stencilCount gridSize l <= 14)
    by (unfold stencilCount; destruct (l =? 0), (1 <? vz gridSize); lia).
  pose proof (stencilCount_ge gridSize l) as Hs3.
  assert (0 <= countOf p) by (unfold countOf; nia).
  nia.
Qed.

Lemma wf_buildGridMg gridSize coarse :
  positive gridSize ->
  (forall k, 1 <= k < zlength (gridSize :: coarse) ->
     zget vec0 (gridSize :: coarse) k = halveExtent (zget vec0 (gridSize :: coarse) (k - 1))) ->
  wf (buildGridMg gridSize coarse).
Proof.
  intros Hp Hc. set (S := gridSize :: coarse) in *.
  pose proof (chain_positive S Hp Hc) as Hpos.
  pose proof (zlength_nonneg coarse) as Hlen.
  assert (HS : zlength S = zlength coarse + 1) by apply zlength_cons.
  assert (HL : numLevels (buildGridMg gridSize coarse) = zlength S).
  { unfold numLevels, buildGridMg. cbn [mA]. rewrite zlength_cons, zlength_map. lia. }
  constructor; rewrite ?HL; unfold buildGridMg; cbn [mSize mPitch mx mb mr mType mIs3D].
  - lia.
  - reflexivity.
  - apply zlength_map.
  - apply zlength_map.
  - apply zlength_map.
  - apply zlength_map.
  - apply zlength_map.
  - intros k Hk. destruct (Hpos k Hk) as (Hx & Hy & Hz).
    pose proof (countOf_pos _ (Hpos k Hk)) as Hn.
    constructor; unfold sizeAt, pitchAt; cbn [mSize mPitch mx mb mr mType]; fold S;
      try assumption.
    + apply (zget_map pitchOf vec0 vec0). exact Hk.
    + rewrite (zget_map _ vec0) by exact Hk. apply zlength_zeros. exact Hn.
    + rewrite (zget_map _ vec0) by exact Hk. apply zlength_zeros. exact Hn.
    + rewrite (zget_map _ vec0) by exact Hk. apply zlength_zeros. exact Hn.
    + rewrite (zget_map _ vec0) by exact Hk. unfold zlength. rewrite repeat_length. lia.
  - intros k Hk. unfold sizeAt. cbn [mSize]. fold S. apply Hc. exact Hk.
  - unfold sizeAt. cbn [mSize]. change (zget vec0 (gridSize :: coarse) 0) with gridSize.
    destruct Hp as (_ & _ & Hz). destruct (Z.ltb_spec 1 (vz gridSize)); [discriminate | lia].
Qed.

(** The constructor builds a well-formed object from every extent with
    positive components. *)
Lemma wf_newGridMg gridSize : positive gridSize -> wf (newGridMg gridSize).
Proof.
  intros Hp. apply wf_buildGridMg; [exact Hp|]. apply coarseSizes_chain.
Qed.

End Constructor.

(* ================================================================== *)
(** * Coarse grid generation: the classification it leaves             *)
(* ================================================================== *)

Section CoarseGridClaims.
Context {RO : RealOps}.

Lemma getType_no_level g l j : ~ (0 <= l < zlength (mType g)) -> getType g l j = vtInactive.
Proof.
  intros H. unfold getType. rewrite (zget_out [] (mType g) l H).
  apply zget_out. unfold zlength. simpl. lia.
Qed.

(** X2. On a well-formed hierarchy [genCoarseGrid(l)] returns for every
    coarse level [l]; when it returns every vertex of level [l] is
    classified active or inactive, the classification of the other levels
    is the one before the call, and so no vertex of any level is free,
    selected ([vtZero]) or removed when none of the other levels was. *)
Theorem genCoarseGrid_collapses_transient g l :
  wf g -> 1 <= l < numLevels g ->
  exists g',
    genCoarseGrid l g = Ok g' /\
    (forall v, getType g' l v = vtActive \/ getType g' l v = vtInactive) /\
    (forall l' v, l' <> l -> getType g' l' v = getType g l' v) /\
    ((forall l' v, l' <> l -> ~ transient (getType g l' v)) ->
     forall l' v, ~ transient (getType g' l' v)).
Proof.
  intros W Hl.
  destruct (genCoarseGrid_spec g l W Hl) as (g' & E & Hs & Hset & _).
  exists g'. split; [exact E|]. split; [exact Hset|].
  destruct Hs as (_ & _ & _ & S4). split; [exact S4|].
  intros Hpre l' v. destruct (Z.eq_dec l' l) as [->|Hne].
  - destruct (Hset v) as [-> | ->]; intros [H | [H | H]]; discriminate H.
  - rewrite S4 by exact Hne. apply Hpre. exact Hne.
Qed.

End CoarseGridClaims.

(* ================================================================== *)
(** * The shape of the arrays is kept by every operation               *)
(* ================================================================== *)

Section Shapes.
Context {RO : RealOps}.

(** Two vectors of arrays with the same numbers of elements. *)
Definition sameLen {A : Type} (xs ys : list (list A)) : Prop :=
  zlength ys = zlength xs /\
  forall l, zlength (zget [] ys l) = zlength (zget [] xs l).

Lemma sameLen_refl {A : Type} (xs : list (list A)) : sameLen xs xs.
Proof. split; reflexivity. Qed.

Lemma sameLen_trans {A : Type} (xs ys zs : list (list A)) :
  sameLen xs ys -> sameLen ys zs -> sameLen xs zs.
Proof.
  intros (A1 & A2) (B1 & B2). split; [congruence|].
  intros l. rewrite B2. apply A2.
Qed.

Lemma sameLen_zset {A : Type} (xs : list (list A)) (l : Z) (ys : list A) :
  zlength ys = zlength (zget [] xs l) -> sameLen xs (zset xs l ys).
Proof.
  intros H. split; [apply zlength_zset|]. intros l'. rewrite zget_zset.
  destruct ((l' =? l) && (0 <=? l) && (l <? zlength xs))%bool eqn:E; [|reflexivity].
  apply andb_prop in E. destruct E as (E & _). apply andb_prop in E. destruct E as (E & _).
  apply Z.eqb_eq in E. subst. exact H.
Qed.

Lemma sameLen_put {A : Type} (xs : list (list A)) (l i : Z) (x : A) :
  sameLen xs (zset xs l (zset (zget [] xs l) i x)).
Proof. apply sameLen_zset. apply zlength_zset. Qed.

(** [shaped g g']: the state [g'] has the geometry of [g] and arrays of
    the same lengths. *)
Record shaped (g g' : GridMg) : Prop := {
  sh_3D : mIs3D g' = mIs3D g;
  sh_size : mSize g' = mSize g;
  sh_pitch : mPitch g' = mPitch g;
  sh_A : sameLen (mA g) (mA g');
  sh_x : sameLen (mx g) (mx g');
  sh_b : sameLen (mb g) (mb g');
  sh_r : sameLen (mr g) (mr g');
  sh_T : sameLen (mType g) (mType g')
}.

Lemma shaped_refl g : shaped g g.
Proof. constructor; try reflexivity; apply sameLen_refl. Qed.

Lemma shaped_trans g g' g'' : shaped g g' -> shaped g' g'' -> shaped g g''.
Proof.
  intros A B. constructor.
  - rewrite (sh_3D _ _ B). apply A.
  - rewrite (sh_size _ _ B). apply A.
  - rewrite (sh_pitch _ _ B). apply A.
  - eapply sameLen_trans; [apply A | apply B].
  - eapply sameLen_trans; [apply A | apply B].
  - eapply sameLen_trans; [apply A | apply B].
  - eapply sameLen_trans; [apply A | apply B].
  - eapply sameLen_trans; [apply A | apply B].
Qed.

Lemma shaped_fold {A : Type} (f : GridMg -> A -> GridMg) (xs : list A) g :
  (forall g a, shaped g (f g a)) -> shaped g (fold_left f xs g).
Proof.
  intros Hf. apply fold_left_inv with (P := shaped g).
  - apply shaped_refl.
  - intros s a _ Hs. eapply shaped_trans; [exact Hs | apply Hf].
Qed.

Lemma evolves_shaped keep g g' : evolves keep g g' -> shaped g g'.
Proof.
  intros E. constructor; try apply E.
  - split; [apply (ev_A _ _ _ E) | apply (ev_Al _ _ _ E)].
  - rewrite (ev_x _ _ _ E). apply sameLen_refl.
  - rewrite (ev_b _ _ _ E). apply sameLen_refl.
  - rewrite (ev_r _ _ _ E). apply sameLen_refl.
  - split; [apply (ev_T _ _ _ E) | apply (ev_Tl _ _ _ E)].
Qed.

Lemma shaped_mx g xs : sameLen (mx g) xs -> shaped g (with_mx g xs).
Proof. intros H. constructor; try reflexivity; try apply sameLen_refl. exact H. Qed.

Lemma shaped_mb g xs : sameLen (mb g) xs -> shaped g (with_mb g xs).
Proof. intros H. constructor; try reflexivity; try apply sameLen_refl. exact H. Qed.

Lemma shaped_mr g xs : sameLen (mr g) xs -> shaped g (with_mr g xs).
Proof. intros H. constructor; try reflexivity; try apply sameLen_refl. exact H. Qed.

Lemma shaped_put_mx g l i x : shaped g (put_mx g l i x).
Proof. apply shaped_mx, sameLen_put. Qed.

Lemma shaped_put_mb g l i x : shaped g (put_mb g l i x).
Proof. apply shaped_mb, sameLen_put. Qed.

Lemma shaped_put_mr g l i x : shaped g (put_mr g l i x).
Proof. apply shaped_mr, sameLen_put. Qed.

Lemma shaped_wfLevel g g' k : shaped g g' -> wfLevel g k -> wfLevel g' k.
Proof.
  intros E W.
  assert (ES : sizeAt g' k = sizeAt g k) by (unfold sizeAt; now rewrite (sh_size _ _ E)).
  assert (EP : pitchAt g' k = pitchAt g k) by (unfold pitchAt; now rewrite (sh_pitch _ _ E)).
  constructor; rewrite ?ES, ?EP; try apply W.
  - rewrite (proj2 (sh_b _ _ E)). apply W.
  - rewrite (proj2 (sh_x _ _ E)). apply W.
  - rewrite (proj2 (sh_r _ _ E)). apply W.
  - rewrite (proj2 (sh_T _ _ E)). apply W.
Qed.

Lemma shaped_wf g g' : shaped g g' -> wf g -> wf g'.
Proof.
  intros E W.
  assert (EL : numLevels g' = numLevels g) by apply (proj1 (sh_A _ _ E)).
  assert (ES : forall k, sizeAt g' k = sizeAt g k)
    by (intros k; unfold sizeAt; now rewrite (sh_size _ _ E)).
  constructor; rewrite ?EL.
  - apply W.
  - rewrite (sh_size _ _ E). apply W.
  - rewrite (sh_pitch _ _ E). apply W.
  - rewrite (proj1 (sh_x _ _ E)). apply W.
  - rewrite (proj1 (sh_b _ _ E)). apply W.
  - rewrite (proj1 (sh_r _ _ E)). apply W.
  - rewrite (proj1 (sh_T _ _ E)). apply W.
  - intros k Hk. eapply shaped_wfLevel; [exact E|]. now apply W.
  - intros k Hk. rewrite !ES. now apply W.
  - rewrite (sh_3D _ _ E), ES. apply W.
Qed.

Lemma smoothGS_shaped l rev g : shaped g (smoothGS l rev g).
Proof.
  unfold smoothGS.
  apply shaped_fold. intros g1 c.
  apply shaped_fold. intros g2 b.
  apply shaped_fold. intros g3 off.
  unfold smooth_vertex.
  destruct (negb (inGrid g3 _ l)); [apply shaped_refl|].
  destruct (isInactive g3 l _); [apply shaped_refl|].
  destruct (l =? 0); apply shaped_put_mx.
Qed.

Lemma calcResidual_shaped l g : shaped g (calcResidual l g).
Proof.
  unfold calcResidual. apply shaped_fold. intros g1 v. unfold residual_vertex.
  destruct (isInactive g1 l v); [apply shaped_refl | apply shaped_put_mr].
Qed.

(** [restrict] and [interpolate] keep the length of their destination. *)
Lemma restrict_length g l src dst : zlength (restrict g l src dst) = zlength dst.
Proof.
  unfold restrict. apply fold_left_inv with (P := fun d => zlength d = zlength dst).
  - reflexivity.
  - intros d v _ Hd. destruct (isInactive g l v); [exact Hd|].
    rewrite zlength_zset. exact Hd.
Qed.

Lemma interpolate_length g l src dst : zlength (interpolate g l src dst) = zlength dst.
Proof.
  unfold interpolate. apply fold_left_inv with (P := fun d => zlength d = zlength dst).
  - reflexivity.
  - intros d v _ Hd. destruct (isInactive g l v); [exact Hd|].
    rewrite zlength_zset. exact Hd.
Qed.

(** The vectors [x] and [r] of the conjugate gradient iteration keep their
    lengths. *)
Definition cgLen (st st' : CGState) : Prop :=
  zlength (cg_x st') = zlength (cg_x st) /\ zlength (cg_r st') = zlength (cg_r st).

Lemma cg_init_length l g :
  zlength (cg_x (fst (cg_init l g))) = zlength (zget [] (mx g) l) /\
  zlength (cg_r (fst (cg_init l g))) = zlength (zget [] (mr g) l).
Proof.
  unfold cg_init.
  apply fold_left_inv with
    (P := fun p : CGState * Real =>
            zlength (cg_x (fst p)) = zlength (zget [] (mx g) l) /\
            zlength (cg_r (fst p)) = zlength (zget [] (mr g) l)).
  - split; reflexivity.
  - intros [st ir] v _ (H1 & H2). cbn [fst] in *.
    destruct (isInactive g l v); cbn [fst cg_x cg_r]; [split; assumption|].
    split; [exact H1|]. rewrite zlength_zset. exact H2.
Qed.

Lemma cg_update_length l g alpha st : cgLen st (fst (cg_update l g alpha st)).
Proof.
  unfold cg_update.
  apply fold_left_inv with (P := fun p : CGState * Real => cgLen st (fst p)).
  - split; reflexivity.
  - intros [st1 a] v _ (H1 & H2). cbn [fst] in *.
    destruct (isInactive g l v); cbn [fst]; [split; assumption|].
    split; cbn [cg_x cg_r]; rewrite zlength_zset; assumption.
Qed.

Lemma cg_iter_length l g ir st : cgLen st (fst (cg_iter l g ir st)).
Proof.
  unfold cg_iter. destruct (cg_applyA l g st) as [z ab].
  match goal with
  | |- context [cg_update l g ?a ?s] =>
      pose proof (cg_update_length l g a s) as H; destruct (cg_update l g a s) as [st1 atn]
  end.
  cbn [fst cg_x cg_r] in H. destruct H as (H1 & H2).
  destruct (Rltb _ _); cbn [fst cg_x cg_r]; split; assumption.
Qed.

Lemma cg_loop_length l g ir : forall fuel iter st,
  cgLen st (snd (cg_loop fuel l g ir iter st)).
Proof.
  induction fuel as [|fuel IH]; intros iter st; cbn [cg_loop].
  - split; reflexivity.
  - pose proof (cg_iter_length l g ir st) as H.
    destruct (cg_iter l g ir st) as [st1 stop]. cbn [fst] in H.
    destruct stop; cbn [snd].
    + exact H.
    + destruct H as (H1 & H2). destruct (IH (iter + 1) st1) as (I1 & I2).
      split; congruence.
Qed.

Lemma solveCG_shaped l g : shaped g (solveCG l g).
Proof.
  unfold solveCG.
  pose proof (cg_init_length l g) as (Hx & Hr).
  destruct (cg_init l g) as [st0 ir]. cbn [fst] in Hx, Hr.
  match goal with
  | |- context [cg_loop ?f l g ?i 0 st0] =>
      pose proof (cg_loop_length l g i f 0 st0) as (Lx & Lr);
      destruct (cg_loop f l g i 0 st0) as [iter st]
  end.
  cbn [snd] in Lx, Lr.
  assert (H : shaped g (with_mCGtmp2 (with_mCGtmp1
                (with_mr (with_mx g (zset (mx g) l (cg_x st))) (zset (mr g) l (cg_r st)))
                (zset (mCGtmp1 g) l (cg_z st))) (zset (mCGtmp2 g) l (cg_p st)))).
  { constructor; try reflexivity; try apply sameLen_refl; cbn.
    - apply sameLen_zset. congruence.
    - apply sameLen_zset. congruence. }
  destruct (iter =? maxIter); (eapply shaped_trans; [exact H|]);
    constructor; try reflexivity; apply sameLen_refl.
Qed.

Lemma repeatZ_shaped n (body : GridMg -> GridMg) g :
  (forall g, shaped g (body g)) -> shaped g (repeatZ n body g).
Proof. intros H. unfold repeatZ. apply shaped_fold. intros g1 _. apply H. Qed.

Lemma doVCycle_shaped dst src g g' d r :
  doVCycle dst src g = Ok (g', d, r) -> shaped g g'.
Proof.
  unfold doVCycle. destruct (negb (mIsASet g && mIsRhsSet g)); [discriminate|].
  intros H. injection H as <- _ _.
  eapply shaped_trans; [|apply calcResidual_shaped].
  eapply shaped_trans; [|apply shaped_fold].
  2:{ intros g1 l.
      eapply shaped_trans; [|apply repeatZ_shaped; intros; apply smoothGS_shaped].
      eapply shaped_trans; [|apply shaped_fold; intros; apply shaped_put_mx].
      apply shaped_mr. apply sameLen_zset. apply interpolate_length. }
  eapply shaped_trans; [|apply solveCG_shaped].
  eapply shaped_trans; [|apply shaped_fold].
  2:{ intros g1 l.
      eapply shaped_trans; [|apply shaped_fold; intros; apply shaped_put_mx].
      eapply shaped_trans; [|apply shaped_mb; apply sameLen_zset; apply restrict_length].
      eapply shaped_trans; [|apply calcResidual_shaped].
      apply repeatZ_shaped. intros. apply smoothGS_shaped. }
  apply shaped_fold. intros. apply shaped_put_mx.
Qed.

Lemma shaped_mIsRhsSet g b : shaped g (with_mIsRhsSet g b).
Proof. constructor; try reflexivity; apply sameLen_refl. Qed.

Lemma setRhs_shaped rhs g g' : setRhs rhs g = Ok g' -> shaped g g'.
Proof.
  unfold setRhs. destruct (negb (mIsASet g)); [discriminate|].
  intros H. injection H as <-.
  eapply shaped_trans; [|apply shaped_mIsRhsSet].
  apply shaped_fold. intros g1 v. cbv zeta.
  destruct (vt_eqb _ _).
  - eapply shaped_trans; apply shaped_put_mb.
  - apply shaped_put_mb.
Qed.

(** Every public operation that returns keeps a well-formed object well
    formed, and [setA] returns on every well-formed object. *)
Lemma call_wf c g g' : wf g -> call c g = Ok g' -> wf g'.
Proof.
  intros W. destruct c as [A0 pAi pAj pAk | rhs | dst src]; cbn [call].
  - destruct (setA_spec A0 pAi pAj pAk g W) as (g1 & E & Ev & _).
    rewrite E. intros H. injection H as <-. eapply evolves_wf; eassumption.
  - intros H. eapply shaped_wf; [eapply setRhs_shaped; exact H | exact W].
  - destruct (doVCycle dst src g) as [[[g1 d] r]| |] eqn:E; cbn [bind]; try discriminate.
    intros H. injection H as <-. eapply shaped_wf; [eapply doVCycle_shaped; exact E | exact W].
Qed.

Lemma call_shaped c g g' : wf g -> call c g = Ok g' -> shaped g g'.
Proof.
  intros W. destruct c as [A0 pAi pAj pAk | rhs | dst src]; cbn [call].
  - destruct (setA_spec A0 pAi pAj pAk g W) as (g1 & E & Ev & _).
    rewrite E. intros H. injection H as <-. eapply evolves_shaped; eassumption.
  - apply setRhs_shaped.
  - destruct (doVCycle dst src g) as [[[g1 d] r]| |] eqn:E; cbn [bind]; try discriminate.
    intros H. injection H as <-. eapply doVCycle_shaped; exact E.
Qed.

Lemma runCalls_shaped : forall cs g g', wf g -> runCalls cs g = Ok g' -> shaped g g'.
Proof.
  induction cs as [|c cs IH]; intros g g' W H.
  - injection H as <-. apply shaped_refl.
  - unfold runCalls in H. cbn [foldM] in H.
    destruct (call c g) as [g1| |] eqn:E; cbn [bind] in H; try discriminate.
    eapply shaped_trans; [eapply call_shaped; eassumption|].
    apply (IH g1 g'); [eapply call_wf; eassumption | exact H].
Qed.

Lemma runCalls_wf : forall cs g g', wf g -> runCalls cs g = Ok g' -> wf g'.
Proof.
  induction cs as [|c cs IH]; intros g g' W H.
  - injection H as <-. exact W.
  - unfold runCalls in H. cbn [foldM] in H.
    destruct (call c g) as [g1| |] eqn:E; cbn [bind] in H; try discriminate.
    apply (IH g1 g'); [eapply call_wf; eassumption | exact H].
Qed.

End Shapes.

(* ================================================================== *)
(** * Objects reached from the constructor                             *)
(* ================================================================== *)

Section ReachableObjects.
Context {RO : RealOps}.

Lemma newGridMg_mA_length gridSize l :
  positive gridSize -> 0 <= l < zlength (levelSizes gridSize) ->
  zlength (zget [] (mA (newGridMg gridSize)) l) =
  countOf (zget vec0 (levelSizes gridSize) l) *
  (if l =? 0 then (if 1 <? vz gridSize then 4 else 3)
   else (if 1 <? vz gridSize then 14 else 5)).
Proof.
  intros Hp Hl. unfold newGridMg, buildGridMg, levelSizes in *. cbn [mA].
  set (C := coarseSizes 100 gridSize (countOf gridSize)) in *.
  pose proof (chain_positive (gridSize :: C) Hp (coarseSizes_chain 100 gridSize _) l Hl) as Hpos.
  pose proof (countOf_pos _ Hpos) as Hn.
  rewrite zlength_cons in Hl.
  rewrite (zget_cons _ (zeros _)) by lia. rewrite (zget_cons _ gridSize) in Hn |- * by lia.
  destruct (Z.eqb_spec l 0) as [->|Hne].
  - apply zlength_zeros. destruct (1 <? vz gridSize); lia.
  - rewrite (zget_map _ vec0) by lia. apply zlength_zeros.
    destruct (1 <? vz gridSize); lia.
Qed.

(** The arguments of a call are grids of the extent of level 0: each
    holds one value per vertex of the finest level. *)
Definition validCall (n : Z) (c : Call) : Prop :=
  match c with
  | CallSetA A0 pAi pAj pAk =>
      zlength A0 = n /\ zlength pAi = n /\ zlength pAj = n /\ zlength pAk = n
  | CallSetRhs rhs => zlength rhs = n
  | CallVCycle dst src =>
      zlength dst = n /\ match src with Some src => zlength src = n | None => True end
  end.

(** X3. In 3D, for extents in the range of [int] and calls whose
    arguments are grids of the extent of level 0: whatever sequence of
    [setA], [setRhs] and [doVCycle] calls returns on an object built by the
    constructor, the extents of the levels are the ones the constructor
    chose and every array of every level still has the length that belongs
    to its extent, four coefficients per vertex on level 0 and fourteen on
    the coarse levels, and that length is in the range of [int]. *)
Theorem calls_keep_arrays_consistent gridSize cs g :
  intRange gridSize -> 1 < vz gridSize ->
  Forall (validCall (countOf gridSize)) cs ->
  runCalls cs (newGridMg gridSize) = Ok g ->
  mSize g = levelSizes gridSize /\
  numLevels g = zlength (levelSizes gridSize) /\
  forall l, 0 <= l < numLevels g ->
    pitchAt g l = pitchOf (sizeAt g l) /\
    zlength (zget [] (mA g) l) = countOf (sizeAt g l) * (if l =? 0 then 4 else 14) /\
    zlength (zget [] (mA g) l) <= intMax /\
    zlength (zget [] (mx g) l) = countOf (sizeAt g l) /\
    zlength (zget [] (mb g) l) = countOf (sizeAt g l) /\
    zlength (zget [] (mr g) l) = countOf (sizeAt g l) /\
    zlength (zget [] (mType g) l) = countOf (sizeAt g l).
Proof.
  intros Hr H3 _ Hrun. pose proof (proj1 Hr) as Hp.
  pose proof (wf_newGridMg gridSize Hp) as W0.
  pose proof (runCalls_wf cs _ g W0 Hrun) as W.
  pose proof (runCalls_shaped cs _ g W0 Hrun) as Sh.
  split; [rewrite (sh_size _ _ Sh); reflexivity|].
  assert (EL : numLevels g = zlength (levelSizes gridSize)).
  { rewrite <- (wf_len_size _ W), (sh_size _ _ Sh). reflexivity. }
  split; [exact EL|].
  intros l Hl. pose proof (wf_level _ W l Hl) as WL.
  assert (EA : zlength (zget [] (mA g) l) =
               countOf (sizeAt g l) * (if l =? 0 then 4 else 14)).
  { rewrite (proj2 (sh_A _ _ Sh)), newGridMg_mA_length by (rewrite <- ?EL; assumption).
    unfold sizeAt. rewrite (sh_size _ _ Sh).
    destruct (Z.ltb_spec 1 (vz gridSize)); [reflexivity | lia]. }
  split; [apply WL|]. split; [exact EA|]. split; [|split; [|split; [|split]]]; try apply WL.
  rewrite EA. rewrite EL in Hl.
  destruct (intRange_bounds gridSize l Hr Hl) as (_ & _ & _ & _ & Hb).
  unfold sizeAt. rewrite (sh_size _ _ Sh). unfold stencilCount in Hb.
  destruct (Z.ltb_spec 1 (vz gridSize)); [exact Hb | lia].
Qed.

(** X1. In 3D, for extents in the range of [int], on an object reached
    from the constructor by calls whose arguments are grids of the extent of
    level 0, [setA] returns when it is given four such grids, and in the
    state it returns every vertex of a level [l - 1] that is active or
    active-trivial has, among the coarse vertices of the box from [V/2] to
    [(V+1)/2], a vertex of level [l] that is classified active. *)
Theorem setA_full_rank gridSize cs g A0 pAi pAj pAk :
  intRange gridSize -> 1 < vz gridSize ->
  Forall (validCall (countOf gridSize)) cs ->
  validCall (countOf gridSize) (CallSetA A0 pAi pAj pAk) ->
  runCalls cs (newGridMg gridSize) = Ok g ->
  exists g',
    setA A0 pAi pAj pAk g = Ok g' /\
    forall l r,
      1 <= l < numLevels g' -> 0 <= r < countOf (sizeAt g' (l - 1)) ->
      getType g' (l - 1) r = vtActive \/ getType g' (l - 1) r = vtActiveTrivial ->
      exists I, In I (candidates (vecIdx g' r (l - 1))) /\
                inGrid g' I l = true /\
                getType g' l (linIdx g' I l) = vtActive.
Proof.
  intros (Hp & _) _ _ _ Hrun.
  pose proof (runCalls_wf cs _ g (wf_newGridMg gridSize Hp) Hrun) as W.
  destruct (setA_spec A0 pAi pAj pAk g W) as (g' & E & Ev & H).
  pose proof (evolves_wf _ _ _ Ev W) as W'.
  exists g'. split; [exact E|]. intros l r Hl Hr Ht.
  rewrite (evolves_numLevels _ _ _ Ev) in Hl.
  destruct (H l Hl) as (F & _).
  destruct (F r Hr) as (I & HI & HA).
  { destruct Ht as [-> | ->]; discriminate. }
  exists I. split; [exact HI|]. split; [|exact HA].
  rewrite <- (evolves_numLevels _ _ _ Ev) in Hl.
  apply (cand_inGrid g' l W' Hl (vecIdx g' r (l - 1))); [|exact HI].
  apply (fineV_inGrid g' l W' Hl). exact Hr.
Qed.

(** X4. In 3D, for extents in the range of [int], on every object
    reached from the constructor by calls whose arguments are grids of the
    extent of level 0, [setA] returns when it is given four such grids: no
    assertion of the heap fires inside [genCoarseGrid] and its loop ends.
    The call leaves the solution, the right-hand side and the residual
    arrays and the extents as they are, and every vertex of every coarse
    level active or inactive. *)
Theorem setA_on_reachable gridSize cs g A0 pAi pAj pAk :
  intRange gridSize -> 1 < vz gridSize ->
  Forall (validCall (countOf gridSize)) cs ->
  validCall (countOf gridSize) (CallSetA A0 pAi pAj pAk) ->
  runCalls cs (newGridMg gridSize) = Ok g ->
  exists g',
    setA A0 pAi pAj pAk g = Ok g' /\
    mx g' = mx g /\ mb g' = mb g /\ mr g' = mr g /\ mSize g' = mSize g /\
    forall l j, 1 <= l -> getType g' l j = vtActive \/ getType g' l j = vtInactive.
Proof.
  intros (Hp & _) _ _ _ Hrun.
  pose proof (runCalls_wf cs _ g (wf_newGridMg gridSize Hp) Hrun) as W.
  destruct (setA_spec A0 pAi pAj pAk g W) as (g' & E & Ev & H).
  exists g'. split; [exact E|].
  split; [apply Ev|]. split; [apply Ev|]. split; [apply Ev|]. split; [apply Ev|].
  intros l j Hl. destruct (Z.lt_ge_cases l (numLevels g)) as [Hlt|Hge].
  - apply (H l); lia.
  - right. apply getType_no_level.
    rewrite (ev_T _ _ _ Ev), (wf_len_type _ W). lia.
Qed.

Lemma fold_zset_get {A : Type} (d : A) (f : Z -> A) : forall vs dst v,
  zget d (fold_left (fun dst v => zset dst v (f v)) vs dst) v =
  if in_dec Z.eq_dec v vs
  then (if (0 <=? v) && (v <? zlength dst) then f v else zget d dst v)
  else zget d dst v.
Proof.
  induction vs as [|a vs IH]; intros dst v; [reflexivity|].
  cbn [fold_left]. rewrite IH, zlength_zset, zget_zset.
  destruct (in_dec Z.eq_dec v vs) as [Hin|Hnin];
    destruct (in_dec Z.eq_dec v (a :: vs)) as [Hin'|Hnin'];
    try (exfalso; apply Hnin'; right; exact Hin).
  - destruct ((0 <=? v) && (v <? zlength dst))%bool eqn:Er; [reflexivity|].
    destruct (Z.eqb_spec v a) as [->|Hne]; [|reflexivity].
    cbn [andb]. rewrite Er. reflexivity.
  - destruct Hin' as [->|Hin']; [|contradiction].
    rewrite Z.eqb_refl. cbn [andb]. reflexivity.
  - destruct (Z.eqb_spec v a) as [->|Hne]; [|reflexivity].
    exfalso. apply Hnin'. left. reflexivity.
Qed.

Lemma fold_zset_length {A : Type} (f : Z -> A) : forall vs dst,
  zlength (fold_left (fun dst v => zset dst v (f v)) vs dst) = zlength dst.
Proof.
  induction vs as [|a vs IH]; intros dst; [reflexivity|].
  cbn [fold_left]. rewrite IH. apply zlength_zset.
Qed.

(** X5. When [setA] and [setRhs] have been called [doVCycle] returns. It
    changes neither the operators, the classification of the vertices, the
    extents nor the two flags, so that further cycles can follow; the grid
    it returns holds the solution of level 0 at the vertices of the level
    and the entries of [dst] elsewhere, and the number it returns is the
    norm of the residual of the state it leaves. *)
Theorem doVCycle_keeps_setup dst src g :
  mIsASet g && mIsRhsSet g = true ->
  exists g' d r,
    doVCycle dst src g = Ok (g', d, r) /\
    mA g' = mA g /\ mType g' = mType g /\ mSize g' = mSize g /\ mPitch g' = mPitch g /\
    mIsASet g' && mIsRhsSet g' = true /\
    r = calcResidualNorm 0 g' /\
    zlength d = zlength dst /\
    forall v, 0 <= v < zlength dst ->
      zget R0 d v = if v <? zlength (zget [] (mb g) 0) then getx g' 0 v else zget R0 dst v.
Proof.
  intros Hf.
  destruct (proj2 (doVCycle_outcome dst src g) Hf) as (g' & d & r & E).
  exists g', d, r. split; [exact E|].
  pose proof (doVCycle_only _ _ _ _ _ _ E) as Ho.
  pose proof (doVCycle_shaped _ _ _ _ _ _ E) as Sh.
  assert (Hfr : mA g' = mA g /\ mType g' = mType g /\ mSize g' = mSize g /\
                mPitch g' = mPitch g /\ mIsASet g' = mIsASet g /\ mIsRhsSet g' = mIsRhsSet g).
  { rewrite Ho. destruct (workOf g') as [[[[[x b] r'] t1] t2] lg]. repeat split. }
  destruct Hfr as (F1 & F2 & F3 & F4 & F5 & F6).
  split; [exact F1|]. split; [exact F2|]. split; [exact F3|]. split; [exact F4|].
  split; [rewrite F5, F6; exact Hf|].
  unfold doVCycle in E. rewrite Hf in E. cbn [negb] in E. cbv zeta in E.
  injection E as Eg Ed Er.
  split; [rewrite <- Er, <- Eg; reflexivity|].
  rewrite Eg in Ed.
  split; [rewrite <- Ed; apply fold_zset_length|].
  intros v Hv. rewrite <- Ed, (fold_zset_get R0 (fun v => getx g' 0 v)).
  assert (EL : zlength (zget [] (mb g') 0) = zlength (zget [] (mb g) 0))
    by apply (proj2 (sh_b _ _ Sh)).
  destruct (in_dec Z.eq_dec v (FOR_LVL g' 0)) as [Hin|Hnin].
  - apply in_FOR_LVL in Hin. rewrite EL in Hin.
    destruct (Z.ltb_spec v (zlength (zget [] (mb g) 0))); [|lia].
    destruct (Z.leb_spec 0 v); [|lia]. destruct (Z.ltb_spec v (zlength dst)); [|lia].
    reflexivity.
  - destruct (Z.ltb_spec v (zlength (zget [] (mb g) 0))) as [Hlt|Hge]; [|reflexivity].
    exfalso. apply Hnin. apply in_FOR_LVL. rewrite EL. lia.
Qed.

End ReachableObjects.

Lemma gridW_run : runCalls callsW (newGridMg (mkVec 2 2 1)) = Ok gridW.
Proof. vm_cast_no_check (eq_refl (Ok gridW)). Qed.

(** A 3D hierarchy of two levels, of 11 x 10 x 10 and of 6 x 6 x 6
    vertices, with the seven point stencil of the Laplace operator: the
    diagonal coefficients are 6 and the other ones -1. *)
Definition size3 : Vec3i := mkVec 11 10 10.
Definition q6 : Qcanon.Qc := Qcanon.Q2Qc 6.
Definition qm1 : Qcanon.Qc := Qcanon.Q2Qc (-1).
Definition diag3 : list (@Real QcReal) := repeat q6 1100.
Definition off3 : list (@Real QcReal) := repeat qm1 1100.
Definition rhs3 : list (@Real QcReal) := repeat q1 1100.
Definition zero3 : list (@Real QcReal) := repeat q0 1100.

(** [setA], [setRhs] and one cycle. *)
Definition calls3 : list (@Call QcReal) :=
  [@CallSetA QcReal diag3 off3 off3 off3;
   @CallSetRhs QcReal rhs3;
   @CallVCycle QcReal zero3 None].

Lemma size3_intRange : intRange size3.
Proof.
  apply intRange_small; [unfold positive; cbn; lia|].
  unfold intMax. cbn. lia.
Qed.

Lemma setA3_valid : @validCall QcReal (countOf size3) (CallSetA diag3 off3 off3 off3).
Proof. repeat split. Qed.

Lemma calls3_valid : Forall (@validCall QcReal (countOf size3)) calls3.
Proof. repeat constructor. Qed.

(** The state after [setA] on that grid has two levels, and its first
    vertex is active. *)
Lemma setA3_state :
  exists g : @GridMg QcReal,
    setA diag3 off3 off3 off3 (newGridMg size3) = Ok g /\
    wf g /\ numLevels g = 2 /\ getType g 0 0 = vtActive /\ getA g 0 0 = q6.
Proof.
  assert (W0 : @wf QcReal (newGridMg size3))
    by (apply wf_newGridMg; unfold positive; cbn; lia).
  destruct (setA_spec diag3 off3 off3 off3 (newGridMg size3) W0) as (g & E & Ev & _).
  exists g. split; [exact E|]. split; [exact (evolves_wf _ _ _ Ev W0)|].
  split; [rewrite (evolves_numLevels _ _ _ Ev); reflexivity|].
  destruct (setA_level0 _ _ _ _ _ _ W0 E) as (HT & HA).
  split; [rewrite HT | rewrite HA]; vm_compute; reflexivity.
Qed.

(** The three calls return, and leave an object of two levels. *)
Lemma calls3_state :
  exists g : @GridMg QcReal,
    runCalls calls3 (newGridMg size3) = Ok g /\ wf g /\ numLevels g = 2.
Proof.
  assert (W0 : @wf QcReal (newGridMg size3))
    by (apply wf_newGridMg; unfold positive; cbn; lia).
  destruct (setA_spec diag3 off3 off3 off3 (newGridMg size3) W0) as (g1 & E1 & _).
  destruct (setA_flags _ _ _ _ _ _ E1) as (Fa & _).
  assert (E2 : exists g2, setRhs rhs3 g1 = Ok g2).
  { unfold setRhs. rewrite Fa. cbn [negb]. eexists. reflexivity. }
  destruct E2 as (g2 & E2).
  destruct (setRhs_flags _ _ _ E2) as (_ & Fa2 & Fr2).
  destruct (proj2 (doVCycle_outcome zero3 None g2)) as (g3 & d & r & E3);
    [rewrite Fa2, Fr2; reflexivity|].
  assert (E : runCalls calls3 (newGridMg size3) = Ok g3).
  { unfold runCalls, calls3. cbn [foldM call]. rewrite E1. cbn [bind].
    rewrite E2. cbn [bind]. rewrite E3. reflexivity. }
  exists g3. split; [exact E|]. split; [exact (runCalls_wf _ _ _ W0 E)|].
  pose proof (runCalls_shaped _ _ _ W0 E) as Sh.
  unfold numLevels. rewrite (proj1 (sh_A _ _ Sh)). reflexivity.
Qed.

Lemma calls_keep_arrays_consistent_witness :
  exists g : @GridMg QcReal,
    runCalls calls3 (newGridMg size3) = Ok g /\
    mSize g = levelSizes size3 /\
    numLevels g = zlength (levelSizes size3) /\
    forall l, 0 <= l < numLevels g ->
      pitchAt g l = pitchOf (sizeAt g l) /\
      zlength (zget [] (mA g) l) = countOf (sizeAt g l) * (if l =? 0 then 4 else 14) /\
      zlength (zget [] (mA g) l) <= intMax /\
      zlength (zget [] (mx g) l) = countOf (sizeAt g l) /\
      zlength (zget [] (mb g) l) = countOf (sizeAt g l) /\
      zlength (zget [] (mr g) l) = countOf (sizeAt g l) /\
      zlength (zget [] (mType g) l) = countOf (sizeAt g l).
Proof.
  destruct calls3_state as (g & E & _). exists g. split; [exact E|].
  apply (@calls_keep_arrays_consistent QcReal size3 calls3 g).
  - exact size3_intRange.
  - cbn. lia.
  - exact calls3_valid.
  - exact E.
Defined.

Lemma setA_full_rank_witness :
  exists g' : @GridMg QcReal,
    setA diag3 off3 off3 off3 (newGridMg size3) = Ok g' /\
    numLevels g' = 2 /\ getType g' 0 0 = vtActive /\
    forall l r,
      1 <= l < numLevels g' -> 0 <= r < countOf (sizeAt g' (l - 1)) ->
      getType g' (l - 1) r = vtActive \/ getType g' (l - 1) r = vtActiveTrivial ->
      exists I, In I (candidates (vecIdx g' r (l - 1))) /\
                inGrid g' I l = true /\
                getType g' l (linIdx g' I l) = vtActive.
Proof.
  destruct (@setA_full_rank QcReal size3 [] (newGridMg size3) diag3 off3 off3 off3)
    as (g' & E & H).
  - exact size3_intRange.
  - cbn. lia.
  - constructor.
  - exact setA3_valid.
  - reflexivity.
  - exists g'. split; [exact E|].
    destruct setA3_state as (g & E' & _ & HL & HT & _).
    rewrite E in E'. injection E' as <-.
    split; [exact HL|]. split; [exact HT | exact H].
Defined.

Lemma setA_on_reachable_witness :
  exists g : @GridMg QcReal,
    runCalls calls3 (newGridMg size3) = Ok g /\ numLevels g = 2 /\
    exists g',
      setA diag3 off3 off3 off3 g = Ok g' /\
      mx g' = mx g /\ mb g' = mb g /\ mr g' = mr g /\
      mSize g' = mSize g /\
      forall l j, 1 <= l -> getType g' l j = vtActive \/ getType g' l j = vtInactive.
Proof.
  destruct calls3_state as (g & E & _ & HL). exists g.
  split; [exact E|]. split; [exact HL|].
  apply (@setA_on_reachable QcReal size3 calls3 g diag3 off3 off3 off3).
  - exact size3_intRange.
  - cbn. lia.
  - exact calls3_valid.
  - exact setA3_valid.
  - exact E.
Defined.

Lemma genCoarseGrid_collapses_transient_witness :
  exists g : @GridMg QcReal,
    setA diag3 off3 off3 off3 (newGridMg size3) = Ok g /\
    numLevels g = 2 /\ getType g 0 0 = vtActive /\
    exists g',
      genCoarseGrid 1 g = Ok g' /\
      (forall v, getType g' 1 v = vtActive \/ getType g' 1 v = vtInactive) /\
      (forall l' v, l' <> 1 -> getType g' l' v = getType g l' v) /\
      ((forall l' v, l' <> 1 -> ~ transient (getType g l' v)) ->
       forall l' v, ~ transient (getType g' l' v)).
Proof.
  destruct setA3_state as (g & E & W & HL & HT & _). exists g.
  split; [exact E|]. split; [exact HL|]. split; [exact HT|].
  apply (@genCoarseGrid_collapses_transient QcReal g 1).
  - exact W.
  - rewrite HL. lia.
Defined.

Lemma doVCycle_keeps_setup_witness :
  exists (g' : @GridMg QcReal) (d : list (@Real QcReal)) (r : @Real QcReal),
    @doVCycle QcReal [q0; q0; q0; q0] None gridW = Ok (g', d, r) /\
    mA g' = mA gridW /\ mType g' = mType gridW /\ mSize g' = mSize gridW /\
    mPitch g' = mPitch gridW /\
    mIsASet g' && mIsRhsSet g' = true /\
    r = @calcResidualNorm QcReal 0 g' /\
    zlength d = zlength [q0; q0; q0; q0] /\
    forall v, 0 <= v < zlength [q0; q0; q0; q0] ->
      zget (@R0 QcReal) d v =
      if v <? zlength (zget [] (mb gridW) 0) then @getx QcReal g' 0 v
      else zget (@R0 QcReal) [q0; q0; q0; q0] v.
Proof.
  apply (@doVCycle_keeps_setup QcReal [q0; q0; q0; q0] None gridW).
  reflexivity.
Defined.

(* ================================================================== *)
(** * Loops that write one entry per vertex                            *)
(* ================================================================== *)

Section VertexLoops.
Context {RO : RealOps}.

(** A loop over the indices [vs] whose iteration [v] writes the cell [v]
    with a value [F v] that does not depend on the state, when [ok v] holds,
    and leaves every other cell: the cells it leaves are those of the state
    before the loop but for the written ones. *)
Lemma fold_cells {S T : Type} (rd : S -> Z -> T) (I : S -> Prop) (F : Z -> T)
    (ok : Z -> bool) (step : S -> Z -> S) :
  (forall s v, I s -> I (step s v)) ->
  (forall s v, I s -> rd (step s v) v = if ok v then F v else rd s v) ->
  (forall s v j, I s -> j <> v -> rd (step s v) j = rd s j) ->
  forall vs s, I s ->
    I (fold_left step vs s) /\
    forall j, rd (fold_left step vs s) j =
              if in_dec Z.eq_dec j vs then (if ok j then F j else rd s j) else rd s j.
Proof.
  intros HI Heq Hne. induction vs as [|v vs IH]; intros s Hs.
  - split; [exact Hs | reflexivity].
  - cbn [fold_left]. destruct (IH (step s v) (HI s v Hs)) as (I1 & I2).
    split; [exact I1|]. intros j. rewrite I2.
    destruct (in_dec Z.eq_dec j vs) as [Hin|Hnin];
      destruct (in_dec Z.eq_dec j (v :: vs)) as [Hin'|Hnin'];
      try (exfalso; apply Hnin'; right; exact Hin).
    + destruct (ok j) eqn:Eo; [reflexivity|].
      destruct (Z.eq_dec j v) as [->|Hjv].
      * rewrite Heq by exact Hs. rewrite Eo. reflexivity.
      * apply Hne; assumption.
    + destruct Hin' as [->|Hin']; [|contradiction]. apply Heq. exact Hs.
    + apply Hne; [exact Hs|]. intros ->. apply Hnin'. left. reflexivity.
Qed.

Lemma getb_put_mb g l i x j :
  getb (put_mb g l i x) l j =
  if (j =? i) && (0 <=? i) && (i <? zlength (zget [] (mb g) l)) &&
     (0 <=? l) && (l <? zlength (mb g))
  then x else getb g l j.
Proof.
  unfold getb, put_mb. cbn [mb with_mb]. rewrite (zget_zset []), Z.eqb_refl. cbn [andb].
  destruct ((0 <=? l) && (l <? zlength (mb g)))%bool eqn:El.
  - rewrite zget_zset. apply andb_prop in El. destruct El as (-> & ->).
    rewrite !andb_true_r. reflexivity.
  - destruct (0 <=? l); cbn [andb] in *; [rewrite El|]; rewrite ?andb_false_r; reflexivity.
Qed.

Lemma getr_put_mr g l i x j :
  getr (put_mr g l i x) l j =
  if (j =? i) && (0 <=? i) && (i <? zlength (zget [] (mr g) l)) &&
     (0 <=? l) && (l <? zlength (mr g))
  then x else getr g l j.
Proof.
  unfold getr, put_mr. cbn [mr with_mr]. rewrite (zget_zset []), Z.eqb_refl. cbn [andb].
  destruct ((0 <=? l) && (l <? zlength (mr g)))%bool eqn:El.
  - rewrite zget_zset. apply andb_prop in El. destruct El as (-> & ->).
    rewrite !andb_true_r. reflexivity.
  - destruct (0 <=? l); cbn [andb] in *; [rewrite El|]; rewrite ?andb_false_r; reflexivity.
Qed.

(** What the loop of [setRhs] keeps. *)
Definition rhsFrame (g s : GridMg) : Prop :=
  mA s = mA g /\ mType s = mType g /\ mx s = mx g /\ mr s = mr g /\
  mTrivialEquationScale s = mTrivialEquationScale g /\ mIsASet s = mIsASet g /\
  zlength (mb s) = zlength (mb g) /\
  zlength (zget [] (mb s) 0) = zlength (zget [] (mb g) 0) /\
  forall l v, l <> 0 -> getb s l v = getb g l v.

Lemma rhsFrame_put g s v x : rhsFrame g s -> rhsFrame g (put_mb s 0 v x).
Proof.
  intros (H1 & H2 & H3 & H4 & H5 & H6 & H7 & H8 & H9).
  repeat (split; [assumption|]). split; [|split].
  - unfold put_mb. cbn [mb with_mb]. rewrite zlength_zset. exact H7.
  - unfold put_mb. cbn [mb with_mb]. rewrite zlength_level_put. exact H8.
  - intros l j Hl. rewrite <- (H9 l j Hl). unfold getb, put_mb. cbn [mb with_mb].
    rewrite zget_level_put_other by exact Hl. reflexivity.
Qed.

(** X6. [setRhs] fails with its assertion when [setA] has not been
    called. Otherwise it returns, sets [mIsRhsSet], and stores at every
    vertex [v] of level 0 the value [rhs[v]], multiplied by
    [mTrivialEquationScale] when [v] is classified active-trivial; the
    right-hand sides of the coarse levels, the operators, the
    classification, the solution and the residual are not changed. *)
Theorem setRhs_stores_rhs rhs g :
  (mIsASet g = false -> setRhs rhs g = Err "GridMg::setRhs Error: A has not been set.") /\
  (mIsASet g = true ->
   exists g',
     setRhs rhs g = Ok g' /\ mIsRhsSet g' = true /\ mIsASet g' = true /\
     mA g' = mA g /\ mType g' = mType g /\ mx g' = mx g /\ mr g' = mr g /\
     (forall l v, l <> 0 -> getb g' l v = getb g l v) /\
     (forall v, 0 <= v < zlength (zget [] (mb g) 0) ->
        getb g' 0 v =
        if vt_eqb (getType g 0 v) vtActiveTrivial
        then Rmul (zget R0 rhs v) (mTrivialEquationScale g)
        else zget R0 rhs v)).
Proof.
  unfold setRhs. split; intros Ha; rewrite Ha; cbn [negb]; [reflexivity|].
  eexists. split; [reflexivity|].
  set (F := fun v => if vt_eqb (getType g 0 v) vtActiveTrivial
                     then Rmul (zget R0 rhs v) (mTrivialEquationScale g)
                     else zget R0 rhs v).
  set (ok := fun v => (0 <=? v) && (v <? zlength (zget [] (mb g) 0)) &&
                      (0 <? zlength (mb g))).
  match goal with
  | |- context [fold_left ?f (FOR_LVL g 0) g] => set (step := f)
  end.
  destruct (fold_cells (fun s v => getb s 0 v) (rhsFrame g) F ok step)
    with (vs := FOR_LVL g 0) (s := g) as (HI & Hc).
  - intros s v Hs. unfold step. cbv zeta.
    destruct (vt_eqb _ _); repeat apply rhsFrame_put; exact Hs.
  - intros s v Hs. pose proof Hs as (H1 & H2 & H3 & H4 & H5 & H6 & H7 & H8 & H9).
    unfold step. cbv zeta.
    replace (getType (put_mb s 0 v (zget R0 rhs v)) 0 v) with (getType g 0 v)
      by (unfold getType, put_mb; cbn [mType with_mb]; rewrite H2; reflexivity).
    replace (mTrivialEquationScale (put_mb s 0 v (zget R0 rhs v)))
      with (mTrivialEquationScale g) by (rewrite <- H5; reflexivity).
    pose proof (rhsFrame_put g s v (zget R0 rhs v) Hs) as (_ & _ & _ & _ & _ & _ & P7 & P8 & _).
    unfold F, ok.
    destruct (vt_eqb (getType g 0 v) vtActiveTrivial);
      rewrite !getb_put_mb, ?P7, ?P8, ?H7, ?H8, Z.eqb_refl; cbn [andb];
      destruct (Z.leb_spec 0 v), (Z.ltb_spec v (zlength (zget [] (mb g) 0))),
               (Z.ltb_spec 0 (zlength (mb g))); cbn [andb Z.leb]; reflexivity.
  - intros s v j Hs Hj. unfold step. cbv zeta.
    destruct (vt_eqb _ _); rewrite !getb_put_mb;
      destruct (Z.eqb_spec j v); try contradiction; reflexivity.
  - repeat split; reflexivity.
  - destruct HI as (H1 & H2 & H3 & H4 & H5 & H6 & H7 & H8 & H9).
    cbn [mIsRhsSet mIsASet mA mType mx mr with_mIsRhsSet].
    split; [reflexivity|]. split; [rewrite <- Ha; exact H6|].
    split; [exact H1|]. split; [exact H2|]. split; [exact H3|]. split; [exact H4|].
    split; [exact H9|].
    intros v Hv. change (getb (with_mIsRhsSet (fold_left step (FOR_LVL g 0) g) true) 0 v)
      with (getb (fold_left step (FOR_LVL g 0) g) 0 v).
    rewrite (Hc v).
    destruct (in_dec Z.eq_dec v (FOR_LVL g 0)) as [_|Hn];
      [|exfalso; apply Hn; apply in_FOR_LVL; exact Hv].
    unfold ok, F.
    assert (H0 : 0 < zlength (mb g)).
    { destruct (Z.lt_ge_cases 0 (zlength (mb g))) as [|Hge]; [assumption|].
      rewrite (zget_out [] (mb g) 0) in Hv by lia. unfold zlength in Hv. simpl in Hv. lia. }
    destruct (Z.leb_spec 0 v); [|lia].
    destruct (Z.ltb_spec v (zlength (zget [] (mb g) 0))); [|lia].
    destruct (Z.ltb_spec 0 (zlength (mb g))); [|lia]. reflexivity.
Qed.

(** The value that [calcResidual] stores at the vertex [v]: the sum built
    in the body of its loop. *)
Definition residualAt (l : Z) (g : GridMg) (v : Z) : Real :=
  let V := vecIdx g v l in
  let sum := getb g l v in
  if l =? 0 then
    let sum := stencil0 g fsub (zget [] (mx g) 0) v V sum in
    Rsub sum (Rmul (getA g 0 (v * mStencilSize0 g + 0)) (getx g 0 v))
  else stencilN g l false fsub (zget [] (mx g) l) v V sum.

Lemma residual_vertex_eq l g v :
  residual_vertex l g v =
  if isInactive g l v then g else put_mr g l v (residualAt l g v).
Proof. reflexivity. Qed.

Lemma residualAt_mr l g xs v : residualAt l (with_mr g xs) v = residualAt l g v.
Proof. reflexivity. Qed.

Lemma isInactive_mr l g xs v : isInactive (with_mr g xs) l v = isInactive g l v.
Proof. reflexivity. Qed.

(** What the loop of [calcResidual] keeps. *)
Definition resFrame (l : Z) (g s : GridMg) : Prop :=
  only with_mr mr g s /\
  zlength (mr s) = zlength (mr g) /\
  zlength (zget [] (mr s) l) = zlength (zget [] (mr g) l).

Lemma resFrame_put l g s v x : resFrame l g s -> resFrame l g (put_mr s l v x).
Proof.
  intros (H1 & H2 & H3). split; [|split].
  - eapply only_trans; [exact _ | exact H1 | apply put_mr_only].
  - unfold put_mr. cbn [mr with_mr]. rewrite zlength_zset. exact H2.
  - unfold put_mr. cbn [mr with_mr]. rewrite zlength_level_put. exact H3.
Qed.

(** X7. The iterations of the loop of [calcResidual] do not depend on
    each other: at every vertex [v] of level [l] that is not inactive the
    residual after the call is the sum of the loop body evaluated in the
    state before the call, whatever was written at other vertices, and at
    an inactive vertex it is the old entry. *)
Theorem calcResidual_pointwise l g v :
  0 <= v < zlength (zget [] (mr g) l) ->
  zlength (zget [] (mb g) l) = zlength (zget [] (mr g) l) ->
  getr (calcResidual l g) l v =
  if isInactive g l v then getr g l v else residualAt l g v.
Proof.
  intros Hv Hlen.
  assert (Hl : 0 <= l < zlength (mr g)).
  { destruct (Z.lt_ge_cases l 0) as [|H0];
      [rewrite (zget_out [] (mr g) l) in Hv by lia; unfold zlength in Hv; simpl in Hv; lia|].
    destruct (Z.lt_ge_cases l (zlength (mr g))) as [|H1]; [lia|].
    rewrite (zget_out [] (mr g) l) in Hv by lia. unfold zlength in Hv. simpl in Hv. lia. }
  set (ok := fun v => negb (isInactive g l v) &&
                      ((0 <=? v) && (v <? zlength (zget [] (mr g) l)))).
  destruct (fold_cells (fun s v => getr s l v) (resFrame l g) (residualAt l g) ok
              (residual_vertex l))
    with (vs := FOR_LVL g l) (s := g) as (_ & Hc).
  - intros s w Hs. rewrite residual_vertex_eq.
    destruct (isInactive s l w); [exact Hs | apply resFrame_put; exact Hs].
  - intros s w (H1 & H2 & H3). rewrite residual_vertex_eq. unfold ok.
    unfold only in H1.
    assert (Ei : isInactive s l w = isInactive g l w) by (rewrite H1; apply isInactive_mr).
    assert (Er : residualAt l s w = residualAt l g w) by (rewrite H1; apply residualAt_mr).
    rewrite Ei, Er.
    destruct (isInactive g l w); cbn [negb andb]; [reflexivity|].
    rewrite getr_put_mr, H2, H3, Z.eqb_refl. cbn [andb].
    destruct (Z.leb_spec 0 l); [|lia]. destruct (Z.ltb_spec l (zlength (mr g))); [|lia].
    rewrite !andb_true_r. reflexivity.
  - intros s w j (H1 & H2 & H3) Hj. rewrite residual_vertex_eq.
    destruct (isInactive s l w); [reflexivity|].
    rewrite getr_put_mr. destruct (Z.eqb_spec j w); [contradiction | reflexivity].
  - split; [apply only_refl; exact _|]. split; reflexivity.
  - unfold calcResidual. rewrite (Hc v).
    destruct (in_dec Z.eq_dec v (FOR_LVL g l)) as [_|Hn];
      [|exfalso; apply Hn; apply in_FOR_LVL; lia].
    unfold ok. destruct (isInactive g l v); cbn [negb andb]; [reflexivity|].
    destruct (Z.leb_spec 0 v); [|lia].
    destruct (Z.ltb_spec v (zlength (zget [] (mr g) l))); [|lia]. reflexivity.
Qed.

Lemma fold_left_ext_in {A B : Type} (f f' : A -> B -> A) (xs : list B) :
  (forall a b, In b xs -> f a b = f' a b) ->
  forall a, fold_left f xs a = fold_left f' xs a.
Proof.
  induction xs as [|b xs IH]; intros H a; [reflexivity|]. cbn [fold_left].
  rewrite H by (left; reflexivity). apply IH. intros a' b' Hb. apply H. right. exact Hb.
Qed.

(** X8. [calcResidualNorm] reads the residual of the vertices that are
    not inactive only: two states with the same classification and the same
    residual at those vertices have the same norm, whatever the residual
    arrays hold at inactive vertices. *)
Theorem calcResidualNorm_ignores_inactive l g g' :
  mType g' = mType g ->
  zlength (zget [] (mb g') l) = zlength (zget [] (mb g) l) ->
  (forall v, isInactive g l v = false -> getr g' l v = getr g l v) ->
  calcResidualNorm l g' = calcResidualNorm l g.
Proof.
  intros HT HL Hr. unfold calcResidualNorm. f_equal.
  assert (EF : FOR_LVL g' l = FOR_LVL g l).
  { unfold FOR_LVL. f_equal. unfold zlength in HL. lia. }
  rewrite EF. apply fold_left_ext_in. intros res v _.
  assert (EI : isInactive g' l v = isInactive g l v)
    by (unfold isInactive, getType; rewrite HT; reflexivity).
  rewrite EI. destruct (isInactive g l v) eqn:Ei; [reflexivity|].
  rewrite (Hr v Ei). reflexivity.
Qed.

End VertexLoops.

Lemma calcResidual_pointwise_witness :
  @getr QcReal (calcResidual 0 gridW) 0 0 =
  if isInactive gridW 0 0 then getr gridW 0 0 else @residualAt QcReal 0 gridW 0.
Proof.
  apply (@calcResidual_pointwise QcReal 0 gridW 0).
  - vm_compute. split; [discriminate | reflexivity].
  - vm_compute. reflexivity.
Defined.

Lemma calcResidualNorm_ignores_inactive_witness :
  @calcResidualNorm QcReal 0 (put_mr gridW 0 1 q1) = @calcResidualNorm QcReal 0 gridW.
Proof.
  apply (@calcResidualNorm_ignores_inactive QcReal 0 gridW (put_mr gridW 0 1 q1)).
  - reflexivity.
  - reflexivity.
  - intros v Hv. apply (@getr_put_mr_ne QcReal). intros ->. vm_compute in Hv. discriminate Hv.
Defined.

(* ================================================================== *)
(** * NKMinHeap: insertion, removal and the order of extraction        *)
(* ================================================================== *)

(** The loop [while (heap.size() > 0) { ... heap.popMin() ... }]: the
    pairs it pops, in the order in which it pops them. *)
Fixpoint popAll (fuel : nat) (h : NKMinHeap.t) : list (Z * Z) :=
  match fuel with
  | O => []
  | S fuel' =>
      if 0 <? NKMinHeap.size h then
        let '(h', p) := NKMinHeap.popMin h in p :: popAll fuel' h'
      else []
  end.

Section HeapUse.
Import NKMinHeap.

(** X9. In every reachable state [setKey] fails with the first of its two
    assertions when the identifier is out of range and with the second when
    only the key is; otherwise it returns, the identifier has the new key,
    every other identifier keeps its key, the identifier is stored exactly
    when the key is not [-1], the size is adjusted by the removal and the
    insertion, and setting the same key again changes nothing. *)
Theorem heap_setKey_correct h ID k :
  reachable h ->
  (~ (0 <= ID < mN h) -> setKey ID k h = Err "NKMinHeap::setKey: ID out of range") /\
  (0 <= ID < mN h -> ~ (-1 <= k < mK h) ->
   setKey ID k h = Err "NKMinHeap::setKey: key out of range") /\
  (0 <= ID < mN h -> -1 <= k < mK h ->
   exists h',
     setKey ID k h = Ok h' /\
     getKey h' ID = k /\
     (forall j, j <> ID -> getKey h' j = getKey h j) /\
     (stored h' ID <-> k <> -1) /\
     size h' = size h - (if getKey h ID =? -1 then 0 else 1)
                      + (if k =? -1 then 0 else 1) /\
     size h' = zlength (storedIds h') /\
     setKey ID k h' = Ok h').
Proof.
  intros Hr. destruct (reachable_Inv h Hr) as (HI & HN & HK).
  split; [|split].
  - intros Hid. unfold setKey.
    destruct (Z.leb_spec 0 ID), (Z.ltb_spec ID (mN h)); cbn [andb negb]; try reflexivity. lia.
  - intros Hid Hk. unfold setKey.
    destruct (Z.leb_spec 0 ID), (Z.ltb_spec ID (mN h)); cbn [andb negb]; try lia.
    destruct (Z.leb_spec (-1) k), (Z.ltb_spec k (mK h)); cbn [andb negb]; try reflexivity. lia.
  - intros Hid Hk.
    destruct (setKey_spec h ID k HI Hid Hk) as (h' & E & HI' & EN & EK & Ek & Eo & Es).
    exists h'. split; [exact E|]. split; [exact Ek|]. split; [exact Eo|].
    split; [unfold stored; rewrite EN, Ek; tauto|].
    split; [exact Es|]. split; [apply size_storedIds; exact HI'|].
    unfold setKey. rewrite EN, EK.
    destruct (Z.leb_spec 0 ID), (Z.ltb_spec ID (mN h)); cbn [andb negb]; try lia.
    destruct (Z.leb_spec (-1) k), (Z.ltb_spec k (mK h)); cbn [andb negb]; try lia.
    cbv zeta. fold (ent h' (mK h + ID)). rewrite <- EK. fold (getKey h' ID).
    rewrite Ek, Z.eqb_refl. reflexivity.
Qed.

Lemma storedIds_NoDup h : NoDup (storedIds h).
Proof. apply NoDup_filter, NoDup_zrange. Qed.

Lemma popAll_spec : forall n h,
  Inv h -> 0 <= mN h -> mSize h = Z.of_nat n ->
  Permutation (map fst (popAll n h)) (storedIds h) /\
  (forall ID k, In (ID, k) (popAll n h) -> getKey h ID = k) /\
  StronglySorted Z.le (map snd (popAll n h)).
Proof.
  induction n as [|n IH]; intros h HI HN Hs.
  - cbn [popAll map]. split; [|split; [intros ? ? []|constructor]].
    assert (E : storedIds h = []).
    { destruct (storedIds h) as [|j js] eqn:E; [reflexivity|].
      assert (Hj : In j (storedIds h)) by (rewrite E; left; reflexivity).
      apply storedIds_spec in Hj; [|exact HN]. destruct Hj as (Hr & Hk).
      exfalso. apply Hk. apply Inv_empty; [exact HI | lia | exact Hr]. }
    rewrite E. constructor.
  - cbn [popAll]. unfold size.
    destruct (Z.ltb_spec 0 (mSize h)) as [_|]; [|lia].
    destruct (popMin_spec h HI)
      as (h' & ID & k & E & _ & HI' & EN & EK & Hst & Ek & Hmin & Eg & Eo & Es); [lia|].
    rewrite E.
    destruct (IH h' HI') as (P & Hk & Hsort); [lia | lia |].
    assert (Hst' : forall j, stored h' j <-> stored h j /\ j <> ID).
    { intros j. unfold stored. rewrite EN. split.
      - intros (Hr & Hj). assert (Hne : j <> ID) by (intros ->; contradiction).
        rewrite Eo in Hj by exact Hne. tauto.
      - intros ((Hr & Hj) & Hne). rewrite Eo by exact Hne. tauto. }
    assert (Hin : forall j k', In (j, k') (popAll n h') -> stored h' j).
    { intros j k' Hj. apply storedIds_spec; [lia|].
      eapply Permutation_in; [exact P|]. apply (in_map fst) in Hj. exact Hj. }
    cbn [map fst snd]. split; [|split].
    + eapply perm_trans; [apply perm_skip; exact P|].
      apply NoDup_Permutation.
      * constructor; [|apply storedIds_NoDup].
        intros Hc. apply storedIds_spec in Hc; [|lia]. apply Hst' in Hc. tauto.
      * apply storedIds_NoDup.
      * intros j. cbn [In]. rewrite !storedIds_spec by lia. rewrite Hst'.
        destruct (Z.eq_dec ID j) as [<-|Hne]; [tauto|]. split.
        -- intros [Hc|Hc]; [contradiction | tauto].
        -- intros Hj. right. split; [exact Hj | congruence].
    + intros j k' [Hj|Hj].
      * injection Hj as <- <-. exact Ek.
      * pose proof (Hin j k' Hj) as Hs'. apply Hst' in Hs'.
        rewrite <- Eo by tauto. apply Hk. exact Hj.
    + constructor; [exact Hsort|].
      apply Forall_forall. intros k' Hk'. apply in_map_iff in Hk'.
      destruct Hk' as ([j k''] & Ejk & Hj). cbn [snd] in Ejk. subst k''.
      pose proof (Hin j k' Hj) as Hs'. apply Hst' in Hs'. destruct Hs' as (Hsj & Hne).
      rewrite <- (Hk j k' Hj), Eo by exact Hne. apply Hmin. exact Hsj.
Qed.

(** X10. Emptying a reachable heap with [popMin] takes [size] calls and
    yields every stored identifier once, each with its key, in the order
    of increasing keys. *)
Theorem popAll_sorted h :
  reachable h ->
  Permutation (map fst (popAll (Z.to_nat (size h)) h)) (storedIds h) /\
  (forall ID k, In (ID, k) (popAll (Z.to_nat (size h)) h) -> getKey h ID = k) /\
  StronglySorted Z.le (map snd (popAll (Z.to_nat (size h)) h)).
Proof.
  intros Hr. destruct (reachable_Inv h Hr) as (HI & HN & HK).
  apply popAll_spec; [exact HI | exact HN|].
  unfold size. pose proof (Inv_size_nonneg h HI). lia.
Qed.

(** A heap with the identifiers 0, 2 and 3 of four, with the keys 4, 1 and 1. *)
Definition heapW : t :=
  Eval vm_compute in
    match setKey 0 4 (init 4 5) with
    | Ok h1 =>
        match setKey 2 1 h1 with
        | Ok h2 => match setKey 3 1 h2 with Ok h3 => h3 | _ => init 4 5 end
        | _ => init 4 5
        end
    | _ => init 4 5
    end.

Lemma heapW_reachable : reachable heapW.
Proof.
  assert (H : exists h1 h2, setKey 0 4 (init 4 5) = Ok h1 /\ setKey 2 1 h1 = Ok h2 /\
                            setKey 3 1 h2 = Ok heapW).
  { eexists. eexists. split; [vm_compute; reflexivity|].
    split; [vm_compute; reflexivity|]. vm_compute. reflexivity. }
  destruct H as (h1 & h2 & E1 & E2 & E3).
  eapply reach_setKey; [|exact E3]. eapply reach_setKey; [|exact E2].
  eapply reach_setKey; [|exact E1]. apply reach_init; lia.
Qed.

Lemma heap_setKey_correct_witness :
  (~ (0 <= 2 < mN heapW) -> setKey 2 3 heapW = Err "NKMinHeap::setKey: ID out of range") /\
  (0 <= 2 < mN heapW -> ~ (-1 <= 3 < mK heapW) ->
   setKey 2 3 heapW = Err "NKMinHeap::setKey: key out of range") /\
  (0 <= 2 < mN heapW -> -1 <= 3 < mK heapW ->
   exists h',
     setKey 2 3 heapW = Ok h' /\
     getKey h' 2 = 3 /\
     (forall j, j <> 2 -> getKey h' j = getKey heapW j) /\
     (stored h' 2 <-> 3 <> -1) /\
     size h' = size heapW - (if getKey heapW 2 =? -1 then 0 else 1)
                      + (if 3 =? -1 then 0 else 1) /\
     size h' = zlength (storedIds h') /\
     setKey 2 3 h' = Ok h').
Proof.
  apply (heap_setKey_correct heapW 2 3).
  exact heapW_reachable.
Defined.

Lemma popAll_sorted_witness :
  Permutation (map fst (popAll (Z.to_nat (size heapW)) heapW)) (storedIds heapW) /\
  (forall ID k, In (ID, k) (popAll (Z.to_nat (size heapW)) heapW) -> getKey heapW ID = k) /\
  StronglySorted Z.le (map snd (popAll (Z.to_nat (size heapW)) heapW)).
Proof.
  apply (popAll_sorted heapW).
  exact heapW_reachable.
Defined.

End HeapUse.

(* ================================================================== *)
(** * What the operations of a level leave alone                       *)
(* ================================================================== *)

Section Locality.
Context {RO : RealOps}.

Lemma getx_put_mx_other g l i x l' j :
  l' <> l -> getx (put_mx g l i x) l' j = getx g l' j.
Proof.
  intros H. unfold getx, put_mx. cbn [mx with_mx].
  rewrite zget_level_put_other by exact H. reflexivity.
Qed.

Lemma getr_put_mr_other g l i x l' j :
  l' <> l -> getr (put_mr g l i x) l' j = getr g l' j.
Proof.
  intros H. unfold getr, put_mr. cbn [mr with_mr].
  rewrite zget_level_put_other by exact H. reflexivity.
Qed.

Lemma smoothGS_other l rev g l' j :
  l' <> l -> getx (smoothGS l rev g) l' j = getx g l' j.
Proof.
  intros H. unfold smoothGS.
  apply fold_left_inv with (P := fun s => getx s l' j = getx g l' j); [reflexivity|].
  intros g1 c _ H1. apply fold_left_inv; [exact H1|].
  intros g2 b _ H2. apply fold_left_inv; [exact H2|].
  intros g3 off _ H3. unfold smooth_vertex.
  destruct (negb (inGrid g3 _ l)); [exact H3|].
  destruct (isInactive g3 l _); [exact H3|].
  destruct (l =? 0) eqn:E0.
  - apply Z.eqb_eq in E0. subst l. rewrite getx_put_mx_other by exact H. exact H3.
  - rewrite getx_put_mx_other by exact H. exact H3.
Qed.

Lemma calcResidual_other l g l' j :
  l' <> l -> getr (calcResidual l g) l' j = getr g l' j.
Proof.
  intros H. unfold calcResidual.
  apply fold_left_inv with (P := fun s => getr s l' j = getr g l' j); [reflexivity|].
  intros g1 v _ H1. unfold residual_vertex.
  destruct (isInactive g1 l v); [exact H1|].
  rewrite getr_put_mr_other by exact H. exact H1.
Qed.

(** The entries of [x] and [r] that the conjugate gradient iteration
    keeps. *)
Definition cgKeep (v : Z) (st st' : CGState) : Prop :=
  zget R0 (cg_x st') v = zget R0 (cg_x st) v /\
  zget R0 (cg_r st') v = zget R0 (cg_r st) v.

Lemma cg_init_keep l g v :
  isInactive g l v = true ->
  zget R0 (cg_x (fst (cg_init l g))) v = getx g l v /\
  zget R0 (cg_r (fst (cg_init l g))) v = getr g l v.
Proof.
  intros Hv. unfold cg_init.
  apply fold_left_inv with
    (P := fun p : CGState * Real =>
            zget R0 (cg_x (fst p)) v = getx g l v /\
            zget R0 (cg_r (fst p)) v = getr g l v).
  - split; reflexivity.
  - intros [st ir] w _ (H1 & H2). cbn [fst] in *.
    destruct (isInactive g l w) eqn:Hw; cbn [fst cg_x cg_r]; [split; assumption|].
    split; [exact H1|]. rewrite zget_zset_ne; [exact H2 | congruence].
Qed.

Lemma cg_update_keep l g alpha st v :
  isInactive g l v = true -> cgKeep v st (fst (cg_update l g alpha st)).
Proof.
  intros Hv. unfold cg_update.
  apply fold_left_inv with (P := fun p : CGState * Real => cgKeep v st (fst p)).
  - split; reflexivity.
  - intros [st1 a] w _ (H1 & H2). cbn [fst] in *.
    destruct (isInactive g l w) eqn:Hw; cbn [fst]; [split; assumption|].
    assert (Hne : v <> w) by congruence.
    split; cbn [cg_x cg_r]; rewrite zget_zset_ne by exact Hne; assumption.
Qed.

Lemma cg_iter_keep l g ir st v :
  isInactive g l v = true -> cgKeep v st (fst (cg_iter l g ir st)).
Proof.
  intros Hv. unfold cg_iter. destruct (cg_applyA l g st) as [z ab].
  match goal with
  | |- context [cg_update l g ?a ?s] =>
      pose proof (cg_update_keep l g a s v Hv) as H; destruct (cg_update l g a s) as [st1 atn]
  end.
  cbn [fst cg_x cg_r] in H. destruct H as (H1 & H2).
  destruct (Rltb _ _); cbn [fst cg_x cg_r]; split; assumption.
Qed.

Lemma cg_loop_keep l g ir v :
  isInactive g l v = true ->
  forall fuel iter st, cgKeep v st (snd (cg_loop fuel l g ir iter st)).
Proof.
  intros Hv. induction fuel as [|fuel IH]; intros iter st; cbn [cg_loop].
  - split; reflexivity.
  - pose proof (cg_iter_keep l g ir st v Hv) as H.
    destruct (cg_iter l g ir st) as [st1 stop]. cbn [fst] in H.
    destruct stop; cbn [snd].
    + exact H.
    + destruct H as (H1 & H2). destruct (IH (iter + 1) st1) as (I1 & I2).
      split; congruence.
Qed.

(** The arrays of [solveCG(l)] in terms of the final vectors. *)
Lemma solveCG_arrays l g :
  exists st,
    zlength (cg_x st) = zlength (zget [] (mx g) l) /\
    zlength (cg_r st) = zlength (zget [] (mr g) l) /\
    (forall v, isInactive g l v = true ->
       zget R0 (cg_x st) v = getx g l v /\ zget R0 (cg_r st) v = getr g l v) /\
    mx (solveCG l g) = zset (mx g) l (cg_x st) /\
    mr (solveCG l g) = zset (mr g) l (cg_r st).
Proof.
  unfold solveCG.
  pose proof (cg_init_length l g) as (Lx0 & Lr0).
  pose proof (cg_init_keep l g) as K0.
  destruct (cg_init l g) as [st0 ir]. cbn [fst] in *.
  match goal with
  | |- context [cg_loop ?f l g ?i 0 st0] =>
      pose proof (cg_loop_length l g i f 0 st0) as (Lx & Lr);
      pose proof (fun v Hv => cg_loop_keep l g i v Hv f 0 st0) as K;
      destruct (cg_loop f l g i 0 st0) as [iter st]
  end.
  cbn [snd] in *. exists st.
  split; [congruence|]. split; [congruence|]. split.
  - intros v Hv. destruct (K v Hv) as (K1 & K2). destruct (K0 v Hv) as (K3 & K4).
    split; congruence.
  - destruct (iter =? maxIter); split; reflexivity.
Qed.

Lemma solveCG_other l g l' j :
  l' <> l ->
  getx (solveCG l g) l' j = getx g l' j /\ getr (solveCG l g) l' j = getr g l' j.
Proof.
  intros H. destruct (solveCG_arrays l g) as (st & _ & _ & _ & Ex & Er). split.
  - unfold getx. rewrite Ex, zget_level_put_other by exact H. reflexivity.
  - unfold getr. rewrite Er, zget_level_put_other by exact H. reflexivity.
Qed.

Lemma solveCG_inactive l g v :
  isInactive g l v = true ->
  getx (solveCG l g) l v = getx g l v /\ getr (solveCG l g) l v = getr g l v.
Proof.
  intros Hv.
  destruct (solveCG_arrays l g) as (st & Lx & Lr & K & Ex & Er).
  destruct (K v Hv) as (Kx & Kr).
  unfold getx, getr. rewrite Ex, Er, !(zget_zset []), Z.eqb_refl. cbn [andb].
  split.
  - destruct ((0 <=? l) && (l <? zlength (mx g)))%bool; [exact Kx | reflexivity].
  - destruct ((0 <=? l) && (l <? zlength (mr g)))%bool; [exact Kr | reflexivity].
Qed.

(** X11. The operations of a level work on the arrays of that level:
    [smoothGS(l)] and [solveCG(l)] leave the solution, [calcResidual(l)]
    and [solveCG(l)] the residual, and [genCoraseGridOperator(l)] the
    operator of every other level as they are. *)
Theorem level_operations_are_local l l' j rev g :
  l' <> l ->
  getx (smoothGS l rev g) l' j = getx g l' j /\
  getr (calcResidual l g) l' j = getr g l' j /\
  getx (solveCG l g) l' j = getx g l' j /\
  getr (solveCG l g) l' j = getr g l' j /\
  getA (genCoraseGridOperator l g) l' j = getA g l' j.
Proof.
  intros H. split; [apply smoothGS_other; exact H|].
  split; [apply calcResidual_other; exact H|].
  destruct (solveCG_other l g l' j H) as (Ex & Er).
  split; [exact Ex|]. split; [exact Er|].
  apply genCoraseGridOperator_other. exact H.
Qed.

(** X12. [solveCG(l)] writes the solution and the residual of the
    vertices of level [l] that are not inactive only: at an inactive vertex
    both arrays hold the value they held before the call. *)
Theorem solveCG_inactive_unchanged l g v :
  isInactive g l v = true ->
  getx (solveCG l g) l v = getx g l v /\ getr (solveCG l g) l v = getr g l v.
Proof.
  apply solveCG_inactive.
Qed.

End Locality.

Lemma level_operations_are_local_witness :
  exists g : @GridMg QcReal,
    runCalls calls3 (newGridMg size3) = Ok g /\ numLevels g = 2 /\
    getx (smoothGS 1 false g) 0 0 = getx g 0 0 /\
    getr (calcResidual 1 g) 0 0 = getr g 0 0 /\
    getx (solveCG 1 g) 0 0 = getx g 0 0 /\
    getr (solveCG 1 g) 0 0 = getr g 0 0 /\
    getA (genCoraseGridOperator 1 g) 0 0 = getA g 0 0.
Proof.
  destruct calls3_state as (g & E & _ & HL). exists g.
  split; [exact E|]. split; [exact HL|].
  apply (@level_operations_are_local QcReal 1 0 0 false g). lia.
Defined.

Lemma solveCG_inactive_unchanged_witness :
  @getx QcReal (solveCG 0 gridW) 0 1 = getx gridW 0 1 /\
  @getr QcReal (solveCG 0 gridW) 0 1 = getr gridW 0 1.
Proof.
  apply (@solveCG_inactive_unchanged QcReal 0 gridW 1). reflexivity.
Defined.

(* ================================================================== *)
(** * A cycle at an inactive vertex                                    *)
(* ================================================================== *)

Section InactiveCycle.
Context {RO : RealOps}.

Lemma getx_put_mx g l i x j :
  getx (put_mx g l i x) l j =
  if (j =? i) && (0 <=? i) && (i <? zlength (zget [] (mx g) l)) &&
     (0 <=? l) && (l <? zlength (mx g))
  then x else getx g l j.
Proof.
  unfold getx, put_mx. cbn [mx with_mx]. rewrite (zget_zset []), Z.eqb_refl. cbn [andb].
  destruct ((0 <=? l) && (l <? zlength (mx g)))%bool eqn:El.
  - rewrite zget_zset. apply andb_prop in El. destruct El as (-> & ->).
    rewrite !andb_true_r. reflexivity.
  - destruct (0 <=? l); cbn [andb] in *; [rewrite El|]; rewrite ?andb_false_r; reflexivity.
Qed.

(** A loop over distinct indices whose iteration [v] updates the cell [v]
    from its own content and leaves every other cell. *)
Lemma fold_cells_upd {S T : Type} (rd : S -> Z -> T) (I : S -> Prop) (G : Z -> T -> T)
    (ok : Z -> bool) (step : S -> Z -> S) :
  (forall s v, I s -> I (step s v)) ->
  (forall s v, I s -> rd (step s v) v = if ok v then G v (rd s v) else rd s v) ->
  (forall s v j, I s -> j <> v -> rd (step s v) j = rd s j) ->
  forall vs s, NoDup vs -> I s ->
    I (fold_left step vs s) /\
    forall j, rd (fold_left step vs s) j =
              if in_dec Z.eq_dec j vs then (if ok j then G j (rd s j) else rd s j)
              else rd s j.
Proof.
  intros HI Heq Hne. induction vs as [|v vs IH]; intros s Hnd Hs.
  - split; [exact Hs | reflexivity].
  - inversion Hnd as [|? ? Hnv Hnd']; subst. cbn [fold_left].
    destruct (IH (step s v) Hnd' (HI s v Hs)) as (I1 & I2).
    split; [exact I1|]. intros j. rewrite I2.
    destruct (in_dec Z.eq_dec j vs) as [Hin|Hnin];
      destruct (in_dec Z.eq_dec j (v :: vs)) as [Hin'|Hnin'];
      try (exfalso; apply Hnin'; right; exact Hin).
    + assert (Hjv : j <> v) by (intros ->; contradiction).
      rewrite (Hne s v j Hs Hjv). reflexivity.
    + destruct Hin' as [->|Hin']; [|contradiction]. apply Heq. exact Hs.
    + apply Hne; [exact Hs|]. intros ->. apply Hnin'. left. reflexivity.
Qed.

(** The parts of [doVCycle]: the copy of [src], the body of the loop
    towards the coarsest level and the body of the loop back. *)
Definition vcInit (src : option (list Real)) (g : GridMg) : GridMg :=
  fold_left (fun g v =>
    put_mx g 0 v (match src with Some s => zget R0 s v | None => R0 end))
    (FOR_LVL g 0) g.

Definition vcDown (g : GridMg) (l : Z) : GridMg :=
  let g := repeatZ (mNumPreSmooth g) (smoothGS l false) g in
  let g := calcResidual l g in
  let g := with_mb g (zset (mb g) (l + 1)
             (restrict g (l + 1) (zget [] (mr g) l) (zget [] (mb g) (l + 1)))) in
  fold_left (fun g v => put_mx g (l + 1) v R0) (FOR_LVL g (l + 1)) g.

Definition vcUp (g : GridMg) (l : Z) : GridMg :=
  let g := with_mr g (zset (mr g) l
             (interpolate g l (zget [] (mx g) (l + 1)) (zget [] (mr g) l))) in
  let g := fold_left (fun g v => put_mx g l v (Radd (getx g l v) (getr g l v)))
             (FOR_LVL g l) g in
  repeatZ (mNumPostSmooth g) (smoothGS l true) g.

Lemma doVCycle_eq dst src g :
  doVCycle dst src g =
  if negb (mIsASet g && mIsRhsSet g)
  then Err "GridMg::doVCycle Error: A and/or rhs have not been set."
  else
    let maxLevel := zlength (mA g) - 1 in
    let g := vcInit src g in
    let g := fold_left vcDown (zseq 0 (maxLevel - 1)) g in
    let g := solveCG maxLevel g in
    let g := fold_left vcUp (rev (zseq 0 (maxLevel - 1))) g in
    let g := calcResidual 0 g in
    Ok (g, fold_left (fun dst v => zset dst v (getx g 0 v)) (FOR_LVL g 0) dst,
        calcResidualNorm 0 g).
Proof. reflexivity. Qed.

Lemma zseq_cons lo hi : lo <= hi -> zseq lo hi = lo :: zseq (lo + 1) hi.
Proof.
  intros H. unfold zseq.
  replace (Z.to_nat (hi + 1 - lo)) with (S (Z.to_nat (hi + 1 - (lo + 1)))) by lia.
  reflexivity.
Qed.

Lemma zseq_nil lo hi : hi < lo -> zseq lo hi = [].
Proof.
  intros H. unfold zseq. replace (Z.to_nat (hi + 1 - lo)) with O by lia. reflexivity.
Qed.

Variables (g : GridMg) (v : Z).
Hypothesis Hwf : wf g.
Hypothesis Hv : 0 <= v < countOf (sizeAt g 0).
Hypothesis Hin : isInactive g 0 v = true.

(** What a cycle keeps at the inactive vertex [v] of level 0: the
    classification, the lengths of the arrays, the residual at [v], and the
    solution [X] at [v]. *)
Definition cellInv (X : Real) (s : GridMg) : Prop :=
  mType s = mType g /\ shaped g s /\ getr s 0 v = getr g 0 v /\ getx s 0 v = X.

Lemma cellInv_inactive X s : cellInv X s -> isInactive s 0 v = true.
Proof. intros (HT & _). unfold isInactive, getType. rewrite HT. exact Hin. Qed.

Lemma cellInv_smooth X s l rev : cellInv X s -> cellInv X (smoothGS l rev s).
Proof.
  intros H. pose proof (cellInv_inactive X s H) as Hi. destruct H as (HT & Sh & Hr & Hx).
  pose proof (smoothGS_only l rev s) as Ho. split; [|split; [|split]].
  - rewrite Ho. exact HT.
  - eapply shaped_trans; [exact Sh | apply smoothGS_shaped].
  - rewrite Ho. exact Hr.
  - destruct (Z.eq_dec l 0) as [->|Hl].
    + rewrite smoothGS_inactive by exact Hi. exact Hx.
    + rewrite smoothGS_other by congruence. exact Hx.
Qed.

Lemma cellInv_repeat X n (body : GridMg -> GridMg) s :
  (forall s, cellInv X s -> cellInv X (body s)) ->
  cellInv X s -> cellInv X (repeatZ n body s).
Proof.
  intros Hb Hs. unfold repeatZ. apply fold_left_inv; [exact Hs|].
  intros s1 _ _ H1. apply Hb. exact H1.
Qed.

Lemma cellInv_residual X s l : cellInv X s -> cellInv X (calcResidual l s).
Proof.
  intros H. pose proof (cellInv_inactive X s H) as Hi. destruct H as (HT & Sh & Hr & Hx).
  pose proof (calcResidual_only l s) as Ho. split; [|split; [|split]].
  - rewrite Ho. exact HT.
  - eapply shaped_trans; [exact Sh | apply calcResidual_shaped].
  - destruct (Z.eq_dec l 0) as [->|Hl].
    + rewrite calcResidual_inactive by exact Hi. exact Hr.
    + rewrite calcResidual_other by congruence. exact Hr.
  - rewrite Ho. exact Hx.
Qed.

Lemma cellInv_mb X s xs : sameLen (mb s) xs -> cellInv X s -> cellInv X (with_mb s xs).
Proof.
  intros HL (HT & Sh & Hr & Hx). split; [exact HT|]. split; [|split; assumption].
  eapply shaped_trans; [exact Sh | apply shaped_mb; exact HL].
Qed.

Lemma cellInv_put_mx X s l w x : l <> 0 -> cellInv X s -> cellInv X (put_mx s l w x).
Proof.
  intros Hl (HT & Sh & Hr & Hx). split; [exact HT|]. split; [|split].
  - eapply shaped_trans; [exact Sh | apply shaped_put_mx].
  - exact Hr.
  - rewrite getx_put_mx_other by congruence. exact Hx.
Qed.

Lemma cellInv_solveCG X s l : cellInv X s -> cellInv X (solveCG l s).
Proof.
  intros H. pose proof (cellInv_inactive X s H) as Hi. destruct H as (HT & Sh & Hr & Hx).
  pose proof (solveCG_only l s) as Ho. split; [|split; [|split]].
  - rewrite Ho. destruct (workOf (solveCG l s)) as [[[[[x b] r'] t1] t2] lg]. exact HT.
  - eapply shaped_trans; [exact Sh | apply solveCG_shaped].
  - destruct (Z.eq_dec l 0) as [->|Hl].
    + rewrite (proj2 (solveCG_inactive 0 s v Hi)). exact Hr.
    + rewrite (proj2 (solveCG_other l s 0 v ltac:(congruence))). exact Hr.
  - destruct (Z.eq_dec l 0) as [->|Hl].
    + rewrite (proj1 (solveCG_inactive 0 s v Hi)). exact Hx.
    + rewrite (proj1 (solveCG_other l s 0 v ltac:(congruence))). exact Hx.
Qed.

Lemma cellInv_interp X s l src :
  cellInv X s ->
  cellInv X (with_mr s (zset (mr s) l (interpolate s l src (zget [] (mr s) l)))).
Proof.
  intros H. pose proof (cellInv_inactive X s H) as Hi. destruct H as (HT & Sh & Hr & Hx).
  split; [exact HT|]. split; [|split; [|exact Hx]].
  - eapply shaped_trans; [exact Sh|]. apply shaped_mr, sameLen_zset, interpolate_length.
  - rewrite <- Hr. unfold getr. cbn [mr with_mr].
    destruct (Z.eq_dec l 0) as [->|Hl].
    + rewrite (zget_zset []), Z.eqb_refl. cbn [andb].
      destruct ((0 <=? 0) && (0 <? zlength (mr s)))%bool; [|reflexivity].
      apply interpolate_inactive. exact Hi.
    + rewrite zget_level_put_other by congruence. reflexivity.
Qed.

Lemma level0_lengths s :
  shaped g s ->
  0 < zlength (mx s) /\
  zlength (zget [] (mx s) 0) = countOf (sizeAt g 0) /\
  zlength (zget [] (mb s) 0) = countOf (sizeAt g 0).
Proof.
  intros Sh. pose proof (wf_levels _ Hwf) as HL.
  assert (W0 : wfLevel g 0) by (apply (wf_level _ Hwf); lia).
  rewrite (proj1 (sh_x _ _ Sh)), (proj2 (sh_x _ _ Sh)), (proj2 (sh_b _ _ Sh)).
  rewrite (wf_len_x _ Hwf), (wl_x_len _ _ W0), (wl_b _ _ W0). lia.
Qed.

(** The copy of [src] stores [src[v]] at [v]. *)
Lemma cellInv_init src :
  cellInv (match src with Some s => zget R0 s v | None => R0 end) (vcInit src g).
Proof.
  set (val := fun w => match src with Some s => zget R0 s w | None => R0 end).
  set (I := fun s => mType s = mType g /\ shaped g s /\ getr s 0 v = getr g 0 v).
  set (ok := fun w => (0 <=? w) && (w <? countOf (sizeAt g 0))).
  destruct (fold_cells (fun s w => getx s 0 w) I val ok
              (fun s w => put_mx s 0 w (val w)))
    with (vs := FOR_LVL g 0) (s := g) as ((HT & Sh & Hr) & Hc).
  - intros s w (HT & Sh & Hr). split; [exact HT|]. split; [|exact Hr].
    eapply shaped_trans; [exact Sh | apply shaped_put_mx].
  - intros s w (HT & Sh & Hr). destruct (level0_lengths s Sh) as (L1 & L2 & _).
    rewrite getx_put_mx, L2, Z.eqb_refl. unfold ok. cbn [andb].
    destruct (Z.ltb_spec 0 (zlength (mx s))); [|lia]. cbn [Z.leb]. rewrite !andb_true_r.
    reflexivity.
  - intros s w j _ Hj. rewrite getx_put_mx.
    destruct (Z.eqb_spec j w); [contradiction | reflexivity].
  - split; [reflexivity|]. split; [apply shaped_refl | reflexivity].
  - split; [exact HT|]. split; [exact Sh|]. split; [exact Hr|].
    change (getx (fold_left (fun s w => put_mx s 0 w (val w)) (FOR_LVL g 0) g) 0 v = val v).
    rewrite (Hc v).
    destruct (level0_lengths g (shaped_refl g)) as (_ & _ & L3).
    destruct (in_dec Z.eq_dec v (FOR_LVL g 0)) as [_|Hn];
      [|exfalso; apply Hn; apply in_FOR_LVL; lia].
    unfold ok. destruct (Z.leb_spec 0 v); [|lia].
    destruct (Z.ltb_spec v (countOf (sizeAt g 0))); [|lia]. reflexivity.
Qed.

Lemma cellInv_down X s l : 0 <= l -> cellInv X s -> cellInv X (vcDown s l).
Proof.
  intros Hl H. unfold vcDown. cbv zeta.
  apply fold_left_inv.
  - apply cellInv_mb; [apply sameLen_zset, restrict_length|].
    apply cellInv_residual. apply cellInv_repeat; [|exact H].
    intros s1. apply cellInv_smooth.
  - intros s1 w _ H1. apply cellInv_put_mx; [lia | exact H1].
Qed.

(** The loop back at a coarse level. *)
Lemma cellInv_up X s l : l <> 0 -> cellInv X s -> cellInv X (vcUp s l).
Proof.
  intros Hl H. unfold vcUp. cbv zeta.
  apply cellInv_repeat; [intros s1; apply cellInv_smooth|].
  apply fold_left_inv; [apply cellInv_interp; exact H|].
  intros s1 w _ H1. apply cellInv_put_mx; [exact Hl | exact H1].
Qed.

(** The loop back at level 0 adds the residual at [v] to the solution
    at [v]. *)
Lemma cellInv_up0 X s : cellInv X s -> cellInv (Radd X (getr g 0 v)) (vcUp s 0).
Proof.
  intros H. unfold vcUp. cbv zeta.
  apply cellInv_repeat; [intros s1; apply cellInv_smooth|].
  pose proof (cellInv_interp X s 0 (zget [] (mx s) (0 + 1)) H) as H1.
  set (s1 := with_mr s (zset (mr s) 0
               (interpolate s 0 (zget [] (mx s) (0 + 1)) (zget [] (mr s) 0)))) in *.
  destruct H1 as (HT & Sh & Hr & Hx).
  set (I := fun t => mType t = mType g /\ shaped g t /\
                     forall w, getr t 0 w = getr s1 0 w).
  set (ok := fun w => (0 <=? w) && (w <? countOf (sizeAt g 0))).
  destruct (fold_cells_upd (fun t w => getx t 0 w) I (fun w x => Radd x (getr s1 0 w)) ok
              (fun t w => put_mx t 0 w (Radd (getx t 0 w) (getr t 0 w))))
    with (vs := FOR_LVL s1 0) (s := s1) as ((HT' & Sh' & Hr') & Hc).
  - intros t w (A1 & A2 & A3). split; [exact A1|]. split; [|exact A3].
    eapply shaped_trans; [exact A2 | apply shaped_put_mx].
  - intros t w (A1 & A2 & A3). destruct (level0_lengths t A2) as (L1 & L2 & _).
    rewrite getx_put_mx, L2, Z.eqb_refl, (A3 w). unfold ok. cbn [andb].
    destruct (Z.ltb_spec 0 (zlength (mx t))); [|lia]. cbn [Z.leb]. rewrite !andb_true_r.
    reflexivity.
  - intros t w j _ Hj. rewrite getx_put_mx.
    destruct (Z.eqb_spec j w); [contradiction | reflexivity].
  - apply NoDup_zrange.
  - split; [exact HT|]. split; [exact Sh | reflexivity].
  - split; [exact HT'|]. split; [exact Sh'|]. split; [rewrite Hr'; exact Hr|].
    rewrite (Hc v). destruct (level0_lengths s1 Sh) as (_ & _ & L3).
    destruct (in_dec Z.eq_dec v (FOR_LVL s1 0)) as [_|Hn];
      [|exfalso; apply Hn; apply in_FOR_LVL; lia].
    unfold ok. destruct (Z.leb_spec 0 v); [|lia].
    destruct (Z.ltb_spec v (countOf (sizeAt g 0))); [|lia].
    rewrite Hx, Hr. reflexivity.
Qed.

Lemma cellInv_cycle src :
  cellInv (let s0 := match src with Some s => zget R0 s v | None => R0 end in
           if 1 <? numLevels g then Radd s0 (getr g 0 v) else s0)
    (let maxLevel := zlength (mA g) - 1 in
     let g := vcInit src g in
     let g := fold_left vcDown (zseq 0 (maxLevel - 1)) g in
     let g := solveCG maxLevel g in
     let g := fold_left vcUp (rev (zseq 0 (maxLevel - 1))) g in
     calcResidual 0 g).
Proof.
  cbv zeta. fold (numLevels g).
  set (s0 := match src with Some s => zget R0 s v | None => R0 end).
  apply cellInv_residual.
  assert (H3 : cellInv s0 (solveCG (numLevels g - 1)
                 (fold_left vcDown (zseq 0 (numLevels g - 1 - 1)) (vcInit src g)))).
  { apply cellInv_solveCG. apply fold_left_inv; [apply cellInv_init|].
    intros s1 l Hl H1. apply in_zseq in Hl. apply cellInv_down; [lia | exact H1]. }
  set (s3 := solveCG (numLevels g - 1) _) in *. clearbody s3.
  destruct (Z.ltb_spec 1 (numLevels g)) as [Hn|Hn].
  - rewrite (zseq_cons 0) by lia. cbn [rev]. rewrite fold_left_app. cbn [fold_left].
    apply cellInv_up0. apply fold_left_inv; [exact H3|].
    intros s1 l Hl H1. apply in_rev, in_zseq in Hl. apply cellInv_up; [lia | exact H1].
  - rewrite (zseq_nil 0) by lia. exact H3.
Qed.

End InactiveCycle.

Section InactiveCycleClaim.
Context {RO : RealOps}.

(** X13. At a vertex [v] of level 0 that is inactive, [doVCycle] keeps
    the residual entry, and the solution it leaves and returns in [dst] is
    [src[v]] (zero without [src]) plus the residual entry at [v], which no
    operation of the cycle writes, when the hierarchy has coarse levels, and
    [src[v]] itself when it has one level only. *)
Theorem doVCycle_at_inactive_vertex dst src g v :
  wf g ->
  mIsASet g && mIsRhsSet g = true ->
  0 <= v < countOf (sizeAt g 0) ->
  isInactive g 0 v = true ->
  exists g' d r,
    doVCycle dst src g = Ok (g', d, r) /\
    getr g' 0 v = getr g 0 v /\
    getx g' 0 v =
      (let s0 := match src with Some s => zget R0 s v | None => R0 end in
       if 1 <? numLevels g then Radd s0 (getr g 0 v) else s0) /\
    (v < zlength dst -> zget R0 d v = getx g' 0 v).
Proof.
  intros W Hf Hv Hin.
  pose proof (cellInv_cycle g v W Hv Hin src) as (HT & Sh & Hr & Hx).
  rewrite doVCycle_eq, Hf. cbn [negb]. cbv zeta in Hx, Hr, Sh, HT |- *.
  eexists. eexists. eexists. split; [reflexivity|].
  split; [exact Hr|]. split; [exact Hx|].
  intros Hd. rewrite fold_zset_get.
  destruct (level0_lengths g W _ Sh) as (_ & _ & L3).
  match goal with
  | |- context [in_dec Z.eq_dec v ?vs] =>
      destruct (in_dec Z.eq_dec v vs) as [_|Hn];
        [|exfalso; apply Hn; apply in_FOR_LVL; lia]
  end.
  destruct (Z.leb_spec 0 v); [|lia]. destruct (Z.ltb_spec v (zlength dst)); [|lia].
  reflexivity.
Qed.

End InactiveCycleClaim.

Lemma gridW_wf : @wf QcReal gridW.
Proof.
  apply (@runCalls_wf QcReal callsW (newGridMg (mkVec 2 2 1))); [|exact gridW_run].
  apply (@wf_newGridMg QcReal). unfold positive. simpl. lia.
Qed.

Lemma doVCycle_at_inactive_vertex_witness :
  exists (g' : @GridMg QcReal) (d : list (@Real QcReal)) (r : @Real QcReal),
    @doVCycle QcReal [q0; q0; q0; q0] None gridW = Ok (g', d, r) /\
    @getr QcReal g' 0 1 = getr gridW 0 1 /\
    @getx QcReal g' 0 1 =
      (let s0 := @R0 QcReal in
       if 1 <? numLevels gridW then @Radd QcReal s0 (getr gridW 0 1) else s0) /\
    (1 < zlength [q0; q0; q0; q0] -> zget (@R0 QcReal) d 1 = @getx QcReal g' 0 1).
Proof.
  apply (@doVCycle_at_inactive_vertex QcReal [q0; q0; q0; q0] None gridW 1).
  - exact gridW_wf.
  - reflexivity.
  - vm_compute. split; [discriminate | reflexivity].
  - reflexivity.
Defined.


(* ================================================================== *)
(** * The coarsest level solver: the recurrence of [solveCG]           *)
(* ================================================================== *)

Section Recurrence.
Context {RO : RealOps}.

(** A loop over distinct indices whose iteration [v] is skipped when
    [skip v] holds, and otherwise updates the cell [v] from its own
    content, leaves every other cell and accumulates a term computed from
    the cell. *)
Lemma fold_cells_acc {S C A : Type} (rd : S -> Z -> C) (acc : S -> A) (I : S -> Prop)
    (dom : Z -> Prop) (skip : Z -> bool) (G : Z -> C -> C) (T : Z -> C -> A -> A)
    (step : S -> Z -> S) :
  (forall s v, I s -> dom v -> I (step s v)) ->
  (forall s v, I s -> dom v -> rd (step s v) v = if skip v then rd s v else G v (rd s v)) ->
  (forall s v j, I s -> dom v -> j <> v -> rd (step s v) j = rd s j) ->
  (forall s v, I s -> dom v ->
     acc (step s v) = if skip v then acc s else T v (rd s v) (acc s)) ->
  forall vs s, NoDup vs -> Forall dom vs -> I s ->
    I (fold_left step vs s) /\
    (forall j, rd (fold_left step vs s) j =
               if in_dec Z.eq_dec j vs then (if skip j then rd s j else G j (rd s j))
               else rd s j) /\
    acc (fold_left step vs s) =
      fold_left (fun a v => if skip v then a else T v (rd s v) a) vs (acc s).
Proof.
  intros HI Heq Hne Hacc. induction vs as [|v vs IH]; intros s Hnd Hd Hs.
  - split; [exact Hs|]. split; reflexivity.
  - inversion Hnd as [|? ? Hnv Hnd']; subst. inversion Hd as [|? ? Hv Hd']; subst.
    cbn [fold_left].
    destruct (IH (step s v) Hnd' Hd' (HI s v Hs Hv)) as (I1 & I2 & I3).
    split; [exact I1|]. split.
    + intros j. rewrite I2.
      destruct (in_dec Z.eq_dec j vs) as [Hin|Hnin];
        destruct (in_dec Z.eq_dec j (v :: vs)) as [Hin'|Hnin'];
        try (exfalso; apply Hnin'; right; exact Hin).
      * assert (Hjv : j <> v) by (intros ->; contradiction).
        rewrite (Hne s v j Hs Hv Hjv). reflexivity.
      * destruct Hin' as [->|Hin']; [|contradiction]. apply Heq; assumption.
      * apply Hne; [exact Hs | exact Hv|]. intros ->. apply Hnin'. left. reflexivity.
    + rewrite I3, (Hacc s v Hs Hv). apply fold_left_ext_in.
      intros a w Hw. destruct (skip w); [reflexivity|].
      rewrite (Hne s v w Hs Hv); [reflexivity|]. intros ->. contradiction.
Qed.

Lemma NoDup_FOR_LVL (g : GridMg) (l : Z) : NoDup (FOR_LVL g l).
Proof. apply NoDup_zrange. Qed.

Lemma Forall_FOR_LVL (g : GridMg) (l : Z) :
  Forall (fun v => 0 <= v < zlength (zget [] (mb g) l)) (FOR_LVL g l).
Proof. apply Forall_forall. intros v Hv. apply in_FOR_LVL. exact Hv. Qed.

Section RecurrenceLevel.
Variables (l : Z) (g : GridMg).

(** The number of vertices of the loops [FOR_LVL(v,l)]. *)
Definition cgN : Z := zlength (zget [] (mb g) l).

(** The four vectors of the iteration hold one value per vertex. *)
Definition cgFits (st : CGState) : Prop :=
  zlength (cg_x st) = cgN /\ zlength (cg_r st) = cgN /\
  zlength (cg_z st) = cgN /\ zlength (cg_p st) = cgN.

(** A reduction [sum += t(v)] over the vertices of the level that are not
    inactive, in the order of the loop. *)
Definition cgSum (t : Z -> Real) : Real :=
  fold_left (fun s v => if isInactive g l v then s else Radd s (t v)) (FOR_LVL g l) R0.

(** The entry [v] of the product of the operator of the level and of the
    vector [p], as the first loop of an iteration builds it in [z[v]]. *)
Definition cgRow (p : list Real) (v : Z) : Real :=
  let V := vecIdx g v l in
  let zv := R0 in
  if l =? 0 then
    let zv := stencil0 g fadd p v V zv in
    Radd zv (Rmul (getA g 0 (v * mStencilSize0 g + 0)) (zget R0 p v))
  else stencilN g l false fadd p v V zv.

(** The step length [alpha = alphaTop / alphaBot] of an iteration that
    starts in the state [st]. *)
Definition cgAlpha (st : CGState) : Real :=
  Rdiv (cg_alphaTop st)
       (cgSum (fun v => Rmul (zget R0 (cg_p st) v) (cgRow (cg_p st) v))).

(** The norm [sqrt(sum r[v]*r[v])] of the residual of a state. *)
Definition cgNorm (st : CGState) : Real :=
  Rsqrt (cgSum (fun v => Rmul (zget R0 (cg_r st) v) (zget R0 (cg_r st) v))).

(** The product [sum r[v]*z[v]] of the residual and of the preconditioned
    residual of a state. *)
Definition cgTop (st : CGState) : Real :=
  cgSum (fun v => Rmul (zget R0 (cg_r st) v) (zget R0 (cg_z st) v)).

(** The state [st] with which the loop of [solveCG] starts, and the norm
    [ir] of the initial residual: the start iterate is the solution array
    of the level, the residual is the one [calcResidual] computes, [z] is
    the residual divided by the diagonal and [p] is [z]. *)
Record cgStart (st : CGState) (ir : Real) : Prop := {
  start_x : cg_x st = zget [] (mx g) l;
  start_r : forall v, In v (FOR_LVL g l) ->
    zget R0 (cg_r st) v = if isInactive g l v then getr g l v else residualAt l g v;
  start_z : forall v, In v (FOR_LVL g l) ->
    zget R0 (cg_z st) v =
    if isInactive g l v then zget R0 (zget [] (mCGtmp1 g) l) v
    else Rdiv (residualAt l g v) (diagA g l v);
  start_p : forall v, In v (FOR_LVL g l) ->
    zget R0 (cg_p st) v =
    if isInactive g l v then zget R0 (zget [] (mCGtmp2 g) l) v
    else Rdiv (residualAt l g v) (diagA g l v);
  start_alphaTop : cg_alphaTop st = cgTop st;
  start_ir : ir = cgNorm st;
  start_fits : cgFits st
}.

(** One iteration of the loop of [solveCG] from the state [st] to the
    state [st']; [stop] tells whether the iteration leaves the loop.  At the
    vertices that are not inactive [x += alpha*p], [r -= alpha*A*p] and
    [z = r/diagonal]; the test compares the norm of the new residual,
    divided by the initial one, with the accuracy; when it fails, the
    direction becomes [p = z + beta*p] at every vertex of the level. *)
Record cgStep (ir : Real) (st st' : CGState) (stop : bool) : Prop := {
  step_x : forall v, In v (FOR_LVL g l) ->
    zget R0 (cg_x st') v =
    if isInactive g l v then zget R0 (cg_x st) v
    else Radd (zget R0 (cg_x st) v) (Rmul (cgAlpha st) (zget R0 (cg_p st) v));
  step_r : forall v, In v (FOR_LVL g l) ->
    zget R0 (cg_r st') v =
    if isInactive g l v then zget R0 (cg_r st) v
    else Rsub (zget R0 (cg_r st) v) (Rmul (cgAlpha st) (cgRow (cg_p st) v));
  step_z : forall v, In v (FOR_LVL g l) ->
    zget R0 (cg_z st') v =
    if isInactive g l v then zget R0 (cg_z st) v
    else Rdiv (zget R0 (cg_r st') v) (diagA g l v);
  step_residual : cg_residual st' = cgNorm st';
  step_test : stop = Rltb (Rdiv (cgNorm st') ir) (mCoarsestLevelAccuracy g);
  step_p : forall v, In v (FOR_LVL g l) ->
    zget R0 (cg_p st') v =
    if stop then zget R0 (cg_p st) v
    else Radd (zget R0 (cg_z st') v)
              (Rmul (Rdiv (cgTop st') (cg_alphaTop st)) (zget R0 (cg_p st) v));
  step_alphaTop : cg_alphaTop st' = if stop then cg_alphaTop st else cgTop st';
  step_fits : cgFits st'
}.

Lemma cgSum_ext (t t' : Z -> Real) :
  (forall v, In v (FOR_LVL g l) -> isInactive g l v = false -> t v = t' v) ->
  cgSum t = cgSum t'.
Proof.
  intros H. unfold cgSum. apply fold_left_ext_in. intros a v Hv.
  destruct (isInactive g l v) eqn:E; [reflexivity|]. rewrite (H v Hv E). reflexivity.
Qed.

(** The first loop of an iteration. *)
Lemma cg_applyA_spec st :
  zlength (cg_z st) = cgN ->
  zlength (fst (cg_applyA l g st)) = cgN /\
  (forall v, In v (FOR_LVL g l) ->
     zget R0 (fst (cg_applyA l g st)) v =
     if isInactive g l v then zget R0 (cg_z st) v else cgRow (cg_p st) v) /\
  snd (cg_applyA l g st) =
    cgSum (fun v => Rmul (zget R0 (cg_p st) v) (cgRow (cg_p st) v)).
Proof.
  intros Hz. unfold cg_applyA.
  match goal with |- context [fold_left ?f _ _] => set (step := f) end.
  destruct (fold_cells_acc (fun (s : list Real * Real) v => zget R0 (fst s) v) snd
              (fun s => zlength (fst s) = cgN) (fun v => 0 <= v < cgN)
              (isInactive g l) (fun v _ => cgRow (cg_p st) v)
              (fun v _ a => Radd a (Rmul (zget R0 (cg_p st) v) (cgRow (cg_p st) v)))
              step)
    with (vs := FOR_LVL g l) (s := (cg_z st, R0)) as (H1 & H2 & H3).
  - intros [z ab] v Hs Hv. cbn [fst] in Hs. unfold step.
    destruct (isInactive g l v); cbn [fst]; [exact Hs|]. rewrite zlength_zset. exact Hs.
  - intros [z ab] v Hs Hv. cbn [fst] in *. unfold step.
    destruct (isInactive g l v); cbn [fst]; [reflexivity|].
    rewrite zget_zset_eq by lia. reflexivity.
  - intros [z ab] v j Hs Hv Hj. cbn [fst] in *. unfold step.
    destruct (isInactive g l v); cbn [fst]; [reflexivity|].
    apply zget_zset_ne. exact Hj.
  - intros [z ab] v Hs Hv. cbn [fst snd] in *. unfold step.
    destruct (isInactive g l v); cbn [fst snd]; [reflexivity|].
    rewrite zget_zset_eq by lia. reflexivity.
  - apply NoDup_FOR_LVL.
  - apply Forall_FOR_LVL.
  - exact Hz.
  - split; [exact H1|]. split; [|exact H3].
    intros v Hv. rewrite (H2 v). cbn [fst].
    destruct (in_dec Z.eq_dec v (FOR_LVL g l)); [reflexivity | contradiction].
Qed.

(** The second loop of an iteration. *)
Lemma cg_update_spec alpha st :
  cgFits st ->
  let st' := fst (cg_update l g alpha st) in
  cgFits st' /\ cg_p st' = cg_p st /\ cg_alphaTop st' = cg_alphaTop st /\
  (forall v, In v (FOR_LVL g l) ->
     zget R0 (cg_x st') v =
     if isInactive g l v then zget R0 (cg_x st) v
     else Radd (zget R0 (cg_x st) v) (Rmul alpha (zget R0 (cg_p st) v))) /\
  (forall v, In v (FOR_LVL g l) ->
     zget R0 (cg_r st') v =
     if isInactive g l v then zget R0 (cg_r st) v
     else Rsub (zget R0 (cg_r st) v) (Rmul alpha (zget R0 (cg_z st) v))) /\
  (forall v, In v (FOR_LVL g l) ->
     zget R0 (cg_z st') v =
     if isInactive g l v then zget R0 (cg_z st) v
     else Rdiv (zget R0 (cg_r st') v) (diagA g l v)) /\
  cg_residual st' = cgSum (fun v => Rmul (zget R0 (cg_r st') v) (zget R0 (cg_r st') v)) /\
  snd (cg_update l g alpha st) = cgTop st'.
Proof.
  intros (Fx & Fr & Fz & Fp). unfold cg_update.
  match goal with |- context [fold_left ?f _ ?i] => set (step := f); set (s0 := i) end.
  set (rd := fun (s : CGState * Real) v =>
               (zget R0 (cg_x (fst s)) v, zget R0 (cg_r (fst s)) v, zget R0 (cg_z (fst s)) v)).
  set (newr := fun c : Real * Real * Real => Rsub (snd (fst c)) (Rmul alpha (snd c))).
  set (G := fun v (c : Real * Real * Real) =>
              (Radd (fst (fst c)) (Rmul alpha (zget R0 (cg_p st) v)), newr c,
               Rdiv (newr c) (diagA g l v))).
  set (Inv := fun s : CGState * Real =>
                cgFits (fst s) /\ cg_p (fst s) = cg_p st /\
                cg_alphaTop (fst s) = cg_alphaTop st).
  assert (P1 : forall s v, Inv s -> 0 <= v < cgN -> Inv (step s v)).
  { intros [s a] v ((Hx & Hr & Hz & Hp) & HP & HT) Hv. cbn [fst] in *. unfold step.
    destruct (isInactive g l v); cbn [fst]; [repeat split; assumption|].
    unfold Inv, cgFits. cbn [fst cg_x cg_r cg_z cg_p cg_alphaTop].
    rewrite !zlength_zset. repeat split; assumption. }
  assert (P2 : forall s v, Inv s -> 0 <= v < cgN ->
                 rd (step s v) v = if isInactive g l v then rd s v else G v (rd s v)).
  { intros [s a] v ((Hx & Hr & Hz & Hp) & HP & HT) Hv. cbn [fst] in *. unfold step, rd.
    destruct (isInactive g l v); cbn [fst cg_x cg_r cg_z]; [reflexivity|].
    rewrite !zget_zset_eq by lia. unfold G, newr. cbn [fst snd]. rewrite HP. reflexivity. }
  assert (P3 : forall s v j, Inv s -> 0 <= v < cgN -> j <> v -> rd (step s v) j = rd s j).
  { intros [s a] v j _ Hv Hj. cbn [fst] in *. unfold step, rd.
    destruct (isInactive g l v); cbn [fst cg_x cg_r cg_z]; [reflexivity|].
    rewrite !zget_zset_ne by exact Hj. reflexivity. }
  assert (I0 : Inv s0).
  { unfold Inv, s0, cgFits. cbn [fst cg_x cg_r cg_z cg_p cg_alphaTop]. repeat split; assumption. }
  destruct (fold_cells_acc rd (fun s => cg_residual (fst s)) Inv (fun v => 0 <= v < cgN)
              (isInactive g l) G (fun v c a => Radd a (Rmul (newr c) (newr c))) step
              P1 P2 P3)
    with (vs := FOR_LVL g l) (s := s0) as (H1 & H2 & H3);
    [ | apply NoDup_FOR_LVL | apply Forall_FOR_LVL | exact I0 | ].
  { intros [s a] v ((Hx & Hr & Hz & Hp) & HP & HT) Hv. cbn [fst] in *. unfold step, rd.
    destruct (isInactive g l v); cbn [fst cg_residual]; [reflexivity|].
    rewrite !zget_zset_eq by lia. reflexivity. }
  destruct (fold_cells_acc rd snd Inv (fun v => 0 <= v < cgN)
              (isInactive g l) G
              (fun v c a => Radd a (Rmul (newr c) (Rdiv (newr c) (diagA g l v)))) step
              P1 P2 P3)
    with (vs := FOR_LVL g l) (s := s0) as (_ & _ & H4);
    [ | apply NoDup_FOR_LVL | apply Forall_FOR_LVL | exact I0 | ].
  { intros [s a] v ((Hx & Hr & Hz & Hp) & HP & HT) Hv. cbn [fst snd] in *. unfold step, rd.
    destruct (isInactive g l v); cbn [fst snd]; [reflexivity|].
    rewrite !zget_zset_eq by (rewrite ?zlength_zset; lia). reflexivity. }
  set (sf := fold_left step (FOR_LVL g l) s0) in *.
  assert (Hc : forall v, In v (FOR_LVL g l) ->
                 rd sf v = if isInactive g l v then rd s0 v else G v (rd s0 v)).
  { intros v Hv. rewrite (H2 v).
    destruct (in_dec Z.eq_dec v (FOR_LVL g l)); [reflexivity | contradiction]. }
  destruct H1 as (HF & HP & HT). cbv zeta.
  split; [exact HF|]. split; [exact HP|]. split; [exact HT|].
  assert (Cx : forall v, In v (FOR_LVL g l) ->
     zget R0 (cg_x (fst sf)) v =
     if isInactive g l v then zget R0 (cg_x st) v
     else Radd (zget R0 (cg_x st) v) (Rmul alpha (zget R0 (cg_p st) v))).
  { intros v Hv. pose proof (f_equal (fun c => fst (fst c)) (Hc v Hv)) as E.
    cbn beta in E. unfold rd in E at 1. cbn [fst] in E. rewrite E.
    destruct (isInactive g l v); reflexivity. }
  assert (Cr : forall v, In v (FOR_LVL g l) ->
     zget R0 (cg_r (fst sf)) v =
     if isInactive g l v then zget R0 (cg_r st) v
     else Rsub (zget R0 (cg_r st) v) (Rmul alpha (zget R0 (cg_z st) v))).
  { intros v Hv. pose proof (f_equal (fun c => snd (fst c)) (Hc v Hv)) as E.
    cbn beta in E. unfold rd in E at 1. cbn [fst snd] in E. rewrite E.
    destruct (isInactive g l v); reflexivity. }
  assert (Cz : forall v, In v (FOR_LVL g l) ->
     zget R0 (cg_z (fst sf)) v =
     if isInactive g l v then zget R0 (cg_z st) v
     else Rdiv (zget R0 (cg_r (fst sf)) v) (diagA g l v)).
  { intros v Hv. pose proof (f_equal snd (Hc v Hv)) as E.
    unfold rd in E at 1. cbn [snd] in E. rewrite E, (Cr v Hv).
    destruct (isInactive g l v); reflexivity. }
  split; [exact Cx|]. split; [exact Cr|]. split; [exact Cz|]. split.
  - rewrite H3. unfold cgSum. apply fold_left_ext_in. intros a v Hv.
    destruct (isInactive g l v) eqn:Ei; [reflexivity|].
    rewrite (Cr v Hv), Ei. reflexivity.
  - rewrite H4. unfold cgTop, cgSum. apply fold_left_ext_in. intros a v Hv.
    destruct (isInactive g l v) eqn:Ei; [reflexivity|].
    rewrite (Cz v Hv), (Cr v Hv), Ei. reflexivity.
Qed.

(** The last loop of an iteration: the new direction. *)
Lemma cg_direction_spec beta z p :
  zlength p = cgN ->
  let p' := fold_left (fun p v => zset p v (Radd (zget R0 z v) (Rmul beta (zget R0 p v))))
                      (FOR_LVL g l) p in
  zlength p' = cgN /\
  forall v, In v (FOR_LVL g l) ->
    zget R0 p' v = Radd (zget R0 z v) (Rmul beta (zget R0 p v)).
Proof.
  intros Hp. cbv zeta.
  match goal with |- context [fold_left ?f _ _] => set (step := f) end.
  destruct (fold_cells_acc (fun (s : list Real) v => zget R0 s v) (fun _ => tt)
              (fun s => zlength s = cgN) (fun v => 0 <= v < cgN)
              (fun _ => false) (fun v c => Radd (zget R0 z v) (Rmul beta c))
              (fun _ _ a => a) step)
    with (vs := FOR_LVL g l) (s := p) as (H1 & H2 & _).
  - intros s v Hs Hv. unfold step. rewrite zlength_zset. exact Hs.
  - intros s v Hs Hv. unfold step. rewrite zget_zset_eq by lia. reflexivity.
  - intros s v j Hs Hv Hj. unfold step. apply zget_zset_ne. exact Hj.
  - intros s v Hs Hv. reflexivity.
  - apply NoDup_FOR_LVL.
  - apply Forall_FOR_LVL.
  - exact Hp.
  - split; [exact H1|]. intros v Hv. rewrite (H2 v).
    destruct (in_dec Z.eq_dec v (FOR_LVL g l)); [reflexivity | contradiction].
Qed.

(** The sum that the initialisation loop builds is the residual of
    [calcResidual]. *)
Lemma cg_init_sum v :
  (let V := vecIdx g v l in
   let sum := getb g l v in
   if l =? 0 then
     let sum := stencil0 g fsub (zget [] (mx g) l) v V sum in
     Rsub sum (Rmul (getA g 0 (v * mStencilSize0 g + 0)) (zget R0 (zget [] (mx g) l) v))
   else stencilN g l false fsub (zget [] (mx g) l) v V sum) = residualAt l g v.
Proof.
  unfold residualAt. cbv zeta. destruct (Z.eqb_spec l 0) as [E|E]; [|reflexivity].
  rewrite E. reflexivity.
Qed.

(** The initialisation loop. *)
Lemma cg_init_spec :
  zlength (zget [] (mx g) l) = cgN -> zlength (zget [] (mr g) l) = cgN ->
  zlength (zget [] (mCGtmp1 g) l) = cgN -> zlength (zget [] (mCGtmp2 g) l) = cgN ->
  cgStart (fst (cg_init l g)) (Rsqrt (snd (cg_init l g))).
Proof.
  intros Fx Fr Fz Fp. unfold cg_init.
  match goal with |- context [fold_left ?f _ ?i] => set (step := f); set (s0 := i) end.
  set (rd := fun (s : CGState * Real) v =>
               (zget R0 (cg_r (fst s)) v, zget R0 (cg_z (fst s)) v, zget R0 (cg_p (fst s)) v)).
  set (res := residualAt l g).
  set (G := fun v (_ : Real * Real * Real) =>
              (res v, Rdiv (res v) (diagA g l v), Rdiv (res v) (diagA g l v))).
  set (Inv := fun s : CGState * Real =>
                cg_x (fst s) = zget [] (mx g) l /\ zlength (cg_r (fst s)) = cgN /\
                zlength (cg_z (fst s)) = cgN /\ zlength (cg_p (fst s)) = cgN).
  assert (P1 : forall s v, Inv s -> 0 <= v < cgN -> Inv (step s v)).
  { intros [s a] v (Hx & Hr & Hz & Hp) Hv. cbn [fst] in *. unfold step.
    destruct (isInactive g l v); cbn [fst]; [repeat split; assumption|].
    unfold Inv. cbn [fst cg_x cg_r cg_z cg_p].
    rewrite !zlength_zset. repeat split; assumption. }
  assert (P2 : forall s v, Inv s -> 0 <= v < cgN ->
                 rd (step s v) v = if isInactive g l v then rd s v else G v (rd s v)).
  { intros [s a] v (Hx & Hr & Hz & Hp) Hv. cbn [fst] in *. unfold step, rd.
    destruct (isInactive g l v); cbn [fst cg_r cg_z cg_p]; [reflexivity|].
    rewrite !zget_zset_eq by lia. rewrite Hx, cg_init_sum. reflexivity. }
  assert (P3 : forall s v j, Inv s -> 0 <= v < cgN -> j <> v -> rd (step s v) j = rd s j).
  { intros [s a] v j _ Hv Hj. cbn [fst] in *. unfold step, rd.
    destruct (isInactive g l v); cbn [fst cg_r cg_z cg_p]; [reflexivity|].
    rewrite !zget_zset_ne by exact Hj. reflexivity. }
  assert (I0 : Inv s0).
  { unfold Inv, s0. cbn [fst cg_x cg_r cg_z cg_p]. repeat split; assumption. }
  destruct (fold_cells_acc rd (fun s => cg_alphaTop (fst s)) Inv (fun v => 0 <= v < cgN)
              (isInactive g l) G
              (fun v _ a => Radd a (Rmul (res v) (Rdiv (res v) (diagA g l v)))) step
              P1 P2 P3)
    with (vs := FOR_LVL g l) (s := s0) as (H1 & H2 & H3);
    [ | apply NoDup_FOR_LVL | apply Forall_FOR_LVL | exact I0 | ].
  { intros [s a] v (Hx & Hr & Hz & Hp) Hv. cbn [fst] in *. unfold step.
    destruct (isInactive g l v); cbn [fst cg_alphaTop]; [reflexivity|].
    rewrite !zget_zset_eq by lia. rewrite Hx, cg_init_sum. reflexivity. }
  destruct (fold_cells_acc rd snd Inv (fun v => 0 <= v < cgN)
              (isInactive g l) G
              (fun v _ a => Radd a (Rmul (res v) (res v))) step
              P1 P2 P3)
    with (vs := FOR_LVL g l) (s := s0) as (_ & _ & H4);
    [ | apply NoDup_FOR_LVL | apply Forall_FOR_LVL | exact I0 | ].
  { intros [s a] v (Hx & Hr & Hz & Hp) Hv. cbn [fst snd] in *. unfold step.
    destruct (isInactive g l v); cbn [fst snd]; [reflexivity|].
    rewrite !zget_zset_eq by lia. rewrite Hx, cg_init_sum. reflexivity. }
  set (sf := fold_left step (FOR_LVL g l) s0) in *.
  assert (Hc : forall v, In v (FOR_LVL g l) ->
                 rd sf v = if isInactive g l v then rd s0 v else G v (rd s0 v)).
  { intros v Hv. rewrite (H2 v).
    destruct (in_dec Z.eq_dec v (FOR_LVL g l)); [reflexivity | contradiction]. }
  destruct H1 as (Hx & Hr & Hz & Hp).
  assert (Cr : forall v, In v (FOR_LVL g l) ->
     zget R0 (cg_r (fst sf)) v = if isInactive g l v then getr g l v else res v).
  { intros v Hv. pose proof (f_equal (fun c => fst (fst c)) (Hc v Hv)) as E.
    cbn beta in E. unfold rd in E at 1. cbn [fst] in E. rewrite E.
    destruct (isInactive g l v); reflexivity. }
  assert (Cz : forall v, In v (FOR_LVL g l) ->
     zget R0 (cg_z (fst sf)) v =
     if isInactive g l v then zget R0 (zget [] (mCGtmp1 g) l) v
     else Rdiv (res v) (diagA g l v)).
  { intros v Hv. pose proof (f_equal (fun c => snd (fst c)) (Hc v Hv)) as E.
    cbn beta in E. unfold rd in E at 1. cbn [fst snd] in E. rewrite E.
    destruct (isInactive g l v); reflexivity. }
  assert (Cp : forall v, In v (FOR_LVL g l) ->
     zget R0 (cg_p (fst sf)) v =
     if isInactive g l v then zget R0 (zget [] (mCGtmp2 g) l) v
     else Rdiv (res v) (diagA g l v)).
  { intros v Hv. pose proof (f_equal snd (Hc v Hv)) as E.
    unfold rd in E at 1. cbn [snd] in E. rewrite E.
    destruct (isInactive g l v); reflexivity. }
  constructor.
  - exact Hx.
  - exact Cr.
  - exact Cz.
  - exact Cp.
  - rewrite H3. unfold cgTop, cgSum. apply fold_left_ext_in. intros a v Hv.
    destruct (isInactive g l v) eqn:Ei; [reflexivity|].
    rewrite (Cz v Hv), (Cr v Hv), Ei. reflexivity.
  - unfold cgNorm. f_equal. rewrite H4. unfold cgSum. apply fold_left_ext_in.
    intros a v Hv. destruct (isInactive g l v) eqn:Ei; [reflexivity|].
    rewrite (Cr v Hv), Ei. reflexivity.
  - unfold cgFits. rewrite Hx. repeat split; assumption.
Qed.

(** One iteration of the loop. *)
Lemma cg_iter_step ir st :
  cgFits st ->
  cgStep ir st (fst (cg_iter l g ir st)) (snd (cg_iter l g ir st)).
Proof.
  intros (Fx & Fr & Fz & Fp). unfold cg_iter.
  destruct (cg_applyA_spec st Fz) as (A1 & A2 & A3).
  destruct (cg_applyA l g st) as [zA ab]. cbn [fst snd] in A1, A2, A3.
  cbn [cg_x cg_r cg_z cg_p cg_alphaTop cg_residual].
  set (st1 := mkCG (cg_x st) (cg_r st) zA (cg_p st) (cg_alphaTop st) (cg_residual st)).
  assert (Ealpha : Rdiv (cg_alphaTop st) ab = cgAlpha st) by (rewrite A3; reflexivity).
  rewrite Ealpha.
  assert (F1 : cgFits st1) by (unfold cgFits, st1; cbn; repeat split; assumption).
  destruct (cg_update_spec (cgAlpha st) st1 F1) as (U1 & U2 & U3 & Ux & Ur & Uz & Ures & Utop).
  destruct (cg_update l g (cgAlpha st) st1) as [st2 aTN]. cbn [fst snd] in *.
  unfold st1 in U2, U3, Ux, Ur, Uz. cbn [cg_x cg_r cg_z cg_p cg_alphaTop] in U2, U3, Ux, Ur, Uz.
  destruct U1 as (Lx & Lr & Lz & Lp).
  assert (Sr : forall v, In v (FOR_LVL g l) ->
     zget R0 (cg_r st2) v =
     if isInactive g l v then zget R0 (cg_r st) v
     else Rsub (zget R0 (cg_r st) v) (Rmul (cgAlpha st) (cgRow (cg_p st) v))).
  { intros v Hv. rewrite (Ur v Hv), (A2 v Hv). destruct (isInactive g l v); reflexivity. }
  assert (Sz : forall v, In v (FOR_LVL g l) ->
     zget R0 (cg_z st2) v =
     if isInactive g l v then zget R0 (cg_z st) v
     else Rdiv (zget R0 (cg_r st2) v) (diagA g l v)).
  { intros v Hv. rewrite (Uz v Hv), (A2 v Hv). destruct (isInactive g l v); reflexivity. }
  destruct (Rltb (Rdiv (Rsqrt (cg_residual st2)) ir) (mCoarsestLevelAccuracy g)) eqn:Et;
    cbn [fst snd].
  - constructor; cbn [cg_x cg_r cg_z cg_p cg_alphaTop cg_residual];
      try assumption.
    + unfold cgNorm. cbn [cg_r]. rewrite Ures. reflexivity.
    + unfold cgNorm. cbn [cg_r]. rewrite <- Ures, Et. reflexivity.
    + intros v Hv. rewrite U2. reflexivity.
    + unfold cgFits. cbn. repeat split; assumption.
  - destruct (cg_direction_spec (Rdiv aTN (cg_alphaTop st2)) (cg_z st2) (cg_p st2) Lp)
      as (D1 & D2).
    constructor; cbn [cg_x cg_r cg_z cg_p cg_alphaTop cg_residual];
      try assumption.
    + unfold cgNorm. cbn [cg_r]. rewrite Ures. reflexivity.
    + unfold cgNorm. cbn [cg_r]. rewrite <- Ures, Et. reflexivity.
    + intros v Hv. rewrite (D2 v Hv), Utop, U2, U3. reflexivity.
    + unfold cgFits. cbn [cg_x cg_r cg_z cg_p]. repeat split; assumption.
Qed.

End RecurrenceLevel.

Lemma cg_state_fits l g ir st0 :
  cgFits l g st0 -> forall i, cgFits l g (cg_state l g ir st0 i).
Proof.
  intros H0. induction i as [|i IH]; [exact H0|].
  change (cg_state l g ir st0 (S i))
    with (fst (cg_iter l g ir (cg_state l g ir st0 i))).
  apply (step_fits _ _ _ _ _ _ (cg_iter_step l g ir _ IH)).
Qed.

(** C7 (amended). [solveCG] is a total function, it has no error path.
    When the four vectors of the level hold one value per vertex, it starts
    from the solution array of the level, with the residual of
    [calcResidual], and runs [k + 1] iterations of the conjugate gradient
    recurrence when [k < maxIter = 10000] and [maxIter] ones otherwise:
    every iteration adds [alpha * p] to the iterate at the vertices that are
    not inactive; the first [k] iterations fail the test
    [sqrt(sum r*r) / initialResidual < mCoarsestLevelAccuracy] (an accuracy
    of [1E-8] in an object built by the constructor) and the iteration
    [k < maxIter] passes it and is the last one.  The warning is logged
    exactly when [k = maxIter], that is when no iteration passed the test.
    The solution and the residual arrays of the level receive the vectors
    of the last iteration that was run, whatever their quality. *)
Theorem solveCG_recurrence l g :
  zlength (zget [] (mx g) l) = zlength (zget [] (mb g) l) ->
  zlength (zget [] (mr g) l) = zlength (zget [] (mb g) l) ->
  zlength (zget [] (mCGtmp1 g) l) = zlength (zget [] (mb g) l) ->
  zlength (zget [] (mCGtmp2 g) l) = zlength (zget [] (mb g) l) ->
  exists (k : nat) (s : nat -> CGState) (ir : Real),
    cgStart l g (s O) ir /\
    Z.of_nat k <= maxIter /\ maxIter = 10000 /\
    (forall i, (i < k)%nat -> cgStep l g ir (s i) (s (S i)) false) /\
    (Z.of_nat k < maxIter -> cgStep l g ir (s k) (s (S k)) true) /\
    (let last := if Z.of_nat k <? maxIter then S k else k in
     mx (solveCG l g) = zset (mx g) l (cg_x (s last)) /\
     mr (solveCG l g) = zset (mr g) l (cg_r (s last)) /\
     debLog (solveCG l g) =
       (if Z.of_nat k =? maxIter then MsgCGMaxIter
        else MsgCGInfo (cg_residual (s last)) (Z.of_nat k)) :: debLog g) /\
    (forall gridSize, mCoarsestLevelAccuracy (newGridMg gridSize) = R1Em8).
Proof.
  intros Fx Fr Fz Fp.
  set (st0 := fst (cg_init l g)). set (ir := Rsqrt (snd (cg_init l g))).
  pose proof (cg_init_spec l g Fx Fr Fz Fp) as HS. fold st0 ir in HS.
  pose proof (cg_state_fits l g ir st0 (start_fits _ _ _ _ HS)) as HF.
  destruct (cg_loop_spec l g ir (Z.to_nat maxIter) 0 st0) as (n & Hn & Hi & Hk & Hlt & Heq).
  exists n, (cg_state l g ir st0), ir.
  assert (Hmax : Z.of_nat (Z.to_nat maxIter) = maxIter) by reflexivity.
  assert (Hstep : forall i, cgStep l g ir (cg_state l g ir st0 i)
                    (cg_state l g ir st0 (S i)) (cg_converged l g ir st0 i)).
  { intros i. apply (cg_iter_step l g ir _ (HF i)). }
  split; [exact HS|]. split; [lia|]. split; [reflexivity|].
  split; [intros i Hlti; rewrite <- (Hk i Hlti); apply Hstep|].
  split; [intros H; rewrite <- (proj1 (Hlt ltac:(lia))); apply Hstep|].
  split; [|intros gridSize; reflexivity].
  assert (Hsolve : solveCG l g =
    let r := cg_loop (Z.to_nat maxIter) l g ir 0 st0 in
    let g1 := with_mCGtmp2 (with_mCGtmp1 (with_mr (with_mx g (zset (mx g) l (cg_x (snd r))))
                (zset (mr g) l (cg_r (snd r)))) (zset (mCGtmp1 g) l (cg_z (snd r))))
                (zset (mCGtmp2 g) l (cg_p (snd r))) in
    if fst r =? maxIter then debMsg g1 MsgCGMaxIter
    else debMsg g1 (MsgCGInfo (cg_residual (snd r)) (fst r))).
  { unfold solveCG, st0, ir. destruct (cg_init l g) as [s0 i0]. cbn [fst snd].
    destruct (cg_loop _ _ _ _ _ _) as [it s1]. reflexivity. }
  assert (Hlast : snd (cg_loop (Z.to_nat maxIter) l g ir 0 st0) =
                  cg_state l g ir st0 (if Z.of_nat n <? maxIter then S n else n)).
  { destruct (Z.ltb_spec (Z.of_nat n) maxIter) as [Hl|Hl].
    - apply Hlt. lia.
    - rewrite Heq by lia. f_equal. lia. }
  cbv zeta. rewrite Hsolve. cbv zeta. rewrite Hi, Hlast, Z.add_0_l.
  destruct (Z.of_nat n =? maxIter); repeat split; reflexivity.
Qed.

End Recurrence.

(** A 3D grid of 2 x 2 x 2 vertices, a single level, with the seven point
    stencil of the Laplace operator and a right-hand side that is 1 at the
    first vertex and 0 elsewhere. *)
Definition size2 : Vec3i := mkVec 2 2 2.

Definition calls2 : list (@Call QcReal) :=
  [@CallSetA QcReal (repeat q6 8) (repeat qm1 8) (repeat qm1 8) (repeat qm1 8);
   @CallSetRhs QcReal [q1; q0; q0; q0; q0; q0; q0; q0]].

Definition grid2 : @GridMg QcReal :=
  Eval vm_compute in
    match runCalls calls2 (newGridMg size2) with
    | Ok g => g
    | _ => newGridMg size2
    end.

Lemma solveCG_recurrence_witness :
  runCalls calls2 (newGridMg size2) = Ok grid2 /\
  exists (k : nat) (s : nat -> @CGState QcReal) (ir : @Real QcReal),
    cgStart 0 grid2 (s O) ir /\
    Z.of_nat k <= maxIter /\ maxIter = 10000 /\
    (forall i, (i < k)%nat -> cgStep 0 grid2 ir (s i) (s (S i)) false) /\
    (Z.of_nat k < maxIter -> cgStep 0 grid2 ir (s k) (s (S k)) true) /\
    (let last := if Z.of_nat k <? maxIter then S k else k in
     mx (solveCG 0 grid2) = zset (mx grid2) 0 (cg_x (s last)) /\
     mr (solveCG 0 grid2) = zset (mr grid2) 0 (cg_r (s last)) /\
     debLog (solveCG 0 grid2) =
       (if Z.of_nat k =? maxIter then MsgCGMaxIter
        else MsgCGInfo (cg_residual (s last)) (Z.of_nat k)) :: debLog grid2) /\
    (forall gridSize, mCoarsestLevelAccuracy (@newGridMg QcReal gridSize) = R1Em8).
Proof.
  split; [vm_cast_no_check (eq_refl (Ok grid2))|].
  apply (@solveCG_recurrence QcReal 0 grid2); reflexivity.
Defined.

(* ================================================================== *)
(** * An instance of the arithmetic with the special values of IEEE 754 *)
(* ================================================================== *)

(** The values of IEEE 754 arithmetic, without rounding and without the
    sign of zero: the rationals, the two infinities and not-a-number. *)
Inductive XReal : Type :=
| XFin (q : Qcanon.Qc)
| XInf (negative : bool)
| XNaN.

Definition Qc_isNeg (q : Qcanon.Qc) : bool := Qc_ltb q q0.
Definition Qc_isZero (q : Qcanon.Qc) : bool := Qcanon.Qc_eq_bool q q0.

Definition Xopp (x : XReal) : XReal :=
  match x with
  | XFin q => XFin (Qcanon.Qcopp q)
  | XInf s => XInf (negb s)
  | XNaN => XNaN
  end.

Definition Xadd (x y : XReal) : XReal :=
  match x, y with
  | XNaN, _ | _, XNaN => XNaN
  | XInf a, XInf b => if Bool.eqb a b then XInf a else XNaN
  | XInf a, XFin _ => XInf a
  | XFin _, XInf b => XInf b
  | XFin p, XFin q => XFin (Qcanon.Qcplus p q)
  end.

Definition Xmul (x y : XReal) : XReal :=
  match x, y with
  | XNaN, _ | _, XNaN => XNaN
  | XInf a, XInf b => XInf (xorb a b)
  | XInf a, XFin q => if Qc_isZero q then XNaN else XInf (xorb a (Qc_isNeg q))
  | XFin p, XInf b => if Qc_isZero p then XNaN else XInf (xorb (Qc_isNeg p) b)
  | XFin p, XFin q => XFin (Qcanon.Qcmult p q)
  end.

Definition Xdiv (x y : XReal) : XReal :=
  match x, y with
  | XNaN, _ | _, XNaN => XNaN
  | XInf _, XInf _ => XNaN
  | XInf a, XFin q => XInf (xorb a (Qc_isNeg q))
  | XFin _, XInf _ => XFin q0
  | XFin p, XFin q =>
      if Qc_isZero q then (if Qc_isZero p then XNaN else XInf (Qc_isNeg p))
      else XFin (Qcanon.Qcdiv p q)
  end.

Definition Xabs (x : XReal) : XReal :=
  match x with
  | XFin q => XFin (Qcabs.Qcabs q)
  | XInf _ => XInf false
  | XNaN => XNaN
  end.

(** Every comparison with not-a-number is false. *)
Definition Xltb (x y : XReal) : bool :=
  match x, y with
  | XNaN, _ | _, XNaN => false
  | XInf a, XInf b => a && negb b
  | XInf a, XFin _ => a
  | XFin _, XInf b => negb b
  | XFin p, XFin q => Qc_ltb p q
  end.

Definition Xeqb (x y : XReal) : bool :=
  match x, y with
  | XFin p, XFin q => Qcanon.Qc_eq_bool p q
  | XInf a, XInf b => Bool.eqb a b
  | _, _ => false
  end.

Definition Xsqrt (x : XReal) : XReal :=
  match x with
  | XFin q => if Qc_isNeg q then XNaN else XFin (Qc_sqrt q)
  | XInf false => XInf false
  | XInf true => XNaN
  | XNaN => XNaN
  end.

Definition XRealOps : RealOps := {|
  Real := XReal;
  RofZ := fun z => XFin (Qcanon.Q2Qc (inject_Z z));
  R1Em6 := XFin (Qcanon.Q2Qc (Qmake 1 1000000));
  R1Em8 := XFin (Qcanon.Q2Qc (Qmake 1 100000000));
  Radd := Xadd;
  Rsub := fun x y => Xadd x (Xopp y);
  Rmul := Xmul;
  Rdiv := Xdiv;
  Rabs := Xabs;
  Rmax := fun x y => if Xltb x y then y else x;
  Rsqrt := Xsqrt;
  Reqb := Xeqb;
  Rltb := Xltb
|}.

(** A 3D grid of 1 x 1 x 2 vertices, a single level, with the diagonal
    coefficients 6, the other coefficients -1 and the right-hand side 0:
    the start iterate 0 of a cycle solves the system exactly. *)
Definition sizeX : Vec3i := mkVec 1 1 2.

Definition callsX : list (@Call XRealOps) :=
  [@CallSetA XRealOps [XFin q6; XFin q6] [XFin qm1; XFin qm1]
                      [XFin qm1; XFin qm1] [XFin qm1; XFin qm1];
   @CallSetRhs XRealOps [XFin q0; XFin q0]].

Definition gridX : @GridMg XRealOps :=
  Eval vm_compute in
    match runCalls callsX (newGridMg sizeX) with
    | Ok g => g
    | _ => newGridMg sizeX
    end.

(** The entries of the grid that a cycle returns, or not-a-number if it
    fails. *)
Definition cycleX (v : Z) : XReal :=
  match @doVCycle XRealOps [XFin q0; XFin q0] None gridX with
  | Ok (_, dst, _) => zget XNaN dst v
  | _ => XNaN
  end.

(** C7 (counterexample). The solution array does not always hold the
    best iterate.  On the system above the start iterate is exact: its
    residual is zero at the two vertices, which are active.  The first
    iteration divides [alphaTop = 0] by [alphaBot = 0]; from then on every
    quantity is not-a-number, the test never succeeds, and after [maxIter]
    iterations the warning is logged and the solution array, and the grid
    that a cycle returns, hold not-a-number at both vertices. *)
Lemma solveCG_overwrites_exact_iterate :
  runCalls callsX (newGridMg sizeX) = Ok gridX /\
  numLevels gridX = 1 /\
  forallb (fun v => Xeqb (getx gridX 0 v) (XFin q0) &&
                    negb (isInactive gridX 0 v) &&
                    Xeqb (@residualAt XRealOps 0 gridX v) (XFin q0)) [0; 1] = true /\
  forallb (fun v => match getx (solveCG 0 gridX) 0 v with XNaN => true | _ => false end)
          [0; 1] = true /\
  debLog (solveCG 0 gridX) = MsgCGMaxIter :: debLog gridX /\
  forallb (fun v => match cycleX v with XNaN => true | _ => false end) [0; 1] = true.
Proof.
  split; [vm_cast_no_check (eq_refl (Ok gridX))|].
  split; [reflexivity|].
  split; [vm_compute; reflexivity|].
  split; [vm_compute; reflexivity|].
  split; [vm_compute; reflexivity|].
  vm_compute. reflexivity.
Qed.
